(** * Asset-liability bucketing, reconciliation and pipeline engine

    A shallow embedding of the bucketing / reconciliation / orchestration
    core of the ALM application (package [alm_app]) together with the
    properties stated for it.

    Conventions used throughout:
    - Python [int] is [Z]; [datetime.date] is a record of year, month, day;
    - a [Decimal] with a fixed number of decimal places is the [Z] number of
      its smallest units (cents for NUMERIC(20,2) columns); the scale of each
      quantity is stated where it is introduced;
    - a Python exception is a value of [exn], and a call that may raise
      returns a [result];
    - database relations are lists of records, a dict that is only looked
      up is a [gmap], a dict that is iterated is an insertion-ordered
      association list. *)

From Stdlib Require Import ZArith Lia String Ascii Bool List OrdersEx.
From stdpp Require Import base numbers list strings gmap sorting pretty.

Local Open Scope Z_scope.

(** ** Exceptions and results *)

Inductive exn : Type :=
  | ValueError
  | TypeError
  | RuntimeError
  | OverflowError
  | IndexError.

Inductive result (A : Type) : Type :=
  | Ok (a : A)
  | Raise (e : exn).
Arguments Ok {A} a.
Arguments Raise {A} e.

#[global] Instance result_ret : MRet result := fun _ a => Ok a.

#[global] Instance result_bind : MBind result := fun _ _ k r =>
  match r with
  | Ok a => k a
  | Raise e => Raise e
  end.
Arguments result_bind _ _ _ !_ /.
Arguments result_ret _ _ /.

(** ** Lists *)

Section list_filter.
Context {A : Type} (P : A → Prop) `{!∀ x, Decision (P x)}.

Lemma filter_all (l : list A) : Forall P l → filter P l = l.
Proof.
  induction 1 as [|x l Hx _ IH]; [done|].
  by rewrite filter_cons_True, IH.
Qed.

Lemma filter_none (l : list A) : Forall (λ x, ¬ P x) l → filter P l = [].
Proof.
  induction 1 as [|x l Hx _ IH]; [done|].
  by rewrite filter_cons_False.
Qed.
End list_filter.

Lemma filter_ext_in {A : Type} (P Q : A → Prop) `{!∀ x, Decision (P x)}
    `{!∀ x, Decision (Q x)} (l : list A) :
  (∀ x, x ∈ l → P x ↔ Q x) → filter P l = filter Q l.
Proof.
  induction l as [|x l IH]; intros Hext; [done|].
  rewrite !filter_cons.
  assert (filter P l = filter Q l) as ->
    by (apply IH; intros y Hy; apply Hext; by right).
  pose proof (Hext x ltac:(left)) as Hx.
  destruct (decide (P x)), (decide (Q x)); tauto.
Qed.

(** ** Calendar: [datetime.date], [timedelta] and [relativedelta] *)

Module Calendar.

Definition MINYEAR : Z := 1.
Definition MAXYEAR : Z := 9999.

Record date : Type := mkdate { year : Z; month : Z; day : Z }.

#[global] Instance date_eq_dec : EqDecision date.
Proof. solve_decision. Defined.

(** [_is_leap] *)
Definition is_leap (y : Z) : bool :=
  (y mod 4 =? 0) && (negb (y mod 100 =? 0) || (y mod 400 =? 0)).

(** [_DAYS_IN_MONTH], with February corrected as [_days_in_month] does. *)
Definition days_in_month (y m : Z) : Z :=
  if m =? 2 then (if is_leap y then 29 else 28)
  else if (m =? 4) || (m =? 6) || (m =? 9) || (m =? 11) then 30
  else 31.

(** [_DAYS_BEFORE_MONTH] for a common year. *)
Definition DAYS_BEFORE_MONTH (m : Z) : Z :=
  if m =? 1 then 0 else if m =? 2 then 31 else if m =? 3 then 59
  else if m =? 4 then 90 else if m =? 5 then 120 else if m =? 6 then 151
  else if m =? 7 then 181 else if m =? 8 then 212 else if m =? 9 then 243
  else if m =? 10 then 273 else if m =? 11 then 304 else 334.

(** [_DAYS_IN_MONTH] for a common year. *)
Definition DAYS_IN_MONTH (m : Z) : Z :=
  if m =? 2 then 28
  else if (m =? 4) || (m =? 6) || (m =? 9) || (m =? 11) then 30
  else 31.

Definition b2z (b : bool) : Z := if b then 1 else 0.

(** [_days_before_year] *)
Definition days_before_year (y : Z) : Z :=
  let y1 := y - 1 in y1 * 365 + y1 / 4 - y1 / 100 + y1 / 400.

(** [_days_before_month] *)
Definition days_before_month (y m : Z) : Z :=
  DAYS_BEFORE_MONTH m + b2z ((2 <? m) && is_leap y).

(** [date.toordinal], i.e. [_ymd2ord] *)
Definition toordinal (d : date) : Z :=
  days_before_year (year d) + days_before_month (year d) (month d) + day d.

Definition DI400Y : Z := 146097.
Definition DI100Y : Z := 36524.
Definition DI4Y : Z := 1461.
Definition MAXORDINAL : Z := 3652059.

(** [_ord2ymd] *)
Definition ord2ymd (n0 : Z) : date :=
  let n := n0 - 1 in
  let n400 := n / DI400Y in
  let n := n mod DI400Y in
  let y := n400 * 400 + 1 in
  let n100 := n / DI100Y in
  let n := n mod DI100Y in
  let n4 := n / DI4Y in
  let n := n mod DI4Y in
  let n1 := n / 365 in
  let n := n mod 365 in
  let y := y + n100 * 100 + n4 * 4 + n1 in
  if (n1 =? 4) || (n100 =? 4) then mkdate (y - 1) 12 31
  else
    let leapyear := (n1 =? 3) && (negb (n4 =? 24) || (n100 =? 3)) in
    let m := Z.shiftr (n + 50) 5 in
    let preceding := DAYS_BEFORE_MONTH m + b2z ((2 <? m) && leapyear) in
    if n <? preceding then
      let m' := m - 1 in
      let preceding' :=
        preceding - (DAYS_IN_MONTH m' + b2z ((m' =? 2) && leapyear)) in
      mkdate y m' (n - preceding' + 1)
    else mkdate y m (n - preceding + 1).

(** The dates a [datetime.date] object can hold. *)
Definition valid_date (d : date) : Prop :=
  MINYEAR ≤ year d ≤ MAXYEAR ∧ 1 ≤ month d ≤ 12
  ∧ 1 ≤ day d ≤ days_in_month (year d) (month d).

Definition valid_dateb (d : date) : bool :=
  (MINYEAR <=? year d) && (year d <=? MAXYEAR)
  && (1 <=? month d) && (month d <=? 12)
  && (1 <=? day d) && (day d <=? days_in_month (year d) (month d)).

(** Comparison of dates is the comparison of (year, month, day) tuples. *)
Definition date_ltb (a b : date) : bool :=
  (year a <? year b)
  || ((year a =? year b)
      && ((month a <? month b)
          || ((month a =? month b) && (day a <? day b)))).

Definition date_leb (a b : date) : bool := negb (date_ltb b a).

(** [date + timedelta(days=n)]: the constructor of [timedelta] refuses more
    than 999999999 days, and [date.__add__] refuses an ordinal outside
    [1, _MAXORDINAL]. *)
Definition add_days (d : date) (n : Z) : result date :=
  if (n <? -999999999) || (999999999 <? n) then Raise OverflowError
  else
    let o := toordinal d + n in
    if (0 <? o) && (o <=? MAXORDINAL) then Ok (ord2ymd o)
    else Raise OverflowError.
#[global] Arguments add_days : simpl never.

(** [relativedelta(years=.., months=..)] after [_fix]: whole years are
    carried out of the months. *)
Record relativedelta : Type := mkrd { rd_years : Z; rd_months : Z }.

Definition relativedelta_fix (years months : Z) : relativedelta :=
  if 11 <? Z.abs months then
    let s := Z.sgn months in
    mkrd (years + ((months * s) / 12) * s) (((months * s) mod 12) * s)
  else mkrd years months.

(** [dt + relativedelta]: shift year and month, clamp the day to the
    length of the target month, [dt.replace] (which refuses a year outside
    [MINYEAR, MAXYEAR]), then add [timedelta(days=0)]. *)
Definition add_relativedelta (d : date) (r : relativedelta) : result date :=
  let y := year d + rd_years r in
  let m := month d in
  let '(y, m) :=
    if rd_months r =? 0 then (y, m)
    else
      let m := m + rd_months r in
      if 12 <? m then (y + 1, m - 12)
      else if m <? 1 then (y - 1, m + 12)
      else (y, m) in
  let dd := Z.min (days_in_month y m) (day d) in
  if (MINYEAR <=? y) && (y <=? MAXYEAR) then add_days (mkdate y m dd) 0
  else Raise ValueError.
#[global] Arguments add_relativedelta : simpl never.

End Calendar.

(** ** Facts about the calendar *)

Module CalendarFacts.
Import Calendar.

Ltac dlia := Z.div_mod_to_equations; lia.

Lemma valid_dateb_true d : valid_dateb d = true → valid_date d.
Proof.
  unfold valid_dateb, valid_date.
  rewrite !andb_true_iff, !Z.leb_le. tauto.
Qed.

Lemma is_leap_cases y :
  is_leap y = true ∨ is_leap y = false.
Proof. destruct (is_leap y); auto. Qed.

Lemma days_before_year_succ y :
  days_before_year (y + 1) = days_before_year y + 365 + b2z (is_leap y).
Proof.
  unfold days_before_year, is_leap, b2z.
  replace (y + 1 - 1) with y by lia.
  destruct (Z.eqb_spec (y mod 4) 0), (Z.eqb_spec (y mod 100) 0),
    (Z.eqb_spec (y mod 400) 0); simpl; dlia.
Qed.

Lemma days_before_year_steps y (k : nat) :
  days_before_year y + 365 * Z.of_nat k ≤ days_before_year (y + Z.of_nat k).
Proof.
  induction k as [|k IH].
  - change (Z.of_nat 0) with 0. replace (y + 0) with y by lia. lia.
  - replace (y + Z.of_nat (S k)) with (y + Z.of_nat k + 1) by lia.
    rewrite days_before_year_succ. unfold b2z.
    destruct (is_leap _); lia.
Qed.

Lemma days_before_year_mono y y' :
  y ≤ y' → days_before_year y + 365 * (y' - y) ≤ days_before_year y'.
Proof.
  intros Hle. pose proof (days_before_year_steps y (Z.to_nat (y' - y))) as H.
  rewrite Z2Nat.id in H by lia.
  replace (y + (y' - y)) with y' in H by lia. done.
Qed.

Lemma month_cases m :
  1 ≤ m ≤ 12 →
  m = 1 ∨ m = 2 ∨ m = 3 ∨ m = 4 ∨ m = 5 ∨ m = 6 ∨ m = 7 ∨ m = 8
  ∨ m = 9 ∨ m = 10 ∨ m = 11 ∨ m = 12.
Proof. lia. Qed.

Ltac month_split m :=
  let Hc := fresh in
  pose proof (month_cases m ltac:(lia)) as Hc;
  repeat (destruct Hc as [Hc|Hc]; [subst m|]); [..|subst m].

Lemma days_in_month_bounds y m : 28 ≤ days_in_month y m ≤ 31.
Proof.
  unfold days_in_month.
  repeat match goal with |- context [if ?b then _ else _] => destruct b end;
    lia.
Qed.

(** The first day of the next month follows the last day of a month. *)
Lemma days_before_month_succ y m :
  1 ≤ m ≤ 11 →
  days_before_month y (m + 1) = days_before_month y m + days_in_month y m.
Proof.
  intros Hm. unfold days_before_month, days_in_month.
  month_split m; try lia; destruct (is_leap y); reflexivity.
Qed.

Lemma days_before_month_steps y m (k : nat) :
  1 ≤ m → m + 1 + Z.of_nat k ≤ 12 →
  days_before_month y m + days_in_month y m
  ≤ days_before_month y (m + 1 + Z.of_nat k).
Proof.
  intros H1. induction k as [|k IH]; intros H12.
  - change (Z.of_nat 0) with 0. replace (m + 1 + 0) with (m + 1) by lia.
    rewrite days_before_month_succ by lia. lia.
  - replace (m + 1 + Z.of_nat (S k)) with (m + 1 + Z.of_nat k + 1) by lia.
    rewrite days_before_month_succ by lia.
    pose proof (days_in_month_bounds y (m + 1 + Z.of_nat k)). lia.
Qed.

Lemma days_before_month_mono y m m' :
  1 ≤ m → m < m' → m' ≤ 12 →
  days_before_month y m + days_in_month y m ≤ days_before_month y m'.
Proof.
  intros H1 Hlt H12.
  pose proof (days_before_month_steps y m (Z.to_nat (m' - m - 1)) H1) as H.
  rewrite Z2Nat.id in H by lia.
  replace (m + 1 + (m' - m - 1)) with m' in H by lia. apply H. lia.
Qed.

Lemma days_before_month_nonneg y m : 1 ≤ m ≤ 12 → 0 ≤ days_before_month y m.
Proof.
  intros Hm. unfold days_before_month.
  month_split m; destruct (is_leap y); cbn; lia.
Qed.

(** A year holds 365 days, one more when it is a leap year. *)
Lemma year_length y m :
  1 ≤ m ≤ 12 →
  days_before_month y m + days_in_month y m ≤ 365 + b2z (is_leap y).
Proof.
  intros Hm. unfold days_before_month, days_in_month.
  month_split m; destruct (is_leap y); cbn; lia.
Qed.

Lemma date_ltb_spec a b :
  date_ltb a b = true ↔
  year a < year b ∨ (year a = year b ∧
    (month a < month b ∨ (month a = month b ∧ day a < day b))).
Proof.
  unfold date_ltb.
  rewrite !orb_true_iff, !andb_true_iff, !orb_true_iff, !andb_true_iff.
  rewrite !Z.ltb_lt, !Z.eqb_eq. tauto.
Qed.

(** [toordinal] is strictly increasing for the tuple order on dates. *)
Lemma toordinal_lt a b :
  valid_date a → valid_date b → date_ltb a b = true →
  toordinal a < toordinal b.
Proof.
  intros (Hya & Hma & Hda) (Hyb & Hmb & Hdb) Hlt.
  apply date_ltb_spec in Hlt. unfold toordinal.
  destruct Hlt as [Hy|[Hy [Hm|[Hm Hd]]]].
  - pose proof (year_length (year a) (month a) Hma).
    pose proof (days_before_year_succ (year a)).
    pose proof (days_before_year_mono (year a + 1) (year b) ltac:(lia)).
    pose proof (days_before_month_nonneg (year b) (month b) Hmb).
    lia.
  - rewrite Hy in *.
    pose proof (days_before_month_mono (year b) (month a) (month b)
                  ltac:(lia) Hm ltac:(lia)).
    lia.
  - rewrite Hy, Hm in *. lia.
Qed.

Lemma date_ltb_total a b :
  date_ltb a b = true ∨ a = b ∨ date_ltb b a = true.
Proof.
  rewrite !date_ltb_spec. destruct a as [ya ma da], b as [yb mb db]; cbn.
  destruct (Z.lt_trichotomy ya yb) as [?|[?|?]]; [lia| |lia].
  destruct (Z.lt_trichotomy ma mb) as [?|[?|?]]; [lia| |lia].
  destruct (Z.lt_trichotomy da db) as [?|[?|?]]; [lia| |lia].
  right; left; congruence.
Qed.

Lemma toordinal_inj a b :
  valid_date a → valid_date b → toordinal a = toordinal b → a = b.
Proof.
  intros Ha Hb Heq.
  destruct (date_ltb_total a b) as [H|[H|H]]; [|done|].
  - pose proof (toordinal_lt a b Ha Hb H). lia.
  - pose proof (toordinal_lt b a Hb Ha H). lia.
Qed.

Lemma toordinal_le_iff a b :
  valid_date a → valid_date b →
  date_leb a b = true ↔ toordinal a ≤ toordinal b.
Proof.
  intros Ha Hb. unfold date_leb. rewrite negb_true_iff. split.
  - intros Hn. destruct (date_ltb_total a b) as [H|[H|H]].
    + pose proof (toordinal_lt a b Ha Hb H). lia.
    + subst. lia.
    + congruence.
  - intros Hle. destruct (date_ltb b a) eqn:H; [|done].
    pose proof (toordinal_lt b a Hb Ha H). lia.
Qed.

Lemma toordinal_lt_iff a b :
  valid_date a → valid_date b →
  date_ltb a b = true ↔ toordinal a < toordinal b.
Proof.
  intros Ha Hb. split; [by apply toordinal_lt|].
  intros Hlt. destruct (date_ltb_total a b) as [H|[H|H]]; [done| |].
  - subst. lia.
  - pose proof (toordinal_lt b a Hb Ha H). lia.
Qed.

(** *** [_ord2ymd] inverts [_ymd2ord] *)

(** Month and day of the zero-based day [n] of a year, the last part of
    [_ord2ymd]. *)
Definition month_day (n : Z) (leapyear : bool) : Z * Z :=
  let m := Z.shiftr (n + 50) 5 in
  let preceding := DAYS_BEFORE_MONTH m + b2z ((2 <? m) && leapyear) in
  if n <? preceding then
    let m' := m - 1 in
    let preceding' :=
      preceding - (DAYS_IN_MONTH m' + b2z ((m' =? 2) && leapyear)) in
    (m', n - preceding' + 1)
  else (m, n - preceding + 1).

Definition month_day_ok (leapyear : bool) (n : Z) : bool :=
  let '(m, d) := month_day n leapyear in
  (1 <=? m) && (m <=? 12) && (1 <=? d)
  && (d <=? DAYS_IN_MONTH m + b2z ((m =? 2) && leapyear))
  && (DAYS_BEFORE_MONTH m + b2z ((2 <? m) && leapyear) + d =? n + 1).

Lemma month_day_table leapyear :
  forallb (month_day_ok leapyear) (seqZ 0 365) = true.
Proof. destruct leapyear; vm_compute; reflexivity. Qed.

Lemma month_day_spec n leapyear :
  0 ≤ n < 365 →
  ∃ m d, month_day n leapyear = (m, d) ∧ 1 ≤ m ≤ 12 ∧ 1 ≤ d
    ∧ d ≤ DAYS_IN_MONTH m + b2z ((m =? 2) && leapyear)
    ∧ DAYS_BEFORE_MONTH m + b2z ((2 <? m) && leapyear) + d = n + 1.
Proof.
  intros Hn. pose proof (month_day_table leapyear) as Ht.
  rewrite forallb_forall in Ht.
  specialize (Ht n). unfold month_day_ok in Ht.
  destruct (month_day n leapyear) as [m d]. exists m, d.
  rewrite !andb_true_iff, !Z.leb_le, Z.eqb_eq in Ht.
  split; [done|].
  assert (In n (seqZ 0 365)) as Hin
    by (apply list_elem_of_In, elem_of_seqZ; lia).
  specialize (Ht Hin). tauto.
Qed.

Lemma days_before_year_decompose a b c d :
  0 ≤ b ≤ 3 → 0 ≤ c ≤ 24 → 0 ≤ d ≤ 3 →
  days_before_year (400 * a + 100 * b + 4 * c + d + 1)
  = DI400Y * a + DI100Y * b + DI4Y * c + 365 * d.
Proof.
  intros Hb Hc Hd. unfold days_before_year, DI400Y, DI100Y, DI4Y. cbv zeta.
  replace (400 * a + 100 * b + 4 * c + d + 1 - 1)
    with (400 * a + 100 * b + 4 * c + d) by lia.
  replace ((400 * a + 100 * b + 4 * c + d) / 4) with (100 * a + 25 * b + c)
    by dlia.
  replace ((400 * a + 100 * b + 4 * c + d) / 100) with (4 * a + b) by dlia.
  replace ((400 * a + 100 * b + 4 * c + d) / 400) with a by dlia.
  lia.
Qed.

Lemma is_leap_decompose a b c d :
  0 ≤ b ≤ 3 → 0 ≤ c ≤ 24 → 0 ≤ d ≤ 3 →
  is_leap (400 * a + 100 * b + 4 * c + d + 1)
  = (d =? 3) && (negb (c =? 24) || (b =? 3)).
Proof.
  intros Hb Hc Hd. unfold is_leap.
  set (y := 400 * a + 100 * b + 4 * c + d + 1).
  destruct (Z.eqb_spec (y mod 4) 0), (Z.eqb_spec (y mod 100) 0),
    (Z.eqb_spec (y mod 400) 0), (Z.eqb_spec d 3), (Z.eqb_spec c 24),
    (Z.eqb_spec b 3); subst y; cbn; try reflexivity; exfalso; dlia.
Qed.

Lemma days_in_month_leap y m :
  DAYS_IN_MONTH m + b2z ((m =? 2) && is_leap y) = days_in_month y m.
Proof.
  unfold DAYS_IN_MONTH, days_in_month.
  destruct (m =? 2), (is_leap y); cbn; lia.
Qed.

Lemma ord2ymd_month_day n0 :
  ord2ymd n0 =
  let n := n0 - 1 in
  let a := n / DI400Y in
  let r400 := n mod DI400Y in
  let b := r400 / DI100Y in
  let r100 := r400 mod DI100Y in
  let c := r100 / DI4Y in
  let r4 := r100 mod DI4Y in
  let d := r4 / 365 in
  let r1 := r4 mod 365 in
  let y := 400 * a + 100 * b + 4 * c + d + 1 in
  if (d =? 4) || (b =? 4) then mkdate (y - 1) 12 31
  else
    let md := month_day r1 ((d =? 3) && (negb (c =? 24) || (b =? 3))) in
    mkdate y md.1 md.2.
Proof.
  unfold ord2ymd, month_day. cbv zeta.
  repeat match goal with
         | |- context [if ?b then _ else _] => destruct b eqn:?
         end; cbn [fst snd]; f_equal; lia.
Qed.

Theorem ord2ymd_spec n :
  1 ≤ n ≤ MAXORDINAL →
  valid_date (ord2ymd n) ∧ toordinal (ord2ymd n) = n.
Proof.
  unfold MAXORDINAL. intros Hn. rewrite ord2ymd_month_day. cbv zeta.
  set (N := n - 1).
  remember (N / DI400Y) as a eqn:Ha.
  remember (N mod DI400Y) as r400 eqn:Hr400.
  remember (r400 / DI100Y) as b eqn:Hb.
  remember (r400 mod DI100Y) as r100 eqn:Hr100.
  remember (r100 / DI4Y) as c eqn:Hc.
  remember (r100 mod DI4Y) as r4 eqn:Hr4.
  remember (r4 / 365) as d eqn:Hd.
  remember (r4 mod 365) as r1 eqn:Hr1.
  assert (N = DI400Y * a + r400 ∧ 0 ≤ r400 < DI400Y) as [E1 B1]
    by (unfold DI400Y in *; subst a r400; dlia).
  assert (r400 = DI100Y * b + r100 ∧ 0 ≤ r100 < DI100Y) as [E2 B2]
    by (unfold DI100Y in *; subst b r100; clear E1; dlia).
  assert (r100 = DI4Y * c + r4 ∧ 0 ≤ r4 < DI4Y) as [E3 B3]
    by (unfold DI4Y in *; subst c r4; clear E1 E2; dlia).
  assert (r4 = 365 * d + r1 ∧ 0 ≤ r1 < 365) as [E4 B4]
    by (subst d r1; clear E1 E2 E3; dlia).
  clear Ha Hr400 Hb Hr100 Hc Hr4 Hd Hr1.
  unfold DI400Y, DI100Y, DI4Y in *.
  assert (0 ≤ a) by lia.
  assert (0 ≤ b ≤ 4) by lia.
  assert (0 ≤ c ≤ 24) by lia.
  assert (0 ≤ d ≤ 4) by lia.
  destruct (Z.eqb_spec d 4) as [Hd4|Hd4];
    [|destruct (Z.eqb_spec b 4) as [Hb4|Hb4]]; cbn [orb].
  - (* last day of a four-year cycle *)
    assert (c ≤ 23 ∨ b = 3) as Hcb by lia.
    replace (400 * a + 100 * b + 4 * c + d + 1 - 1)
      with (400 * a + 100 * b + 4 * c + 3 + 1) by lia.
    assert (b ≤ 3) by lia.
    unfold valid_date, toordinal, days_in_month, days_before_month,
      MINYEAR, MAXYEAR. cbn [year month day].
    rewrite days_before_year_decompose, is_leap_decompose by lia.
    unfold DI400Y, DI100Y, DI4Y.
    replace ((3 =? 3) && (negb (c =? 24) || (b =? 3))) with true
      by (destruct (Z.eqb_spec c 24), (Z.eqb_spec b 3); cbn; lia).
    cbn. lia.
  - (* last day of a 400-year cycle *)
    replace (400 * a + 100 * b + 4 * c + d + 1 - 1)
      with (400 * a + 100 * 3 + 4 * 24 + 3 + 1) by lia.
    unfold valid_date, toordinal, days_in_month, days_before_month,
      MINYEAR, MAXYEAR. cbn [year month day].
    rewrite days_before_year_decompose, is_leap_decompose by lia.
    unfold DI400Y, DI100Y, DI4Y. cbn. lia.
  - (* any other day *)
    set (leapyear := (d =? 3) && (negb (c =? 24) || (b =? 3))).
    destruct (month_day_spec r1 leapyear B4)
      as (m & dd & -> & Hm & Hd1 & Hd2 & Hsum).
    cbn [fst snd].
    set (y := 400 * a + 100 * b + 4 * c + d + 1) in *.
    assert (is_leap y = leapyear) as Hleap
      by (apply is_leap_decompose; lia).
    unfold valid_date, toordinal, days_before_month, MINYEAR, MAXYEAR.
    cbn [year month day].
    rewrite <- days_in_month_leap, Hleap.
    unfold y at 3. rewrite days_before_year_decompose by lia.
    unfold DI400Y, DI100Y, DI4Y. subst y. lia.
Qed.

Lemma fromordinal_toordinal d :
  valid_date d → 1 ≤ toordinal d ≤ MAXORDINAL → ord2ymd (toordinal d) = d.
Proof.
  intros Hd Hr. destruct (ord2ymd_spec _ Hr) as [Hv He].
  by apply toordinal_inj.
Qed.

Lemma toordinal_range d : valid_date d → 1 ≤ toordinal d ≤ MAXORDINAL.
Proof.
  intros (Hy & Hm & Hd). unfold MINYEAR, MAXYEAR, MAXORDINAL in *.
  unfold toordinal.
  pose proof (days_before_month_nonneg (year d) (month d) Hm).
  pose proof (year_length (year d) (month d) Hm).
  pose proof (days_before_year_succ (year d)).
  pose proof (days_before_year_mono 1 (year d) ltac:(lia)).
  pose proof (days_before_year_mono (year d + 1) 10000 ltac:(lia)).
  change (days_before_year 1) with 0 in *.
  change (days_before_year 10000) with 3652059 in *.
  lia.
Qed.

(** Adding [timedelta(0)] to a date returns the date. *)
Lemma add_days_0 d : valid_date d → add_days d 0 = Ok d.
Proof.
  intros Hd. unfold add_days. cbn [Z.ltb Z.compare orb].
  pose proof (toordinal_range d Hd) as Hr. rewrite Z.add_0_r.
  destruct (Z.ltb_spec 0 (toordinal d)); [|lia].
  destruct (Z.leb_spec (toordinal d) MAXORDINAL); [|lia].
  cbn. by rewrite fromordinal_toordinal.
Qed.

Lemma add_days_spec d n d' :
  valid_date d → add_days d n = Ok d' →
  valid_date d' ∧ toordinal d' = toordinal d + n.
Proof.
  unfold add_days. intros Hd.
  destruct (_ || _); [done|].
  destruct (Z.ltb_spec 0 (toordinal d + n)); [|done].
  destruct (Z.leb_spec (toordinal d + n) MAXORDINAL); [|done].
  cbn. intros [= <-]. apply ord2ymd_spec. lia.
Qed.

Lemma relativedelta_fix_nonneg years months :
  0 ≤ years → 0 ≤ months →
  0 ≤ rd_years (relativedelta_fix years months)
  ∧ 0 ≤ rd_months (relativedelta_fix years months) ≤ 11.
Proof.
  intros Hy Hm. unfold relativedelta_fix.
  destruct (Z.ltb_spec 11 (Z.abs months)); cbn [rd_years rd_months].
  - assert (Z.sgn months = 1) as -> by lia.
    rewrite !Z.mul_1_r. dlia.
  - lia.
Qed.

Lemma date_leb_spec a b :
  date_leb a b = true ↔
  year a < year b ∨ (year a = year b ∧
    (month a < month b ∨ (month a = month b ∧ day a ≤ day b))).
Proof.
  unfold date_leb. rewrite negb_true_iff, <- not_true_iff_false.
  rewrite date_ltb_spec. lia.
Qed.

(** A delta of whole, non-negative months and years never moves a date
    backwards. *)
Lemma add_relativedelta_spec d r d' :
  valid_date d → 0 ≤ rd_years r → 0 ≤ rd_months r ≤ 11 →
  add_relativedelta d r = Ok d' →
  valid_date d' ∧ date_leb d d' = true.
Proof.
  intros (Hy & Hm & Hd) Hry Hrm. unfold add_relativedelta.
  set (ym := if rd_months r =? 0 then _ else _).
  assert (1 ≤ ym.2 ≤ 12 ∧
          (year d < ym.1 ∨ (year d = ym.1 ∧
             (month d < ym.2 ∨ (month d = ym.2 ∧ rd_months r = 0)))))
    as [Hm' Hord].
  { subst ym. destruct (Z.eqb_spec (rd_months r) 0); cbn [fst snd]; [lia|].
    destruct (Z.ltb_spec 12 (month d + rd_months r)); cbn [fst snd]; [lia|].
    destruct (Z.ltb_spec (month d + rd_months r) 1); cbn [fst snd]; lia. }
  destruct ym as [y m]. cbn [fst snd] in *.
  destruct (Z.leb_spec MINYEAR y); [|done].
  destruct (Z.leb_spec y MAXYEAR); [|done]. cbn [andb].
  set (nd := mkdate y m (Z.min (days_in_month y m) (day d))).
  assert (valid_date nd) as Hnd.
  { unfold valid_date, nd. cbn [year month day].
    pose proof (days_in_month_bounds y m). lia. }
  rewrite add_days_0 by done. intros [= <-]. split; [done|].
  apply date_leb_spec. unfold nd. cbn [year month day].
  destruct Hord as [?|[Ey [?|[Em _]]]]; [lia|lia|].
  rewrite Ey, Em in Hd. lia.
Qed.

(** *** How far a delta can move a date *)

Lemma relativedelta_fix_months years months :
  0 ≤ months →
  12 * rd_years (relativedelta_fix years months)
  + rd_months (relativedelta_fix years months) = 12 * years + months.
Proof.
  intros Hm. unfold relativedelta_fix.
  destruct (Z.ltb_spec 11 (Z.abs months)); cbn [rd_years rd_months]; [|lia].
  assert (Z.sgn months = 1) as -> by lia.
  rewrite !Z.mul_1_r. dlia.
Qed.

(** The ordinal of the day before the first day of the month number
    [k = 12 * year + (month - 1)]. *)
Definition month_start (k : Z) : Z :=
  days_before_year (k / 12) + days_before_month (k / 12) (k mod 12 + 1).

Lemma month_start_index y m :
  1 ≤ m ≤ 12 →
  month_start (12 * y + (m - 1)) = days_before_year y + days_before_month y m.
Proof.
  intros Hm. unfold month_start.
  replace ((12 * y + (m - 1)) / 12) with y by dlia.
  replace ((12 * y + (m - 1)) mod 12 + 1) with m by dlia. done.
Qed.

Lemma month_start_succ k :
  month_start (k + 1) = month_start k + days_in_month (k / 12) (k mod 12 + 1).
Proof.
  unfold month_start.
  destruct (Z.eq_dec (k mod 12) 11) as [E|E].
  - replace ((k + 1) / 12) with (k / 12 + 1) by dlia.
    replace ((k + 1) mod 12) with 0 by dlia.
    rewrite E, days_before_year_succ.
    change (0 + 1) with 1. change (11 + 1) with 12.
    unfold days_before_month, days_in_month.
    change (DAYS_BEFORE_MONTH 1) with 0. change (DAYS_BEFORE_MONTH 12) with 334.
    change (2 <? 1) with false. change (2 <? 12) with true.
    change (12 =? 2) with false. cbv iota.
    change ((12 =? 4) || (12 =? 6) || (12 =? 9) || (12 =? 11)) with false.
    destruct (is_leap (k / 12)), (is_leap (k / 12 + 1)); cbn; lia.
  - replace ((k + 1) / 12) with (k / 12) by dlia.
    replace ((k + 1) mod 12 + 1) with (k mod 12 + 1 + 1) by dlia.
    rewrite days_before_month_succ by dlia. lia.
Qed.

Lemma month_start_bound k (n : nat) :
  month_start (k + Z.of_nat n) ≤ month_start k + 31 * Z.of_nat n.
Proof.
  induction n as [|n IH].
  - change (Z.of_nat 0) with 0. replace (k + 0) with k by lia. lia.
  - replace (k + Z.of_nat (S n)) with (k + Z.of_nat n + 1) by lia.
    rewrite month_start_succ.
    pose proof (days_in_month_bounds ((k + Z.of_nat n) / 12)
                  ((k + Z.of_nat n) mod 12 + 1)). lia.
Qed.

Lemma add_days_ok d n :
  valid_date d → 0 ≤ n → toordinal d + n ≤ MAXORDINAL →
  ∃ d', add_days d n = Ok d' ∧ toordinal d' = toordinal d + n.
Proof.
  intros Hd Hn Hmax. pose proof (toordinal_range d Hd) as Hr.
  unfold MAXORDINAL in *. unfold add_days.
  destruct (Z.ltb_spec n (-999999999)); [lia|].
  destruct (Z.ltb_spec 999999999 n); [lia|]. cbn [orb].
  destruct (Z.ltb_spec 0 (toordinal d + n)); [|lia].
  destruct (Z.leb_spec (toordinal d + n) MAXORDINAL);
    [|unfold MAXORDINAL in *; lia].
  cbn [andb]. eexists. split; [done|].
  apply ord2ymd_spec. unfold MAXORDINAL in *. lia.
Qed.

(** A delta of [12 * years + months] months moves a date forward by at most
    31 days per month, and is defined when that many days fit before the
    last date. *)
Lemma add_relativedelta_ok d r :
  valid_date d → 0 ≤ rd_years r → 0 ≤ rd_months r ≤ 11 →
  toordinal d + 31 * (12 * rd_years r + rd_months r) ≤ MAXORDINAL →
  ∃ d', add_relativedelta d r = Ok d'
        ∧ toordinal d'
          ≤ toordinal d + 31 * (12 * rd_years r + rd_months r).
Proof.
  intros Hv Hry Hrm Hmax. pose proof Hv as (Hy & Hm & Hd).
  unfold add_relativedelta.
  set (ym := if rd_months r =? 0 then _ else _).
  set (M := 12 * rd_years r + rd_months r) in *.
  assert (1 ≤ ym.2 ≤ 12
          ∧ 12 * ym.1 + (ym.2 - 1)
            = 12 * year d + (month d - 1) + M ∧ year d ≤ ym.1)
    as (Hm' & Hidx & Hy').
  { subst ym M.
    destruct (Z.eqb_spec (rd_months r) 0); cbn [fst snd]; [lia|].
    destruct (Z.ltb_spec 12 (month d + rd_months r)); cbn [fst snd]; [lia|].
    destruct (Z.ltb_spec (month d + rd_months r) 1); cbn [fst snd]; lia. }
  destruct ym as [y m]. cbn [fst snd] in *.
  set (nd := mkdate y m (Z.min (days_in_month y m) (day d))).
  assert (toordinal nd ≤ toordinal d + 31 * M) as Hord.
  { unfold toordinal, nd. cbn [year month day].
    rewrite <- (month_start_index y m), <- (month_start_index (year d) (month d))
      by done.
    rewrite Hidx.
    pose proof (month_start_bound (12 * year d + (month d - 1)) (Z.to_nat M))
      as Hb.
    rewrite Z2Nat.id in Hb by lia. lia. }
  assert (y ≤ MAXYEAR) as Hymax.
  { unfold MAXYEAR. destruct (Z_le_gt_dec y 9999) as [?|Hgt]; [done|].
    exfalso. unfold toordinal, nd in Hord, Hmax. cbn [year month day] in Hord.
    pose proof (days_before_year_mono 10000 y ltac:(lia)) as Hmono.
    change (days_before_year 10000) with 3652059 in Hmono.
    pose proof (days_before_month_nonneg y m Hm').
    pose proof (days_in_month_bounds y m).
    unfold MAXORDINAL in *. lia. }
  unfold MINYEAR in *.
  destruct (Z.leb_spec 1 y); [|lia].
  destruct (Z.leb_spec y MAXYEAR); [|lia]. cbn [andb].
  assert (valid_date nd) as Hnd.
  { unfold valid_date, nd, MINYEAR. cbn [year month day].
    pose proof (days_in_month_bounds y m). lia. }
  rewrite add_days_0 by done. by exists nd.
Qed.

End CalendarFacts.

(** ** Bucket Definition Generator ([functions/cashflow_acc_aggr.py]) *)

Module BucketGen.
Import Calendar.

(** A row of the [TimeBuckets] configuration relation; only the fields the
    generator reads. *)
Record TimeBuckets : Type := mkTimeBuckets {
  serial_number : Z;
  frequency : Z;
  multiplier : string
}.

(** A row of [TimeBucketMaster]. *)
Record TimeBucketMaster : Type := mkTimeBucketMaster {
  process_name : string;
  bucket_number : Z;
  start_date : date;
  end_date : date;
  fic_mis_date : date
}.

#[global] Instance TimeBucketMaster_eq_dec : EqDecision TimeBucketMaster.
Proof. solve_decision. Defined.

(** The body of the loop of [_build_bucket_ranges] that computes [end]. *)
Definition bucket_end (start : date) (tb : TimeBuckets) : result date :=
  if String.eqb (multiplier tb) "Days" then add_days start (frequency tb)
  else if String.eqb (multiplier tb) "Months" then
    add_relativedelta start (relativedelta_fix 0 (frequency tb))
  else if String.eqb (multiplier tb) "Years" then
    add_relativedelta start (relativedelta_fix (frequency tb) 0)
  else Raise ValueError.
#[global] Arguments bucket_end : simpl never.

(** The loop of [_build_bucket_ranges]: [ranges] is the list built so far
    and [start] the running start date. *)
Fixpoint build_loop (tb_rows : list TimeBuckets) (start : date)
    (ranges : list (date * date)) : result (list (date * date)) :=
  match tb_rows with
  | [] => Ok ranges
  | tb :: rest =>
      e ← bucket_end start tb;
      start' ← add_days e 1;
      build_loop rest start' (ranges ++ [(start, e)])
  end.

Definition _build_bucket_ranges (anchor_date : date)
    (tb_rows : list TimeBuckets) : result (list (date * date)) :=
  build_loop tb_rows anchor_date [].

(** [_refresh_timebucket_master]: delete the rows of this process and
    snapshot date, then [bulk_create] one row per range, numbered from 1. *)
Definition _refresh_timebucket_master (process : string)
    (ranges : list (date * date)) (fic : date)
    (table : list TimeBucketMaster) : list TimeBucketMaster :=
  let kept :=
    filter (λ r, ¬ (process_name r = process ∧ fic_mis_date r = fic)) table in
  let objs :=
    imap (λ i '(s, e), mkTimeBucketMaster process (Z.of_nat i + 1) s e fic)
         ranges in
  kept ++ objs.

(** The units the generator knows. *)
Definition known_unit (tb : TimeBuckets) : Prop :=
  multiplier tb = "Days"%string ∨ multiplier tb = "Months"%string
  ∨ multiplier tb = "Years"%string.

(** The rows of the bucket master for one process and snapshot date. *)
Definition master_rows (process : string) (fic : date)
    (table : list TimeBucketMaster) : list TimeBucketMaster :=
  filter (λ r, process_name r = process ∧ fic_mis_date r = fic) table.

End BucketGen.

Module BucketGenFacts.
Import Calendar CalendarFacts BucketGen.

(** The ranges as a function of the running start date, without the
    accumulator of the loop. *)
Fixpoint ranges_from (tb_rows : list TimeBuckets) (start : date)
    : result (list (date * date)) :=
  match tb_rows with
  | [] => Ok []
  | tb :: rest =>
      e ← bucket_end start tb;
      start' ← add_days e 1;
      rs ← ranges_from rest start';
      Ok ((start, e) :: rs)
  end.

(** What the generator is asked to guarantee for an anchor date: the first
    range starts at the anchor, every range is in order, the next range
    starts the day after the previous one ends and so lies after it. *)
Definition contiguous_ordered (anchor : date)
    (ranges : list (date * date)) : Prop :=
  fst <$> ranges !! 0%nat = Some anchor
  ∧ (∀ (i : nat) s e, ranges !! i = Some (s, e) → date_leb s e = true)
  ∧ (∀ (i : nat) s e s' e',
       ranges !! i = Some (s, e) → ranges !! S i = Some (s', e') →
       add_days e 1 = Ok s' ∧ date_ltb e s' = true).

(** The rows [_refresh_timebucket_master] creates for a list of ranges. *)
Definition numbered_rows (process : string) (fic : date)
    (ranges : list (date * date)) : list TimeBucketMaster :=
  imap (λ i '(s, e), mkTimeBucketMaster process (Z.of_nat i + 1) s e fic)
       ranges.

Lemma build_loop_ranges_from tb_rows start acc :
  build_loop tb_rows start acc
  = (rs ← ranges_from tb_rows start; Ok (acc ++ rs)).
Proof.
  revert start acc. induction tb_rows as [|tb rest IH]; intros start acc.
  - cbn. by rewrite app_nil_r.
  - cbn. destruct (bucket_end start tb) as [e|]; cbn; [|done].
    destruct (add_days e 1) as [s'|]; cbn; [|done].
    rewrite IH. destruct (ranges_from rest s') as [rs|]; cbn; [|done].
    by rewrite <- app_assoc.
Qed.

Lemma build_bucket_ranges_from anchor tb_rows :
  _build_bucket_ranges anchor tb_rows = ranges_from tb_rows anchor.
Proof.
  unfold _build_bucket_ranges. rewrite build_loop_ranges_from.
  by destruct (ranges_from tb_rows anchor).
Qed.

Lemma bucket_end_spec start tb e :
  valid_date start → 0 ≤ frequency tb → bucket_end start tb = Ok e →
  valid_date e ∧ date_leb start e = true.
Proof.
  intros Hv Hf. unfold bucket_end.
  destruct (String.eqb _ "Days").
  { intros He. destruct (add_days_spec _ _ _ Hv He) as [Hve Ho].
    split; [done|]. apply toordinal_le_iff; [done..|lia]. }
  destruct (String.eqb _ "Months").
  { apply add_relativedelta_spec; [done|..];
      apply relativedelta_fix_nonneg; lia. }
  destruct (String.eqb _ "Years"); [|done].
  apply add_relativedelta_spec; [done|..];
    apply relativedelta_fix_nonneg; lia.
Qed.

Lemma ranges_from_length tb_rows start ranges :
  ranges_from tb_rows start = Ok ranges → length ranges = length tb_rows.
Proof.
  revert start ranges. induction tb_rows as [|tb rest IH]; intros start rs.
  - by intros [= <-].
  - cbn. destruct (bucket_end start tb) as [e|]; cbn; [|done].
    destruct (add_days e 1) as [s'|]; cbn; [|done].
    destruct (ranges_from rest s') as [rs'|] eqn:Hr; cbn; [|done].
    intros [= <-]. cbn. f_equal. by eapply IH.
Qed.

Lemma ranges_from_head tb_rows start ranges :
  tb_rows ≠ [] → ranges_from tb_rows start = Ok ranges →
  fst <$> ranges !! 0%nat = Some start.
Proof.
  destruct tb_rows as [|tb rest]; [done|]. intros _. cbn.
  destruct (bucket_end start tb) as [e|]; cbn; [|done].
  destruct (add_days e 1) as [s'|]; cbn; [|done].
  destruct (ranges_from rest s') as [rs'|]; cbn; [|done].
  by intros [= <-].
Qed.

Lemma ranges_from_ordered tb_rows start ranges :
  valid_date start → Forall (λ tb, 0 ≤ frequency tb) tb_rows →
  ranges_from tb_rows start = Ok ranges →
  ∀ (i : nat) s e, ranges !! i = Some (s, e) →
    valid_date s ∧ valid_date e ∧ date_leb s e = true.
Proof.
  revert start ranges. induction tb_rows as [|tb rest IH];
    intros start rs Hv Hf.
  - intros [= <-] i s e Hi. by rewrite lookup_nil in Hi.
  - apply Forall_cons in Hf as [Hf Hfr]. cbn.
    destruct (bucket_end start tb) as [e0|] eqn:He; cbn; [|done].
    destruct (add_days e0 1) as [s'|] eqn:Hs; cbn; [|done].
    destruct (ranges_from rest s') as [rs'|] eqn:Hr; cbn; [|done].
    intros [= <-] i s e Hi.
    destruct (bucket_end_spec _ _ _ Hv Hf He) as [Hve Hle].
    destruct i as [|i]; cbn in Hi.
    + by injection Hi as <- <-.
    + destruct (add_days_spec _ _ _ Hve Hs) as [Hvs _]. eauto.
Qed.

Lemma ranges_from_contiguous tb_rows start ranges :
  valid_date start → Forall (λ tb, 0 ≤ frequency tb) tb_rows →
  ranges_from tb_rows start = Ok ranges →
  ∀ (i : nat) s e s' e',
    ranges !! i = Some (s, e) → ranges !! S i = Some (s', e') →
    add_days e 1 = Ok s' ∧ date_ltb e s' = true.
Proof.
  revert start ranges. induction tb_rows as [|tb rest IH];
    intros start rs Hv Hf.
  - intros [= <-] i s e s' e' Hi. by rewrite lookup_nil in Hi.
  - apply Forall_cons in Hf as [Hf Hfr]. cbn.
    destruct (bucket_end start tb) as [e0|] eqn:He; cbn; [|done].
    destruct (add_days e0 1) as [s0|] eqn:Hs; cbn; [|done].
    destruct (ranges_from rest s0) as [rs'|] eqn:Hr; cbn; [|done].
    intros [= <-] i s e s' e' Hi Hi'.
    destruct (bucket_end_spec _ _ _ Hv Hf He) as [Hve Hle].
    destruct (add_days_spec _ _ _ Hve Hs) as [Hvs Ho].
    destruct i as [|i]; cbn in Hi, Hi'.
    + injection Hi as <- <-.
      assert (fst <$> rs' !! 0%nat = Some s0) as Hh.
      { eapply ranges_from_head; [|done]. intros ->.
        cbn in Hr. injection Hr as <-. done. }
      change (rs' !! 0%nat = Some (s', e')) in Hi'.
      rewrite Hi' in Hh. injection Hh as ->.
      split; [done|]. apply toordinal_lt_iff; [done..|lia].
    + eauto.
Qed.

Lemma master_rows_refresh process fic ranges table :
  master_rows process fic (_refresh_timebucket_master process ranges fic table)
  = numbered_rows process fic ranges.
Proof.
  unfold master_rows, _refresh_timebucket_master, numbered_rows.
  rewrite filter_app.
  rewrite filter_none; cbn [app].
  - apply filter_all, Forall_forall. intros r Hr.
    apply elem_of_lookup_imap in Hr as (i & [s e] & -> & _). done.
  - apply Forall_forall. intros r Hr.
    apply list_elem_of_filter in Hr as [Hr _]. tauto.
Qed.

(** The three bucket definitions of the end-to-end scenario. *)
Definition scenario_anchor : date := mkdate 2025 4 30.

Definition scenario_buckets : list TimeBuckets :=
  [ mkTimeBuckets 1 7 "Days"; mkTimeBuckets 2 1 "Months";
    mkTimeBuckets 3 5 "Years" ].

(** A bound on the number of days a bucket definition takes, the day to the
    next start included. *)
Definition span (tb : TimeBuckets) : Z :=
  if String.eqb (multiplier tb) "Days" then frequency tb + 1
  else if String.eqb (multiplier tb) "Months" then 31 * frequency tb + 1
  else 372 * frequency tb + 1.

Definition spans (tb_rows : list TimeBuckets) : Z :=
  foldr (λ tb acc, span tb + acc) 0 tb_rows.

Lemma bucket_end_ok start tb :
  valid_date start → 0 ≤ frequency tb → known_unit tb →
  toordinal start + span tb ≤ MAXORDINAL →
  ∃ e, bucket_end start tb = Ok e
       ∧ toordinal e + 1 ≤ toordinal start + span tb.
Proof.
  intros Hv Hf Hk. unfold span, bucket_end.
  destruct (String.eqb_spec (multiplier tb) "Days") as [_|Hd].
  { intros Hmax.
    destruct (add_days_ok start (frequency tb) Hv Hf ltac:(lia))
      as (e & -> & He). exists e. split; [done|lia]. }
  destruct (String.eqb_spec (multiplier tb) "Months") as [_|Hm].
  { intros Hmax.
    pose proof (relativedelta_fix_nonneg 0 (frequency tb) ltac:(lia) Hf)
      as [Hry Hrm].
    pose proof (relativedelta_fix_months 0 (frequency tb) Hf) as Htot.
    destruct (add_relativedelta_ok start _ Hv Hry Hrm ltac:(lia))
      as (e & -> & He). exists e. split; [done|lia]. }
  destruct (String.eqb_spec (multiplier tb) "Years") as [_|Hy].
  { intros Hmax.
    pose proof (relativedelta_fix_nonneg (frequency tb) 0 Hf ltac:(lia))
      as [Hry Hrm].
    pose proof (relativedelta_fix_months (frequency tb) 0 ltac:(lia)) as Htot.
    destruct (add_relativedelta_ok start _ Hv Hry Hrm ltac:(lia))
      as (e & -> & He). exists e. split; [done|lia]. }
  by destruct Hk as [?|[?|?]].
Qed.

(** The generator returns when the spans of the definitions fit between the
    anchor date and the last date of the calendar. *)
Lemma ranges_from_ok tb_rows start :
  valid_date start → Forall (λ tb, 0 ≤ frequency tb) tb_rows →
  Forall known_unit tb_rows →
  toordinal start + spans tb_rows ≤ MAXORDINAL →
  ∃ ranges, ranges_from tb_rows start = Ok ranges.
Proof.
  revert start. induction tb_rows as [|tb rest IH]; intros start Hv Hf Hk Hmax.
  - by exists [].
  - apply Forall_cons in Hf as [Hf Hfr]. apply Forall_cons in Hk as [Hk Hkr].
    cbn [spans foldr] in Hmax. fold (spans rest) in Hmax.
    assert (0 ≤ spans rest) as Hpos.
    { clear -Hfr. induction Hfr as [|tb' l Hf' _ IH']; [done|].
      cbn [spans foldr]. fold (spans l). unfold span.
      repeat destruct (String.eqb _ _); lia. }
    destruct (bucket_end_ok start tb Hv Hf Hk ltac:(lia)) as (e & He & Hoe).
    destruct (bucket_end_spec _ _ _ Hv Hf He) as [Hve _].
    destruct (add_days_ok e 1 Hve ltac:(lia) ltac:(lia)) as (s' & Hs & Hos).
    destruct (add_days_spec _ _ _ Hve Hs) as [Hvs _].
    destruct (IH s' Hvs Hfr Hkr ltac:(lia)) as [rs Hrs].
    exists ((start, e) :: rs). cbn [ranges_from].
    rewrite He. cbn. rewrite Hs. cbn. by rewrite Hrs.
Qed.

(** C3 (amended): for every non-empty ordered list of bucket definitions
    (frequency, unit in Days/Months/Years) whose frequencies are not
    negative and every anchor date, the generator returns whenever the spans
    of the definitions fit before the last date of the calendar, and the
    ranges it returns are ordered, contiguous and non-overlapping: there is
    one range per definition, the first range starts at the anchor date,
    every range ends on or after its start, and for every consecutive pair
    [end_date i + 1 day = start_date (i+1)], so that the next range lies
    strictly after the previous one; the rows of the bucket master for that
    process and snapshot date after [_refresh_timebucket_master] are exactly
    these ranges numbered 1, 2, 3, ... in order, whatever the table held
    before. *)
Theorem bucket_ranges_contiguous anchor tb_rows process table :
  valid_date anchor → tb_rows ≠ [] →
  Forall (λ tb, 0 ≤ frequency tb) tb_rows →
  Forall known_unit tb_rows →
  (toordinal anchor + spans tb_rows ≤ MAXORDINAL →
   ∃ ranges, _build_bucket_ranges anchor tb_rows = Ok ranges)
  ∧ ∀ ranges,
      _build_bucket_ranges anchor tb_rows = Ok ranges →
      length ranges = length tb_rows
      ∧ contiguous_ordered anchor ranges
      ∧ ∀ i : nat,
          master_rows process anchor
            (_refresh_timebucket_master process ranges anchor table) !! i
          = (λ '(s, e),
               mkTimeBucketMaster process (Z.of_nat i + 1) s e anchor)
              <$> ranges !! i.
Proof.
  intros Hv Hne Hf Hk. rewrite build_bucket_ranges_from. split.
  { intros Hmax. by apply ranges_from_ok. }
  intros ranges Hr.
  split; [by eapply ranges_from_length|]. split; [split; [|split]|].
  - by eapply ranges_from_head.
  - intros i s e Hi. by eapply ranges_from_ordered.
  - by eapply ranges_from_contiguous.
  - intros i. rewrite master_rows_refresh. unfold numbered_rows.
    by rewrite list_lookup_imap.
Qed.

Lemma bucket_ranges_contiguous_witness :
  (∃ ranges, _build_bucket_ranges scenario_anchor scenario_buckets = Ok ranges)
  ∧ contiguous_ordered scenario_anchor
      [ (mkdate 2025 4 30, mkdate 2025 5 7);
        (mkdate 2025 5 8, mkdate 2025 6 8);
        (mkdate 2025 6 9, mkdate 2030 6 9) ].
Proof.
  assert (valid_date scenario_anchor) as Hv by (by apply valid_dateb_true).
  assert (scenario_buckets ≠ []) as Hne by done.
  assert (Forall (λ tb, 0 ≤ frequency tb) scenario_buckets) as Hf
    by (repeat constructor; cbn; lia).
  assert (Forall known_unit scenario_buckets) as Hk
    by (repeat constructor; unfold known_unit; cbn; auto).
  destruct (bucket_ranges_contiguous scenario_anchor scenario_buckets
              "contractual" [] Hv Hne Hf Hk) as [Hex Hall].
  split.
  - apply Hex. vm_compute. discriminate.
  - refine (proj1 (proj2 (Hall _ _))). vm_compute; reflexivity.
Defined.

(** C3, as stated for every list of definitions, fails when a frequency is
    negative: the first range then ends before it starts. *)
Lemma bucket_ranges_negative_frequency :
  ∃ ranges,
    _build_bucket_ranges scenario_anchor
      [ mkTimeBuckets 1 (-10) "Days"; mkTimeBuckets 2 5 "Days" ] = Ok ranges
    ∧ ¬ contiguous_ordered scenario_anchor ranges.
Proof.
  eexists. split; [vm_compute; reflexivity|].
  intros (_ & Hord & _). specialize (Hord 0%nat _ _ eq_refl).
  vm_compute in Hord. discriminate.
Qed.

(** C4 (amended): for anchor date 2025-04-30 and the bucket definitions
    (7 Days), (1 Month), (5 Years) the generator yields the ranges
    [2025-04-30, 2025-05-07], [2025-05-08, 2025-06-08] and
    [2025-06-09, 2030-06-09]: each end date is the start date plus the
    frequency. *)
Theorem scenario_bucket_ranges :
  _build_bucket_ranges scenario_anchor scenario_buckets
  = Ok [ (mkdate 2025 4 30, mkdate 2025 5 7);
         (mkdate 2025 5 8, mkdate 2025 6 8);
         (mkdate 2025 6 9, mkdate 2030 6 9) ].
Proof. vm_compute; reflexivity. Qed.

(** C4 as stated: the generator does not yield the ranges ending on
    2025-06-07 and 2030-06-07. *)
Lemma scenario_bucket_ranges_not_as_stated :
  _build_bucket_ranges scenario_anchor scenario_buckets
  ≠ Ok [ (mkdate 2025 4 30, mkdate 2025 5 7);
         (mkdate 2025 5 8, mkdate 2025 6 7);
         (mkdate 2025 6 8, mkdate 2030 6 7) ].
Proof. vm_compute. discriminate. Qed.

End BucketGenFacts.


(** ** Aggregation Engine ([calculate_time_buckets_and_spread]) *)

Module Aggregation.
Import Calendar BucketGen.

(** A row of [Arranged_cashflows]; amounts are in cents (NUMERIC(20,2)). *)
Record Arranged_cashflows : Type := mkCashflow {
  cf_fic_mis_date : date;
  v_account_number : string;
  v_prod_code : string;
  v_ccy_code : string;
  v_loan_type : option string;
  v_party_type_code : option string;
  d_cashflow_date : date;
  n_total_cash_flow_amount : Z;
  n_total_principal_payment : Z;
  n_total_interest_payment : Z;
  record_count : Z
}.

Inductive financial_element : Type :=
  | el_total_cash_flow_amount
  | el_total_principal_payment
  | el_total_interest_payment.

Definition element_amount (el : financial_element) (cf : Arranged_cashflows)
    : Z :=
  match el with
  | el_total_cash_flow_amount => n_total_cash_flow_amount cf
  | el_total_principal_payment => n_total_principal_payment cf
  | el_total_interest_payment => n_total_interest_payment cf
  end.

(** The GROUP BY key: account, product, currency, loan type, party type. *)
Definition group_key : Type :=
  (string * string * string * option string * option string)%type.

Definition key_of (cf : Arranged_cashflows) : group_key :=
  (v_account_number cf, v_prod_code cf, v_ccy_code cf, v_loan_type cf,
   v_party_type_code cf).

(** A row of [Aggregated_Acc_CashflowByBuckets]: [agg_buckets] holds
    bucket_1, bucket_2, ... of the row, in cents. *)
Record Aggregated_Acc : Type := mkAggregated {
  agg_fic_mis_date : date;
  agg_process_name : string;
  agg_key : group_key;
  agg_element : financial_element;
  agg_buckets : list Z
}.

(** The relations the step reads and writes.  The deletes of the step are
    ORM deletes and cascade along the foreign keys.  An aggregate row is
    taken to point to a bucket-master row of its own snapshot date and
    process, as the step writes it (the key is not a field of
    [Aggregated_Acc]): the cascade then reaches no aggregate row that the
    step does not delete itself.  It also reaches the rows of
    [Aggregated_Prod_Cashflow_Base] and [Report_Contractual_Base] that
    point to a deleted row, of whatever date; these relations are not part
    of this record. *)
Record DB : Type := mkDB {
  arranged_cashflows : list Arranged_cashflows;
  time_buckets : list TimeBuckets;
  time_bucket_master : list TimeBucketMaster;
  aggregated : list Aggregated_Acc
}.

(** The values the step may be called with as [fic_mis_date]. *)
Inductive pyvalue : Type :=
  | PyStr (s : string)
  | PyDate (d : date)
  | PyOther.

(** Number of bucket_N fields of the [Aggregated_Acc_CashflowByBuckets]
    model. *)
Definition max_target_buckets : nat := 50.

Definition set_record_count (fic : date) (n : Z) (cf : Arranged_cashflows)
    : Arranged_cashflows :=
  if decide (cf_fic_mis_date cf = fic) then
    mkCashflow (cf_fic_mis_date cf) (v_account_number cf) (v_prod_code cf)
      (v_ccy_code cf) (v_loan_type cf) (v_party_type_code cf)
      (d_cashflow_date cf) (n_total_cash_flow_amount cf)
      (n_total_principal_payment cf) (n_total_interest_payment cf) n
  else cf.

(** [SUM(CASE WHEN d_cashflow_date >= s AND d_cashflow_date <= e
          THEN element ELSE 0 END)] over the rows of a group. *)
Definition bucket_sum (el : financial_element) (rows : list Arranged_cashflows)
    (range : date * date) : Z :=
  foldr (λ cf acc,
           (if date_leb range.1 (d_cashflow_date cf)
               && date_leb (d_cashflow_date cf) range.2
            then element_amount el cf else 0) + acc) 0 rows.

(** One INSERT ... SELECT ... GROUP BY for a financial element. *)
Definition aggregate_element (fic : date) (process : string)
    (ranges : list (date * date)) (el : financial_element)
    (cashflows : list Arranged_cashflows) : list Aggregated_Acc :=
  let eligible :=
    filter (λ cf, cf_fic_mis_date cf = fic ∧ record_count cf = 1) cashflows in
  let use_bucket_count := Nat.min (length ranges) max_target_buckets in
  (λ k,
     let group := filter (λ cf, key_of cf = k) eligible in
     mkAggregated fic process k el
       (bucket_sum el group <$> take use_bucket_count ranges))
  <$> remove_dups (key_of <$> eligible).

(** [order_by("serial_number")] *)
Definition by_serial_number (a b : TimeBuckets) : Prop :=
  serial_number a ≤ serial_number b.

#[global] Instance by_serial_number_dec : RelDecision by_serial_number.
Proof. intros a b. unfold by_serial_number. apply _. Defined.

Section step.
(** [datetime.strptime(s, "%Y-%m-%d").date()], which raises [ValueError]
    for a string that is not a date in that format. *)
Variable strptime : string → result date.

(** The two [isinstance] checks at the start of the step. *)
Definition coerce_date (v : pyvalue) : result date :=
  match v with
  | PyStr s => strptime s
  | PyDate d => Ok d
  | PyOther => Raise TypeError
  end.

(** The body of [calculate_time_buckets_and_spread]: the result and the
    database as the statements executed so far have left it.  The sums of
    step 3 are taken to fit the NUMERIC(20,2) columns of the aggregate;
    where one does not, the INSERT raises and the step is rolled back, so
    that a run that returns is a run in which they fit. *)
Definition spread_body (v : pyvalue) (db : DB) : result unit * DB :=
  match coerce_date v with
  | Raise e => (Raise e, db)
  | Ok fic =>
      let process := "contractual"%string in
      (* 1. reset, then flag the rows of the snapshot date *)
      let db :=
        mkDB (set_record_count fic 0 <$> arranged_cashflows db)
             (time_buckets db) (time_bucket_master db) (aggregated db) in
      let db :=
        mkDB (set_record_count fic 1 <$> arranged_cashflows db)
             (time_buckets db) (time_bucket_master db) (aggregated db) in
      (* 2. rebuild the bucket master *)
      let tb_meta :=
        merge_sort by_serial_number (time_buckets db) in
      match tb_meta with
      | [] => (Raise RuntimeError, db)
      | _ =>
          match _build_bucket_ranges fic tb_meta with
          | Raise e => (Raise e, db)
          | Ok bucket_ranges =>
              let db :=
                mkDB (arranged_cashflows db) (time_buckets db)
                     (_refresh_timebucket_master process bucket_ranges fic
                        (time_bucket_master db))
                     (aggregated db) in
              (* wipe the previous aggregation of that date and process *)
              let db :=
                mkDB (arranged_cashflows db) (time_buckets db)
                     (time_bucket_master db)
                     (filter (λ r, ¬ (agg_fic_mis_date r = fic
                                      ∧ agg_process_name r = process))
                             (aggregated db)) in
              (* 3. one grouping pass per financial element *)
              let db :=
                foldl (λ db el,
                         mkDB (arranged_cashflows db) (time_buckets db)
                              (time_bucket_master db)
                              (aggregated db
                               ++ aggregate_element fic process bucket_ranges
                                    el (arranged_cashflows db)))
                      db
                      [ el_total_cash_flow_amount; el_total_principal_payment;
                        el_total_interest_payment ] in
              (Ok (), db)
          end
      end
  end.

(** [@transaction.atomic]: an exception leaving the block rolls the database
    back to its state on entry. *)
Definition transaction_atomic {A : Type} (f : DB → result A * DB) (db : DB)
    : result A * DB :=
  match f db with
  | (Ok a, db') => (Ok a, db')
  | (Raise e, _) => (Raise e, db)
  end.

Definition calculate_time_buckets_and_spread (v : pyvalue) (db : DB)
    : result unit * DB :=
  transaction_atomic (spread_body v) db.

(** The three invalid configurations. *)
Definition invalid_configuration (v : pyvalue) (db : DB) : Prop :=
  (∃ e, coerce_date v = Raise e)
  ∨ time_buckets db = []
  ∨ Exists (λ tb, ¬ known_unit tb) (time_buckets db).

End step.
End Aggregation.

(** ** [datetime.strptime(s, "%Y-%m-%d").date()] on ASCII strings

    The format compiles to the regular expression
    [(\d\d\d\d)-(1[0-2]|0[1-9]|[1-9])-(3[01]|[12]\d|0[1-9]|[1-9]| [1-9])],
    which has to match the whole string, and the three numbers have to form a
    date. *)

Module Strptime.
Import Calendar.

Definition digit_val (c : ascii) : option Z :=
  let n := Z.of_N (N_of_ascii c) in
  if (48 <=? n) && (n <=? 57) then Some (n - 48) else None.

Definition parse_year (cs : list ascii) : option (Z * list ascii) :=
  match cs with
  | c1 :: c2 :: c3 :: c4 :: rest =>
      match digit_val c1, digit_val c2, digit_val c3, digit_val c4 with
      | Some d1, Some d2, Some d3, Some d4 =>
          Some (1000 * d1 + 100 * d2 + 10 * d3 + d4, rest)
      | _, _, _, _ => None
      end
  | _ => None
  end.

Definition parse_month (cs : list ascii) : option (Z * list ascii) :=
  match cs with
  | [] => None
  | c1 :: rest =>
      match digit_val c1 with
      | None => None
      | Some d1 =>
          let two :=
            match rest with
            | c2 :: rest' =>
                match digit_val c2 with
                | Some d2 =>
                    if (d1 =? 1) && (d2 <=? 2) then Some (10 + d2, rest')
                    else if (d1 =? 0) && (1 <=? d2) then Some (d2, rest')
                    else None
                | None => None
                end
            | [] => None
            end in
          match two with
          | Some r => Some r
          | None => if 1 <=? d1 then Some (d1, rest) else None
          end
      end
  end.

Definition parse_day (cs : list ascii) : option (Z * list ascii) :=
  match cs with
  | [] => None
  | c1 :: rest =>
      let next := match rest with
                  | c2 :: rest' => option_map (λ d, (d, rest')) (digit_val c2)
                  | [] => None
                  end in
      match digit_val c1, next with
      | Some d1, Some (d2, rest') =>
          if (d1 =? 3) && (d2 <=? 1) then Some (30 + d2, rest')
          else if (1 <=? d1) && (d1 <=? 2) then Some (10 * d1 + d2, rest')
          else if (d1 =? 0) && (1 <=? d2) then Some (d2, rest')
          else if 1 <=? d1 then Some (d1, rest)
          else None
      | Some d1, None => if 1 <=? d1 then Some (d1, rest) else None
      | None, Some (d2, rest') =>
          if Ascii.eqb c1 " " && (1 <=? d2) then Some (d2, rest') else None
      | None, None => None
      end
  end.

Definition expect_dash (cs : list ascii) : option (list ascii) :=
  match cs with
  | c :: rest => if Ascii.eqb c "-" then Some rest else None
  | [] => None
  end.

Definition strptime_ymd (s : string) : result date :=
  let parsed :=
    '(y, cs) ← parse_year (list_ascii_of_string s);
    cs ← expect_dash cs;
    '(m, cs) ← parse_month cs;
    cs ← expect_dash cs;
    '(d, cs) ← parse_day cs;
    match cs with
    | [] => Some (mkdate y m d)
    | _ => None
    end in
  match parsed with
  | Some d => if valid_dateb d then Ok d else Raise ValueError
  | None => Raise ValueError
  end.

End Strptime.

Module StrptimeExamples.
Import Calendar Strptime.

Example strptime_plain :
  strptime_ymd "2025-04-30" = Ok (mkdate 2025 4 30).
Proof. reflexivity. Qed.

Example strptime_unpadded :
  strptime_ymd "2025-4-3" = Ok (mkdate 2025 4 3).
Proof. reflexivity. Qed.

Example strptime_no_such_day :
  strptime_ymd "2025-02-30" = Raise ValueError.
Proof. reflexivity. Qed.

Example strptime_other_format :
  strptime_ymd "30/04/2025" = Raise ValueError.
Proof. reflexivity. Qed.

Example strptime_trailing :
  strptime_ymd "2025-04-305" = Raise ValueError.
Proof. reflexivity. Qed.

End StrptimeExamples.

Module AggregationFacts.
Import Calendar BucketGen BucketGenFacts Aggregation.

Lemma bucket_end_known_unit start tb e :
  bucket_end start tb = Ok e → known_unit tb.
Proof.
  unfold bucket_end, known_unit.
  destruct (String.eqb_spec (multiplier tb) "Days"); [tauto|].
  destruct (String.eqb_spec (multiplier tb) "Months"); [tauto|].
  destruct (String.eqb_spec (multiplier tb) "Years"); [tauto|done].
Qed.

Lemma ranges_from_known_units tb_rows start ranges :
  ranges_from tb_rows start = Ok ranges → Forall known_unit tb_rows.
Proof.
  revert start ranges. induction tb_rows as [|tb rest IH]; intros start rs.
  - constructor.
  - cbn. destruct (bucket_end start tb) as [e|] eqn:He; cbn; [|done].
    destruct (add_days e 1) as [s'|]; cbn; [|done].
    destruct (ranges_from rest s') as [rs'|] eqn:Hr; cbn; [|done].
    intros _. constructor; [by eapply bucket_end_known_unit|by eapply IH].
Qed.

Lemma build_bucket_ranges_unknown_unit anchor tb_rows :
  Exists (λ tb, ¬ known_unit tb) tb_rows →
  ∃ e, _build_bucket_ranges anchor tb_rows = Raise e.
Proof.
  intros Hex. rewrite build_bucket_ranges_from.
  destruct (ranges_from tb_rows anchor) as [rs|e] eqn:Hr; [|by exists e].
  apply ranges_from_known_units in Hr.
  apply Exists_exists in Hex as (tb & Hin & Hun).
  rewrite Forall_forall in Hr. by destruct (Hun (Hr tb Hin)).
Qed.

Lemma transaction_atomic_raise {A} (f : DB → result A * DB) db e :
  (f db).1 = Raise e → transaction_atomic f db = (Raise e, db).
Proof.
  unfold transaction_atomic. destruct (f db) as [[a|e'] db']; cbn; [done|].
  by intros [= ->].
Qed.

Section step.
Variable strptime : string → result date.

(** In each invalid configuration the body of the step ends in an
    exception. *)
Lemma spread_body_raises v db :
  invalid_configuration strptime v db →
  ∃ e, (spread_body strptime v db).1 = Raise e.
Proof.
  intros Hinv. unfold spread_body.
  destruct (coerce_date strptime v) as [fic|e] eqn:Hc; [|by exists e].
  cbv zeta. cbn [time_buckets].
  destruct Hinv as [[e He]|[Hnil|Hex]]; [congruence|..].
  - rewrite Hnil. by exists RuntimeError.
  - set (tb_meta := merge_sort by_serial_number (time_buckets db)).
    assert (Exists (λ tb, ¬ known_unit tb) tb_meta) as Hex'.
    { apply Exists_exists in Hex as (tb & Hin & Hun).
      apply Exists_exists. exists tb. split; [|done].
      unfold tb_meta. by rewrite merge_sort_Permutation. }
    destruct (build_bucket_ranges_unknown_unit fic tb_meta Hex') as [e He].
    rewrite He. destruct tb_meta; [by exists RuntimeError|by exists e].
Qed.

(** C9: given an invalid configuration -- a snapshot-date value that is
    neither a date nor a string in the format %Y-%m-%d, no bucket-definition
    rows, or a bucket definition whose unit is not Days, Months or Years --
    the aggregation step raises an exception and the database after the
    failure is the database before the step. *)
Theorem invalid_configuration_no_partial_writes v db :
  invalid_configuration strptime v db →
  ∃ e, calculate_time_buckets_and_spread strptime v db = (Raise e, db).
Proof.
  intros Hinv. destruct (spread_body_raises v db Hinv) as [e He].
  exists e. by apply transaction_atomic_raise.
Qed.

End step.

(** A database with one cash flow of the snapshot date and one bucket
    definition with a unit the generator does not know. *)
Definition db_unknown_unit : DB :=
  mkDB [ mkCashflow (mkdate 2025 4 30) "ACC1" "P1" "USD" None None
           (mkdate 2025 5 1) 100000 100000 0 7 ]
       [ mkTimeBuckets 1 7 "Days"; mkTimeBuckets 2 2 "Weeks" ]
       [] [].

Lemma invalid_configuration_no_partial_writes_witness :
  ∃ e, calculate_time_buckets_and_spread Strptime.strptime_ymd
         (PyStr "2025-04-30") db_unknown_unit = (Raise e, db_unknown_unit).
Proof.
  apply invalid_configuration_no_partial_writes.
  right; right. apply Exists_cons_tl, Exists_cons_hd.
  unfold known_unit; cbn. intros [H|[H|H]]; discriminate H.
Defined.

(** The rollback is what undoes the writes: in the same configuration the
    body has already flagged the cash flows when the generator raises. *)
Example spread_body_has_written :
  spread_body Strptime.strptime_ymd (PyStr "2025-04-30") db_unknown_unit
  = (Raise ValueError,
     mkDB [ mkCashflow (mkdate 2025 4 30) "ACC1" "P1" "USD" None None
              (mkdate 2025 5 1) 100000 100000 0 1 ]
          [ mkTimeBuckets 1 7 "Days"; mkTimeBuckets 2 2 "Weeks" ]
          [] []).
Proof. vm_compute; reflexivity. Qed.

(** A run with a valid configuration: the cash flow of 1000.00 dated
    2025-05-01 falls in the first range [2025-04-30, 2025-05-07]. *)
Example spread_scenario :
  (calculate_time_buckets_and_spread Strptime.strptime_ymd
     (PyStr "2025-04-30")
     (mkDB [ mkCashflow (mkdate 2025 4 30) "ACC1" "P1" "USD" None None
               (mkdate 2025 5 1) 100000 100000 0 0 ]
           scenario_buckets [] [])).2.(aggregated)
  = [ mkAggregated (mkdate 2025 4 30) "contractual"
        ("ACC1", "P1", "USD", None, None)%string el_total_cash_flow_amount
        [100000; 0; 0];
      mkAggregated (mkdate 2025 4 30) "contractual"
        ("ACC1", "P1", "USD", None, None)%string el_total_principal_payment
        [100000; 0; 0];
      mkAggregated (mkdate 2025 4 30) "contractual"
        ("ACC1", "P1", "USD", None, None)%string el_total_interest_payment
        [0; 0; 0] ].
Proof. vm_compute; reflexivity. Qed.

End AggregationFacts.

(** ** Decimal amounts

    A NUMERIC(20,2) amount is its number of cents.  A decimal with more
    places is an integer number of smaller units; [quantize_half_up unit x]
    is [Decimal.quantize(Decimal("0.01"), ROUND_HALF_UP)] for a value of [x]
    units when one cent is [unit] units: the nearest cent, a tie going away
    from zero. *)

Module Money.

Definition quantize_half_up (unit x : Z) : Z :=
  Z.sgn x * ((Z.abs x + unit / 2) / unit).

(** [max(xs, key=key)] for a non-empty sequence [x :: xs]: the first element
    whose key is the greatest. *)
Definition py_max_by {A : Type} (key : A → Z) (x : A) (xs : list A) : A :=
  foldl (λ best y, if key best <? key y then y else best) x xs.

(** [sum(l)] *)
Definition sum_list (l : list Z) : Z := foldr Z.add 0 l.

(** A NUMERIC(20,2) column holds amounts of fewer than 10^20 cents in
    absolute value (less than 10^18 units); the database refuses a value
    beyond. *)
Definition fits_numeric_20_2 (cents : Z) : Prop := Z.abs cents < 10 ^ 20.

#[global] Instance fits_numeric_20_2_dec cents :
  Decision (fits_numeric_20_2 cents).
Proof. unfold fits_numeric_20_2. apply _. Defined.

(** The arithmetic of [Decimal] is done in the default context of 28
    significant digits: a coefficient stays below [CONTEXT_LIMIT]. *)
Definition CONTEXT_LIMIT : Z := 10 ^ 28.

(** [a] units of [unit] rounded to a whole number of them, a tie going to
    the even neighbour (ROUND_HALF_EVEN, the rounding of the context), for
    [a] not negative. *)
Definition round_half_even (unit a : Z) : Z :=
  let q := a / unit in
  let r := a `mod` unit in
  if 2 * r <? unit then q
  else if unit <? 2 * r then q + 1
  else if Z.even q then q else q + 1.

(** The number of digits the coefficient [a] has beyond 28. *)
Fixpoint excess_digits (fuel : nat) (a : Z) : nat :=
  match fuel with
  | O => O
  | S fuel =>
      if a <? CONTEXT_LIMIT then O else S (excess_digits fuel (a / 10))
  end.

(** The result of [+] and [-] on two [Decimal]s whose exact result is [x]
    (in any unit): exact when it has at most 28 digits, and rounded to 28
    significant digits otherwise. *)
Definition context_round (x : Z) : Z :=
  let a := Z.abs x in
  let unit := 10 ^ Z.of_nat (excess_digits (Z.to_nat (Z.log2 a)) a) in
  Z.sgn x * (round_half_even unit a * unit).

(** [d.quantize(Decimal("0.01"), ROUND_HALF_UP)] for a [Decimal] [d] that
    is worth [cents] cents once rounded to two places: the operation
    signals [InvalidOperation] when the result would have more than 28
    digits. *)
Definition decimal_quantize (cents : Z) : option Z :=
  if decide (Z.abs cents < CONTEXT_LIMIT) then Some cents else None.

End Money.

(** ** Balance Reconciler ([functions/repo_alignment.py]) *)

Module Reconciler.
Import Calendar Money.

(** [ProductBalance.n_balance] has ten decimal places: one cent is 10^8 of
    its units. *)
Definition BALANCE_UNIT : Z := 100000000.

(** A row of [Report_Contractual_<YYYYMMDD>]: the columns the reconciler
    reads and the bucket columns in ordinal position, NULL being [None]. *)
Record ReportRow : Type := mkReportRow {
  id : Z;
  rc_fic_mis_date : date;
  rc_process_name : string;
  rc_v_prod_code : string;
  rc_v_ccy_code : string;
  rc_v_prod_type : string;
  rc_buckets : list (option Z)
}.

Record ReportTable : Type := mkReportTable {
  bucket_cols : list string;
  rows : list ReportRow
}.

Record ProductBalance : Type := mkProductBalance {
  pb_fic_mis_date : date;
  pb_v_prod_code : string;
  pb_v_ccy_code : string;
  n_balance : Z
}.

(** A row of the main query. *)
Record QueryRow : Type := mkQueryRow {
  q_id : Z;
  q_prod_code : string;
  q_ccy_code : string;
  q_buckets : list Z;
  q_current_bucket_sum : Z;
  q_target_balance : option Z
}.

Record Stats : Type := mkStats {
  processed : nat;
  adjusted : nat;
  missing_pb : nat;
  within_tolerance : nat;
  errors : nat
}.

Definition coalesce0 (v : option Z) : Z := default 0 v.

(** [COALESCE(c1, 0) + COALESCE(c2, 0) + ...] over the bucket columns. *)
Definition bucket_total (r : ReportRow) : Z :=
  sum_list (coalesce0 <$> rc_buckets r).

(** The WHERE clause: the snapshot date, and the process name when one is
    given (an empty name is no filter). *)
Definition selected (fic : date) (process_name : option string)
    (r : ReportRow) : Prop :=
  rc_fic_mis_date r = fic
  ∧ match process_name with
    | Some p => p = ""%string ∨ rc_process_name r = p
    | None => True
    end.

#[global] Instance selected_dec fic process_name r :
  Decision (selected fic process_name r).
Proof. unfold selected. destruct process_name; apply _. Defined.

(** The ON clause of the LEFT JOIN with [product_balance]. *)
Definition balance_matches (r : ReportRow) (pb : ProductBalance) : Prop :=
  pb_fic_mis_date pb = rc_fic_mis_date r
  ∧ pb_v_prod_code pb = rc_v_prod_code r
  ∧ pb_v_ccy_code pb = rc_v_ccy_code r.

#[global] Instance balance_matches_dec r pb : Decision (balance_matches r pb).
Proof. unfold balance_matches. apply _. Defined.

Definition matching_balances (pbs : list ProductBalance) (r : ReportRow)
    : list ProductBalance :=
  filter (balance_matches r) pbs.

Definition by_id (a b : ReportRow) : Prop := id a ≤ id b.

#[global] Instance by_id_dec : RelDecision by_id.
Proof. intros a b. unfold by_id. apply _. Defined.

Definition query_row (r : ReportRow) (target : option Z) : QueryRow :=
  mkQueryRow (id r) (rc_v_prod_code r) (rc_v_ccy_code r)
    (coalesce0 <$> rc_buckets r) (bucket_total r) target.

(** The rows of the main query for one row of the report relation: one per
    matching balance, or one with a NULL target. *)
Definition joined (pbs : list ProductBalance) (r : ReportRow)
    : list QueryRow :=
  match matching_balances pbs r with
  | [] => [query_row r None]
  | ms => (λ pb, query_row r (Some (n_balance pb))) <$> ms
  end.

Definition main_query (fic : date) (process_name : option string)
    (tbl : list ReportRow) (pbs : list ProductBalance) : list QueryRow :=
  foldr (λ r acc, joined pbs r ++ acc) []
    (merge_sort by_id (filter (selected fic process_name) tbl)).

(** Strategy 1 and strategy 2 of "FIND BEST BUCKET TO ADJUST". *)
Definition same_sign (difference bucket_val : Z) : bool :=
  ((0 <? difference) && (0 <=? bucket_val))
  || ((difference <? 0) && (bucket_val <? 0)).

Definition same_sign_candidates (difference : Z) (bucket_values : list Z)
    : list (nat * Z) :=
  omap (λ p : nat * Z,
          if same_sign difference p.2 then Some (p.1, Z.abs p.2) else None)
       (imap (λ i v, (i, v)) bucket_values).

Definition best_bucket (difference : Z) (bucket_values : list Z)
    : option nat :=
  match bucket_values with
  | [] => None
  | _ =>
      match same_sign_candidates difference bucket_values with
      | c :: cs => Some (py_max_by snd c cs).1
      | [] =>
          match seq 0 (length bucket_values) with
          | i :: is_ =>
              Some (py_max_by
                      (λ i, Z.abs (default 0 (bucket_values !! i))) i is_)
          | [] => None
          end
      end
  end.

(** What the loop body decides for one row of the query, in exact
    arithmetic ([process_row] has the sizes of the decimal context and of
    the columns). *)
Inductive decision : Type :=
  | MissingTarget
  | AlreadyBalanced
  | NoBucketValues
  | Adjust (idx : nat) (new_value : Z).

Definition decide_row (q : QueryRow) : decision :=
  let bucket_values := q_buckets q in
  let manual_sum := sum_list bucket_values in
  match q_target_balance q with
  | None => MissingTarget
  | Some target =>
      let target_balance := quantize_half_up BALANCE_UNIT target in
      let difference := target_balance - manual_sum in
      if difference =? 0 then AlreadyBalanced
      else
        match best_bucket difference bucket_values with
        | None => NoBucketValues
        | Some idx =>
            let old_value := default 0 (bucket_values !! idx) in
            Adjust idx (old_value + difference)
        end
  end.

(** [UPDATE tbl SET col = new_value WHERE id = row_id], [col] being the
    bucket column number [idx], a NUMERIC(20,2) column: the relation
    afterwards, or [None] when the statement raises -- the value does not
    fit the column, or an earlier statement of the transaction has failed
    (PostgreSQL then refuses every statement until the transaction
    ends). *)
Definition update_bucket (aborted : bool) (row_id : Z) (idx : nat)
    (new_value : Z) (tbl : list ReportRow) : option (list ReportRow) :=
  if aborted then None
  else if decide (fits_numeric_20_2 new_value) then
    Some ((λ r,
             if decide (id r = row_id) then
               mkReportRow (id r) (rc_fic_mis_date r) (rc_process_name r)
                 (rc_v_prod_code r) (rc_v_ccy_code r) (rc_v_prod_type r)
                 (<[idx := Some new_value]> (rc_buckets r))
             else r) <$> tbl)
  else None.

(** The verification query after the update: the bucket total of the row
    with this id. *)
Definition verify_sum (row_id : Z) (tbl : list ReportRow) : option Z :=
  bucket_total <$> head (filter (λ r, id r = row_id) tbl).

Definition bump_errors (st : Stats) : Stats :=
  mkStats (processed st) (adjusted st) (missing_pb st) (within_tolerance st)
    (S (errors st)).

(** One iteration of "PROCESS EACH ROW", on the relation, the statistics
    and the state of the transaction ([true]: a statement has failed).

    The bucket values of a row are NUMERIC(20,2) values, and their sum is
    exact.  The target balance is a NUMERIC(40,10) value: [quantize]
    signals [InvalidOperation] when its result has more than 28 digits,
    and the context rounds the difference to 28 significant digits when it
    has more.  The sum of the old value and the difference is quantized in
    turn, which is refused when it has more than 28 digits (the context
    rounds such a sum first, to a value that is as large).  An exception
    of the arithmetic is caught by the [except Exception] that ends the
    loop body; so is the exception of a failed UPDATE, which leaves the
    transaction aborted. *)
Definition process_row (state : list ReportRow * Stats * bool) (q : QueryRow)
    : list ReportRow * Stats * bool :=
  let '(tbl, st, aborted) := state in
  let st := mkStats (S (processed st)) (adjusted st) (missing_pb st)
              (within_tolerance st) (errors st) in
  let bucket_values := q_buckets q in
  let manual_sum := sum_list bucket_values in
  match q_target_balance q with
  | None =>
      (tbl, mkStats (processed st) (adjusted st) (S (missing_pb st))
              (within_tolerance st) (errors st), aborted)
  | Some target =>
      match decimal_quantize (quantize_half_up BALANCE_UNIT target) with
      | None => (tbl, bump_errors st, aborted)
      | Some target_balance =>
          let difference := context_round (target_balance - manual_sum) in
          if difference =? 0 then
            (tbl, mkStats (processed st) (adjusted st) (missing_pb st)
                    (S (within_tolerance st)) (errors st), aborted)
          else
            match best_bucket difference bucket_values with
            | None => (tbl, bump_errors st, aborted)
            | Some idx =>
                let old_value := default 0 (bucket_values !! idx) in
                match decimal_quantize (old_value + difference) with
                | None => (tbl, bump_errors st, aborted)
                | Some new_value =>
                    match update_bucket aborted (q_id q) idx new_value tbl
                    with
                    | None => (tbl, bump_errors st, true)
                    | Some tbl =>
                        match verify_sum (q_id q) tbl with
                        | Some final_sum =>
                            if final_sum =? target_balance then
                              (tbl,
                               mkStats (processed st) (S (adjusted st))
                                 (missing_pb st) (within_tolerance st)
                                 (errors st),
                               aborted)
                            else (tbl, bump_errors st, aborted)
                        | None => (tbl, bump_errors st, aborted)
                        end
                    end
                end
            end
      end
  end.

(** The value returned: [{"error": message}], the message given here
    without the name of the table it mentions, or the statistics. *)
Inductive align_result : Type :=
  | AlignError (message : string)
  | AlignSuccess (statistics : Stats).

(** [align_buckets_to_balance]: the returned value and the report relation
    afterwards ([None] when the relation does not exist).  Leaving the
    [with transaction.atomic()] block commits (the block is the outermost
    one: the pipeline opens no transaction around its steps); the COMMIT of
    a transaction in which a statement has failed is answered by a
    rollback, without an error, and the relation is then as it was before
    the run while the statistics are returned as counted. *)
Definition align_buckets_to_balance (fic : date)
    (process_name : option string) (tbl : option ReportTable)
    (pbs : list ProductBalance) : align_result * option ReportTable :=
  match tbl with
  | None => (AlignError "Table not found", None)
  | Some t =>
      match bucket_cols t with
      | [] => (AlignError "No bucket columns found", tbl)
      | _ =>
          let '(rows', st, aborted) :=
            foldl process_row (rows t, mkStats 0 0 0 0 0, false)
                  (main_query fic process_name (rows t) pbs) in
          (AlignSuccess st,
           Some (mkReportTable (bucket_cols t)
                   (if aborted then rows t else rows')))
      end
  end.

End Reconciler.

Module MoneyFacts.
Import Money.

(** Rounding to the nearest cent moves a value by at most half a cent. *)
Lemma quantize_half_up_error unit x :
  0 < unit →
  Z.abs (quantize_half_up unit x * unit - x) * 2 ≤ unit.
Proof.
  intros Hu. unfold quantize_half_up.
  destruct (Z.lt_trichotomy x 0) as [Hx|[->|Hx]].
  - rewrite Z.sgn_neg, (Z.abs_neq x) by lia.
    Z.div_mod_to_equations. nia.
  - cbn. lia.
  - rewrite Z.sgn_pos, (Z.abs_eq x) by lia.
    Z.div_mod_to_equations. nia.
Qed.

(** An amount that is already a whole number of cents is left alone. *)
Lemma quantize_half_up_cents unit c :
  1 < unit → quantize_half_up unit (c * unit) = c.
Proof.
  intros Hu. unfold quantize_half_up.
  destruct (Z.lt_trichotomy c 0) as [Hc|[->|Hc]].
  - rewrite Z.sgn_neg, Z.abs_neq by nia.
    replace ((- (c * unit) + unit / 2) / unit) with (- c); [lia|].
    Z.div_mod_to_equations. nia.
  - reflexivity.
  - rewrite Z.sgn_pos, Z.abs_eq by nia.
    replace ((c * unit + unit / 2) / unit) with c; [lia|].
    Z.div_mod_to_equations. nia.
Qed.

Section py_max_by.
Context {A : Type} (key : A → Z).

Lemma py_max_by_snoc x xs y :
  py_max_by key x (xs ++ [y])
  = if key (py_max_by key x xs) <? key y then y else py_max_by key x xs.
Proof. unfold py_max_by. by rewrite foldl_app. Qed.

(** [max] returns an element of the sequence whose key is the greatest, and
    the first such element. *)
Lemma py_max_by_spec x xs :
  ∃ pre post,
    x :: xs = pre ++ py_max_by key x xs :: post
    ∧ Forall (λ y, key y < key (py_max_by key x xs)) pre
    ∧ Forall (λ y, key y ≤ key (py_max_by key x xs)) post.
Proof.
  induction xs as [|y xs IH] using rev_ind.
  - exists [], []. cbn. auto.
  - destruct IH as (pre & post & Heq & Hpre & Hpost).
    rewrite py_max_by_snoc.
    destruct (Z.ltb_spec (key (py_max_by key x xs)) (key y)) as [Hlt|Hge].
    + exists (x :: xs), []. split; [done|]. split; [|constructor].
      rewrite Heq. apply Forall_app. split.
      * eapply Forall_impl; [exact Hpre|]. cbn. lia.
      * constructor; [lia|]. eapply Forall_impl; [exact Hpost|]. cbn. lia.
    + exists pre, (post ++ [y]). split; [|split; [done|]].
      * rewrite app_comm_cons, Heq. by rewrite <- app_assoc.
      * apply Forall_app. split; [done|]. by constructor.
Qed.

Lemma py_max_by_elem_of x xs : py_max_by key x xs ∈ x :: xs.
Proof.
  destruct (py_max_by_spec x xs) as (pre & post & -> & _).
  apply elem_of_app. right. left.
Qed.

Lemma py_max_by_ge x xs y :
  y ∈ x :: xs → key y ≤ key (py_max_by key x xs).
Proof.
  destruct (py_max_by_spec x xs) as (pre & post & -> & Hpre & Hpost).
  rewrite Forall_forall in Hpre, Hpost.
  intros [Hin|[->|Hin]%elem_of_cons]%elem_of_app.
  - specialize (Hpre _ Hin). lia.
  - lia.
  - by apply Hpost.
Qed.

End py_max_by.
End MoneyFacts.

Module ReconcilerFacts.
Import Calendar Money MoneyFacts Reconciler.

(** *** The choice of the bucket to adjust *)

(** A bucket value matches the sign of the difference, as the code decides
    it: a value of zero goes with a positive difference. *)
Definition sign_matches (difference bucket_val : Z) : Prop :=
  (0 < difference ∧ 0 ≤ bucket_val) ∨ (difference < 0 ∧ bucket_val < 0).


(** The selection policy for a notion [matches] of matching sign: bucket
    [idx] is a matching bucket of largest absolute value among the matching
    ones, or, when no bucket matches, a bucket of largest absolute value. *)
Definition selection_policy (matches : Z → Z → Prop) (difference : Z)
    (bucket_values : list Z) (idx : nat) : Prop :=
  ∃ v, bucket_values !! idx = Some v
    ∧ ((∃ (j : nat) w, bucket_values !! j = Some w ∧ matches difference w) →
       matches difference v
       ∧ ∀ (j : nat) w, bucket_values !! j = Some w → matches difference w →
           Z.abs w ≤ Z.abs v)
    ∧ ((¬ ∃ (j : nat) w, bucket_values !! j = Some w ∧ matches difference w) →
       ∀ (j : nat) w, bucket_values !! j = Some w → Z.abs w ≤ Z.abs v).

Lemma same_sign_spec d v : same_sign d v = true ↔ sign_matches d v.
Proof.
  unfold same_sign, sign_matches.
  rewrite orb_true_iff, !andb_true_iff, !Z.ltb_lt, Z.leb_le. tauto.
Qed.

Lemma elem_of_same_sign_candidates d (values : list Z) (i : nat) a :
  (i, a) ∈ same_sign_candidates d values ↔
  ∃ v, values !! i = Some v ∧ sign_matches d v ∧ a = Z.abs v.
Proof.
  unfold same_sign_candidates. rewrite list_elem_of_omap. split.
  - intros ([j v] & Hin & Hf). cbn in Hf.
    apply elem_of_lookup_imap in Hin as (j' & v' & [= -> ->] & Hl).
    destruct (same_sign d v') eqn:Hs; [|done]. injection Hf as <- <-.
    exists v'. by rewrite <- same_sign_spec.
  - intros (v & Hl & Hs & ->). exists (i, v). split.
    + apply elem_of_lookup_imap. by exists i, v.
    + cbn. apply same_sign_spec in Hs. by rewrite Hs.
Qed.

Lemma best_bucket_policy d (values : list Z) :
  values ≠ [] →
  ∃ idx, best_bucket d values = Some idx
         ∧ selection_policy sign_matches d values idx.
Proof.
  intros Hne. unfold best_bucket.
  destruct values as [|v0 vs] eqn:Hv; [done|]. rewrite <- Hv. clear Hne.
  destruct (same_sign_candidates d values) as [|c cs] eqn:Hc.
  - (* no bucket matches: the overall largest *)
    assert (∀ (j : nat) w, values !! j = Some w → ¬ sign_matches d w) as Hno.
    { intros j w Hl Hs.
      assert ((j, Z.abs w) ∈ same_sign_candidates d values) as Hin
        by (apply elem_of_same_sign_candidates; eauto).
      rewrite Hc in Hin. by apply elem_of_nil in Hin. }
    destruct (seq 0 (length values)) as [|i is_] eqn:Hs.
    { subst values. discriminate Hs. }
    set (key := λ i : nat, Z.abs (default 0 (values !! i))).
    set (m := py_max_by key i is_).
    assert (m ∈ seq 0 (length values)) as Hm
      by (rewrite Hs; apply py_max_by_elem_of).
    apply elem_of_seq in Hm as [_ Hm]. cbn in Hm.
    destruct (lookup_lt_is_Some_2 values m Hm) as [v Hlv].
    exists m. split; [done|]. exists v. split; [done|]. split.
    + intros (j & w & Hl & Hsm). by destruct (Hno j w Hl).
    + intros _ j w Hl.
      assert (j ∈ i :: is_) as Hj.
      { rewrite <- Hs. apply elem_of_seq. apply lookup_lt_Some in Hl. lia. }
      pose proof (py_max_by_ge key i is_ j Hj) as Hge. fold m in Hge.
      unfold key in Hge. by rewrite Hl, Hlv in Hge.
  - (* the largest among the matching buckets *)
    set (m := py_max_by snd c cs).
    assert (m ∈ same_sign_candidates d values) as Hm
      by (rewrite Hc; apply py_max_by_elem_of).
    destruct m as [i a] eqn:Em.
    apply elem_of_same_sign_candidates in Hm as (v & Hlv & Hsv & ->).
    exists i. split; [done|]. exists v. split; [done|]. split.
    + intros _. split; [done|]. intros j w Hl Hsw.
      assert ((j, Z.abs w) ∈ c :: cs) as Hj
        by (rewrite <- Hc; apply elem_of_same_sign_candidates; eauto).
      pose proof (py_max_by_ge snd c cs _ Hj) as Hge. fold m in Hge.
      by rewrite Em in Hge.
    + intros Hno. destruct Hno. eauto.
Qed.

Lemma selection_policy_lt d (values : list Z) idx :
  selection_policy sign_matches d values idx → (idx < length values)%nat.
Proof. intros (v & Hl & _). by eapply lookup_lt_Some. Qed.





(** *** The effect of a run on the report relation *)

Definition set_bucket (idx : nat) (v : Z) (r : ReportRow) : ReportRow :=
  mkReportRow (id r) (rc_fic_mis_date r) (rc_process_name r)
    (rc_v_prod_code r) (rc_v_ccy_code r) (rc_v_prod_type r)
    (<[idx := Some v]> (rc_buckets r)).

(** What an iteration for the query row [q] does to a row of the
    relation when it stays within the sizes (see [process_row_within]
    below) and its UPDATE is accepted. *)
Definition row_step (q : QueryRow) (r : ReportRow) : ReportRow :=
  match decide_row q with
  | Adjust idx v => if decide (id r = q_id q) then set_bucket idx v r else r
  | _ => r
  end.

Definition join_all (pbs : list ProductBalance) (l : list ReportRow)
    : list QueryRow :=
  foldr (λ r acc, joined pbs r ++ acc) [] l.

(** The iteration for [q] stays within the sizes: the quantized target and
    its difference from the bucket total have at most 28 digits, so that
    the decimal arithmetic is exact, and the value to write fits the
    NUMERIC(20,2) bucket column. *)
Definition within_limits (q : QueryRow) : Prop :=
  match q_target_balance q with
  | None => True
  | Some target =>
      let target_balance := quantize_half_up BALANCE_UNIT target in
      Z.abs target_balance < CONTEXT_LIMIT
      ∧ Z.abs (target_balance - sum_list (q_buckets q)) < CONTEXT_LIMIT
      ∧ match decide_row q with
        | Adjust _ new_value => fits_numeric_20_2 new_value
        | _ => True
        end
  end.

#[global] Instance within_limits_dec q : Decision (within_limits q).
Proof.
  unfold within_limits. destruct (q_target_balance q); [|apply _].
  cbv zeta. destruct (decide_row q); apply _.
Defined.

Lemma context_round_small x : Z.abs x < CONTEXT_LIMIT → context_round x = x.
Proof.
  intros Hx. unfold context_round. cbv zeta.
  assert (excess_digits (Z.to_nat (Z.log2 (Z.abs x))) (Z.abs x) = 0%nat) as ->.
  { destruct (Z.to_nat _); [done|]. cbn [excess_digits].
    by destruct (Z.ltb_spec (Z.abs x) CONTEXT_LIMIT); [|lia]. }
  change (10 ^ Z.of_nat 0) with 1. unfold round_half_even. cbv zeta.
  rewrite Z.mod_1_r, Z.div_1_r. change (2 * 0 <? 1) with true. cbv iota.
  lia.
Qed.

Lemma decimal_quantize_small x :
  Z.abs x < CONTEXT_LIMIT → decimal_quantize x = Some x.
Proof. intros Hx. unfold decimal_quantize. by rewrite decide_True. Qed.

(** Within the sizes an iteration does what [decide_row] says, but for a
    refused UPDATE in a transaction that is already aborted. *)
Lemma process_row_within_eq tbl st aborted q :
  within_limits q →
  process_row (tbl, st, aborted) q
  = let st := mkStats (S (processed st)) (adjusted st) (missing_pb st)
                (within_tolerance st) (errors st) in
    match decide_row q with
    | MissingTarget =>
        (tbl, mkStats (processed st) (adjusted st) (S (missing_pb st))
                (within_tolerance st) (errors st), aborted)
    | AlreadyBalanced =>
        (tbl, mkStats (processed st) (adjusted st) (missing_pb st)
                (S (within_tolerance st)) (errors st), aborted)
    | NoBucketValues => (tbl, bump_errors st, aborted)
    | Adjust idx new_value =>
        match update_bucket aborted (q_id q) idx new_value tbl with
        | None => (tbl, bump_errors st, true)
        | Some tbl =>
            match verify_sum (q_id q) tbl with
            | Some final_sum =>
                if final_sum
                   =? quantize_half_up BALANCE_UNIT
                        (default 0 (q_target_balance q))
                then (tbl,
                      mkStats (processed st) (S (adjusted st)) (missing_pb st)
                        (within_tolerance st) (errors st),
                      aborted)
                else (tbl, bump_errors st, aborted)
            | None => (tbl, bump_errors st, aborted)
            end
        end
    end.
Proof.
  unfold within_limits, process_row, decide_row.
  destruct (q_target_balance q) as [target|]; [|done].
  cbv zeta. intros (Ht & Hd & Hfit).
  rewrite decimal_quantize_small, context_round_small by done.
  destruct (_ =? 0); [done|].
  destruct (best_bucket _ _) as [idx|]; [|done].
  rewrite decimal_quantize_small; [done|].
  unfold fits_numeric_20_2 in Hfit. unfold CONTEXT_LIMIT. lia.
Qed.

(** The relation after an iteration within the sizes, in a transaction
    that is not aborted. *)
Lemma process_row_within tbl st q :
  within_limits q →
  ∃ st', process_row (tbl, st, false) q = (row_step q <$> tbl, st', false).
Proof.
  intros Hq. rewrite process_row_within_eq by done. cbv zeta.
  unfold row_step. unfold within_limits in Hq.
  destruct (decide_row q) as [| | |idx v] eqn:Hd;
    try (eexists; by rewrite list_fmap_id).
  assert (fits_numeric_20_2 v) as Hfit.
  { destruct (q_target_balance q) eqn:Ht; [by destruct Hq as (_ & _ & ?)|].
    unfold decide_row in Hd. by rewrite Ht in Hd. }
  unfold update_bucket. rewrite decide_True by done.
  destruct (verify_sum _ _); [destruct (_ =? _)|]; by eexists.
Qed.

Lemma foldl_process_row_within qs tbl st :
  Forall within_limits qs →
  ∃ st',
    foldl process_row (tbl, st, false) qs
    = (foldl (λ tbl q, row_step q <$> tbl) tbl qs, st', false).
Proof.
  intros Hqs. revert tbl st.
  induction Hqs as [|q qs Hq _ IH]; intros tbl st; [by eexists|].
  cbn [foldl]. destruct (process_row_within tbl st q Hq) as [st1 ->].
  apply IH.
Qed.

Lemma abs_sum_list (l : list Z) : Z.abs (sum_list l) ≤ sum_list (Z.abs <$> l).
Proof.
  induction l as [|x l IH]; [done|].
  change (Z.abs (x + sum_list l) ≤ Z.abs x + sum_list (Z.abs <$> l)). lia.
Qed.

Lemma abs_sum_list_others (l : list Z) (idx : nat) :
  Z.abs (sum_list l - default 0 (l !! idx)) ≤ sum_list (Z.abs <$> l).
Proof.
  revert idx. induction l as [|x l IH]; intros idx; [by destruct idx|].
  destruct idx as [|idx].
  - change (Z.abs (x + sum_list l - x) ≤ Z.abs x + sum_list (Z.abs <$> l)).
    pose proof (abs_sum_list l). lia.
  - change (Z.abs (x + sum_list l - default 0 (l !! idx))
            ≤ Z.abs x + sum_list (Z.abs <$> l)).
    specialize (IH idx). lia.
Qed.

(** A plain bound that keeps an iteration within the sizes: the quantized
    target and the absolute values of the buckets add up to less than
    10^20 cents. *)
Lemma within_limits_bound q :
  (∀ target,
     q_target_balance q = Some target →
     Z.abs (quantize_half_up BALANCE_UNIT target)
     + sum_list (Z.abs <$> q_buckets q) < 10 ^ 20) →
  within_limits q.
Proof.
  intros Hb. unfold within_limits, decide_row.
  destruct (q_target_balance q) as [target|]; [|done].
  specialize (Hb target eq_refl). cbv zeta.
  pose proof (abs_sum_list (q_buckets q)) as Hs.
  unfold CONTEXT_LIMIT. split; [lia|]. split; [lia|].
  destruct (_ =? 0); [done|].
  destruct (best_bucket _ _) as [idx|]; [|done].
  pose proof (abs_sum_list_others (q_buckets q) idx) as Ho.
  unfold fits_numeric_20_2. lia.
Qed.

(** The UPDATE of the iteration for [q] is refused by the database: the
    arithmetic of the iteration stays within the decimal context, and the
    value to write does not fit the NUMERIC(20,2) bucket column. *)
Definition update_refused (q : QueryRow) : Prop :=
  match q_target_balance q, decide_row q with
  | Some target, Adjust _ new_value =>
      let target_balance := quantize_half_up BALANCE_UNIT target in
      Z.abs target_balance < CONTEXT_LIMIT
      ∧ Z.abs (target_balance - sum_list (q_buckets q)) < CONTEXT_LIMIT
      ∧ Z.abs new_value < CONTEXT_LIMIT
      ∧ ¬ fits_numeric_20_2 new_value
  | _, _ => False
  end.

#[global] Instance update_refused_dec q : Decision (update_refused q).
Proof.
  unfold update_refused.
  destruct (q_target_balance q); [|apply _]. destruct (decide_row q); apply _.
Defined.

Lemma process_row_refused tbl st aborted q :
  update_refused q →
  process_row (tbl, st, aborted) q
  = (tbl,
     bump_errors (mkStats (S (processed st)) (adjusted st) (missing_pb st)
                    (within_tolerance st) (errors st)),
     true).
Proof.
  unfold update_refused, process_row, decide_row.
  destruct (q_target_balance q) as [target|]; [|done]. cbv zeta.
  destruct (_ =? 0) eqn:Hd; [done|].
  destruct (best_bucket _ _) as [idx|] eqn:Hb; [|done].
  intros (Ht & Hdiff & Hnew & Hfit).
  rewrite decimal_quantize_small, context_round_small by done.
  rewrite Hd, Hb, decimal_quantize_small by done.
  unfold update_bucket. destruct aborted; [done|].
  by rewrite decide_False.
Qed.

(** A transaction that is aborted stays so, and errors are only added. *)
Lemma process_row_aborted tbl st q :
  (process_row (tbl, st, true) q).2 = true.
Proof.
  unfold process_row. cbv beta iota zeta.
  repeat case_match; done.
Qed.

Lemma process_row_errors tbl st aborted q :
  (errors st ≤ errors (process_row (tbl, st, aborted) q).1.2)%nat.
Proof.
  unfold process_row. cbv beta iota zeta.
  repeat case_match; cbn; lia.
Qed.

Lemma foldl_process_row_aborted qs :
  ∀ tbl st, (foldl process_row (tbl, st, true) qs).2 = true.
Proof.
  induction qs as [|q qs IH]; intros tbl st; [done|].
  cbn [foldl]. pose proof (process_row_aborted tbl st q) as Ha.
  destruct (process_row (tbl, st, true) q) as [[tbl1 st1] aborted1].
  cbn [snd] in Ha. subst aborted1. apply IH.
Qed.

Lemma foldl_process_row_errors qs :
  ∀ tbl st aborted,
    (errors st ≤ errors (foldl process_row (tbl, st, aborted) qs).1.2)%nat.
Proof.
  induction qs as [|q qs IH]; intros tbl st aborted; [done|].
  cbn [foldl]. pose proof (process_row_errors tbl st aborted q) as He.
  destruct (process_row (tbl, st, aborted) q) as [[tbl1 st1] aborted1].
  cbn [fst snd] in He. specialize (IH tbl1 st1 aborted1). lia.
Qed.

Lemma foldl_process_row_refused qs :
  Exists update_refused qs →
  ∀ tbl st aborted,
    (foldl process_row (tbl, st, aborted) qs).2 = true
    ∧ (errors st < errors (foldl process_row (tbl, st, aborted) qs).1.2)%nat.
Proof.
  induction 1 as [q qs Hq|q qs _ IH]; intros tbl st aborted; cbn [foldl].
  - rewrite (process_row_refused _ _ _ _ Hq). split.
    + apply foldl_process_row_aborted.
    + eapply Nat.lt_le_trans; [|apply foldl_process_row_errors]. cbn. lia.
  - pose proof (process_row_errors tbl st aborted q) as He.
    destruct (process_row (tbl, st, aborted) q) as [[tbl1 st1] aborted1].
    cbn [fst snd] in He. destruct (IH tbl1 st1 aborted1) as [Ha Hlt].
    split; [done|lia].
Qed.

Lemma foldl_row_step_rows qs (tbl : list ReportRow) :
  foldl (λ tbl q, row_step q <$> tbl) tbl qs
  = (λ r, foldl (λ r q, row_step q r) r qs) <$> tbl.
Proof.
  revert tbl. induction qs as [|q qs IH]; intros tbl; cbn [foldl].
  - symmetry. apply list_fmap_id.
  - rewrite IH, <- list_fmap_compose. done.
Qed.

Lemma row_step_id q r : id (row_step q r) = id r.
Proof.
  unfold row_step. destruct (decide_row q); try done.
  by destruct (decide _).
Qed.

Lemma row_step_other q r : q_id q ≠ id r → row_step q r = r.
Proof.
  intros Hne. unfold row_step. destruct (decide_row q); try done.
  destruct (decide _); [congruence|done].
Qed.

Lemma foldl_row_step_other qs r :
  Forall (λ q, q_id q ≠ id r) qs → foldl (λ r q, row_step q r) r qs = r.
Proof.
  induction 1 as [|q qs Hq _ IH]; [done|].
  cbn [foldl]. by rewrite row_step_other.
Qed.

Lemma join_all_app pbs l1 l2 :
  join_all pbs (l1 ++ l2) = join_all pbs l1 ++ join_all pbs l2.
Proof.
  unfold join_all. induction l1 as [|r l1 IH]; [done|].
  cbn. by rewrite IH, app_assoc.
Qed.

Lemma joined_id pbs r q : q ∈ joined pbs r → q_id q = id r.
Proof.
  unfold joined. destruct (matching_balances pbs r) as [|pb ms].
  - by intros ->%list_elem_of_singleton.
  - by intros (pb' & -> & _)%list_elem_of_fmap.
Qed.

Lemma join_all_other pbs l i :
  Forall (λ r, id r ≠ i) l → Forall (λ q, q_id q ≠ i) (join_all pbs l).
Proof.
  induction 1 as [|r l Hr _ IH]; [constructor|].
  cbn. apply Forall_app. split; [|done].
  apply Forall_forall. intros q Hq. by rewrite (joined_id _ _ _ Hq).
Qed.

(** The main query yields the rows joined to [r] once, among rows for other
    ids. *)
Lemma main_query_split fic process_name tbl pbs r :
  NoDup (id <$> tbl) → r ∈ tbl → selected fic process_name r →
  ∃ l1 l2,
    main_query fic process_name tbl pbs = l1 ++ joined pbs r ++ l2
    ∧ Forall (λ q, q_id q ≠ id r) l1 ∧ Forall (λ q, q_id q ≠ id r) l2.
Proof.
  intros Hnd Hin Hsel.
  change (main_query fic process_name tbl pbs)
    with (join_all pbs
            (merge_sort by_id (filter (selected fic process_name) tbl))).
  set (S := merge_sort by_id (filter (selected fic process_name) tbl)).
  assert (S ≡ₚ filter (selected fic process_name) tbl) as Hperm
    by apply merge_sort_Permutation.
  assert (r ∈ S) as HrS by (rewrite Hperm; by apply list_elem_of_filter).
  assert (NoDup (id <$> S)) as HndS.
  { rewrite Hperm. eapply sublist_NoDup; [exact Hnd|].
    apply fmap_sublist, sublist_filter. }
  apply list_elem_of_split in HrS as (S1 & S2 & HS). rewrite HS in *.
  rewrite fmap_app, fmap_cons in HndS.
  apply NoDup_app in HndS as (_ & Hdisj & Hnd2).
  apply NoDup_cons in Hnd2 as [Hnot2 _].
  exists (join_all pbs S1), (join_all pbs S2).
  split; [|split].
  - rewrite join_all_app. cbn. done.
  - apply join_all_other, Forall_forall. intros r1 Hr1 Heq.
    apply (Hdisj (id r)); [rewrite <- Heq; by apply list_elem_of_fmap_2|left].
  - apply join_all_other, Forall_forall. intros r2 Hr2 Heq.
    apply Hnot2. rewrite <- Heq. by apply list_elem_of_fmap_2.
Qed.

Lemma sum_list_insert (l : list Z) (idx : nat) v :
  (idx < length l)%nat →
  sum_list (<[idx := v]> l) = sum_list l - default 0 (l !! idx) + v.
Proof.
  revert idx. induction l as [|x l IH]; intros idx Hlt; [cbn in Hlt; lia|].
  destruct idx as [|idx].
  - change (v + sum_list l = x + sum_list l - x + v). lia.
  - change (x + sum_list (<[idx := v]> l)
            = x + sum_list l - default 0 (l !! idx) + v).
    cbn in Hlt. rewrite IH by lia. lia.
Qed.

Lemma bucket_total_set_bucket idx v r :
  (idx < length (rc_buckets r))%nat →
  bucket_total (set_bucket idx v r)
  = bucket_total r - coalesce0 (default None (rc_buckets r !! idx)) + v.
Proof.
  intros Hlt. unfold bucket_total, set_bucket. cbn [rc_buckets].
  rewrite list_fmap_insert, sum_list_insert by (by rewrite length_fmap).
  rewrite list_lookup_fmap. cbn [coalesce0].
  destruct (lookup_lt_is_Some_2 _ _ Hlt) as [o ->]. done.
Qed.

(** The rows after a run that stays within the sizes, whatever the
    statistics. *)
Lemma align_rows fic process_name t pbs :
  bucket_cols t ≠ [] →
  Forall within_limits (main_query fic process_name (rows t) pbs) →
  ∃ st,
    align_buckets_to_balance fic process_name (Some t) pbs
    = (AlignSuccess st,
       Some (mkReportTable (bucket_cols t)
               ((λ r, foldl (λ r q, row_step q r) r
                        (main_query fic process_name (rows t) pbs))
                <$> rows t))).
Proof.
  intros Hne Hqs. unfold align_buckets_to_balance.
  destruct (bucket_cols t) as [|c cs] eqn:Hc; [done|].
  destruct (foldl_process_row_within _ (rows t) (mkStats 0 0 0 0 0) Hqs)
    as [st ->].
  exists st. by rewrite foldl_row_step_rows.
Qed.

(** The value of bucket column [idx] of a row, NULL counting as zero. *)
Definition bucket_value (r : ReportRow) (idx : nat) : Z :=
  coalesce0 (default None (rc_buckets r !! idx)).

Lemma foldl_row_step_main_query fic process_name tbl pbs r pb :
  NoDup (id <$> tbl) → r ∈ tbl → selected fic process_name r →
  matching_balances pbs r = [pb] →
  foldl (λ r q, row_step q r) r (main_query fic process_name tbl pbs)
  = row_step (query_row r (Some (n_balance pb))) r.
Proof.
  intros Hnd Hin Hsel Hm.
  destruct (main_query_split fic process_name tbl pbs r Hnd Hin Hsel)
    as (l1 & l2 & -> & H1 & H2).
  unfold joined. rewrite Hm. cbn [fmap list_fmap app].
  rewrite foldl_app, (foldl_row_step_other l1 r) by done. cbn [foldl].
  apply foldl_row_step_other. by rewrite row_step_id.
Qed.

(** The row a run leaves for a selected row [r] with target [pb]. *)
Lemma row_step_reconciles r pb :
  rc_buckets r ≠ [] →
  let r' := row_step (query_row r (Some (n_balance pb))) r in
  bucket_total r' = quantize_half_up BALANCE_UNIT (n_balance pb)
  ∧ ∃ idx, (idx < length (rc_buckets r))%nat
      ∧ bucket_value r' idx
        = bucket_value r idx
          + (quantize_half_up BALANCE_UNIT (n_balance pb) - bucket_total r)
      ∧ ∀ j : nat, j ≠ idx → rc_buckets r' !! j = rc_buckets r !! j.
Proof.
  intros Hne r'. subst r'. unfold row_step, decide_row.
  cbn [query_row q_target_balance q_buckets q_id].
  change (sum_list (coalesce0 <$> rc_buckets r)) with (bucket_total r).
  set (d := quantize_half_up BALANCE_UNIT (n_balance pb) - bucket_total r).
  destruct (Z.eqb_spec d 0) as [Hd|Hd].
  - split; [lia|]. exists 0%nat. split; [|split; [lia|done]].
    destruct (rc_buckets r); [done|cbn; lia].
  - assert (coalesce0 <$> rc_buckets r ≠ []) as Hne'
      by (destruct (rc_buckets r); done).
    destruct (best_bucket_policy d _ Hne') as (idx & -> & Hpol).
    apply selection_policy_lt in Hpol. rewrite length_fmap in Hpol.
    rewrite decide_True by done.
    assert (default 0 ((coalesce0 <$> rc_buckets r) !! idx)
            = bucket_value r idx) as ->.
    { unfold bucket_value. rewrite list_lookup_fmap.
      by destruct (rc_buckets r !! idx). }
    split; [|exists idx; split; [done|split]].
    + rewrite bucket_total_set_bucket by done.
      fold (bucket_value r idx). lia.
    + unfold bucket_value at 1, set_bucket. cbn [rc_buckets].
      by rewrite list_lookup_insert_eq.
    + intros j Hj. unfold set_bucket. cbn [rc_buckets].
      by rewrite list_lookup_insert_ne.
Qed.

(** C1 (amended): in a run of [align_buckets_to_balance] that stays within
    the sizes -- for each row of its query the quantized target balance and
    its difference from the bucket total have at most 28 digits and the
    value to write fits the NUMERIC(20,2) bucket column, so that no
    statement of the run fails -- for every row of the per-snapshot report
    relation that the run selects (its snapshot date is the date of the run
    and, when the run is given a process name, its process name is that
    one) and that has a matching target-balance record (same snapshot date,
    product code and currency), in a relation that has at least one bucket
    column, the run completes and afterwards the sum of the row's bucket
    columns equals the target balance quantized to two decimal places
    round-half-up, so that it differs from the target balance by at most
    the tolerance 0.01; the entire difference (quantized target minus
    pre-adjustment sum) was added to exactly one bucket column, all other
    bucket columns being unchanged. *)
Theorem align_reconciles_selected_rows
    fic process_name t pbs (k : nat) r pb :
  NoDup (id <$> rows t) →
  bucket_cols t ≠ [] →
  length (rc_buckets r) = length (bucket_cols t) →
  rows t !! k = Some r →
  selected fic process_name r →
  matching_balances pbs r = [pb] →
  Forall within_limits (main_query fic process_name (rows t) pbs) →
  ∃ st rows' r',
    align_buckets_to_balance fic process_name (Some t) pbs
    = (AlignSuccess st, Some (mkReportTable (bucket_cols t) rows'))
    ∧ rows' !! k = Some r'
    ∧ bucket_total r' = quantize_half_up BALANCE_UNIT (n_balance pb)
    ∧ Z.abs (bucket_total r' * BALANCE_UNIT - n_balance pb) ≤ BALANCE_UNIT
    ∧ ∃ idx, (idx < length (bucket_cols t))%nat
        ∧ bucket_value r' idx
          = bucket_value r idx
            + (quantize_half_up BALANCE_UNIT (n_balance pb) - bucket_total r)
        ∧ ∀ j : nat, j ≠ idx → rc_buckets r' !! j = rc_buckets r !! j.
Proof.
  intros Hnd Hcols Hlen Hk Hsel Hm Hsize.
  destruct (align_rows fic process_name t pbs Hcols Hsize) as [st Heq].
  eexists st, _, _. split; [exact Heq|].
  split; [by rewrite list_lookup_fmap, Hk|].
  rewrite (foldl_row_step_main_query _ _ _ _ _ pb Hnd)
    by (done || by eapply list_elem_of_lookup_2).
  assert (rc_buckets r ≠ []) as Hne.
  { intros E. rewrite E in Hlen. by destruct (bucket_cols t). }
  destruct (row_step_reconciles r pb Hne) as (Hsum & idx & Hidx & Hrest).
  split; [done|]. split.
  - rewrite Hsum.
    pose proof (quantize_half_up_error BALANCE_UNIT (n_balance pb)) as He.
    unfold BALANCE_UNIT in *. lia.
  - exists idx. by rewrite <- Hlen.
Qed.

(** The report relation of the end-to-end scenario: one product row with
    1000.00 in one bucket, and a target balance of 1200 for it. *)
Definition scenario_row : ReportRow :=
  mkReportRow 1 (mkdate 2025 4 30) "contractual" "P1" "USD" "LOANS"
    [Some 100000; Some 0; None].

Definition scenario_table : ReportTable :=
  mkReportTable
    [ "bucket_001_20250430_20250507"; "bucket_002_20250508_20250608";
      "bucket_003_20250609_20300609" ]%string
    [scenario_row].

Definition scenario_balance : ProductBalance :=
  mkProductBalance (mkdate 2025 4 30) "P1" "USD" 12000000000000.

Lemma align_reconciles_selected_rows_witness :
  ∃ st rows' r',
    align_buckets_to_balance (mkdate 2025 4 30) None (Some scenario_table)
      [scenario_balance]
    = (AlignSuccess st, Some (mkReportTable (bucket_cols scenario_table) rows'))
    ∧ rows' !! 0%nat = Some r'
    ∧ bucket_total r'
      = quantize_half_up BALANCE_UNIT (n_balance scenario_balance)
    ∧ Z.abs (bucket_total r' * BALANCE_UNIT - n_balance scenario_balance)
      ≤ BALANCE_UNIT
    ∧ ∃ idx, (idx < length (bucket_cols scenario_table))%nat
        ∧ bucket_value r' idx
          = bucket_value scenario_row idx
            + (quantize_half_up BALANCE_UNIT (n_balance scenario_balance)
               - bucket_total scenario_row)
        ∧ ∀ j : nat, j ≠ idx →
            rc_buckets r' !! j = rc_buckets scenario_row !! j.
Proof.
  apply (align_reconciles_selected_rows (mkdate 2025 4 30) None
           scenario_table [scenario_balance] 0 scenario_row scenario_balance).
  - apply NoDup_singleton.
  - discriminate.
  - reflexivity.
  - reflexivity.
  - split; [reflexivity|exact I].
  - vm_compute; reflexivity.
  - repeat constructor; vm_compute; done.
Defined.

(** The run of the scenario adds 200.00 to the bucket holding 1000.00. *)
Example scenario_alignment :
  align_buckets_to_balance (mkdate 2025 4 30) None (Some scenario_table)
    [scenario_balance]
  = (AlignSuccess (mkStats 1 1 0 0 0),
     Some (mkReportTable (bucket_cols scenario_table)
             [ mkReportRow 1 (mkdate 2025 4 30) "contractual" "P1" "USD"
                 "LOANS" [Some 120000; Some 0; None] ])).
Proof. vm_compute; reflexivity. Qed.

(** C1 as stated, for every row of the relation that has a matching
    target-balance record. *)
Definition reconciled_as_stated (fic : date) (process_name : option string)
    (t : ReportTable) (pbs : list ProductBalance) : Prop :=
  ∀ (k : nat) r pb,
    rows t !! k = Some r → matching_balances pbs r = [pb] →
    ∃ st rows' r',
      align_buckets_to_balance fic process_name (Some t) pbs
      = (AlignSuccess st, Some (mkReportTable (bucket_cols t) rows'))
      ∧ rows' !! k = Some r'
      ∧ Z.abs (bucket_total r' * BALANCE_UNIT - n_balance pb) ≤ BALANCE_UNIT.

(** A run restricted to another process leaves the row of the scenario as
    it is, 200.00 away from its target balance. *)
Lemma align_skips_other_process :
  ¬ reconciled_as_stated (mkdate 2025 4 30) (Some "behavioural"%string)
      scenario_table [scenario_balance].
Proof.
  intros H.
  destruct (H 0%nat scenario_row scenario_balance eq_refl)
    as (st & rows' & r' & Heq & Hk & Htol).
  { vm_compute; reflexivity. }
  vm_compute in Heq. injection Heq as _ <-.
  injection Hk as <-. vm_compute in Htol. by apply Htol.
Qed.

End ReconcilerFacts.

(** ** Schema Synchronizer ([functions/bucket_column_sync.py]) *)

Module SchemaSync.
Import Calendar BucketGen.

(** SQL [LIKE]: [%] matches any run of characters, [_] any one character,
    and a backslash makes the next character of the pattern literal. *)
Fixpoint like_match (pattern : list ascii) : list ascii → bool :=
  match pattern with
  | [] => λ s, match s with [] => true | _ => false end
  | p :: pattern' =>
      if Ascii.eqb p "%" then
        fix any (s : list ascii) : bool :=
          like_match pattern' s
          || match s with [] => false | _ :: s' => any s' end
      else if Ascii.eqb p "_" then
        λ s, match s with [] => false | _ :: s' => like_match pattern' s' end
      else if Ascii.eqb p "\" then
        match pattern' with
        | [] => λ _, false
        | q :: pattern'' =>
            λ s, match s with
                 | [] => false
                 | c :: s' => Ascii.eqb q c && like_match pattern'' s'
                 end
        end
      else
        λ s, match s with
             | [] => false
             | c :: s' => Ascii.eqb p c && like_match pattern' s'
             end
  end.

Definition sql_like (s pattern : string) : bool :=
  like_match (list_ascii_of_string pattern) (list_ascii_of_string s).

(** [_get_bucket_cols_pg]: the columns whose name is [LIKE 'bucket_%'], in
    column order. *)
Definition _get_bucket_cols_pg (columns : list string) : list string :=
  filter (λ c, sql_like c "bucket_%" = true) columns.

(** [_drop_columns]: one [DROP COLUMN IF EXISTS] per name. *)
Definition _drop_columns (columns cols : list string) : list string :=
  foldl (λ columns c, filter (λ x, x ≠ c) columns) columns cols.

(** [ADD COLUMN IF NOT EXISTS] *)
Definition add_column_if_not_exists (columns : list string) (c : string)
    : list string :=
  if decide (c ∈ columns) then columns else columns ++ [c].

Definition pad_left (width : nat) (s : string) : string :=
  string_of_list_ascii
    (replicate (width - String.length s) "0"%char ++ list_ascii_of_string s).

(** [f"{n:03d}"] *)
Definition format_03d (n : Z) : string :=
  if n <? 0 then String "-" (pad_left 2 (pretty (- n)))
  else pad_left 3 (pretty n).

(** [f"{d:%Y%m%d}"], the year written with four digits. *)
Definition format_Ymd (d : date) : string :=
  pad_left 4 (pretty (year d)) +:+ pad_left 2 (pretty (month d))
  +:+ pad_left 2 (pretty (day d)).

Definition is_identifier_char (c : ascii) : bool :=
  let n := N_of_ascii c in
  ((48 <=? n) && (n <=? 57) || (65 <=? n) && (n <=? 90)
   || (97 <=? n) && (n <=? 122) || (n =? 95))%N.

(** [bucket_column_name]: every character outside [0-9A-Za-z_] becomes an
    underscore and the name is cut to 63 characters. *)
Definition bucket_column_name (bucket : TimeBucketMaster) : string :=
  let raw :=
    "bucket_" +:+ format_03d (bucket_number bucket) +:+ "_"
    +:+ format_Ymd (start_date bucket) +:+ "_"
    +:+ format_Ymd (end_date bucket) in
  string_of_list_ascii
    (take 63 ((λ c, if is_identifier_char c then c else "_"%char)
              <$> list_ascii_of_string raw)).

Definition ascii_lower (c : ascii) : ascii :=
  let n := N_of_ascii c in
  if ((65 <=? n) && (n <=? 90))%N then ascii_of_N (n + 32) else c.

Definition lower (s : string) : string :=
  string_of_list_ascii (ascii_lower <$> list_ascii_of_string s).

Definition is_digit (c : ascii) : bool :=
  let n := N_of_ascii c in ((48 <=? n) && (n <=? 57))%N.

(** [re.fullmatch(r"report_contractual_\d{8}", name)] *)
Definition is_snapshot_name (name : string) : bool :=
  let cs := list_ascii_of_string name in
  bool_decide (take 19 cs = list_ascii_of_string "report_contractual_")
  && (length (drop 19 cs) =? 8)%nat && forallb is_digit (drop 19 cs).

Definition by_bucket_number (a b : TimeBucketMaster) : Prop :=
  bucket_number a ≤ bucket_number b.

#[global] Instance by_bucket_number_dec : RelDecision by_bucket_number.
Proof. intros a b. unfold by_bucket_number. apply _. Defined.

(** The names step 2 of [sync_bucket_columns] ensures, in order. *)
Definition required_columns (process : string)
    (tbm : list TimeBucketMaster) : list string :=
  bucket_column_name
  <$> merge_sort by_bucket_number
        (filter (λ b, process_name b = process) tbm).

(** [sync_bucket_columns]: the columns of [table_name] afterwards.
    [default_process] is the name of the first [Process] row, if any. *)
Definition sync_bucket_columns (table_name : string) (rebuild : bool)
    (default_process : option string) (tbm : list TimeBucketMaster)
    (columns : list string) : list string :=
  let process := default "" default_process in
  let is_snapshot := is_snapshot_name (lower table_name) in
  let must_rebuild :=
    rebuild || is_snapshot
    || bool_decide (lower table_name = "report_contractual_base") in
  let columns :=
    if must_rebuild then _drop_columns columns (_get_bucket_cols_pg columns)
    else columns in
  foldl add_column_if_not_exists columns (required_columns process tbm).

(** A column is dropped by a run when it is there before and not after. *)
Definition dropped (before after : list string) (c : string) : Prop :=
  c ∈ before ∧ c ∉ after.

End SchemaSync.

Module SchemaSyncExamples.
Import Calendar BucketGen SchemaSync.

Example bucket_column_name_doc :
  bucket_column_name
    (mkTimeBucketMaster "contractual" 3 (mkdate 2025 1 1) (mkdate 2025 3 31)
       (mkdate 2025 1 1))
  = "bucket_003_20250101_20250331"%string.
Proof. vm_compute; reflexivity. Qed.

Example like_prefix : sql_like "bucket_001_x" "bucket_%" = true.
Proof. reflexivity. Qed.

Example like_wildcard : sql_like "bucketsize" "bucket_%" = true.
Proof. reflexivity. Qed.

Example like_escaped : sql_like "bucketsize" "bucket\_%" = false.
Proof. reflexivity. Qed.

Example like_short : sql_like "bucket" "bucket_%" = false.
Proof. reflexivity. Qed.

End SchemaSyncExamples.

Module SchemaSyncFacts.
Import Calendar BucketGen SchemaSync.

Definition bucket_like (c : string) : Prop := sql_like c "bucket_%" = true.

Lemma like_match_percent s : like_match ["%"%char] s = true.
Proof. induction s as [|c s IH]; [done|]. cbn in *. exact IH. Qed.

(** A name that begins with "bucket" and has one more character matches the
    pattern, whatever that character is. *)
Lemma like_bucket_prefix c s :
  like_match (list_ascii_of_string "bucket_%")
    ("b" :: "u" :: "c" :: "k" :: "e" :: "t" :: c :: s)%char = true.
Proof. apply (like_match_percent s). Qed.

Lemma bucket_column_name_like b : bucket_like (bucket_column_name b).
Proof.
  unfold bucket_like, sql_like, bucket_column_name.
  rewrite list_ascii_of_string_of_list_ascii.
  cbn [String.append list_ascii_of_string fmap list_fmap take].
  change (is_identifier_char "b") with true.
  change (is_identifier_char "u") with true.
  change (is_identifier_char "c") with true.
  change (is_identifier_char "k") with true.
  change (is_identifier_char "e") with true.
  change (is_identifier_char "t") with true.
  change (is_identifier_char "_") with true.
  cbv iota. apply like_bucket_prefix.
Qed.

Lemma drop_columns_filter (columns names : list string) :
  _drop_columns columns names = filter (λ x, x ∉ names) columns.
Proof.
  unfold _drop_columns. revert columns.
  induction names as [|c names IH]; intros columns; cbn [foldl].
  - symmetry. apply filter_all, Forall_forall. intros x _. apply not_elem_of_nil.
  - rewrite IH, list_filter_filter. apply list_filter_iff.
    intros x. rewrite not_elem_of_cons. tauto.
Qed.

(** The rebuild step keeps exactly the columns that do not match the
    pattern. *)
Lemma drop_bucket_columns columns :
  _drop_columns columns (_get_bucket_cols_pg columns)
  = filter (λ c, ¬ bucket_like c) columns.
Proof.
  rewrite drop_columns_filter. unfold _get_bucket_cols_pg.
  apply filter_ext_in. intros x Hx. rewrite list_elem_of_filter.
  fold (bucket_like x). tauto.
Qed.

Lemma add_columns_prefix (columns names : list string) :
  ∃ added, foldl add_column_if_not_exists columns names = columns ++ added
           ∧ Forall (λ c, c ∈ names) added.
Proof.
  revert columns. induction names as [|c names IH]; intros columns.
  - exists []. by rewrite app_nil_r.
  - cbn [foldl]. unfold add_column_if_not_exists at 2.
    destruct (decide (c ∈ columns)).
    + destruct (IH columns) as (added & -> & Hadd). exists added.
      split; [done|]. eapply Forall_impl; [exact Hadd|]. intros x Hx. by right.
    + destruct (IH (columns ++ [c])) as (added & -> & Hadd).
      exists (c :: added). split; [by rewrite <- app_assoc|].
      constructor; [left|]. eapply Forall_impl; [exact Hadd|].
      intros x Hx. by right.
Qed.

Lemma add_columns_present (columns names : list string) :
  Forall (λ c, c ∈ columns) names →
  foldl add_column_if_not_exists columns names = columns.
Proof.
  induction 1 as [|c names Hc _ IH]; [done|].
  cbn [foldl]. unfold add_column_if_not_exists at 2.
  by rewrite decide_True.
Qed.

Lemma add_columns_all (columns names : list string) :
  Forall (λ c, c ∈ foldl add_column_if_not_exists columns names) names.
Proof.
  revert columns. induction names as [|c names IH]; intros columns.
  - constructor.
  - cbn [foldl]. constructor; [|apply IH].
    destruct (add_columns_prefix (add_column_if_not_exists columns c) names)
      as (added & -> & _).
    apply elem_of_app. left. unfold add_column_if_not_exists.
    destruct (decide (c ∈ columns)); [done|]. apply elem_of_app. right. left.
Qed.

(** Running the synchronizer twice with the same bucket master leaves the
    columns as one run leaves them. *)
Lemma sync_bucket_columns_idempotent table_name rebuild default_process tbm
    columns :
  sync_bucket_columns table_name rebuild default_process tbm
    (sync_bucket_columns table_name rebuild default_process tbm columns)
  = sync_bucket_columns table_name rebuild default_process tbm columns.
Proof.
  unfold sync_bucket_columns.
  set (names := required_columns _ tbm).
  destruct (_ || _ || _).
  - rewrite !drop_bucket_columns.
    set (kept := filter (λ c, ¬ bucket_like c) columns).
    destruct (add_columns_prefix kept names) as (added & Heq & Hadd).
    rewrite Heq at 1. rewrite filter_app.
    assert (filter (λ c, ¬ bucket_like c) kept = kept) as ->.
    { apply filter_all, Forall_forall. intros c Hc.
      by apply list_elem_of_filter in Hc as [? _]. }
    assert (filter (λ c, ¬ bucket_like c) added = []) as ->.
    { apply filter_none, Forall_forall. intros c Hc Hn. apply Hn.
      rewrite Forall_forall in Hadd. specialize (Hadd c Hc).
      apply list_elem_of_fmap in Hadd as (b & -> & _).
      apply bucket_column_name_like. }
    by rewrite app_nil_r.
  - apply add_columns_present, add_columns_all.
Qed.

(** A column whose name does not match [LIKE 'bucket_%'] survives a run. *)
Lemma sync_keeps_unmatched table_name rebuild default_process tbm columns c :
  c ∈ columns → ¬ bucket_like c →
  c ∈ sync_bucket_columns table_name rebuild default_process tbm columns.
Proof.
  intros Hc Hn. unfold sync_bucket_columns.
  set (names := required_columns _ tbm).
  destruct (_ || _ || _).
  - rewrite drop_bucket_columns.
    destruct (add_columns_prefix (filter (λ c, ¬ bucket_like c) columns) names)
      as (added & -> & _).
    apply elem_of_app. left. by apply list_elem_of_filter.
  - destruct (add_columns_prefix columns names) as (added & -> & _).
    apply elem_of_app. by left.
Qed.

Definition scenario_master : list TimeBucketMaster :=
  [ mkTimeBucketMaster "contractual" 1 (mkdate 2025 4 30) (mkdate 2025 5 7)
      (mkdate 2025 4 30) ].

(** C5 (the code at the failing input): on a relation with the columns
    id, bucketsize and bucket_001_20250101_20250107 a run of
    [sync_bucket_columns] on Report_Contractual_Base drops the column
    bucketsize, whose name does not start with "bucket_": the underscore of
    the pattern 'bucket_%' stands for any character. *)
Theorem sync_drops_column_without_prefix :
  let before :=
    [ "id"; "bucketsize"; "bucket_001_20250101_20250107" ]%string in
  let after :=
    sync_bucket_columns "Report_Contractual_Base" false (Some "contractual"%string)
      scenario_master before in
  after = [ "id"; "bucket_001_20250430_20250507" ]%string
  ∧ dropped before after "bucketsize"
  ∧ ¬ String.prefix "bucket_" "bucketsize" = true.
Proof.
  cbv zeta. split; [vm_compute; reflexivity|]. split; [|by vm_compute].
  split; [set_solver|].
  assert (sync_bucket_columns "Report_Contractual_Base" false
            (Some "contractual"%string) scenario_master
            [ "id"; "bucketsize"; "bucket_001_20250101_20250107" ]%string
          = [ "id"; "bucket_001_20250430_20250507" ]%string) as ->
    by (vm_compute; reflexivity).
  intros [H|[H|H]%elem_of_cons]%elem_of_cons; [discriminate..|].
  by apply elem_of_nil in H.
Qed.

End SchemaSyncFacts.

(** ** Python dictionaries that are iterated

    A [dict] keeps its items in insertion order; assigning to a key that is
    present replaces the value where the key stands. *)

Module PyDict.
Section dict.
Context {K V : Type} `{EqDecision K}.

Definition dict : Type := list (K * V).

Fixpoint dict_get (k : K) (d : dict) : option V :=
  match d with
  | [] => None
  | (k', v) :: d' => if decide (k' = k) then Some v else dict_get k d'
  end.

Fixpoint dict_set (k : K) (v : V) (d : dict) : dict :=
  match d with
  | [] => [(k, v)]
  | (k', v') :: d' =>
      if decide (k' = k) then (k, v) :: d' else (k', v') :: dict_set k v d'
  end.

End dict.
Arguments dict : clear implicits.
End PyDict.

(** ** Rows of a per-snapshot report relation, as the loaders read them *)

Module ReportCells.

(** A cell of a row: NULL, a number (amounts in cents) or a text. *)
Inductive cell : Type :=
  | CNull
  | CNum (z : Z)
  | CText (s : string).

(** The source relation: its columns in ordinal position and its rows, each
    row giving the cells of the columns other than id, in that order. *)
Record SourceTable : Type := mkSourceTable {
  columns : list string;
  src_rows : list (list cell)
}.

End ReportCells.

(** ** Behavioral Respreader ([functions/report_behavioural_loader.py]) *)

Module Respreader.
Import Money PyDict SchemaSync.
Export ReportCells.

(** One cent is 10^5 units of [amount * (percentage / 100)]: amounts have
    two decimal places, percentages three. *)
Definition SPREAD_UNIT : Z := 100000.

(** [BehavioralPatternSplit]: bucket number and percentage, the percentage
    in thousandths of a percent (DecimalField with three places). *)
Record BehavioralPatternSplit : Type := mkSplit {
  bucket_number : Z;
  percentage : Z
}.

(** [BehavioralPattern] with its splits. *)
Record BehavioralPattern : Type := mkPattern {
  v_prod_type : string;
  splits : list BehavioralPatternSplit
}.

(** [{s.bucket_number: s.percentage / Decimal("100") for s in splits}];
    the quotient has five decimal places and is kept as an integer number
    of 10^-5. *)
Definition splits_dict (p : BehavioralPattern) : dict Z Z :=
  foldl (λ d s, dict_set (bucket_number s) (percentage s) d) [] (splits p).

(** The dictionary [patterns]: a pattern without splits is left out. *)
Definition load_patterns (pats : list BehavioralPattern)
    : dict string (dict Z Z) :=
  foldl (λ d pat,
           match splits_dict pat with
           | [] => d
           | sp => dict_set (v_prod_type pat) sp d
           end) [] pats.

Fixpoint split_on (sep : ascii) (cs : list ascii) : list (list ascii) :=
  match cs with
  | [] => [[]]
  | c :: cs' =>
      if Ascii.eqb c sep then [] :: split_on sep cs'
      else match split_on sep cs' with
           | p :: ps => (c :: p) :: ps
           | [] => [[c]]
           end
  end.

Fixpoint lstrip (ch : ascii) (cs : list ascii) : list ascii :=
  match cs with
  | c :: cs' => if Ascii.eqb c ch then lstrip ch cs' else cs
  | [] => []
  end.

(** [int(s)] for a string of letters and digits: the number when every
    character is a digit and there is at least one, otherwise ValueError
    ([None]). *)
Definition int_of_digits (cs : list ascii) : option Z :=
  match cs with
  | [] => None
  | _ =>
      foldl (λ acc c,
               n ← acc;
               d ← Strptime.digit_val c;
               Some (10 * n + d)) (Some 0) cs
  end.

(** The bucket number of a column name: [parts[1]] raises IndexError when
    the name has no underscore; a part that is not a number is skipped. *)
Definition column_bucket_no (col : string) : result (option Z) :=
  match split_on "_" (list_ascii_of_string col) with
  | _ :: part :: _ =>
      let stripped := lstrip "0" part in
      Ok (int_of_digits (match stripped with
                         | [] => list_ascii_of_string "0"
                         | _ => stripped
                         end))
  | _ => Raise IndexError
  end.

(** [bucket_map]: bucket number to column name. *)
Fixpoint build_bucket_map (bucket_cols : list string) (m : dict Z string)
    : result (dict Z string) :=
  match bucket_cols with
  | [] => Ok m
  | col :: rest =>
      no ← column_bucket_no col;
      match no with
      | None => build_bucket_map rest m
      | Some n => build_bucket_map rest (dict_set n col m)
      end
  end.

(** [row_dict[col] or Decimal("0")] for a bucket column. *)
Definition row_amount (row_dict : gmap string cell) (col : string) : Z :=
  match row_dict !! col with
  | Some (CNum z) => z
  | _ => 0
  end.

(** The inner loop: one source amount spread over the splits. *)
Definition spread_amount (bucket_map : dict Z string) (splits : dict Z Z)
    (amt : Z) (new_bucket_vals : gmap string Z) : gmap string Z :=
  foldl (λ vals '(dst_bucket_no, pct),
           match dict_get dst_bucket_no bucket_map with
           | Some dst_col =>
               if decide (dst_col = ""%string) then vals
               else alter (λ v, v + amt * pct) dst_col vals
           | None => vals
           end) new_bucket_vals splits.

(** The loop over the source buckets, before rounding: amounts in units of
    10^-7. *)
Definition spread_row (bucket_cols : list string) (bucket_map : dict Z string)
    (splits : dict Z Z) (row_dict : gmap string cell) : gmap string Z :=
  foldl (λ vals '(src_bucket_no, col_name),
           let amt := row_amount row_dict col_name in
           if amt =? 0 then vals
           else spread_amount bucket_map splits amt vals)
        (list_to_map ((λ col, (col, 0)) <$> bucket_cols)) bucket_map.

(** The amounts written for a row: each rounded to two decimal places. *)
Definition respread (bucket_cols : list string) (bucket_map : dict Z string)
    (splits : dict Z Z) (row_dict : gmap string cell) : gmap string Z :=
  quantize_half_up SPREAD_UNIT
  <$> spread_row bucket_cols bucket_map splits row_dict.

Definition cell_text (c : option cell) : option string :=
  match c with
  | Some (CText s) => Some s
  | _ => None
  end.

(** The loop body for one source row: [None] when the row is skipped. *)
Definition respread_row (patterns : dict string (dict Z Z))
    (ordered_cols bucket_cols : list string) (bucket_map : dict Z string)
    (row : list cell) : option (list cell) :=
  let row_dict : gmap string cell := list_to_map (zip ordered_cols row) in
  prod_type ← cell_text (row_dict !! "v_prod_type"%string);
  match dict_get prod_type patterns with
  | None | Some [] => None
  | Some splits =>
      let new_bucket_vals := respread bucket_cols bucket_map splits row_dict in
      Some ((λ col,
               if decide (col ∈ bucket_cols)
               then CNum (default 0 (new_bucket_vals !! col))
               else default CNull (row_dict !! col)) <$> ordered_cols)
  end.

(** [load_report_behavioural]: the number of rows inserted and the rows of
    the behavioural relation, which is created empty at the start. *)
Definition load_report_behavioural (pats : list BehavioralPattern)
    (src : SourceTable) : result (nat * list (list cell)) :=
  let patterns := load_patterns pats in
  match patterns with
  | [] => Ok (0%nat, [])
  | _ =>
      let bucket_cols :=
        filter (λ c, sql_like c "bucket_%" = true) (columns src) in
      bucket_map ← build_bucket_map bucket_cols [];
      let ordered_cols := filter (λ c, c ≠ "id"%string) (columns src) in
      let inserted :=
        omap (respread_row patterns ordered_cols bucket_cols bucket_map)
             (src_rows src) in
      Ok (length inserted, inserted)
  end.

End Respreader.

Module RespreaderFacts.
Import Money MoneyFacts PyDict SchemaSync Respreader.

(** A bucket number maps to a bucket column of the snapshot table. *)
Definition mapped (bucket_map : dict Z string) (bucket_no : Z) : Prop :=
  match dict_get bucket_no bucket_map with
  | Some col => col ≠ ""%string
  | None => False
  end.

#[global] Instance mapped_dec bucket_map bucket_no :
  Decision (mapped bucket_map bucket_no).
Proof. unfold mapped. destruct (dict_get _ _); apply _. Defined.

Definition split_mapped (bucket_map : dict Z string) (split : Z * Z) : Prop :=
  mapped bucket_map split.1.

#[global] Instance split_mapped_dec bucket_map split :
  Decision (split_mapped bucket_map split).
Proof. unfold split_mapped. apply _. Defined.

Lemma foldl_filter_neutral {A B} (f : A → B → A) (P : B → Prop)
    `{!∀ x, Decision (P x)} (l : list B) (a : A) :
  (∀ a x, ¬ P x → f a x = a) →
  foldl f a (filter P l) = foldl f a l.
Proof.
  intros Hn. revert a. induction l as [|x l IH]; intros a; [done|].
  rewrite filter_cons. destruct (decide (P x)); cbn [foldl].
  - apply IH.
  - by rewrite Hn, IH.
Qed.

Lemma foldl_ext_fun {A B} (f g : A → B → A) (l : list B) (a : A) :
  (∀ a x, f a x = g a x) → foldl f a l = foldl g a l.
Proof.
  intros Hfg. revert a. induction l as [|x l IH]; intros a; [done|].
  cbn. by rewrite Hfg, IH.
Qed.

Lemma spread_amount_mapped bucket_map splits amt vals :
  spread_amount bucket_map (filter (split_mapped bucket_map) splits) amt vals
  = spread_amount bucket_map splits amt vals.
Proof.
  unfold spread_amount. apply foldl_filter_neutral.
  intros a [n pct]. unfold split_mapped, mapped. cbn.
  destruct (dict_get n bucket_map) as [col|]; [|done].
  destruct (decide (col = ""%string)); [done|tauto].
Qed.

Lemma dict_set_not_nil {K V} `{EqDecision K} (k : K) (v : V) d :
  dict_set k v d ≠ [].
Proof. destruct d as [|[k' v'] d]; cbn; [done|]. by destruct (decide _). Qed.

Lemma splits_dict_nil p : splits_dict p = [] ↔ splits p = [].
Proof.
  unfold splits_dict. split; [|by intros ->].
  destruct (splits p) as [|s l]; [done|]. cbn [foldl].
  assert (∀ d : dict Z Z, d ≠ [] →
            foldl (λ d s, dict_set (bucket_number s) (percentage s) d) d l
            ≠ []) as Hne.
  { induction l as [|s' l IH]; intros d Hd; [done|].
    cbn. apply IH, dict_set_not_nil. }
  intros H. by apply Hne in H; [|apply dict_set_not_nil].
Qed.

Lemma load_patterns_nonempty pats :
  load_patterns (filter (λ p, splits p ≠ []) pats) = load_patterns pats.
Proof.
  unfold load_patterns. apply foldl_filter_neutral.
  intros d p Hp. destruct (splits_dict p) eqn:E; [done|].
  destruct Hp. intros Hs. apply splits_dict_nil in Hs. congruence.
Qed.

(** *** Conservation *)

(** The sum over the bucket columns of the amounts of a dictionary. *)
Definition total (cols : list string) (vals : gmap string Z) : Z :=
  sum_list ((λ c, default 0 (vals !! c)) <$> cols).

(** The sum of the bucket amounts of a source row. *)
Definition source_total (cols : list string) (row_dict : gmap string cell)
    : Z :=
  sum_list (row_amount row_dict <$> cols).

(** The sum of the percentages of a pattern, in thousandths of a percent. *)
Definition percent_total (splits : dict Z Z) : Z := sum_list (snd <$> splits).

(** Conservation within the rounding of each destination bucket: the two
    sums, in cents, differ by at most half a cent per bucket column. *)
Definition conserved (cols : list string) (row_dict : gmap string cell)
    (written : gmap string Z) : Prop :=
  2 * Z.abs (total cols written - source_total cols row_dict)
  ≤ Z.of_nat (length cols).

Definition covers (cols : list string) (vals : gmap string Z) : Prop :=
  ∀ c, c ∈ cols → is_Some (vals !! c).

Lemma sum_list_cons x l : sum_list (x :: l) = x + sum_list l.
Proof. reflexivity. Qed.

Lemma sum_list_app l1 l2 : sum_list (l1 ++ l2) = sum_list l1 + sum_list l2.
Proof.
  induction l1 as [|x l1 IH]; [done|].
  rewrite <- app_comm_cons, !sum_list_cons, IH. lia.
Qed.

Lemma init_vals_lookup (cols : list string) c :
  default 0
    ((list_to_map ((λ col, (col, 0)) <$> cols) : gmap string Z) !! c) = 0.
Proof.
  induction cols as [|c' cols IH]; [done|].
  rewrite fmap_cons, list_to_map_cons, lookup_insert.
  by destruct (decide (c' = c)).
Qed.

Lemma init_vals_covers (cols : list string) :
  covers cols (list_to_map ((λ col, (col, 0)) <$> cols)).
Proof.
  induction cols as [|c' cols IH]; intros c Hc; [by apply elem_of_nil in Hc|].
  rewrite fmap_cons, list_to_map_cons, lookup_insert.
  destruct (decide (c' = c)); [by eexists|].
  apply IH. apply elem_of_cons in Hc as [->|Hc]; done.
Qed.

Lemma total_init (cols : list string) :
  total cols (list_to_map ((λ col, (col, 0)) <$> cols)) = 0.
Proof.
  unfold total. generalize (list_to_map ((λ col, (col, 0)) <$> cols)
                              : gmap string Z) (init_vals_lookup cols).
  intros m Hm. induction cols as [|c cols' IH]; [done|].
  rewrite fmap_cons, sum_list_cons, Hm, IH. done.
Qed.

Lemma total_alter_other cols (vals : gmap string Z) c f :
  c ∉ cols → total cols (alter f c vals) = total cols vals.
Proof.
  unfold total. induction cols as [|c' cols IH]; intros Hc; [done|].
  apply not_elem_of_cons in Hc as [Hne Hc].
  rewrite !fmap_cons, !sum_list_cons, IH by done.
  by rewrite lookup_alter_ne.
Qed.

Lemma total_alter cols (vals : gmap string Z) c x :
  NoDup cols → c ∈ cols → is_Some (vals !! c) →
  total cols (alter (λ v, v + x) c vals) = total cols vals + x.
Proof.
  intros Hnd Hc [v Hv]. induction Hnd as [|c' cols Hnot Hnd IH].
  - by apply elem_of_nil in Hc.
  - unfold total in *. rewrite !fmap_cons, !sum_list_cons.
    destruct (decide (c = c')) as [<-|Hne].
    + fold (total cols (alter (λ v, v + x) c vals)) (total cols vals).
      rewrite total_alter_other by done.
      rewrite lookup_alter_eq, Hv. cbn. lia.
    + apply elem_of_cons in Hc as [?|Hc]; [done|].
      rewrite IH by done. rewrite lookup_alter_ne by done. lia.
Qed.

Lemma covers_alter cols (vals : gmap string Z) c f :
  covers cols vals → covers cols (alter f c vals).
Proof.
  intros Hcov c' Hc'. destruct (Hcov c' Hc') as [v Hv].
  destruct (decide (c = c')) as [<-|Hne].
  - rewrite lookup_alter_eq, Hv. by eexists.
  - rewrite lookup_alter_ne by done. by eexists.
Qed.

(** A split whose bucket number has a column among [cols]. *)
Definition split_lands (cols : list string) (bucket_map : dict Z string)
    (split : Z * Z) : Prop :=
  ∃ col, dict_get split.1 bucket_map = Some col ∧ col ≠ ""%string
         ∧ col ∈ cols.

Lemma spread_amount_total cols bucket_map splits amt vals :
  NoDup cols → Forall (split_lands cols bucket_map) splits →
  covers cols vals →
  total cols (spread_amount bucket_map splits amt vals)
  = total cols vals + amt * percent_total splits
  ∧ covers cols (spread_amount bucket_map splits amt vals).
Proof.
  intros Hnd Hall. revert vals. unfold spread_amount, percent_total.
  induction Hall as [|[n pct] splits (col & Hget & Hne & Hin) _ IH];
    intros vals Hcov.
  - cbn. split; [lia|done].
  - cbn [foldl]. cbn in Hget. rewrite Hget, decide_False by done.
    destruct (IH (alter (λ v, v + amt * pct) col vals)) as [-> Hcov'];
      [by apply covers_alter|].
    split; [|done]. rewrite total_alter by auto.
    rewrite fmap_cons, sum_list_cons. cbn. lia.
Qed.

Lemma spread_row_total cols bucket_map splits row_dict :
  NoDup cols → Forall (split_lands cols bucket_map) splits →
  total cols (spread_row cols bucket_map splits row_dict)
  = sum_list (row_amount row_dict <$> (snd <$> bucket_map))
    * percent_total splits.
Proof.
  intros Hnd Hall. unfold spread_row.
  pose proof (total_init cols) as Ht. pose proof (init_vals_covers cols) as Hc.
  revert Ht Hc.
  generalize (list_to_map ((λ col, (col, 0)) <$> cols) : gmap string Z).
  intros vals Ht Hc.
  assert (∀ (items : dict Z string) vals,
            covers cols vals →
            total cols
              (foldl (λ vals '(_, col_name),
                        let amt := row_amount row_dict col_name in
                        if amt =? 0 then vals
                        else spread_amount bucket_map splits amt vals)
                     vals items)
            = total cols vals
              + sum_list (row_amount row_dict <$> (snd <$> items))
                * percent_total splits) as Hgen.
  { clear vals Ht Hc. induction items as [|[n col] items IH]; intros vals Hc.
    - cbn. lia.
    - cbn [foldl]. cbv zeta.
      rewrite !fmap_cons, sum_list_cons. cbn [snd].
      destruct (Z.eqb_spec (row_amount row_dict col) 0) as [E|_].
      + rewrite IH by done. rewrite E. lia.
      + destruct (spread_amount_total cols bucket_map splits
                    (row_amount row_dict col) vals Hnd Hall Hc) as [Ht' Hc'].
        rewrite IH by done. rewrite Ht'. lia. }
  rewrite Hgen by done. lia.
Qed.

Lemma total_quantize cols (vals : gmap string Z) :
  2 * Z.abs (SPREAD_UNIT * total cols (quantize_half_up SPREAD_UNIT <$> vals)
             - total cols vals)
  ≤ SPREAD_UNIT * Z.of_nat (length cols).
Proof.
  unfold total. induction cols as [|c cols IH]; [cbn; lia|].
  rewrite !fmap_cons, !sum_list_cons, lookup_fmap. cbn [length].
  assert (default 0 (quantize_half_up SPREAD_UNIT <$> vals !! c)
          = quantize_half_up SPREAD_UNIT (default 0 (vals !! c))) as ->
    by (by destruct (vals !! c)).
  pose proof (quantize_half_up_error SPREAD_UNIT (default 0 (vals !! c))
                ltac:(done)) as He.
  unfold SPREAD_UNIT in *. lia.
Qed.

Lemma dict_set_fresh {K V} `{EqDecision K} (k : K) (v : V) (d : dict K V) :
  k ∉ d.*1 → dict_set k v d = d ++ [(k, v)].
Proof.
  induction d as [|[k' v'] d IH]; intros Hk; [done|].
  cbn in *. apply not_elem_of_cons in Hk as [Hne Hk].
  rewrite decide_False by done. by rewrite IH.
Qed.

Lemma dict_get_elem_of {K V} `{EqDecision K} (k : K) (v : V) (d : dict K V) :
  NoDup d.*1 → (k, v) ∈ d → dict_get k d = Some v.
Proof.
  induction d as [|[k' v'] d IH]; intros Hnd Hin.
  - by apply elem_of_nil in Hin.
  - cbn in *. apply NoDup_cons in Hnd as [Hnot Hnd].
    apply elem_of_cons in Hin as [[= -> ->]|Hin].
    + by rewrite decide_True.
    + rewrite decide_False; [by apply IH|].
      intros ->. apply Hnot. apply list_elem_of_fmap. by exists (k, v).
Qed.

(** When every bucket column carries a bucket number of its own, the map
    pairs the numbers with the columns, in column order. *)
Lemma build_bucket_map_zip cols nums m :
  Forall2 (λ col n, column_bucket_no col = Ok (Some n)) cols nums →
  NoDup (m.*1 ++ nums) →
  build_bucket_map cols m = Ok (m ++ zip nums cols).
Proof.
  intros Hall. revert m. induction Hall as [|col n cols nums Hcol _ IH];
    intros m Hnd.
  - cbn. by rewrite app_nil_r.
  - cbn [build_bucket_map]. rewrite Hcol. cbn.
    assert (n ∉ m.*1) as Hfresh.
    { apply NoDup_app in Hnd as (_ & Hdisj & _). intros Hn.
      apply (Hdisj n Hn). left. }
    rewrite dict_set_fresh by done. rewrite IH.
    + by rewrite <- app_assoc.
    + rewrite fmap_app. cbn. rewrite <- app_assoc. cbn.
      by rewrite <- Permutation_middle in Hnd |- *.
Qed.

Lemma column_bucket_no_nonempty col n :
  column_bucket_no col = Ok n → col ≠ ""%string.
Proof. by intros H ->. Qed.

(** C10: in the Behavioral Respreader a pattern split contributes to the
    output row only when its destination bucket number maps to a bucket
    column of the snapshot table -- the amounts written for a row are those
    of the pattern without its unmapped splits, whose portions are added to
    no bucket -- and a product type whose pattern has zero splits is treated
    as having no pattern at all: the load is the load without that
    pattern. *)
Theorem respread_only_mapped_splits :
  (∀ bucket_cols bucket_map splits row_dict,
     respread bucket_cols bucket_map splits row_dict
     = respread bucket_cols bucket_map
         (filter (split_mapped bucket_map) splits) row_dict)
  ∧ (∀ pats src,
       load_report_behavioural pats src
       = load_report_behavioural (filter (λ p, splits p ≠ []) pats) src).
Proof.
  split.
  - intros bucket_cols bucket_map splits row_dict.
    unfold respread, spread_row. f_equal.
    apply foldl_ext_fun. intros vals [n col].
    by rewrite spread_amount_mapped.
  - intros pats src. unfold load_report_behavioural.
    by rewrite load_patterns_nonempty.
Qed.

(** C6 (amended): for every source row respread by the Behavioral
    Respreader whose pattern has percentages summing to 100 and sends every
    split to a bucket number that has a bucket column, in a snapshot table
    whose bucket columns each carry a bucket number of their own, the sum of
    the bucket amounts written to the behavioural relation for that row
    equals the sum of the source row's bucket amounts within the two-decimal
    round-half-up rounding applied per destination bucket: the two sums
    differ by at most half a cent per bucket column. *)
Theorem respread_conserves cols nums splits row_dict :
  NoDup cols →
  Forall2 (λ col n, column_bucket_no col = Ok (Some n)) cols nums →
  NoDup nums →
  Forall (λ split : Z * Z, split.1 ∈ nums) splits →
  percent_total splits = 100 * 1000 →
  ∃ bucket_map,
    build_bucket_map cols [] = Ok bucket_map
    ∧ conserved cols row_dict (respread cols bucket_map splits row_dict).
Proof.
  intros Hnd Hcols Hnums Hsplits Hpct.
  exists (zip nums cols).
  split; [by apply (build_bucket_map_zip cols nums [])|].
  pose proof (Forall2_length _ _ _ Hcols) as Hlen.
  assert (Forall (split_lands cols (zip nums cols)) splits) as Hlands.
  { eapply Forall_impl; [exact Hsplits|]. intros [n pct] Hn. cbn in Hn.
    apply list_elem_of_lookup in Hn as [i Hi].
    destruct (Forall2_lookup_r _ _ _ _ _ Hcols Hi) as (col & Hc & Hno).
    exists col. cbn. split; [|split].
    - apply dict_get_elem_of; [by rewrite fst_zip by lia|].
      apply list_elem_of_lookup. exists i.
      rewrite lookup_zip_with, Hi. cbn. by rewrite Hc.
    - by eapply column_bucket_no_nonempty.
    - by eapply list_elem_of_lookup_2. }
  unfold conserved, respread.
  pose proof (spread_row_total cols (zip nums cols) splits row_dict Hnd Hlands)
    as Hexact.
  rewrite snd_zip, Hpct in Hexact by lia.
  fold (source_total cols row_dict) in Hexact.
  pose proof (total_quantize cols
                (spread_row cols (zip nums cols) splits row_dict)) as Hq.
  rewrite Hexact in Hq. unfold SPREAD_UNIT in *. lia.
Qed.

Definition scenario_cols : list string :=
  [ "bucket_001_20250430_20250507"; "bucket_002_20250508_20250608" ]%string.

(** A source row with 1000.00 in the first bucket. *)
Definition scenario_row_dict : gmap string cell :=
  list_to_map
    [ ("v_prod_type", CText "LOANS");
      ("bucket_001_20250430_20250507", CNum 100000);
      ("bucket_002_20250508_20250608", CNum 0) ]%string.

Lemma respread_conserves_witness :
  ∃ bucket_map,
    build_bucket_map scenario_cols [] = Ok bucket_map
    ∧ conserved scenario_cols scenario_row_dict
        (respread scenario_cols bucket_map [(1, 33333); (2, 66667)]
           scenario_row_dict).
Proof.
  apply (respread_conserves scenario_cols [1; 2]).
  - apply (bool_decide_unpack _). vm_compute. exact I.
  - repeat constructor.
  - apply (bool_decide_unpack _). vm_compute. exact I.
  - repeat constructor; apply (bool_decide_unpack _); vm_compute; exact I.
  - reflexivity.
Defined.

(** C6 as stated: a pattern whose percentages sum to 100 but which sends
    half of every amount to bucket 9, for which the snapshot table has no
    column, writes 500.00 for a source row holding 1000.00. *)
Lemma respread_loses_unmapped_split :
  ∃ bucket_map,
    build_bucket_map scenario_cols [] = Ok bucket_map
    ∧ percent_total [(1, 50000); (9, 50000)] = 100 * 1000
    ∧ total scenario_cols
        (respread scenario_cols bucket_map [(1, 50000); (9, 50000)]
           scenario_row_dict) = 50000
    ∧ source_total scenario_cols scenario_row_dict = 100000
    ∧ ¬ conserved scenario_cols scenario_row_dict
          (respread scenario_cols bucket_map [(1, 50000); (9, 50000)]
             scenario_row_dict).
Proof.
  eexists. split; [vm_compute; reflexivity|].
  split; [reflexivity|].
  assert (total scenario_cols
            (respread scenario_cols
               [ (1, "bucket_001_20250430_20250507"%string);
                 (2, "bucket_002_20250508_20250608"%string) ]
               [(1, 50000); (9, 50000)] scenario_row_dict) = 50000) as Ht
    by (vm_compute; reflexivity).
  assert (source_total scenario_cols scenario_row_dict = 100000) as Hs
    by (vm_compute; reflexivity).
  split; [exact Ht|]. split; [exact Hs|].
  unfold conserved. rewrite Ht, Hs. cbn. lia.
Qed.

(** A load of a small relation: the LOANS row is respread 40/60, the row of
    a product type without a pattern is skipped. *)
Example load_scenario :
  load_report_behavioural
    [ mkPattern "LOANS" [mkSplit 1 40000; mkSplit 2 60000];
      mkPattern "CARDS" [] ]
    (mkSourceTable
       ("id" :: "v_prod_type" :: scenario_cols)%string
       [ [CText "LOANS"; CNum 100000; CNum 50];
         [CText "DEPOSITS"; CNum 7; CNull];
         [CText "CARDS"; CNum 9; CNum 9] ])
  = Ok (1%nat, [ [CText "LOANS"; CNum 40020; CNum 60030] ]).
Proof. vm_compute; reflexivity. Qed.

End RespreaderFacts.

(** ** Currency Consolidator ([functions/report_contractual_cons_loader.py]) *)

Module Consolidator.
Import Calendar Money SchemaSync.
Export ReportCells.

(** [Stg_Exchange_Rate.n_exchange_rate] has six decimal places: a rate is
    an integer number of millionths, and the rate 1 is [RATE_UNIT]. *)
Definition RATE_UNIT : Z := 1000000.

Record Stg_Exchange_Rate : Type := mkRate {
  fx_fic_mis_date : date;
  v_from_ccy_code : string;
  v_to_ccy_code : string;
  n_exchange_rate : Z
}.

Definition ascii_upper (c : ascii) : ascii :=
  let n := N_of_ascii c in
  if ((97 <=? n) && (n <=? 122))%N then ascii_of_N (n - 32) else c.

(** [str.upper] on ASCII text. *)
Definition upper (s : string) : string :=
  string_of_list_ascii (ascii_upper <$> list_ascii_of_string s).

(** [order_by("v_from_ccy_code", "-fic_mis_date")] *)
Definition fx_before (a b : Stg_Exchange_Rate) : Prop :=
  String_as_OT.lt (v_from_ccy_code a) (v_from_ccy_code b)
  ∨ (v_from_ccy_code a = v_from_ccy_code b
     ∧ date_leb (fx_fic_mis_date b) (fx_fic_mis_date a) = true).

#[global] Instance fx_before_dec : RelDecision fx_before.
Proof.
  intros a b. unfold fx_before, String_as_OT.lt.
  apply or_dec; [|apply _].
  destruct (String_as_OT.compare _ _); [right|left|right]; congruence.
Defined.

(** The loop of [_fx_map]: the first row of each source currency is kept. *)
Fixpoint fx_loop (rows : list Stg_Exchange_Rate) (seen : gset string)
    (fx : gmap string Z) : gmap string Z :=
  match rows with
  | [] => fx
  | r :: rest =>
      if decide (v_from_ccy_code r ∈ seen) then fx_loop rest seen fx
      else fx_loop rest ({[v_from_ccy_code r]} ∪ seen)
                   (<[v_from_ccy_code r := n_exchange_rate r]> fx)
  end.

(** The filter of [_fx_map]: rates into [to_ccy] as of [as_of] or before. *)
Definition fx_eligible (as_of : date) (to_ccy : string)
    (r : Stg_Exchange_Rate) : Prop :=
  v_to_ccy_code r = upper to_ccy
  ∧ date_leb (fx_fic_mis_date r) as_of = true.

#[global] Instance fx_eligible_dec as_of to_ccy r :
  Decision (fx_eligible as_of to_ccy r).
Proof. unfold fx_eligible. apply _. Defined.

Definition _fx_map (as_of : date) (to_ccy : string)
    (rates : list Stg_Exchange_Rate) : gmap string Z :=
  fx_loop (merge_sort fx_before (filter (fx_eligible as_of to_ccy) rates))
          ∅ ∅.

(** [_bucket_columns]: the bucket columns and the adjustment column. *)
Definition _bucket_columns (columns : list string) : list string :=
  filter (λ c, sql_like c "bucket_%" = true) columns
  ++ ["n_adjusted_cash_flow_amount"%string].

(** The relation [fx(from_ccy, fx_rate)] of the INSERT: the items of the
    map, or the single row ('XXX', 1) when the map is empty. *)
Definition fx_values (fx_map : gmap string Z) : gmap string Z :=
  if decide (fx_map = ∅) then {[ "XXX"%string := RATE_UNIT ]} else fx_map.

(** [COALESCE(fx.fx_rate, 1)] for a row of currency [ccy]. *)
Definition rate_for (fx_map : gmap string Z) (ccy : option string) : Z :=
  default RATE_UNIT (c ← ccy; fx_values fx_map !! c).

(** [col * rate], stored in a NUMERIC(20,2) column. *)
Definition convert_cell (rate : Z) (c : cell) : cell :=
  match c with
  | CNum z => CNum (quantize_half_up RATE_UNIT (z * rate))
  | _ => CNull
  end.

Definition cell_text (c : option cell) : option string :=
  match c with
  | Some (CText s) => Some s
  | _ => None
  end.

(** The SELECT list for one source row. *)
Definition consolidate_row (ordered_cols bucket_cols : list string)
    (reporting_ccy : string) (fx_map : gmap string Z) (row : list cell)
    : list cell :=
  let row_dict : gmap string cell := list_to_map (zip ordered_cols row) in
  let rate := rate_for fx_map (cell_text (row_dict !! "v_ccy_code"%string)) in
  (λ '(col, c),
     if decide (col = "v_ccy_code"%string) then CText reporting_ccy
     else if decide (col ∈ bucket_cols) then convert_cell rate c
     else c) <$> zip ordered_cols row.

(** [load_report_contractual_cons]: the number of rows inserted and the rows
    of the consolidated relation, every product being taken to fit its
    NUMERIC(20,2) column (where one does not, the INSERT raises and no row
    is copied). *)
Definition load_report_contractual_cons (fic : date) (reporting_ccy : string)
    (rates : list Stg_Exchange_Rate) (src : SourceTable)
    : nat * list (list cell) :=
  let reporting_ccy := upper reporting_ccy in
  let fx_map := _fx_map fic reporting_ccy rates in
  let bucket_cols := _bucket_columns (columns src) in
  let ordered_cols := filter (λ c, c ≠ "id"%string) (columns src) in
  let inserted :=
    consolidate_row ordered_cols bucket_cols reporting_ccy fx_map
    <$> src_rows src in
  (length inserted, inserted).

End Consolidator.

Module ConsolidatorFacts.
Import Calendar CalendarFacts Money SchemaSync Consolidator.

Lemma date_leb_total a b : date_leb a b = true ∨ date_leb b a = true.
Proof. rewrite !date_leb_spec. lia. Qed.

Lemma date_leb_trans a b c :
  date_leb a b = true → date_leb b c = true → date_leb a c = true.
Proof. rewrite !date_leb_spec. lia. Qed.

#[global] Instance fx_before_total : Total fx_before.
Proof.
  intros a b. unfold fx_before.
  destruct (String_as_OT.compare_spec (v_from_ccy_code a) (v_from_ccy_code b))
    as [Heq|Hlt|Hgt].
  - destruct (date_leb_total (fx_fic_mis_date b) (fx_fic_mis_date a)); auto.
  - auto.
  - auto.
Qed.

#[global] Instance fx_before_trans : Transitive fx_before.
Proof.
  intros a b c [Hab|[Eab Dab]] [Hbc|[Ebc Dbc]]; unfold fx_before.
  - left. by etransitivity.
  - left. by rewrite <- Ebc.
  - left. by rewrite Eab.
  - right. split; [congruence|]. by eapply date_leb_trans.
Qed.

(** The first row of source currency [c] in a list of rates. *)
Definition first_of (c : string) (rows : list Stg_Exchange_Rate)
    : option Stg_Exchange_Rate :=
  head (filter (λ r, v_from_ccy_code r = c) rows).

Lemma fx_loop_lookup rows seen (fx : gmap string Z) c :
  (∀ k, k ∈ seen ↔ is_Some (fx !! k)) →
  fx_loop rows seen fx !! c
  = match fx !! c with
    | Some v => Some v
    | None => n_exchange_rate <$> first_of c rows
    end.
Proof.
  revert seen fx. induction rows as [|r rows IH]; intros seen fx Hinv.
  - cbn. by destruct (fx !! c).
  - cbn [fx_loop]. unfold first_of. rewrite filter_cons.
    destruct (decide (v_from_ccy_code r ∈ seen)) as [Hs|Hs].
    + rewrite IH by done. destruct (fx !! c) eqn:E; [done|].
      rewrite decide_False; [done|].
      intros <-. apply Hinv in Hs as [v Hv]. congruence.
    + rewrite IH.
      2:{ intros k. rewrite elem_of_union, elem_of_singleton, Hinv.
          rewrite lookup_insert_is_Some.
          destruct (decide (v_from_ccy_code r = k)); intuition congruence. }
      destruct (decide (v_from_ccy_code r = c)) as [<-|Hne].
      * rewrite lookup_insert_eq. cbn.
        destruct (fx !! v_from_ccy_code r) eqn:E; [|done].
        destruct Hs. apply Hinv. by eexists.
      * by rewrite lookup_insert_ne.
Qed.

Lemma first_of_elem c rows x :
  first_of c rows = Some x → x ∈ rows ∧ v_from_ccy_code x = c.
Proof.
  unfold first_of. intros Hh.
  assert (x ∈ filter (λ r, v_from_ccy_code r = c) rows) as Hin.
  { destruct (filter _ rows); [done|]. injection Hh as ->. left. }
  apply list_elem_of_filter in Hin. tauto.
Qed.

Lemma first_of_none c rows :
  first_of c rows = None → ∀ y, y ∈ rows → v_from_ccy_code y ≠ c.
Proof.
  unfold first_of. intros Hh y Hy Hc.
  assert (y ∈ filter (λ r, v_from_ccy_code r = c) rows) as Hin
    by (by apply list_elem_of_filter).
  destruct (filter _ rows); [by apply elem_of_nil in Hin|done].
Qed.

(** In a list in the order of [_fx_map] the first row of a currency has the
    latest date of that currency. *)
Lemma first_of_latest c rows x :
  StronglySorted fx_before rows → first_of c rows = Some x →
  ∀ y, y ∈ rows → v_from_ccy_code y = c →
       date_leb (fx_fic_mis_date y) (fx_fic_mis_date x) = true.
Proof.
  induction 1 as [|r rows Hs IH Hall]; intros Hf y Hy Hc.
  - by apply elem_of_nil in Hy.
  - unfold first_of in Hf. rewrite filter_cons in Hf.
    destruct (decide (v_from_ccy_code r = c)) as [Hr|Hr].
    + injection Hf as <-. apply elem_of_cons in Hy as [->|Hy].
      * apply date_leb_spec. lia.
      * rewrite Forall_forall in Hall.
        destruct (Hall y Hy) as [Hlt|[_ Hd]]; [|done].
        rewrite Hr, Hc in Hlt.
        destruct (@StrictOrder_Irreflexive _ _ String_as_OT.lt_strorder c Hlt).
    + apply elem_of_cons in Hy as [->|Hy]; [done|]. by apply IH.
Qed.

(** The rate [_fx_map] holds for a currency is the rate of an eligible row
    of that currency with the latest date; the map has no entry exactly
    when no row is eligible. *)
Lemma fx_map_lookup as_of to_ccy rates c :
  match _fx_map as_of to_ccy rates !! c with
  | Some rate =>
      ∃ x, x ∈ rates ∧ fx_eligible as_of to_ccy x ∧ v_from_ccy_code x = c
           ∧ rate = n_exchange_rate x
           ∧ ∀ y, y ∈ rates → fx_eligible as_of to_ccy y →
                  v_from_ccy_code y = c →
                  date_leb (fx_fic_mis_date y) (fx_fic_mis_date x) = true
  | None =>
      ∀ y, y ∈ rates → fx_eligible as_of to_ccy y → v_from_ccy_code y ≠ c
  end.
Proof.
  unfold _fx_map.
  set (rows := merge_sort fx_before (filter (fx_eligible as_of to_ccy) rates)).
  assert (∀ y, y ∈ rows ↔ y ∈ rates ∧ fx_eligible as_of to_ccy y) as Hrows.
  { intros y. unfold rows. rewrite merge_sort_Permutation.
    rewrite list_elem_of_filter. tauto. }
  rewrite (fx_loop_lookup rows ∅ ∅ c).
  2:{ intros k. rewrite lookup_empty. split; [set_solver|by intros [? ?]]. }
  rewrite lookup_empty. destruct (first_of c rows) as [x|] eqn:Hf; cbn.
  - destruct (first_of_elem _ _ _ Hf) as [Hx Hc].
    apply Hrows in Hx as [Hx He]. exists x. repeat (split; [done|]).
    intros y Hy Hey Hyc. eapply first_of_latest; [|exact Hf| |done].
    + apply StronglySorted_merge_sort; apply _.
    + by apply Hrows.
  - intros y Hy He. eapply first_of_none; [exact Hf|]. by apply Hrows.
Qed.

Lemma rate_for_lookup (fx_map : gmap string Z) c :
  rate_for fx_map (Some c) = default RATE_UNIT (fx_map !! c).
Proof.
  unfold rate_for, fx_values. cbn.
  destruct (decide (fx_map = ∅)) as [->|_]; [|done].
  rewrite lookup_empty. cbn.
  destruct (decide ("XXX"%string = c)) as [<-|Hne].
  - by rewrite lookup_singleton_eq.
  - by rewrite lookup_singleton_ne.
Qed.

(** The currency of a source row. *)
Definition row_currency (ordered_cols : list string) (row : list cell)
    : option string :=
  cell_text ((list_to_map (zip ordered_cols row) : gmap string cell)
             !! "v_ccy_code"%string).

(** The rate the Consolidator is to use for currency [ccy]: the rate of a
    row of the rate table from [ccy] into the reporting currency whose as-of
    date is the most recent one on or before the snapshot date, and 1 when
    the table has no such row. *)
Definition is_rate_for (fic : date) (reporting_ccy ccy : string)
    (rates : list Stg_Exchange_Rate) (rate : Z) : Prop :=
  (∃ x, x ∈ rates ∧ fx_eligible fic reporting_ccy x
        ∧ v_from_ccy_code x = ccy ∧ rate = n_exchange_rate x
        ∧ ∀ y, y ∈ rates → fx_eligible fic reporting_ccy y →
               v_from_ccy_code y = ccy →
               date_leb (fx_fic_mis_date y) (fx_fic_mis_date x) = true)
  ∨ ((∀ y, y ∈ rates → fx_eligible fic reporting_ccy y →
           v_from_ccy_code y ≠ ccy)
     ∧ rate = RATE_UNIT).

Lemma consolidate_row_lookup ordered_cols bucket_cols reporting_ccy fx_map
    row (i : nat) col c :
  ordered_cols !! i = Some col → row !! i = Some c →
  consolidate_row ordered_cols bucket_cols reporting_ccy fx_map row !! i
  = Some (if decide (col = "v_ccy_code"%string) then CText reporting_ccy
          else if decide (col ∈ bucket_cols)
               then convert_cell
                      (rate_for fx_map (row_currency ordered_cols row)) c
               else c).
Proof.
  intros Hcol Hc. unfold consolidate_row.
  rewrite list_lookup_fmap, lookup_zip_with, Hcol. cbn. by rewrite Hc.
Qed.

(** C8 (amended): for every row copied by the Currency Consolidator, each
    bucket column and the adjustment column is multiplied by the FX rate
    whose as-of date is the most recent one less than or equal to the
    snapshot date for the row's currency into the reporting currency
    (the product being stored with two decimal places, round half up); the
    rate used is 1 whenever no such rate exists; the row's currency column
    is rewritten to the reporting currency, and every other column is
    copied as it is. *)
Theorem consolidated_row fic reporting_ccy rates src (k : nat) row ccy :
  src_rows src !! k = Some row →
  row_currency (filter (λ c, c ≠ "id"%string) (columns src)) row = Some ccy →
  ∃ rate out,
    (load_report_contractual_cons fic reporting_ccy rates src).2 !! k
    = Some out
    ∧ is_rate_for fic (upper reporting_ccy) ccy rates rate
    ∧ ∀ (i : nat) col c,
        filter (λ c, c ≠ "id"%string) (columns src) !! i = Some col →
        row !! i = Some c →
        out !! i
        = Some (if decide (col = "v_ccy_code"%string)
                then CText (upper reporting_ccy)
                else if decide (col ∈ _bucket_columns (columns src))
                     then convert_cell rate c
                     else c).
Proof.
  intros Hk Hccy. unfold load_report_contractual_cons. cbn [snd].
  set (to := upper reporting_ccy).
  set (fx_map := _fx_map fic to rates).
  exists (rate_for fx_map (Some ccy)). eexists.
  split; [by rewrite list_lookup_fmap, Hk|]. split.
  - rewrite rate_for_lookup. unfold is_rate_for.
    pose proof (fx_map_lookup fic to rates ccy) as Hl. fold fx_map in Hl.
    destruct (fx_map !! ccy) as [rate|]; cbn.
    + left. exact Hl.
    + right. by split.
  - intros i col c Hcol Hc. rewrite <- Hccy.
    by apply consolidate_row_lookup.
Qed.

Definition scenario_rates : list Stg_Exchange_Rate :=
  [ mkRate (mkdate 2025 3 31) "EUR" "USD" 1100000;
    mkRate (mkdate 2025 5 31) "EUR" "USD" 1300000;
    mkRate (mkdate 2025 4 30) "EUR" "USD" 1200000;
    mkRate (mkdate 2025 4 30) "GBP" "USD" 1500000;
    mkRate (mkdate 2025 4 30) "EUR" "ZAR" 9900000 ].

Definition scenario_source : SourceTable :=
  mkSourceTable
    [ "id"; "v_prod_type"; "v_ccy_code"; "bucket_001_20250430_20250507";
      "n_adjusted_cash_flow_amount" ]%string
    [ [CText "LOANS"; CText "EUR"; CNum 10000; CNull];
      [CText "LOANS"; CText "JPY"; CNum 777; CNum 5] ].

(** The EUR row is converted at 1.20, the rate of the snapshot date; the
    JPY row, for which there is no rate, at 1. *)
Example consolidation_scenario :
  load_report_contractual_cons (mkdate 2025 4 30) "usd" scenario_rates
    scenario_source
  = (2%nat, [ [CText "LOANS"; CText "USD"; CNum 12000; CNull];
              [CText "LOANS"; CText "USD"; CNum 777; CNum 5] ]).
Proof. vm_compute; reflexivity. Qed.

Lemma consolidated_row_witness :
  ∃ rate out,
    (load_report_contractual_cons (mkdate 2025 4 30) "usd" scenario_rates
       scenario_source).2 !! 0%nat = Some out
    ∧ is_rate_for (mkdate 2025 4 30) (upper "usd") "EUR" scenario_rates rate
    ∧ ∀ (i : nat) col c,
        filter (λ c, c ≠ "id"%string) (columns scenario_source) !! i
        = Some col →
        [CText "LOANS"; CText "EUR"; CNum 10000; CNull] !! i = Some c →
        out !! i
        = Some (if decide (col = "v_ccy_code"%string)
                then CText (upper "usd")
                else if decide (col ∈ _bucket_columns
                                        (columns scenario_source))
                     then convert_cell rate c
                     else c).
Proof.
  apply (consolidated_row (mkdate 2025 4 30) "usd" scenario_rates
           scenario_source 0).
  - reflexivity.
  - vm_compute; reflexivity.
Defined.

(** C8 as stated: a rate from the reporting currency to itself is applied
    like any other rate.  With a USD-to-USD rate of 2 in the rate table, a
    row already in USD is copied with its amounts doubled: the rate used
    for it is not 1. *)
Lemma reporting_currency_rate_not_one :
  let rates := [ mkRate (mkdate 2025 4 30) "USD" "USD" 2000000 ] in
  let src :=
    mkSourceTable [ "id"; "v_ccy_code"; "bucket_001_20250430_20250507" ]%string
                  [ [CText "USD"; CNum 10000] ] in
  rate_for (_fx_map (mkdate 2025 4 30) "USD" rates) (Some "USD"%string)
  ≠ RATE_UNIT
  ∧ load_report_contractual_cons (mkdate 2025 4 30) "USD" rates src
    = (1%nat, [ [CText "USD"; CNum 20000] ]).
Proof.
  cbv zeta. split; [|vm_compute; reflexivity].
  assert (rate_for
            (_fx_map (mkdate 2025 4 30) "USD"
               [ mkRate (mkdate 2025 4 30) "USD" "USD" 2000000 ])
            (Some "USD"%string) = 2000000) as ->
    by (vm_compute; reflexivity).
  discriminate.
Qed.

End ConsolidatorFacts.

(** ** Pipeline Runner ([functions_view/execute.py], [pipeline/pipeline.py],
    [services/execution_service.py]) *)

Module Runner.
Import Calendar.

Inductive status : Type :=
  | Pending
  | Running
  | Success
  | Failed
  | Stopped
  | Skipped.

#[global] Instance status_eq_dec : EqDecision status.
Proof. solve_decision. Defined.

(** A row of [ExecutionHistory]; the time stamps are left out. *)
Record ExecutionHistory : Type := mkExecution {
  eh_fic_mis_date : date;
  run_number : Z;
  process_name : string;
  eh_status : status;
  error_message : option string
}.

Definition TOTAL_PIPELINE_STEPS : list string :=
  [ "Process First Day Cashflows";
    "Process Credit Line Cashflows";
    "Process Loan Cashflows";
    "Balance Cashflows to Target";
    "Process Overdraft Cashflows";
    "Process Investment Cashflows";
    "Process First Day Cashflows (Re-run)";
    "Calculate Time Buckets and Spread";
    "Aggregate by Product Code";
    "Create Report Contractual Table";
    "Load Contractual Report";
    "Align Buckets to Balance";
    "Load Contractual Consolidated Report";
    "Load Behavioural Report";
    "Load Rate-Sensitive Report" ]%string.

(** [all_steps]: each step with the steps it depends on; its function is
    the parameter [step_function] below. *)
Definition all_steps : list (string * list string) :=
  [ ("Process First Day Cashflows", []);
    ("Process Credit Line Cashflows", ["Process First Day Cashflows"]);
    ("Process Loan Cashflows", ["Process Credit Line Cashflows"]);
    ("Balance Cashflows to Target", ["Process Loan Cashflows"]);
    ("Process Overdraft Cashflows", ["Balance Cashflows to Target"]);
    ("Process Investment Cashflows", ["Process Overdraft Cashflows"]);
    ("Process First Day Cashflows (Re-run)", ["Process Investment Cashflows"]);
    ("Calculate Time Buckets and Spread",
     ["Process First Day Cashflows (Re-run)"]);
    ("Aggregate by Product Code", ["Calculate Time Buckets and Spread"]);
    ("Create Report Contractual Table", ["Aggregate by Product Code"]);
    ("Load Contractual Report", ["Create Report Contractual Table"]);
    ("Align Buckets to Balance", ["Load Contractual Report"]);
    ("Load Contractual Consolidated Report", ["Align Buckets to Balance"]);
    ("Load Behavioural Report", ["Load Contractual Consolidated Report"]);
    ("Load Rate-Sensitive Report", ["Load Behavioural Report"]) ]%string.

(** The rows of one run. *)
Definition in_run (fic : date) (run : Z) (e : ExecutionHistory) : Prop :=
  eh_fic_mis_date e = fic ∧ run_number e = run.

#[global] Instance in_run_dec fic run e : Decision (in_run fic run e).
Proof. unfold in_run. apply _. Defined.

(** The row of one step of one run. *)
Definition row_of (fic : date) (run : Z) (name : string)
    (e : ExecutionHistory) : Prop :=
  in_run fic run e ∧ process_name e = name.

#[global] Instance row_of_dec fic run name e : Decision (row_of fic run name e).
Proof. unfold row_of. apply _. Defined.

Definition set_status (s : status) (msg : option string)
    (e : ExecutionHistory) : ExecutionHistory :=
  mkExecution (eh_fic_mis_date e) (run_number e) (process_name e) s msg.

(** [QuerySet.update]: every row that satisfies [P] is changed. *)
Definition update_where (P : ExecutionHistory → Prop)
    `{!∀ e, Decision (P e)} (f : ExecutionHistory → ExecutionHistory)
    (history : list ExecutionHistory) : list ExecutionHistory :=
  (λ e, if decide (P e) then f e else e) <$> history.

(** [instance.save()] for the instance [QuerySet.first()] returned: the
    first row that satisfies [P] is changed. *)
Fixpoint update_first (P : ExecutionHistory → Prop)
    `{!∀ e, Decision (P e)} (f : ExecutionHistory → ExecutionHistory)
    (history : list ExecutionHistory) : list ExecutionHistory :=
  match history with
  | [] => []
  | e :: rest =>
      if decide (P e) then f e :: rest else e :: update_first P f rest
  end.

(** [{exe.process_name: exe.status for exe in existing_executions}] *)
Definition execution_status_map (fic : date) (run : Z)
    (history : list ExecutionHistory) : gmap string status :=
  foldl (λ m e, <[process_name e := eh_status e]> m) ∅
        (filter (in_run fic run) history).

(** The position of a step in [TOTAL_PIPELINE_STEPS], [list.index]. *)
Fixpoint index_of (name : string) (l : list string) : option nat :=
  match l with
  | [] => None
  | x :: l' => if decide (x = name) then Some 0%nat else S <$> index_of name l'
  end.

(** The condition under which a step from the continuation point on is
    put in [remaining_steps]. *)
Definition is_remaining (status_map : gmap string status)
    (continue_from_step : string) (step : string * list string) : Prop :=
  match status_map !! step.1 with
  | None => True
  | Some s => s = Failed ∨ s = Stopped
  end
  ∨ step.1 = continue_from_step.

#[global] Instance is_remaining_dec status_map continue_from_step step :
  Decision (is_remaining status_map continue_from_step step).
Proof. unfold is_remaining. destruct (status_map !! step.1); apply _. Defined.

(** "Ensure all steps exist in the history", for one step name. *)
Definition ensure_step (fic : date) (run : Z)
    (status_map : gmap string status) (remaining : list string)
    (history : list ExecutionHistory) (step_name : string)
    : list ExecutionHistory :=
  match status_map !! step_name with
  | None =>
      history
      ++ [ mkExecution fic run step_name
             (if decide (step_name ∈ remaining) then Pending else Skipped)
             None ]
  | Some _ =>
      if decide (step_name ∈ remaining) then
        update_where
          (λ e, row_of fic run step_name e
                ∧ (eh_status e = Failed ∨ eh_status e = Stopped))
          (set_status Pending None) history
      else history
  end.

Section run.
(** [step_function name attempt] tells whether the call of the function of
    step [name] at the given attempt returns without an exception. *)
Variable step_function : string → nat → bool.

(** [Pipeline._execute_step]: up to [retry_count] attempts. *)
Fixpoint attempts (name : string) (attempt remaining : nat) : status :=
  match remaining with
  | O => Failed
  | S remaining' =>
      if step_function name attempt then Success
      else attempts name (S attempt) remaining'
  end.

Definition retry_count : nat := 3.

Definition _execute_step (name : string) : status :=
  attempts name 0 retry_count.

(** "Mark remaining steps as Pending" after a failure. *)
Definition mark_pending (fic : date) (run : Z)
    (history : list ExecutionHistory) : list ExecutionHistory :=
  update_where (λ e, in_run fic run e ∧ eh_status e = Pending)
    (set_status Pending (Some "Previous step failed"%string)) history.

(** The loop over [pipeline.steps] when continuing a run: the history and
    the steps whose function has been called, in order. *)
Fixpoint run_steps (fic : date) (run : Z) (steps : list string)
    (history : list ExecutionHistory) (executed : list string)
    : list ExecutionHistory * list string :=
  match steps with
  | [] => (history, executed)
  | name :: rest =>
      match head (filter (row_of fic run name) history) with
      | Some existing =>
          if decide (eh_status existing = Success) then
            run_steps fic run rest history executed
          else
            let history :=
              update_first (row_of fic run name) (set_status Running None)
                history in
            let result := _execute_step name in
            let history :=
              update_first (row_of fic run name)
                (set_status result
                   (if decide (result = Failed) then Some "Traceback"%string
                    else None)) history in
            if decide (result = Failed) then
              (mark_pending fic run history, executed ++ [name])
            else run_steps fic run rest history (executed ++ [name])
      | None =>
          (* [create_running_status] *)
          let history := history ++ [mkExecution fic run name Running None] in
          let result := _execute_step name in
          let history :=
            update_first (row_of fic run name)
              (set_status result
                 (if decide (result = Failed) then Some "Traceback"%string
                  else None)) history in
          if decide (result = Failed) then
            (mark_pending fic run history, executed ++ [name])
          else run_steps fic run rest history (executed ++ [name])
      end
  end.

(** [execute_functions] with [continue_from_step]: the history afterwards
    and the steps executed; an unknown step is refused and nothing
    changes. *)
Definition continue_run (fic : date) (run : Z) (continue_from_step : string)
    (history : list ExecutionHistory)
    : option (list ExecutionHistory * list string) :=
  let status_map := execution_status_map fic run history in
  continue_idx ← index_of continue_from_step TOTAL_PIPELINE_STEPS;
  let remaining_steps :=
    filter (is_remaining status_map continue_from_step)
           (drop continue_idx all_steps) in
  let remaining := fst <$> remaining_steps in
  let history :=
    foldl (ensure_step fic run status_map remaining) history
          TOTAL_PIPELINE_STEPS in
  Some (run_steps fic run remaining history []).

End run.

(** The status recorded for a step of a run, if any. *)
Definition recorded_status (fic : date) (run : Z) (name : string)
    (history : list ExecutionHistory) : option status :=
  eh_status <$> head (filter (row_of fic run name) history).

End Runner.

Module RunnerFacts.
Import Calendar Runner.

(** *** What continuing a run does to a step recorded Success *)

Section kept.
Context (P Q : ExecutionHistory → Prop) `{!∀ e, Decision (P e)}
  `{!∀ e, Decision (Q e)} (f : ExecutionHistory → ExecutionHistory).

(** An update leaves the rows that satisfy [Q] alone when it only touches
    other rows and turns no row into one that satisfies [Q]. *)
Lemma filter_update_where (history : list ExecutionHistory) :
  (∀ e, Q (f e) ↔ Q e) → (∀ e, e ∈ history → Q e → ¬ P e) →
  filter Q (update_where P f history) = filter Q history.
Proof.
  intros Hf. unfold update_where.
  induction history as [|e history IH]; intros Hdisj; [done|].
  rewrite fmap_cons, !filter_cons.
  rewrite IH by (intros x Hx; apply Hdisj; by right).
  destruct (decide (P e)) as [Hp|Hp]; [|done].
  destruct (decide (Q (f e))) as [Hq|Hq], (decide (Q e)) as [Hq'|Hq'];
    try done.
  - destruct (Hdisj e ltac:(left) Hq' Hp).
  - destruct Hq'. by apply (proj1 (Hf e)).
  - destruct (Hdisj e ltac:(left) Hq' Hp).
Qed.

Lemma filter_update_first (history : list ExecutionHistory) :
  (∀ e, Q (f e) ↔ Q e) → (∀ e, P e → ¬ Q e) →
  filter Q (update_first P f history) = filter Q history.
Proof.
  intros Hf Hdisj.
  induction history as [|e history IH]; [done|].
  cbn [update_first]. destruct (decide (P e)) as [Hp|Hp].
  - rewrite !filter_cons.
    destruct (decide (Q (f e))) as [Hq|Hq], (decide (Q e)) as [Hq'|Hq'];
      try done.
    + destruct (Hdisj e Hp Hq').
    + destruct Hq'. by apply (proj1 (Hf e)).
    + destruct (Hdisj e Hp Hq').
  - by rewrite !filter_cons, IH.
Qed.

End kept.

Lemma row_of_set_status fic run name s msg e :
  row_of fic run name (set_status s msg e) ↔ row_of fic run name e.
Proof. done. Qed.

Lemma status_map_fold (l : list ExecutionHistory) (m : gmap string status)
    name :
  foldl (λ m e, <[process_name e := eh_status e]> m) m l !! name
  = match last (filter (λ e, process_name e = name) l) with
    | Some e => Some (eh_status e)
    | None => m !! name
    end.
Proof.
  revert m. induction l as [|e l IH]; intros m; [done|].
  cbn [foldl]. rewrite IH, filter_cons.
  destruct (decide (process_name e = name)) as [He|He].
  - destruct (filter _ l) as [|e' l'] eqn:E.
    + cbn. by rewrite He, lookup_insert_eq.
    + rewrite last_cons_cons.
      destruct (last (e' :: l')) eqn:El; [done|]. by apply last_None in El.
  - destruct (last (filter _ l)); [done|]. by rewrite lookup_insert_ne.
Qed.

Lemma execution_status_map_lookup fic run history name :
  execution_status_map fic run history !! name
  = eh_status <$> last (filter (row_of fic run name) history).
Proof.
  unfold execution_status_map. rewrite status_map_fold, lookup_empty.
  rewrite list_filter_filter.
  assert (filter (λ e, process_name e = name ∧ in_run fic run e) history
          = filter (row_of fic run name) history) as ->
    by (apply list_filter_iff; intros e; unfold row_of; tauto).
  by destruct (last _).
Qed.

Section success.
Variable step_function : string → nat → bool.
Variables (fic : date) (run : Z) (name : string) (e : ExecutionHistory).
Hypothesis e_success : eh_status e = Success.

(** The step has exactly one record in the run, and it is [e]. *)
Definition only_record (history : list ExecutionHistory) : Prop :=
  filter (row_of fic run name) history = [e].

Lemma only_record_elem history x :
  only_record history → x ∈ history → row_of fic run name x → x = e.
Proof.
  unfold only_record. intros Hone Hx Hr.
  assert (x ∈ filter (row_of fic run name) history) as Hin
    by (by apply list_elem_of_filter).
  rewrite Hone in Hin. by apply list_elem_of_singleton in Hin.
Qed.

Lemma ensure_step_only_record status_map remaining history step_name :
  is_Some (status_map !! name) → only_record history →
  only_record (ensure_step fic run status_map remaining history step_name).
Proof.
  intros Hmap Hone. unfold ensure_step, only_record.
  destruct (status_map !! step_name) as [s|] eqn:Hs.
  - destruct (decide (step_name ∈ remaining)); [|done].
    rewrite filter_update_where; [done|by intros; apply row_of_set_status|].
    intros x Hx Hr [_ Hst].
    rewrite (only_record_elem history x Hone Hx Hr), e_success in Hst.
    by destruct Hst.
  - rewrite filter_app, filter_cons_False, filter_nil, app_nil_r; [done|].
    intros [_ Hn]. cbn in Hn. subst step_name.
    rewrite Hs in Hmap. by destruct Hmap.
Qed.

Lemma foldl_ensure_only_record status_map remaining names history :
  is_Some (status_map !! name) → only_record history →
  only_record
    (foldl (ensure_step fic run status_map remaining) history names).
Proof.
  intros Hmap. revert history.
  induction names as [|n names IH]; intros h Hh; [done|].
  cbn [foldl]. apply IH. by apply ensure_step_only_record.
Qed.

Lemma mark_pending_only_record history :
  only_record history → only_record (mark_pending fic run history).
Proof.
  intros Hone. unfold mark_pending, only_record.
  rewrite filter_update_where; [done|by intros; apply row_of_set_status|].
  intros x Hx Hr [_ Hst].
  by rewrite (only_record_elem history x Hone Hx Hr), e_success in Hst.
Qed.

Lemma update_other_only_record other s msg history :
  other ≠ name → only_record history →
  only_record (update_first (row_of fic run other) (set_status s msg) history).
Proof.
  intros Hne Hone. unfold only_record.
  rewrite filter_update_first; [done|by intros; apply row_of_set_status|].
  intros x [_ Hx] [_ Hx']. congruence.
Qed.

Lemma run_steps_only_record steps history executed :
  only_record history → name ∉ executed →
  only_record (run_steps step_function fic run steps history executed).1
  ∧ name ∉ (run_steps step_function fic run steps history executed).2.
Proof.
  revert history executed.
  induction steps as [|step rest IH]; intros history executed Hone Hex;
    [done|].
  cbn [run_steps].
  destruct (head (filter (row_of fic run step) history)) as [existing|] eqn:Hh.
  - destruct (decide (eh_status existing = Success)) as [Hs|Hs]; [by apply IH|].
    assert (step ≠ name) as Hne.
    { intros ->. unfold only_record in Hone. rewrite Hone in Hh.
      injection Hh as <-. done. }
    assert (name ∉ executed ++ [step]) as Hex'.
    { rewrite elem_of_app, list_elem_of_singleton. intros [?|?]; done. }
    destruct (decide (_execute_step step_function step = Failed)).
    + cbn [fst snd]. split; [|done].
      apply mark_pending_only_record.
      by repeat (apply update_other_only_record; [done|]).
    + apply IH; [|done].
      by repeat (apply update_other_only_record; [done|]).
  - assert (step ≠ name) as Hne.
    { intros ->. unfold only_record in Hone. by rewrite Hone in Hh. }
    assert (name ∉ executed ++ [step]) as Hex'.
    { rewrite elem_of_app, list_elem_of_singleton. intros [?|?]; done. }
    assert (only_record
              (history ++ [mkExecution fic run step Running None])) as Hone'.
    { unfold only_record.
      rewrite filter_app, filter_cons_False, filter_nil, app_nil_r; [done|].
      intros [_ Hn]. by cbn in Hn. }
    destruct (decide (_execute_step step_function step = Failed)).
    + cbn [fst snd]. split; [|done].
      apply mark_pending_only_record. by apply update_other_only_record.
    + apply IH; [|done]. by apply update_other_only_record.
Qed.

(** X19: a step recorded Success by exactly one record of the run is not
    executed when the run is continued, from whatever step, and that
    record is its only record afterwards, unchanged. *)
Lemma continue_run_keeps_success continue_from_step history history' executed :
  only_record history →
  continue_run step_function fic run continue_from_step history
  = Some (history', executed) →
  only_record history' ∧ name ∉ executed.
Proof.
  intros Hone. unfold continue_run.
  destruct (index_of continue_from_step TOTAL_PIPELINE_STEPS) as [idx|];
    [|done].
  cbn [mbind option_bind]. intros Heq. apply (inj Some) in Heq.
  set (status_map := execution_status_map fic run history) in *.
  assert (is_Some (status_map !! name)) as Hmap.
  { unfold status_map. rewrite execution_status_map_lookup.
    unfold only_record in Hone. rewrite Hone. by eexists. }
  set (remaining := _ <$> _) in *.
  pose proof (foldl_ensure_only_record status_map remaining
                TOTAL_PIPELINE_STEPS history Hmap Hone) as Hens.
  pose proof (run_steps_only_record remaining _ [] Hens
                ltac:(apply not_elem_of_nil)) as Hrun.
  rewrite Heq in Hrun. exact Hrun.
Qed.

End success.

Definition fic0 : date := mkdate 2025 4 30.

(** A step function that always returns, and one that raises at every
    attempt of "Process Credit Line Cashflows". *)
Definition all_succeed : string → nat → bool := λ _ _, true.

Definition credit_line_fails : string → nat → bool :=
  λ name _, negb (String.eqb name "Process Credit Line Cashflows").

(** The history of run 1 after a first execution in which the first step
    succeeded and the second failed. *)
Definition history_after_failure : list ExecutionHistory :=
  [ mkExecution fic0 1 "Process First Day Cashflows" Success None;
    mkExecution fic0 1 "Process Credit Line Cashflows" Failed
      (Some "Traceback"%string) ].

(** The rows of the steps after the second, all with the given status. *)
Definition later_steps (s : status) (msg : option string)
    : list ExecutionHistory :=
  (λ name, mkExecution fic0 1 name s msg) <$> drop 2 TOTAL_PIPELINE_STEPS.

(** The history of run 1 with the first step Success, the second Failed and
    the others Pending. *)
Definition history_success_failed_pending : list ExecutionHistory :=
  history_after_failure
  ++ later_steps Pending (Some "Previous step failed"%string).

(** Continuing the run from the failed step when that step fails again
    leaves exactly that history: it is a history the runner produces. *)
Example continue_failing_again :
  continue_run credit_line_fails fic0 1 "Process Credit Line Cashflows"
    history_after_failure
  = Some (history_success_failed_pending, ["Process Credit Line Cashflows"%string]).
Proof. vm_compute; reflexivity. Qed.

(** Continuing from the failed step while the later steps have no record
    yet executes the failed step and every step after it. *)
Example continue_first_time :
  snd <$> continue_run all_succeed fic0 1 "Process Credit Line Cashflows"
            history_after_failure
  = Some (drop 1 TOTAL_PIPELINE_STEPS).
Proof. vm_compute; reflexivity. Qed.

(** C7 (the code at the failing input): with the history
    [A (Success), B (Failed), C ... (Pending)] of a run and every step
    function succeeding, continuing from B executes B alone: the steps after
    B, which are recorded Pending and not Success, are not executed and stay
    Pending, while the record of A is left as it is. *)
Theorem continue_skips_pending_steps :
  let after :=
    [ mkExecution fic0 1 "Process First Day Cashflows" Success None;
      mkExecution fic0 1 "Process Credit Line Cashflows" Success None ]
    ++ later_steps Pending (Some "Previous step failed"%string) in
  continue_run all_succeed fic0 1 "Process Credit Line Cashflows"
    history_success_failed_pending
  = Some (after, ["Process Credit Line Cashflows"%string])
  ∧ recorded_status fic0 1 "Process Loan Cashflows"
      history_success_failed_pending = Some Pending
  ∧ recorded_status fic0 1 "Process Loan Cashflows" after = Some Pending.
Proof. cbv zeta. repeat split; vm_compute; reflexivity. Qed.

End RunnerFacts.

(** ** The aggregation step: what a run leaves in the database *)

Module AggregationLaws.
Import Calendar CalendarFacts BucketGen BucketGenFacts Aggregation Money.

Lemma date_leb_ordinal a b :
  valid_date a → valid_date b →
  date_leb a b = (toordinal a <=? toordinal b).
Proof.
  intros Ha Hb. apply eq_true_iff_eq.
  rewrite (toordinal_le_iff a b Ha Hb), Z.leb_le. done.
Qed.

(** Two windows of dates, the second starting the day after the first
    ends, count a cash flow once between them. *)
Lemma bucket_sum_adjacent el rows lo e s' hi :
  Forall (λ cf, valid_date (d_cashflow_date cf)) rows →
  valid_date lo → valid_date e → valid_date s' → valid_date hi →
  toordinal s' = toordinal e + 1 →
  toordinal lo ≤ toordinal e → toordinal s' ≤ toordinal hi →
  bucket_sum el rows (lo, e) + bucket_sum el rows (s', hi)
  = bucket_sum el rows (lo, hi).
Proof.
  intros Hrows Hlo He Hs Hhi Hnext Hle1 Hle2.
  induction Hrows as [|cf rows Hcf _ IH]; [done|].
  unfold bucket_sum in *. cbn [foldr fst snd] in *.
  rewrite !date_leb_ordinal by done.
  repeat match goal with
         | |- context [?a <=? ?b] => destruct (Z.leb_spec a b)
         end; cbn [andb]; lia.
Qed.

(** The buckets of the first [n] ranges add up to the window from the
    running start date to the end of the last of them. *)
Lemma ranges_from_sum el rows tb_rows start ranges (n : nat) lo hi :
  Forall (λ cf, valid_date (d_cashflow_date cf)) rows →
  valid_date start → Forall (λ tb, 0 ≤ frequency tb) tb_rows →
  ranges_from tb_rows start = Ok ranges →
  last (take n ranges) = Some (lo, hi) →
  valid_date hi ∧ toordinal start ≤ toordinal hi
  ∧ sum_list (bucket_sum el rows <$> take n ranges)
    = bucket_sum el rows (start, hi).
Proof.
  intros Hrows. revert start ranges n.
  induction tb_rows as [|tb rest IH]; intros start ranges n Hv Hf.
  - intros [= <-]. by rewrite take_nil.
  - apply Forall_cons in Hf as [Hf Hfr]. cbn.
    destruct (bucket_end start tb) as [e|] eqn:He; cbn; [|done].
    destruct (add_days e 1) as [s'|] eqn:Hs; cbn; [|done].
    destruct (ranges_from rest s') as [rs|] eqn:Hr; cbn; [|done].
    intros [= <-]. destruct n as [|n]; [done|]. cbn [take].
    destruct (bucket_end_spec _ _ _ Hv Hf He) as [Hve Hle].
    apply toordinal_le_iff in Hle; [|done..].
    destruct (add_days_spec _ _ _ Hve Hs) as [Hvs Ho].
    destruct (take n rs) as [|r rs'] eqn:Ht.
    + intros [= <- <-]. cbn. split; [done|]. split; [done|].
      unfold sum_list. cbn. lia.
    + intros Hlast.
      assert (last (take n rs) = Some (lo, hi)) as Hlast'.
      { rewrite Ht. by destruct rs'. }
      destruct (IH s' rs n Hvs Hfr Hr Hlast') as (Hvh & Hoh & Hsum).
      split; [done|]. split; [lia|].
      rewrite Ht in Hsum.
      change (sum_list (bucket_sum el rows <$> (start, e) :: r :: rs'))
        with (bucket_sum el rows (start, e)
              + sum_list (bucket_sum el rows <$> r :: rs')).
      rewrite Hsum. apply bucket_sum_adjacent; (done || lia).
Qed.

Lemma set_record_count_twice fic n m cf :
  set_record_count fic n (set_record_count fic m cf)
  = set_record_count fic n cf.
Proof.
  unfold set_record_count.
  destruct (decide (cf_fic_mis_date cf = fic)) as [Hd|Hd]; cbn.
  - by rewrite decide_True by done.
  - by rewrite decide_False by done.
Qed.

Lemma set_record_count_fields fic n cf :
  cf_fic_mis_date (set_record_count fic n cf) = cf_fic_mis_date cf
  ∧ key_of (set_record_count fic n cf) = key_of cf
  ∧ d_cashflow_date (set_record_count fic n cf) = d_cashflow_date cf
  ∧ (∀ el, element_amount el (set_record_count fic n cf)
           = element_amount el cf)
  ∧ (cf_fic_mis_date cf = fic → record_count (set_record_count fic n cf) = n).
Proof.
  unfold set_record_count.
  destruct (decide (cf_fic_mis_date cf = fic)); cbn; repeat split;
    try done; by intros [].
Qed.

(** The cash flows after the reset and the flagging of the rows of the
    snapshot date. *)
Definition flagged (fic : date) (cashflows : list Arranged_cashflows)
    : list Arranged_cashflows :=
  set_record_count fic 1 <$> (set_record_count fic 0 <$> cashflows).

(** The database a successful run for [fic] leaves, [ranges] being the
    ranges the generator returns. *)
Definition spread_result (fic : date) (ranges : list (date * date)) (db : DB)
    : DB :=
  mkDB (flagged fic (arranged_cashflows db)) (time_buckets db)
    (_refresh_timebucket_master "contractual" ranges fic
       (time_bucket_master db))
    (filter (λ r, ¬ (agg_fic_mis_date r = fic
                     ∧ agg_process_name r = "contractual"%string))
            (aggregated db)
     ++ aggregate_element fic "contractual" ranges el_total_cash_flow_amount
          (flagged fic (arranged_cashflows db))
     ++ aggregate_element fic "contractual" ranges el_total_principal_payment
          (flagged fic (arranged_cashflows db))
     ++ aggregate_element fic "contractual" ranges el_total_interest_payment
          (flagged fic (arranged_cashflows db))).

#[global] Instance financial_element_eq_dec : EqDecision financial_element.
Proof. solve_decision. Defined.

Lemma flagged_twice fic cashflows :
  flagged fic (flagged fic cashflows) = flagged fic cashflows.
Proof.
  unfold flagged. rewrite <- !list_fmap_compose. apply list_fmap_ext.
  intros i cf _. cbn. by rewrite !set_record_count_twice.
Qed.

(** The rows of a group among the flagged cash flows are the rows of the
    snapshot date with that key, as far as a bucket sum can tell. *)
Lemma bucket_sum_group fic k el cashflows range :
  bucket_sum el
    (filter (λ cf, key_of cf = k)
       (filter (λ cf, cf_fic_mis_date cf = fic ∧ record_count cf = 1)
          (flagged fic cashflows))) range
  = bucket_sum el
      (filter (λ cf, cf_fic_mis_date cf = fic ∧ key_of cf = k) cashflows)
      range.
Proof.
  unfold flagged. induction cashflows as [|cf l IH]; [done|].
  rewrite !fmap_cons. set (cf' := set_record_count fic 1 _).
  assert (cf' = set_record_count fic 1 cf) as Hcf'
    by apply set_record_count_twice.
  destruct (set_record_count_fields fic 1 cf)
    as (Hfic & Hkey & Hdate & Hamt & Hcount).
  rewrite <- Hcf' in Hfic, Hkey, Hdate, Hamt, Hcount. clearbody cf'.
  rewrite (filter_cons (λ cf, cf_fic_mis_date cf = fic ∧ record_count cf = 1)).
  rewrite (filter_cons (λ cf, cf_fic_mis_date cf = fic ∧ key_of cf = k)).
  destruct (decide (cf_fic_mis_date cf = fic)) as [Hd|Hd].
  - rewrite decide_True by (split; [congruence|by apply Hcount]).
    rewrite filter_cons, Hkey.
    destruct (decide (key_of cf = k)) as [Hk|Hk].
    + rewrite decide_True by done. unfold bucket_sum in *. cbn [foldr].
      by rewrite IH, Hdate, Hamt.
    + by rewrite decide_False by tauto.
  - rewrite decide_False by (rewrite Hfic; tauto).
    by rewrite decide_False by tauto.
Qed.

Lemma filter_valid_dates (P : Arranged_cashflows → Prop)
    `{!∀ cf, Decision (P cf)} cashflows :
  Forall (λ cf, valid_date (d_cashflow_date cf)) cashflows →
  Forall (λ cf, valid_date (d_cashflow_date cf)) (filter P cashflows).
Proof.
  rewrite !Forall_forall. intros Hall cf Hin.
  apply list_elem_of_filter in Hin as [_ Hin]. by apply Hall.
Qed.

Lemma elem_of_aggregate_element fic process ranges el cashflows a :
  a ∈ aggregate_element fic process ranges el cashflows →
  agg_fic_mis_date a = fic ∧ agg_process_name a = process
  ∧ agg_element a = el
  ∧ agg_buckets a
    = bucket_sum el
        (filter (λ cf, key_of cf = agg_key a)
           (filter (λ cf, cf_fic_mis_date cf = fic ∧ record_count cf = 1)
              cashflows))
      <$> take (Nat.min (length ranges) max_target_buckets) ranges.
Proof.
  unfold aggregate_element. intros Hin.
  apply list_elem_of_fmap in Hin as (k & -> & _). done.
Qed.

(** The keys of the groups of a snapshot date. *)
Lemma eligible_keys fic cashflows k :
  k ∈ key_of
      <$> filter (λ cf, cf_fic_mis_date cf = fic ∧ record_count cf = 1)
            (flagged fic cashflows) ↔
  Exists (λ cf, cf_fic_mis_date cf = fic ∧ key_of cf = k) cashflows.
Proof.
  rewrite list_elem_of_fmap, Exists_exists. unfold flagged. split.
  - intros (cf' & -> & Hin). apply list_elem_of_filter in Hin as [[Hf _] Hin].
    apply list_elem_of_fmap in Hin as (cf1 & -> & Hin).
    apply list_elem_of_fmap in Hin as (cf & -> & Hin).
    rewrite set_record_count_twice in *.
    destruct (set_record_count_fields fic 1 cf) as (Hfic & Hkey & _).
    exists cf. split; [done|]. split; congruence.
  - intros (cf & Hin & Hf & Hk).
    exists (set_record_count fic 1 (set_record_count fic 0 cf)).
    rewrite set_record_count_twice.
    destruct (set_record_count_fields fic 1 cf) as (Hfic & Hkey & _ & _ & Hc).
    split; [congruence|]. apply list_elem_of_filter. split.
    + split; [congruence|by apply Hc].
    + rewrite <- (set_record_count_twice fic 1 0 cf).
      apply list_elem_of_fmap_2, list_elem_of_fmap_2, Hin.
Qed.

Lemma filter_fmap_NoDup_length {A B : Type} `{EqDecision A} (f : A → B)
    (P : B → Prop) `{!∀ b, Decision (P b)} (l : list A) (k : A) :
  NoDup l → (∀ x, P (f x) ↔ x = k) →
  length (filter P (f <$> l)) = if decide (k ∈ l) then 1%nat else 0%nat.
Proof.
  intros Hnd HP. induction Hnd as [|x l Hx Hnd IH]; [done|].
  rewrite fmap_cons, filter_cons.
  destruct (decide (P (f x))) as [Hp|Hp].
  - apply HP in Hp as ->. rewrite decide_True by left. cbn. rewrite IH.
    by rewrite decide_False.
  - rewrite IH. destruct (decide (k ∈ l)) as [Hin|Hin].
    + rewrite decide_True; [done|by right].
    + rewrite decide_False; [done|].
      intros [->|?]%elem_of_cons; [|done]. by apply Hp, HP.
Qed.

Section step.
Variable strptime : string → result date.

(** A run returns exactly when the date is accepted, there is a bucket
    definition and the generator returns; the database is then the one
    described above. *)
Lemma spread_ok_iff v db db' :
  calculate_time_buckets_and_spread strptime v db = (Ok (), db') ↔
  ∃ fic ranges,
    coerce_date strptime v = Ok fic
    ∧ time_buckets db ≠ []
    ∧ _build_bucket_ranges fic
        (merge_sort by_serial_number (time_buckets db)) = Ok ranges
    ∧ db' = spread_result fic ranges db.
Proof.
  unfold calculate_time_buckets_and_spread, transaction_atomic, spread_body.
  destruct (coerce_date strptime v) as [fic|e]; cbn [time_buckets];
    [|split; [done|by intros (? & ? & ? & _)]].
  assert (merge_sort by_serial_number (time_buckets db) = [] ↔
          time_buckets db = []) as Hnil.
  { split; intros Hn.
    - apply Permutation_nil_r. rewrite <- Hn.
      by rewrite merge_sort_Permutation.
    - by rewrite Hn. }
  destruct (merge_sort by_serial_number (time_buckets db)) as [|tb tbs] eqn:Hs.
  { cbn. split; [done|]. intros (? & ? & _ & Hne & _).
    destruct Hne. by apply Hnil. }
  destruct (_build_bucket_ranges fic (tb :: tbs)) as [ranges|e] eqn:Hb.
  - cbn. split.
    + intros [= <-]. exists fic, ranges. split; [done|].
      split; [intros Hn; by apply Hnil in Hn|]. split; [done|].
      unfold spread_result. cbn. by rewrite <- !app_assoc.
    + intros (fic' & ranges' & Hf & _ & Hr & ->).
      injection Hf as <-.
      change (_build_bucket_ranges fic (tb :: tbs) = Ok ranges') in Hr.
      rewrite Hb in Hr. injection Hr as <-.
      unfold spread_result. cbn. by rewrite <- !app_assoc.
  - cbn. split; [done|]. intros (fic' & ranges' & Hf & _ & Hr & _).
    injection Hf as <-.
    change (_build_bucket_ranges fic (tb :: tbs) = Ok ranges') in Hr.
    by rewrite Hb in Hr.
Qed.

Lemma spread_raise_db v db e db' :
  calculate_time_buckets_and_spread strptime v db = (Raise e, db') →
  db' = db.
Proof.
  unfold calculate_time_buckets_and_spread, transaction_atomic.
  destruct (spread_body strptime v db) as [[[]|e'] db1]; congruence.
Qed.

Lemma aggregated_new_rows fic ranges db a :
  a ∈ aggregated (spread_result fic ranges db) →
  agg_fic_mis_date a = fic → agg_process_name a = "contractual"%string →
  ∃ el, a ∈ aggregate_element fic "contractual" ranges el
              (flagged fic (arranged_cashflows db)).
Proof.
  unfold spread_result. cbn [aggregated]. rewrite !elem_of_app.
  intros [Hin|[Hin|[Hin|Hin]]] Hf Hp; [|eauto..].
  apply list_elem_of_filter in Hin as [Hn _]. by destruct Hn.
Qed.

(** X1: in a run of the aggregation step that returns, with no negative
    frequency among the bucket definitions, the buckets of every aggregated
    row of the snapshot date add up to the financial element of the cash
    flows of the row's group dated from the snapshot date to the end of the
    last bucket in use (the 50th when more are defined): each such cash flow
    is counted in exactly one bucket, and a cash flow dated outside that
    window in none. *)
Theorem aggregated_buckets_partition v db db' fic :
  coerce_date strptime v = Ok fic →
  valid_date fic →
  Forall (λ tb, 0 ≤ frequency tb) (time_buckets db) →
  Forall (λ cf, valid_date (d_cashflow_date cf)) (arranged_cashflows db) →
  calculate_time_buckets_and_spread strptime v db = (Ok (), db') →
  ∃ ranges lo hi,
    _build_bucket_ranges fic (merge_sort by_serial_number (time_buckets db))
    = Ok ranges
    ∧ last (take max_target_buckets ranges) = Some (lo, hi)
    ∧ ∀ a, a ∈ aggregated db' →
        agg_fic_mis_date a = fic →
        agg_process_name a = "contractual"%string →
        sum_list (agg_buckets a)
        = bucket_sum (agg_element a)
            (filter (λ cf, cf_fic_mis_date cf = fic ∧ key_of cf = agg_key a)
                    (arranged_cashflows db))
            (fic, hi).
Proof.
  intros Hfic Hv Hfreq Hdates Hrun.
  apply spread_ok_iff in Hrun as (fic' & ranges & Hfic' & Hne & Hb & ->).
  rewrite Hfic in Hfic'. injection Hfic' as <-.
  set (tbs := merge_sort by_serial_number (time_buckets db)) in *.
  assert (Forall (λ tb, 0 ≤ frequency tb) tbs) as Hfreq'.
  { unfold tbs. by rewrite merge_sort_Permutation. }
  pose proof Hb as Hr. rewrite build_bucket_ranges_from in Hr.
  assert (ranges ≠ []) as Hrne.
  { intros ->. apply ranges_from_length in Hr.
    assert (length tbs = length (time_buckets db)) as Hlen
      by (unfold tbs; by rewrite merge_sort_Permutation).
    destruct (time_buckets db); [done|]. cbn in *. lia. }
  destruct (last (take max_target_buckets ranges)) as [[lo hi]|] eqn:Hlast.
  2:{ apply last_None in Hlast. destruct ranges; done. }
  exists ranges, lo, hi. split; [done|]. split; [done|].
  intros a Hin Hf Hp.
  destruct (aggregated_new_rows _ _ _ _ Hin Hf Hp) as [el Hel].
  apply elem_of_aggregate_element in Hel as (_ & _ & Hael & Hbuckets).
  rewrite Hbuckets, Hael.
  assert (take (Nat.min (length ranges) max_target_buckets) ranges
          = take max_target_buckets ranges) as ->.
  { destruct (Nat.min_spec (length ranges) max_target_buckets)
      as [[Hlt ->]|[Hge ->]]; [|done].
    rewrite !take_ge; [done|lia..]. }
  match goal with
  | |- sum_list (bucket_sum el ?g <$> _) = _ => set (group := g)
  end.
  assert (Forall (λ cf, valid_date (d_cashflow_date cf)) group) as Hgroup.
  { unfold group. do 2 apply filter_valid_dates.
    unfold flagged. rewrite !Forall_fmap.
    eapply Forall_impl; [exact Hdates|]. intros cf Hcf. cbn.
    rewrite set_record_count_twice.
    destruct (set_record_count_fields fic 1 cf) as (_ & _ & -> & _). done. }
  destruct (ranges_from_sum el group tbs fic ranges max_target_buckets lo hi
              Hgroup Hv Hfreq' Hr Hlast) as (_ & _ & ->).
  unfold group. apply bucket_sum_group.
Qed.

(** X2: a run of the aggregation step that returns leaves, for the snapshot
    date, exactly one aggregated row for every financial element and every
    group (account, product, currency, loan type, party type) that has a
    cash flow of that date, and none for a group that has no cash flow,
    whatever rows the aggregate held before. *)
Theorem aggregated_one_row_per_group v db db' fic k el :
  coerce_date strptime v = Ok fic →
  calculate_time_buckets_and_spread strptime v db = (Ok (), db') →
  length
    (filter (λ a, agg_fic_mis_date a = fic
                  ∧ agg_process_name a = "contractual"%string
                  ∧ agg_key a = k ∧ agg_element a = el)
            (aggregated db'))
  = if decide (Exists (λ cf, cf_fic_mis_date cf = fic ∧ key_of cf = k)
                 (arranged_cashflows db))
    then 1%nat else 0%nat.
Proof.
  intros Hfic Hrun.
  apply spread_ok_iff in Hrun as (fic' & ranges & Hfic' & Hne & Hb & ->).
  rewrite Hfic in Hfic'. injection Hfic' as <-.
  unfold spread_result. cbn [aggregated]. rewrite !filter_app, !length_app.
  rewrite filter_none.
  2:{ apply Forall_forall. intros a Ha.
      apply list_elem_of_filter in Ha as [Hn _]. tauto. }
  set (keys :=
         remove_dups
           (key_of
            <$> filter (λ cf, cf_fic_mis_date cf = fic ∧ record_count cf = 1)
                  (flagged fic (arranged_cashflows db)))).
  assert (∀ el',
    length
      (filter (λ a, agg_fic_mis_date a = fic
                    ∧ agg_process_name a = "contractual"%string
                    ∧ agg_key a = k ∧ agg_element a = el)
         (aggregate_element fic "contractual" ranges el'
            (flagged fic (arranged_cashflows db))))
    = if decide (el' = el)
      then (if decide (k ∈ keys) then 1%nat else 0%nat) else 0%nat) as Hcount.
  { intros el'. unfold aggregate_element. fold keys.
    destruct (decide (el' = el)) as [->|Hel].
    - apply filter_fmap_NoDup_length; [apply NoDup_remove_dups|].
      intros x. cbn. intuition congruence.
    - rewrite filter_none; [done|]. apply Forall_forall. intros a Ha.
      apply list_elem_of_fmap in Ha as (x & -> & _). cbn. intuition. }
  rewrite !Hcount. cbn [length].
  assert (k ∈ keys ↔
          Exists (λ cf, cf_fic_mis_date cf = fic ∧ key_of cf = k)
            (arranged_cashflows db)) as Hk.
  { unfold keys. rewrite elem_of_remove_dups. apply eligible_keys. }
  destruct (decide (Exists _ _)) as [Hex|Hex].
  - rewrite (decide_True (P := k ∈ keys)) by by apply Hk.
    destruct el; cbn; done.
  - rewrite (decide_False (P := k ∈ keys)) by by rewrite Hk.
    by repeat destruct (decide _).
Qed.

Lemma refresh_timebucket_master_twice process ranges fic table :
  _refresh_timebucket_master process ranges fic
    (_refresh_timebucket_master process ranges fic table)
  = _refresh_timebucket_master process ranges fic table.
Proof.
  unfold _refresh_timebucket_master. f_equal.
  rewrite filter_app, list_filter_filter.
  rewrite (filter_none _ (imap _ _)).
  - rewrite app_nil_r. apply filter_ext_in. tauto.
  - apply Forall_forall. intros r Hr.
    apply elem_of_lookup_imap in Hr as (i & [s0 e0] & -> & _). cbn. tauto.
Qed.

Lemma spread_result_twice fic ranges db :
  spread_result fic ranges (spread_result fic ranges db)
  = spread_result fic ranges db.
Proof.
  unfold spread_result at 1 3.
  cbn [arranged_cashflows time_buckets time_bucket_master aggregated
       spread_result].
  rewrite flagged_twice, refresh_timebucket_master_twice. f_equal.
  f_equal. rewrite !filter_app, list_filter_filter.
  rewrite !(filter_none _ (aggregate_element _ _ _ _ _)).
  - rewrite !app_nil_r. apply filter_ext_in. tauto.
  - apply Forall_forall. intros a Ha.
    apply elem_of_aggregate_element in Ha. tauto.
  - apply Forall_forall. intros a Ha.
    apply elem_of_aggregate_element in Ha. tauto.
  - apply Forall_forall. intros a Ha.
    apply elem_of_aggregate_element in Ha. tauto.
Qed.

(** X3: the aggregation step is idempotent: a second run with the same
    argument returns what the first returned and leaves the database as the
    first run left it -- the rows of the bucket master and of the aggregate
    for the snapshot date are replaced, never added twice. *)
Theorem spread_idempotent v db :
  calculate_time_buckets_and_spread strptime v
    (calculate_time_buckets_and_spread strptime v db).2
  = calculate_time_buckets_and_spread strptime v db.
Proof.
  destruct (calculate_time_buckets_and_spread strptime v db)
    as [[[]|e] db1] eqn:Hrun; cbn [snd].
  - apply spread_ok_iff in Hrun as (fic & ranges & Hfic & Hne & Hb & ->).
    apply spread_ok_iff. exists fic, ranges.
    split; [done|]. split; [done|]. split; [done|].
    by rewrite spread_result_twice.
  - pose proof (spread_raise_db _ _ _ _ Hrun) as ->. done.
Qed.

(** X4: a run of the aggregation step that returns leaves the cash flows
    and the bucket master of the other snapshot dates as they were: the
    bucket definitions are as before; every cash flow keeps its place and
    its columns other than [record_count], and a cash flow of another
    snapshot date is unchanged; the rows of the bucket master for another
    snapshot date or process are kept as they were, in their order.  (No
    foreign key points from these three relations to a row the step
    deletes.  The aggregates are not part of the statement: the delete of
    the bucket-master rows cascades to every aggregate row that points to
    one of them, whatever its date.) *)
Theorem spread_other_dates_untouched v db db' fic :
  coerce_date strptime v = Ok fic →
  calculate_time_buckets_and_spread strptime v db = (Ok (), db') →
  time_buckets db' = time_buckets db
  ∧ length (arranged_cashflows db') = length (arranged_cashflows db)
  ∧ (∀ (i : nat) cf, arranged_cashflows db !! i = Some cf →
       ∃ cf', arranged_cashflows db' !! i = Some cf'
         ∧ cf_fic_mis_date cf' = cf_fic_mis_date cf
         ∧ key_of cf' = key_of cf
         ∧ d_cashflow_date cf' = d_cashflow_date cf
         ∧ (∀ el, element_amount el cf' = element_amount el cf)
         ∧ (cf_fic_mis_date cf ≠ fic → cf' = cf))
  ∧ filter (λ r, ¬ (process_name r = "contractual"%string
                    ∧ fic_mis_date r = fic)) (time_bucket_master db')
    = filter (λ r, ¬ (process_name r = "contractual"%string
                      ∧ fic_mis_date r = fic)) (time_bucket_master db).
Proof.
  intros Hfic Hrun.
  apply spread_ok_iff in Hrun as (fic' & ranges & Hfic' & Hne & Hb & ->).
  rewrite Hfic in Hfic'. injection Hfic' as <-.
  unfold spread_result.
  cbn [arranged_cashflows time_buckets time_bucket_master aggregated].
  split; [done|]. split; [unfold flagged; by rewrite !length_fmap|].
  split.
  - intros i cf Hi. unfold flagged.
    rewrite !list_lookup_fmap, Hi. cbn. eexists. split; [done|].
    rewrite set_record_count_twice.
    destruct (set_record_count_fields fic 1 cf) as (? & ? & ? & ? & _).
    repeat split; try done.
    intros Hd. unfold set_record_count. by rewrite decide_False.
  - unfold _refresh_timebucket_master.
    rewrite filter_app, list_filter_filter.
    rewrite (filter_none _ (imap _ _)).
    + rewrite app_nil_r. apply filter_ext_in. tauto.
    + apply Forall_forall. intros r Hr.
      apply elem_of_lookup_imap in Hr as (i & [s0 e0] & -> & _). cbn. tauto.
Qed.

End step.

(** A database with three cash flows of the snapshot date 2025-04-30 in two
    groups, one of them dated after the last bucket, and the three bucket
    definitions of the end-to-end scenario. *)
Definition scenario_db : DB :=
  mkDB [ mkCashflow (mkdate 2025 4 30) "ACC1" "P1" "USD" None None
           (mkdate 2025 5 1) 100000 90000 10000 0;
         mkCashflow (mkdate 2025 4 30) "ACC1" "P1" "USD" None None
           (mkdate 2025 6 8) 50000 50000 0 0;
         mkCashflow (mkdate 2025 4 30) "ACC2" "P2" "USD" (Some "CREDIT") None
           (mkdate 2031 1 1) 70000 70000 0 0;
         mkCashflow (mkdate 2025 3 31) "ACC1" "P1" "USD" None None
           (mkdate 2025 5 1) 30000 30000 0 1 ]
       scenario_buckets [] [].

Lemma aggregated_buckets_partition_witness :
  ∃ ranges lo hi,
    _build_bucket_ranges (mkdate 2025 4 30)
      (merge_sort by_serial_number (time_buckets scenario_db))
    = Ok ranges
    ∧ last (take max_target_buckets ranges) = Some (lo, hi)
    ∧ ∀ a,
        a ∈ aggregated
              (calculate_time_buckets_and_spread Strptime.strptime_ymd
                 (PyDate (mkdate 2025 4 30)) scenario_db).2 →
        agg_fic_mis_date a = mkdate 2025 4 30 →
        agg_process_name a = "contractual"%string →
        sum_list (agg_buckets a)
        = bucket_sum (agg_element a)
            (filter (λ cf, cf_fic_mis_date cf = mkdate 2025 4 30
                           ∧ key_of cf = agg_key a)
                    (arranged_cashflows scenario_db))
            (mkdate 2025 4 30, hi).
Proof.
  apply (aggregated_buckets_partition Strptime.strptime_ymd
           (PyDate (mkdate 2025 4 30)) scenario_db).
  - reflexivity.
  - apply valid_dateb_true. reflexivity.
  - repeat constructor; cbn; lia.
  - repeat (apply Forall_cons_2; [apply valid_dateb_true; reflexivity|]).
    apply Forall_nil_2.
  - vm_compute. reflexivity.
Defined.

Lemma aggregated_one_row_per_group_witness :
  length
    (filter (λ a, agg_fic_mis_date a = mkdate 2025 4 30
                  ∧ agg_process_name a = "contractual"%string
                  ∧ agg_key a = ("ACC1", "P1", "USD", None, None)%string
                  ∧ agg_element a = el_total_principal_payment)
            (aggregated
               (calculate_time_buckets_and_spread Strptime.strptime_ymd
                  (PyDate (mkdate 2025 4 30)) scenario_db).2))
  = 1%nat.
Proof.
  apply (aggregated_one_row_per_group Strptime.strptime_ymd
           (PyDate (mkdate 2025 4 30)) scenario_db _ (mkdate 2025 4 30)
           ("ACC1", "P1", "USD", None, None)%string
           el_total_principal_payment).
  - reflexivity.
  - vm_compute. reflexivity.
Defined.

Lemma spread_other_dates_untouched_witness :
  let db' :=
    (calculate_time_buckets_and_spread Strptime.strptime_ymd
       (PyStr "2025-04-30") scenario_db).2 in
  time_buckets db' = time_buckets scenario_db
  ∧ length (arranged_cashflows db') = length (arranged_cashflows scenario_db)
  ∧ (∀ (i : nat) cf, arranged_cashflows scenario_db !! i = Some cf →
       ∃ cf', arranged_cashflows db' !! i = Some cf'
         ∧ cf_fic_mis_date cf' = cf_fic_mis_date cf
         ∧ key_of cf' = key_of cf
         ∧ d_cashflow_date cf' = d_cashflow_date cf
         ∧ (∀ el, element_amount el cf' = element_amount el cf)
         ∧ (cf_fic_mis_date cf ≠ mkdate 2025 4 30 → cf' = cf))
  ∧ filter (λ r, ¬ (process_name r = "contractual"%string
                    ∧ fic_mis_date r = mkdate 2025 4 30))
           (time_bucket_master db')
    = filter (λ r, ¬ (process_name r = "contractual"%string
                      ∧ fic_mis_date r = mkdate 2025 4 30))
             (time_bucket_master scenario_db).
Proof.
  apply (spread_other_dates_untouched Strptime.strptime_ymd
           (PyStr "2025-04-30") scenario_db).
  - vm_compute. reflexivity.
  - vm_compute. reflexivity.
Defined.

(** The run on that database: the two cash flows of the first group fall in
    the first and the second bucket, the cash flow of 2031 in none. *)
Example spread_scenario_db :
  filter (λ a, agg_element a = el_total_cash_flow_amount)
    (aggregated
       (calculate_time_buckets_and_spread Strptime.strptime_ymd
          (PyDate (mkdate 2025 4 30)) scenario_db).2)
  = [ mkAggregated (mkdate 2025 4 30) "contractual"
        ("ACC1", "P1", "USD", None, None)%string el_total_cash_flow_amount
        [100000; 50000; 0];
      mkAggregated (mkdate 2025 4 30) "contractual"
        ("ACC2", "P2", "USD", Some "CREDIT", None)%string
        el_total_cash_flow_amount [0; 0; 0] ].
Proof. vm_compute. reflexivity. Qed.

End AggregationLaws.

(** ** Bucket column names: what [bucket_column_name] writes and what the
    loaders read back *)

Module ColumnNameLaws.
Import Calendar BucketGen SchemaSync PyDict Respreader.

(** The number a run of decimal digits stands for, read from the left. *)
Definition read_digits (a : Z) (ds : list ascii) : Z :=
  foldl (λ a c, 10 * a + (Z.of_N (N_of_ascii c) - 48)) a ds.

Lemma pretty_N_char_code d :
  (d < 10)%N → N_of_ascii (pretty_N_char d) = (48 + d)%N.
Proof.
  intros Hd.
  assert (d = 0 ∨ d = 1 ∨ d = 2 ∨ d = 3 ∨ d = 4 ∨ d = 5 ∨ d = 6 ∨ d = 7
          ∨ d = 8 ∨ d = 9)%N as Hc by lia.
  repeat (destruct Hc as [->|Hc]; [reflexivity|]). by subst d.
Qed.

Lemma is_digit_code c :
  is_digit c = true ↔ (48 ≤ N_of_ascii c ≤ 57)%N.
Proof. unfold is_digit. cbv zeta. rewrite andb_true_iff, !N.leb_le. done. Qed.

Lemma read_digits_snoc a ds c :
  read_digits a (ds ++ [c])
  = 10 * read_digits a ds + (Z.of_N (N_of_ascii c) - 48).
Proof. unfold read_digits. by rewrite foldl_app. Qed.

(** The digits [pretty_N_go] puts in front of its accumulator. *)
Lemma pretty_N_go_digits x :
  ∀ s, ∃ ds,
    list_ascii_of_string (pretty_N_go x s) = ds ++ list_ascii_of_string s
    ∧ Forall (λ c, is_digit c = true) ds
    ∧ (∀ a, read_digits a ds = a * 10 ^ Z.of_nat (length ds) + Z.of_N x)
    ∧ ((0 < x)%N → ∃ c ds', ds = c :: ds' ∧ c ≠ "0"%char)
    ∧ (x = 0%N → ds = [])
    ∧ (∀ k : nat, (x < 10 ^ N.of_nat k)%N → (length ds ≤ k)%nat).
Proof.
  induction (N.lt_wf_0 x) as [x _ IH]. intros s.
  assert (x = 0 ∨ 0 < x)%N as [->|Hpos] by lia.
  { exists []. rewrite pretty_N_go_0.
    split; [done|]. split; [done|]. split; [intros a; cbn; lia|].
    split; [lia|]. split; [done|]. intros k _. cbn. lia. }
  rewrite pretty_N_go_step by done.
  assert (x `mod` 10 < 10)%N as Hmod by (apply N.mod_lt; lia).
  pose proof (pretty_N_char_code _ Hmod) as Hc.
  pose proof (N.div_mod x 10 ltac:(lia)) as Hdm.
  set (c := pretty_N_char (x `mod` 10)) in *.
  set (q := (x `div` 10)%N) in *. set (r := (x `mod` 10)%N) in *.
  clearbody c q r.
  destruct (IH q ltac:(lia) (String c s))
    as (ds & Hds & Hdig & Hread & Hhead & Hnil & Hlen).
  exists (ds ++ [c]). split; [|split; [|split; [|split; [|split]]]].
  - rewrite Hds. cbn. by rewrite <- app_assoc.
  - apply Forall_app. split; [done|]. constructor; [|done].
    apply is_digit_code. lia.
  - intros a. rewrite read_digits_snoc, Hread, length_app. cbn [length].
    rewrite Hc.
    replace (Z.of_nat (length ds + 1)) with (Z.of_nat (length ds) + 1)
      by lia.
    rewrite Z.pow_add_r by lia. lia.
  - intros _. assert (q = 0 ∨ 0 < q)%N as [Hz|Hp] by lia.
    + rewrite (Hnil Hz). exists c, []. split; [done|].
      intros Heq. rewrite Heq in Hc. cbn in Hc. lia.
    + destruct (Hhead Hp) as (c' & ds' & -> & Hc').
      by exists c', (ds' ++ [c]).
  - lia.
  - intros k Hk. rewrite length_app. cbn [length].
    destruct k as [|k].
    { cbn in Hk. lia. }
    assert (q < 10 ^ N.of_nat k)%N as Hk'.
    { replace (N.of_nat (S k)) with (N.succ (N.of_nat k)) in Hk by lia.
      rewrite N.pow_succ_r' in Hk. lia. }
    specialize (Hlen k Hk'). lia.
Qed.

(** The decimal digits of a number that is not negative: at least one, no
    leading zero but for zero itself, and they read back as the number. *)
Lemma pretty_Z_digits n :
  0 ≤ n →
  let ds := list_ascii_of_string (pretty n) in
  ds ≠ []
  ∧ Forall (λ c, is_digit c = true) ds
  ∧ read_digits 0 ds = n
  ∧ (0 < n → ∃ c ds', ds = c :: ds' ∧ c ≠ "0"%char)
  ∧ (n = 0 → ds = ["0"%char])
  ∧ (∀ k : nat, (0 < k)%nat → n < 10 ^ Z.of_nat k → (length ds ≤ k)%nat).
Proof.
  intros Hn. destruct n as [|p|p]; [|clear Hn|lia].
  { cbn. split; [done|]. split; [by repeat constructor|].
    split; [done|]. split; [lia|]. split; [done|]. intros k Hk _. lia. }
  cbv zeta.
  assert (pretty (Z.pos p) = pretty_N_go (N.pos p) "") as -> by done.
  destruct (pretty_N_go_digits (N.pos p) "")
    as (ds & -> & Hdig & Hread & Hhead & _ & Hlen).
  cbn [list_ascii_of_string]. rewrite app_nil_r.
  destruct (Hhead ltac:(lia)) as (c & ds' & -> & Hc).
  split; [done|]. split; [done|]. split.
  { rewrite Hread. change (Z.of_N (N.pos p)) with (Z.pos p). lia. }
  split; [by eauto|]. split; [lia|].
  intros k _ Hk. apply Hlen.
  apply N2Z.inj_lt. rewrite N2Z.inj_pow. change (Z.of_N 10) with 10.
  rewrite nat_N_Z. exact Hk.
Qed.

Lemma chars_length s : length (list_ascii_of_string s) = String.length s.
Proof. induction s as [|c s IH]; [done|]. cbn. by rewrite IH. Qed.

Lemma chars_app s1 s2 :
  list_ascii_of_string (s1 +:+ s2)
  = list_ascii_of_string s1 ++ list_ascii_of_string s2.
Proof.
  induction s1 as [|c s1 IH]; [done|].
  change (String c s1 +:+ s2) with (String c (s1 +:+ s2)).
  cbn. by rewrite IH.
Qed.

Lemma pad_left_chars w s :
  list_ascii_of_string (pad_left w s)
  = replicate (w - length (list_ascii_of_string s)) "0"%char
    ++ list_ascii_of_string s.
Proof.
  unfold pad_left. by rewrite list_ascii_of_string_of_list_ascii, chars_length.
Qed.

Lemma lstrip_zeros (k : nat) ds :
  lstrip "0" (replicate k "0"%char ++ ds) = lstrip "0" ds.
Proof. induction k as [|k IH]; [done|]. exact IH. Qed.

Lemma lstrip_other c ds : c ≠ "0"%char → lstrip "0" (c :: ds) = c :: ds.
Proof. intros Hc. cbn. by apply Ascii.eqb_neq in Hc as ->. Qed.

Lemma digit_val_code c :
  is_digit c = true →
  Strptime.digit_val c = Some (Z.of_N (N_of_ascii c) - 48).
Proof.
  intros Hc%is_digit_code. unfold Strptime.digit_val. cbv zeta.
  destruct (Z.leb_spec 48 (Z.of_N (N_of_ascii c))); [|lia].
  destruct (Z.leb_spec (Z.of_N (N_of_ascii c)) 57); [done|lia].
Qed.

Lemma int_of_digits_read ds :
  ds ≠ [] → Forall (λ c, is_digit c = true) ds →
  int_of_digits ds = Some (read_digits 0 ds).
Proof.
  intros Hne Hdig. unfold int_of_digits, read_digits.
  destruct ds as [|c0 ds0]; [done|]. clear Hne.
  generalize 0. induction Hdig as [|c ds Hc _ IH]; intros a; [done|].
  cbn [foldl]. rewrite <- IH. by rewrite (digit_val_code c Hc).
Qed.

Lemma split_on_sep sep a b :
  Forall (λ c, c ≠ sep) a →
  split_on sep (a ++ sep :: b) = a :: split_on sep b.
Proof.
  induction 1 as [|c a Hc _ IH]; cbn.
  - by rewrite Ascii.eqb_refl.
  - apply Ascii.eqb_neq in Hc as ->. by rewrite IH.
Qed.

Lemma split_on_none sep a :
  Forall (λ c, c ≠ sep) a → split_on sep a = [a].
Proof.
  induction 1 as [|c a Hc _ IH]; cbn; [done|].
  apply Ascii.eqb_neq in Hc as ->. by rewrite IH.
Qed.

(** The character [bucket_column_name] writes for a character of the raw
    name. *)
Definition sanitize (c : ascii) : ascii :=
  if is_identifier_char c then c else "_"%char.

Lemma bucket_column_name_chars b :
  list_ascii_of_string (bucket_column_name b)
  = take 63
      (list_ascii_of_string "bucket_"
       ++ (sanitize <$> list_ascii_of_string
                          (format_03d (BucketGen.bucket_number b)))
       ++ "_"%char
          :: (sanitize <$> list_ascii_of_string
                             (format_Ymd (start_date b) +:+ "_"
                              +:+ format_Ymd (end_date b)))).
Proof.
  unfold bucket_column_name. rewrite list_ascii_of_string_of_list_ascii.
  f_equal. rewrite !chars_app, !fmap_app. f_equal.
Qed.

Lemma is_digit_identifier c : is_digit c = true → is_identifier_char c = true.
Proof.
  unfold is_digit, is_identifier_char. cbv zeta. intros ->. done.
Qed.

Lemma sanitize_digits ds :
  Forall (λ c, is_digit c = true) ds → sanitize <$> ds = ds.
Proof.
  induction 1 as [|c ds Hc _ IH]; [done|]. cbn. rewrite IH. f_equal.
  unfold sanitize. by rewrite is_digit_identifier.
Qed.

Lemma is_digit_not_underscore c : is_digit c = true → c ≠ "_"%char.
Proof. by intros Hc ->. Qed.

Lemma sanitize_identifier c : is_identifier_char (sanitize c) = true.
Proof.
  unfold sanitize. destruct (is_identifier_char c) eqn:Hc; [done|].
  reflexivity.
Qed.

(** X5: the name [bucket_column_name] gives a bucket is a legal column
    name, whatever the bucket holds: at most 63 characters, every one of
    them a letter, a digit or an underscore, and it begins with "bucket_",
    so that the loaders find the column with [LIKE 'bucket_%']. *)
Theorem bucket_column_name_legal b :
  let cs := list_ascii_of_string (bucket_column_name b) in
  (length cs ≤ 63)%nat
  ∧ Forall (λ c, is_identifier_char c = true) cs
  ∧ take 7 cs = list_ascii_of_string "bucket_"
  ∧ sql_like (bucket_column_name b) "bucket_%" = true.
Proof.
  cbv zeta. split; [|split; [|split]].
  - rewrite bucket_column_name_chars, length_take. lia.
  - rewrite bucket_column_name_chars. apply Forall_take.
    apply Forall_app. split; [by repeat constructor|].
    apply Forall_app. split.
    + apply Forall_fmap, Forall_true. intros c. apply sanitize_identifier.
    + constructor; [done|].
      apply Forall_fmap, Forall_true. intros c. apply sanitize_identifier.
  - rewrite bucket_column_name_chars, take_take.
    by rewrite (take_app_length' (list_ascii_of_string "bucket_")).
  - apply SchemaSyncFacts.bucket_column_name_like.
Qed.

(** The name of a bucket whose number is not negative: the digits of the
    number, padded to three, stand between the first two underscores. *)
Lemma bucket_column_name_split b :
  0 ≤ BucketGen.bucket_number b < 10 ^ 56 →
  ∃ rest,
    split_on "_" (list_ascii_of_string (bucket_column_name b))
    = list_ascii_of_string "bucket"
      :: list_ascii_of_string (pad_left 3 (pretty (BucketGen.bucket_number b)))
      :: rest.
Proof.
  intros [Hn Hmax]. rewrite bucket_column_name_chars.
  unfold format_03d. destruct (Z.ltb_spec (BucketGen.bucket_number b) 0);
    [lia|].
  set (n := BucketGen.bucket_number b) in *.
  destruct (pretty_Z_digits n Hn) as (Hne & Hdig & _ & _ & _ & Hlen).
  specialize (Hlen 56%nat ltac:(lia) Hmax).
  set (D := list_ascii_of_string (pad_left 3 (pretty n))).
  assert (Forall (λ c, is_digit c = true) D) as HD.
  { unfold D. rewrite pad_left_chars. apply Forall_app. split; [|done].
    by apply Forall_replicate. }
  assert (length D ≤ 56)%nat as HlenD.
  { unfold D. rewrite pad_left_chars, length_app, length_replicate. lia. }
  rewrite (sanitize_digits D HD).
  set (R := sanitize <$> _).
  change (list_ascii_of_string "bucket_")
    with (list_ascii_of_string "bucket" ++ ["_"%char]).
  rewrite <- !app_assoc. cbn [app].
  rewrite (take_app_ge (list_ascii_of_string "bucket")) by (cbn; lia).
  change (63 - length (list_ascii_of_string "bucket"))%nat with 57%nat.
  cbn [take].
  rewrite (take_app_ge D) by lia.
  rewrite split_on_sep by by repeat constructor.
  assert (Forall (λ c, c ≠ "_"%char) D) as HD'.
  { eapply Forall_impl; [exact HD|]. apply is_digit_not_underscore. }
  destruct (56 - length D)%nat as [|k]; cbn [take].
  - rewrite app_nil_r, split_on_none by done. by eexists.
  - rewrite split_on_sep by done. by eexists.
Qed.

(** X6: the bucket number the Behavioral Respreader reads from a column
    name is the number [bucket_column_name] wrote into it, for every bucket
    number that is not negative (and has at most 56 digits, beyond which
    the cut to 63 characters loses digits). *)
Theorem column_bucket_no_round_trip b :
  0 ≤ BucketGen.bucket_number b < 10 ^ 56 →
  column_bucket_no (bucket_column_name b)
  = Ok (Some (BucketGen.bucket_number b)).
Proof.
  intros Hb. destruct (bucket_column_name_split b Hb) as [rest Hsplit].
  unfold column_bucket_no. rewrite Hsplit. f_equal.
  destruct Hb as [Hn _]. set (n := BucketGen.bucket_number b) in *.
  rewrite pad_left_chars, lstrip_zeros.
  destruct (pretty_Z_digits n Hn) as (Hne & Hdig & Hread & Hpos & Hzero & _).
  assert (n = 0 ∨ 0 < n) as [H0|H1] by lia.
  - rewrite (Hzero H0), H0. reflexivity.
  - destruct (Hpos H1) as (c & ds' & Heq & Hc). rewrite Heq in *.
    rewrite lstrip_other by done.
    rewrite int_of_digits_read by done. by rewrite Hread.
Qed.

Lemma column_bucket_no_round_trip_witness :
  column_bucket_no
    (bucket_column_name
       (mkTimeBucketMaster "contractual" 12 (mkdate 2025 4 30)
          (mkdate 2025 5 7) (mkdate 2025 4 30)))
  = Ok (Some 12).
Proof.
  apply (column_bucket_no_round_trip
           (mkTimeBucketMaster "contractual" 12 (mkdate 2025 4 30)
              (mkdate 2025 5 7) (mkdate 2025 4 30))).
  cbn. lia.
Defined.

(** X7: two buckets with different numbers, neither negative, never get
    the same column name, whatever their dates: the columns of a process
    cannot collide. *)
Theorem bucket_column_name_distinct b1 b2 :
  0 ≤ BucketGen.bucket_number b1 < 10 ^ 56 →
  0 ≤ BucketGen.bucket_number b2 < 10 ^ 56 →
  BucketGen.bucket_number b1 ≠ BucketGen.bucket_number b2 →
  bucket_column_name b1 ≠ bucket_column_name b2.
Proof.
  intros H1 H2 Hne Heq.
  destruct (bucket_column_name_split b1 H1) as [rest1 Hs1].
  destruct (bucket_column_name_split b2 H2) as [rest2 Hs2].
  rewrite Heq, Hs2 in Hs1. injection Hs1 as Hpad _.
  apply (f_equal (λ cs, int_of_digits
                          (match lstrip "0" cs with
                           | [] => list_ascii_of_string "0"
                           | st => st
                           end))) in Hpad.
  assert (∀ n, 0 ≤ n →
            int_of_digits
              (match lstrip "0"
                       (list_ascii_of_string (pad_left 3 (pretty n))) with
               | [] => list_ascii_of_string "0"
               | st => st
               end) = Some n) as Hread.
  { intros n Hn. rewrite pad_left_chars, lstrip_zeros.
    destruct (pretty_Z_digits n Hn) as (_ & Hdig & Hr & Hpos & Hzero & _).
    assert (n = 0 ∨ 0 < n) as [H0|Hp] by lia.
    - rewrite (Hzero H0), H0. reflexivity.
    - destruct (Hpos Hp) as (c & ds' & Hd & Hc). rewrite Hd in *.
      rewrite lstrip_other by done.
      rewrite int_of_digits_read by done. by rewrite Hr. }
  rewrite !Hread in Hpad by lia. congruence.
Qed.

Lemma bucket_column_name_distinct_witness :
  bucket_column_name
    (mkTimeBucketMaster "contractual" 1 (mkdate 2025 4 30) (mkdate 2025 5 7)
       (mkdate 2025 4 30))
  ≠ bucket_column_name
      (mkTimeBucketMaster "contractual" 2 (mkdate 2025 4 30)
         (mkdate 2025 5 7) (mkdate 2025 4 30)).
Proof.
  apply (bucket_column_name_distinct
           (mkTimeBucketMaster "contractual" 1 (mkdate 2025 4 30)
              (mkdate 2025 5 7) (mkdate 2025 4 30))
           (mkTimeBucketMaster "contractual" 2 (mkdate 2025 4 30)
              (mkdate 2025 5 7) (mkdate 2025 4 30))); cbn; lia.
Defined.

End ColumnNameLaws.

(** ** [sync_bucket_columns]: the columns after a run *)

Module SchemaSyncLaws.
Import Calendar BucketGen SchemaSync SchemaSyncFacts.

Lemma add_columns_NoDup (columns names : list string) :
  NoDup columns → NoDup (foldl add_column_if_not_exists columns names).
Proof.
  revert columns. induction names as [|c names IH]; intros columns Hnd;
    [done|].
  cbn [foldl]. apply IH. unfold add_column_if_not_exists.
  destruct (decide (c ∈ columns)); [done|].
  apply NoDup_app. split; [done|]. split; [|apply NoDup_singleton].
  intros x Hx ->%list_elem_of_singleton. done.
Qed.

Lemma add_columns_new (columns names : list string) :
  ∃ added,
    foldl add_column_if_not_exists columns names = columns ++ added
    ∧ ∀ c, c ∈ added → c ∈ names ∧ c ∉ columns.
Proof.
  revert columns. induction names as [|c names IH]; intros columns.
  - exists []. rewrite app_nil_r. split; [done|]. by intros c ?%elem_of_nil.
  - cbn [foldl]. unfold add_column_if_not_exists at 2.
    destruct (decide (c ∈ columns)) as [Hc|Hc].
    + destruct (IH columns) as (added & -> & Hadd). exists added.
      split; [done|]. intros x Hx. destruct (Hadd x Hx). split; [by right|done].
    + destruct (IH (columns ++ [c])) as (added & -> & Hadd).
      exists (c :: added). split; [by rewrite <- app_assoc|].
      intros x [->|Hx]%elem_of_cons; [split; [left|done]|].
      destruct (Hadd x Hx) as [Hn Hnot]. split; [by right|].
      intros Hin. apply Hnot, elem_of_app. by left.
Qed.

(** The test of [sync_bucket_columns] for dropping the bucket columns
    first. *)
Definition must_rebuild (table_name : string) (rebuild : bool) : bool :=
  rebuild || is_snapshot_name (lower table_name)
  || bool_decide (lower table_name = "report_contractual_base"%string).

(** X8: when [sync_bucket_columns] rebuilds -- it is asked to, or the
    table is Report_Contractual_Base or a Report_Contractual_<8 digits>
    table, in any letter case -- the columns matching [LIKE 'bucket_%']
    afterwards are exactly the columns of the buckets of the default
    process, the other columns are kept in their order, and no column name
    occurs twice if none did before. *)
Theorem sync_rebuild_exact table_name rebuild default_process tbm columns :
  must_rebuild table_name rebuild = true →
  let after :=
    sync_bucket_columns table_name rebuild default_process tbm columns in
  filter (λ c, ¬ bucket_like c) after = filter (λ c, ¬ bucket_like c) columns
  ∧ (∀ c, c ∈ _get_bucket_cols_pg after ↔
          c ∈ required_columns (default ""%string default_process) tbm)
  ∧ (NoDup columns → NoDup after).
Proof.
  intros Hmust. cbv zeta. unfold sync_bucket_columns.
  fold (must_rebuild table_name rebuild). rewrite Hmust.
  rewrite drop_bucket_columns.
  set (names := required_columns _ tbm).
  set (kept := filter (λ c, ¬ bucket_like c) columns).
  destruct (add_columns_new kept names) as (added & Heq & Hadd).
  pose proof (add_columns_all kept names) as Hall. rewrite Heq in Hall |- *.
  assert (∀ c, c ∈ names → bucket_like c) as Hlike.
  { intros c Hc. apply list_elem_of_fmap in Hc as (b & -> & _).
    apply bucket_column_name_like. }
  assert (filter (λ c, ¬ bucket_like c) kept = kept) as Hkept.
  { apply filter_all, Forall_forall. intros c Hc.
    by apply list_elem_of_filter in Hc as [? _]. }
  split; [|split].
  - rewrite filter_app, Hkept, filter_none; [by rewrite app_nil_r|].
    apply Forall_forall. intros c Hc Hn. apply Hn, Hlike. by apply Hadd.
  - intros c. unfold _get_bucket_cols_pg. rewrite list_elem_of_filter.
    fold (bucket_like c). split.
    + intros [Hl [Hin|Hin]%elem_of_app]; [|by apply Hadd].
      apply list_elem_of_filter in Hin as [Hn _]. done.
    + intros Hc. split; [by apply Hlike|].
      rewrite Forall_forall in Hall. by apply Hall.
  - intros Hnd. rewrite <- Heq. apply add_columns_NoDup.
    by apply NoDup_filter.
Qed.

Lemma sync_rebuild_exact_witness :
  let after :=
    sync_bucket_columns "Report_Contractual_20250430" false
      (Some "contractual"%string) scenario_master
      [ "id"; "v_prod_code"; "bucket_001_20250101_20250107" ]%string in
  filter (λ c, ¬ bucket_like c) after
  = filter (λ c, ¬ bucket_like c)
      [ "id"; "v_prod_code"; "bucket_001_20250101_20250107" ]%string
  ∧ (∀ c, c ∈ _get_bucket_cols_pg after ↔
          c ∈ required_columns (default ""%string (Some "contractual"%string))
                scenario_master)
  ∧ (NoDup [ "id"; "v_prod_code"; "bucket_001_20250101_20250107" ]%string →
     NoDup after).
Proof.
  apply (sync_rebuild_exact "Report_Contractual_20250430" false
           (Some "contractual"%string) scenario_master
           [ "id"; "v_prod_code"; "bucket_001_20250101_20250107" ]%string).
  vm_compute. reflexivity.
Defined.

(** X9: when [sync_bucket_columns] does not rebuild, it only appends: the
    columns of the table are all kept, in their order, in front of the
    columns added; a column is added only for a bucket of the default
    process that had no column, and every such bucket has its column
    afterwards.  A bucket column no bucket asks for any more stays. *)
Theorem sync_append_only table_name rebuild default_process tbm columns :
  must_rebuild table_name rebuild = false →
  let after :=
    sync_bucket_columns table_name rebuild default_process tbm columns in
  let required := required_columns (default ""%string default_process) tbm in
  ∃ added,
    after = columns ++ added
    ∧ (∀ c, c ∈ added → c ∈ required ∧ c ∉ columns)
    ∧ (∀ c, c ∈ required → c ∈ after).
Proof.
  intros Hmust. cbv zeta. unfold sync_bucket_columns.
  fold (must_rebuild table_name rebuild). rewrite Hmust.
  set (names := required_columns _ tbm).
  destruct (add_columns_new columns names) as (added & Heq & Hadd).
  exists added. split; [done|]. split; [done|].
  intros c Hc. pose proof (add_columns_all columns names) as Hall.
  rewrite Forall_forall in Hall. by apply Hall.
Qed.

Lemma sync_append_only_witness :
  let after :=
    sync_bucket_columns "Report_behavioural_archive" false
      (Some "contractual"%string) scenario_master
      [ "id"; "bucket_001_20250101_20250107" ]%string in
  let required :=
    required_columns (default ""%string (Some "contractual"%string))
      scenario_master in
  ∃ added,
    after = [ "id"; "bucket_001_20250101_20250107" ]%string ++ added
    ∧ (∀ c, c ∈ added →
          c ∈ required
          ∧ c ∉ [ "id"; "bucket_001_20250101_20250107" ]%string)
    ∧ (∀ c, c ∈ required → c ∈ after).
Proof.
  apply (sync_append_only "Report_behavioural_archive" false
           (Some "contractual"%string) scenario_master
           [ "id"; "bucket_001_20250101_20250107" ]%string).
  vm_compute. reflexivity.
Defined.

End SchemaSyncLaws.

(** ** The Balance Reconciler: statistics, untouched rows, a second run *)

Module ReconcilerLaws.
Import Calendar Money MoneyFacts Reconciler ReconcilerFacts.

(** The rows counted in one of the four outcomes. *)
Definition outcomes (st : Stats) : nat :=
  (adjusted st + missing_pb st + within_tolerance st + errors st)%nat.

Lemma process_row_counts tbl st aborted q :
  processed (process_row (tbl, st, aborted) q).1.2 = S (processed st)
  ∧ outcomes (process_row (tbl, st, aborted) q).1.2 = S (outcomes st).
Proof.
  unfold process_row, outcomes. cbv beta iota zeta.
  repeat case_match; cbn; lia.
Qed.

Lemma foldl_process_row_counts qs tbl st aborted :
  processed (foldl process_row (tbl, st, aborted) qs).1.2
  = (processed st + length qs)%nat
  ∧ outcomes (foldl process_row (tbl, st, aborted) qs).1.2
    = (outcomes st + length qs)%nat.
Proof.
  revert tbl st aborted. induction qs as [|q qs IH]; intros tbl st aborted.
  - cbn. lia.
  - cbn [foldl length].
    destruct (process_row_counts tbl st aborted q) as [Hp Ho].
    destruct (process_row (tbl, st, aborted) q) as [[tbl' st'] aborted'].
    destruct (IH tbl' st' aborted') as [-> ->]. cbn in Hp, Ho. lia.
Qed.

(** X10: the statistics [align_buckets_to_balance] returns account for
    every row of its main query: [processed] is the number of rows the
    query returned, and each of them is counted in exactly one of
    [adjusted], [missing_pb], [within_tolerance] and [errors]. *)
Theorem align_statistics_account fic process_name t pbs st tbl' :
  align_buckets_to_balance fic process_name (Some t) pbs
  = (AlignSuccess st, tbl') →
  processed st = length (main_query fic process_name (rows t) pbs)
  ∧ processed st
    = (adjusted st + missing_pb st + within_tolerance st + errors st)%nat.
Proof.
  unfold align_buckets_to_balance.
  destruct (bucket_cols t) as [|c cs]; [done|].
  destruct (foldl_process_row_counts
              (main_query fic process_name (rows t) pbs) (rows t)
              (mkStats 0 0 0 0 0) false) as [Hp Ho].
  destruct (foldl process_row _ _) as [[rows' st'] aborted].
  intros [= <- _]. cbn in Hp, Ho. unfold outcomes in Ho. lia.
Qed.

Lemma align_statistics_account_witness :
  let st := mkStats 1 1 0 0 0 in
  processed st
  = length (main_query (mkdate 2025 4 30) None (rows scenario_table)
              [scenario_balance])
  ∧ processed st
    = (adjusted st + missing_pb st + within_tolerance st + errors st)%nat.
Proof.
  apply (align_statistics_account (mkdate 2025 4 30) None scenario_table
           [scenario_balance] (mkStats 1 1 0 0 0)
           (Some (mkReportTable (bucket_cols scenario_table)
                    [ mkReportRow 1 (mkdate 2025 4 30) "contractual" "P1"
                        "USD" "LOANS" [Some 120000; Some 0; None] ]))).
  vm_compute. reflexivity.
Defined.

(** *** A relation with distinct ids and one target balance a row *)

(** The target balance of a row, if it has one. *)
Definition target_of (pbs : list ProductBalance) (r : ReportRow) : option Z :=
  n_balance <$> head (matching_balances pbs r).

Definition query_of (pbs : list ProductBalance) (r : ReportRow) : QueryRow :=
  query_row r (target_of pbs r).

Lemma joined_single pbs r :
  (length (matching_balances pbs r) ≤ 1)%nat →
  joined pbs r = [query_of pbs r].
Proof.
  unfold joined, query_of, target_of.
  destruct (matching_balances pbs r) as [|pb [|pb' ms]]; cbn; [done..|lia].
Qed.

Lemma join_all_single pbs l :
  Forall (λ r, (length (matching_balances pbs r) ≤ 1)%nat) l →
  join_all pbs l = query_of pbs <$> l.
Proof.
  induction 1 as [|r l Hr _ IH]; [done|].
  cbn. rewrite joined_single by done. cbn. f_equal. exact IH.
Qed.

Lemma filter_id_unique (tbl : list ReportRow) r :
  NoDup (id <$> tbl) → r ∈ tbl → filter (λ x, id x = id r) tbl = [r].
Proof.
  induction tbl as [|x tbl IH]; intros Hnd Hin; [by apply elem_of_nil in Hin|].
  rewrite fmap_cons in Hnd. apply NoDup_cons in Hnd as [Hx Hnd].
  rewrite filter_cons. apply elem_of_cons in Hin as [->|Hin].
  - rewrite decide_True by done. f_equal.
    apply filter_none, Forall_forall. intros y Hy Heq. apply Hx.
    rewrite <- Heq. by apply list_elem_of_fmap_2.
  - rewrite decide_False; [by apply IH|].
    intros Heq. apply Hx. rewrite Heq. by apply list_elem_of_fmap_2.
Qed.

Lemma row_step_ids q (tbl : list ReportRow) :
  id <$> (row_step q <$> tbl) = id <$> tbl.
Proof.
  rewrite <- list_fmap_compose. apply list_fmap_ext. intros i r _. cbn.
  apply row_step_id.
Qed.

(** The statistics after the iteration for a row of the relation: the
    verification of an adjustment passes. *)
Definition count_row (st : Stats) (q : QueryRow) : Stats :=
  match decide_row q with
  | MissingTarget =>
      mkStats (S (processed st)) (adjusted st) (S (missing_pb st))
        (within_tolerance st) (errors st)
  | AlreadyBalanced =>
      mkStats (S (processed st)) (adjusted st) (missing_pb st)
        (S (within_tolerance st)) (errors st)
  | NoBucketValues =>
      mkStats (S (processed st)) (adjusted st) (missing_pb st)
        (within_tolerance st) (S (errors st))
  | Adjust _ _ =>
      mkStats (S (processed st)) (S (adjusted st)) (missing_pb st)
        (within_tolerance st) (errors st)
  end.

Lemma process_row_verified pbs tbl st r :
  NoDup (id <$> tbl) → r ∈ tbl → rc_buckets r ≠ [] →
  within_limits (query_of pbs r) →
  process_row (tbl, st, false) (query_of pbs r)
  = (row_step (query_of pbs r) <$> tbl, count_row st (query_of pbs r), false)
  ∧ decide_row (query_of pbs r) ≠ NoBucketValues.
Proof.
  intros Hnd Hin Hne Hsize. rewrite process_row_within_eq by done.
  set (q := query_of pbs r) in *.
  assert (coalesce0 <$> rc_buckets r ≠ []) as Hne'
    by (destruct (rc_buckets r); done).
  assert (q_id q = id r) as Hid by done.
  assert (q_buckets q = coalesce0 <$> rc_buckets r) as Hqb by done.
  assert (q_target_balance q = target_of pbs r) as Hqt by done.
  clearbody q.
  destruct (decide_row q) as [| | |idx v] eqn:Hd.
  - split; [|done]. unfold count_row, row_step. rewrite Hd.
    cbv beta iota zeta.
    cbn [processed adjusted missing_pb within_tolerance errors].
    by rewrite list_fmap_id.
  - split; [|done]. unfold count_row, row_step. rewrite Hd.
    cbv beta iota zeta.
    cbn [processed adjusted missing_pb within_tolerance errors].
    by rewrite list_fmap_id.
  - exfalso. unfold decide_row in Hd. rewrite Hqb in Hd.
    destruct (q_target_balance q) as [target|]; [|done].
    destruct (_ =? 0); [done|].
    destruct (best_bucket_policy
                (quantize_half_up BALANCE_UNIT target
                 - sum_list (coalesce0 <$> rc_buckets r))
                _ Hne') as (idx & Hb & _).
    by rewrite Hb in Hd.
  - split; [|done].
    assert (fits_numeric_20_2 v) as Hfit.
    { unfold within_limits in Hsize. rewrite Hd in Hsize.
      destruct (q_target_balance q) eqn:Ht; [by destruct Hsize as (_ & _ & ?)|].
      unfold decide_row in Hd. by rewrite Ht in Hd. }
    assert (update_bucket false (q_id q) idx v tbl = Some (row_step q <$> tbl))
      as Hupd.
    { unfold update_bucket, row_step. rewrite Hd, decide_True by done. done. }
    assert (row_step q r = set_bucket idx v r) as Hr.
    { unfold row_step. rewrite Hd. by rewrite decide_True. }
    assert (verify_sum (q_id q) (row_step q <$> tbl)
            = Some (bucket_total (set_bucket idx v r))) as Hver.
    { unfold verify_sum. rewrite Hid, <- (row_step_id q r).
      rewrite (filter_id_unique (row_step q <$> tbl) (row_step q r)).
      - cbn. by rewrite Hr.
      - by rewrite row_step_ids.
      - by apply list_elem_of_fmap_2. }
    assert (∃ target,
              q_target_balance q = Some target
              ∧ bucket_total (set_bucket idx v r)
                = quantize_half_up BALANCE_UNIT target) as (target & Ht & Hsum).
    { unfold decide_row in Hd. rewrite Hqb in Hd.
      destruct (q_target_balance q) as [target|]; [|done].
      exists target. split; [done|].
      change (sum_list (coalesce0 <$> rc_buckets r))
        with (bucket_total r) in Hd.
      set (d := quantize_half_up BALANCE_UNIT target - bucket_total r) in *.
      destruct (d =? 0); [done|].
      destruct (best_bucket_policy d _ Hne') as (idx' & Hb & Hpol).
      rewrite Hb in Hd. injection Hd as <- <-.
      apply selection_policy_lt in Hpol. rewrite length_fmap in Hpol.
      rewrite bucket_total_set_bucket by done.
      assert (default 0 ((coalesce0 <$> rc_buckets r) !! idx')
              = coalesce0 (default None (rc_buckets r !! idx'))) as ->.
      { rewrite list_lookup_fmap. by destruct (rc_buckets r !! idx'). }
      unfold d. lia. }
    unfold count_row. rewrite Hd. cbv beta iota zeta.
    rewrite Hupd, Hver, Ht. cbn [default]. rewrite Hsum, Z.eqb_refl.
    cbn [processed adjusted missing_pb within_tolerance errors]. done.
Qed.

Lemma process_rows_verified pbs S :
  ∀ tbl st,
    NoDup (id <$> tbl) → NoDup (id <$> S) → (∀ r, r ∈ S → r ∈ tbl) →
    Forall (λ r, rc_buckets r ≠ []) S →
    Forall within_limits (query_of pbs <$> S) →
    foldl process_row (tbl, st, false) (query_of pbs <$> S)
    = (foldl (λ tbl q, row_step q <$> tbl) tbl (query_of pbs <$> S),
       foldl count_row st (query_of pbs <$> S), false).
Proof.
  induction S as [|r S IH]; intros tbl st Hnd HndS Hin Hne Hsize; [done|].
  rewrite fmap_cons in HndS. apply NoDup_cons in HndS as [Hr HndS].
  apply Forall_cons in Hne as [Hner Hne].
  rewrite fmap_cons in Hsize. apply Forall_cons in Hsize as [Hsr Hsize].
  rewrite fmap_cons. cbn [foldl].
  destruct (process_row_verified pbs tbl st r Hnd
              (Hin r ltac:(left)) Hner Hsr) as [-> _].
  apply IH; [by rewrite row_step_ids|done| |done|done].
  intros r' Hr'.
  assert (row_step (query_of pbs r) r' = r') as <-.
  { apply row_step_other. change (id r ≠ id r'). intros Heq. apply Hr.
    rewrite Heq. by apply list_elem_of_fmap_2. }
  apply list_elem_of_fmap_2, Hin. by right.
Qed.

(** The three cases of a row: no target balance, a target balance equal to
    the bucket total once quantized, or one that differs from it. *)
Definition missing_target (pbs : list ProductBalance) (r : ReportRow) : bool :=
  match target_of pbs r with Some _ => false | None => true end.

Definition balanced (pbs : list ProductBalance) (r : ReportRow) : bool :=
  match target_of pbs r with
  | Some target => quantize_half_up BALANCE_UNIT target =? bucket_total r
  | None => false
  end.

Definition unbalanced (pbs : list ProductBalance) (r : ReportRow) : bool :=
  match target_of pbs r with
  | Some target =>
      negb (quantize_half_up BALANCE_UNIT target =? bucket_total r)
  | None => false
  end.

Lemma decide_row_query_of pbs r :
  rc_buckets r ≠ [] →
  match decide_row (query_of pbs r) with
  | MissingTarget =>
      missing_target pbs r = true ∧ balanced pbs r = false
      ∧ unbalanced pbs r = false
  | AlreadyBalanced =>
      missing_target pbs r = false ∧ balanced pbs r = true
      ∧ unbalanced pbs r = false
  | NoBucketValues => False
  | Adjust _ _ =>
      missing_target pbs r = false ∧ balanced pbs r = false
      ∧ unbalanced pbs r = true
  end.
Proof.
  intros Hne. unfold decide_row, query_of, missing_target, balanced, unbalanced.
  cbn [query_row q_target_balance q_buckets].
  change (sum_list (coalesce0 <$> rc_buckets r)) with (bucket_total r).
  destruct (target_of pbs r) as [target|]; [|done].
  destruct (Z.eqb_spec (quantize_half_up BALANCE_UNIT target - bucket_total r) 0)
    as [Hd|Hd].
  - assert (quantize_half_up BALANCE_UNIT target = bucket_total r) as ->
      by lia.
    by rewrite Z.eqb_refl.
  - assert (coalesce0 <$> rc_buckets r ≠ []) as Hne'
      by (destruct (rc_buckets r); done).
    destruct (best_bucket_policy
                (quantize_half_up BALANCE_UNIT target - bucket_total r)
                _ Hne') as (idx & -> & _).
    destruct (Z.eqb_spec (quantize_half_up BALANCE_UNIT target)
                (bucket_total r)); [lia|done].
Qed.

(** The statistics of a run over the rows [S]. *)
Definition exact_stats (pbs : list ProductBalance) (st : Stats)
    (S : list ReportRow) : Stats :=
  mkStats (processed st + length S)
    (adjusted st + length (filter (λ r, unbalanced pbs r = true) S))
    (missing_pb st + length (filter (λ r, missing_target pbs r = true) S))
    (within_tolerance st + length (filter (λ r, balanced pbs r = true) S))
    (errors st).

Lemma foldl_count_row pbs S :
  ∀ st,
    Forall (λ r, rc_buckets r ≠ []) S →
    foldl count_row st (query_of pbs <$> S) = exact_stats pbs st S.
Proof.
  induction S as [|r S IH]; intros st Hne.
  - destruct st. unfold exact_stats. rewrite !filter_nil. cbn. f_equal; lia.
  - apply Forall_cons in Hne as [Hner Hne].
    rewrite fmap_cons. cbn [foldl]. rewrite IH by done.
    pose proof (decide_row_query_of pbs r Hner) as Hcase.
    unfold count_row, exact_stats. rewrite !filter_cons.
    destruct (decide_row (query_of pbs r)); [| |done|];
      destruct Hcase as (-> & -> & ->);
      cbn [processed adjusted missing_pb within_tolerance errors length];
      repeat case_decide; try done; cbn [length]; f_equal; lia.
Qed.

(** A report relation as the loaders leave it: at least one bucket column,
    a value (or NULL) for every bucket column in every row, distinct ids,
    and at most one target balance a row (a product has one balance a
    snapshot date). *)
Definition well_formed (t : ReportTable) (pbs : list ProductBalance) : Prop :=
  bucket_cols t ≠ []
  ∧ NoDup (id <$> rows t)
  ∧ Forall (λ r, length (rc_buckets r) = length (bucket_cols t)) (rows t)
  ∧ Forall (λ r, (length (matching_balances pbs r) ≤ 1)%nat) (rows t).

Lemma well_formed_buckets t pbs :
  well_formed t pbs → Forall (λ r, rc_buckets r ≠ []) (rows t).
Proof.
  intros (Hc & _ & Hlen & _). eapply Forall_impl; [exact Hlen|].
  intros r Hr Hnil. cbn beta in Hr. rewrite Hnil in Hr.
  destruct (bucket_cols t); done.
Qed.

(** The rows a run selects, in the order of the main query. *)
Definition selected_rows (fic : date) (process_name : option string)
    (t : ReportTable) : list ReportRow :=
  merge_sort by_id (filter (selected fic process_name) (rows t)).

Lemma selected_rows_perm fic process_name t :
  selected_rows fic process_name t
  ≡ₚ filter (selected fic process_name) (rows t).
Proof. apply merge_sort_Permutation. Qed.

Lemma selected_rows_elem fic process_name t r :
  r ∈ selected_rows fic process_name t ↔
  r ∈ rows t ∧ selected fic process_name r.
Proof.
  rewrite selected_rows_perm, list_elem_of_filter. tauto.
Qed.

Lemma selected_rows_NoDup fic process_name t :
  NoDup (id <$> rows t) → NoDup (id <$> selected_rows fic process_name t).
Proof.
  intros Hnd. rewrite selected_rows_perm.
  eapply sublist_NoDup; [exact Hnd|]. apply fmap_sublist, sublist_filter.
Qed.

Lemma main_query_single fic process_name t pbs :
  well_formed t pbs →
  main_query fic process_name (rows t) pbs
  = query_of pbs <$> selected_rows fic process_name t.
Proof.
  intros (_ & _ & _ & Hone).
  change (main_query fic process_name (rows t) pbs)
    with (join_all pbs (selected_rows fic process_name t)).
  apply join_all_single. rewrite Forall_forall in Hone |- *.
  intros r Hr. apply Hone. by apply selected_rows_elem in Hr as [? _].
Qed.

(** The result of a run on a well-formed relation that stays within the
    sizes. *)
Lemma align_exact fic process_name t pbs :
  well_formed t pbs →
  Forall within_limits (main_query fic process_name (rows t) pbs) →
  align_buckets_to_balance fic process_name (Some t) pbs
  = (AlignSuccess
       (exact_stats pbs (mkStats 0 0 0 0 0)
          (selected_rows fic process_name t)),
     Some (mkReportTable (bucket_cols t)
             ((λ r, foldl (λ r q, row_step q r) r
                      (query_of pbs <$> selected_rows fic process_name t))
              <$> rows t))).
Proof.
  intros Hwf Hsize. pose proof Hwf as (Hc & Hnd & Hlen & Hone).
  unfold align_buckets_to_balance.
  destruct (bucket_cols t) as [|c cs] eqn:Hcols; [done|].
  rewrite main_query_single in Hsize |- * by done.
  rewrite (process_rows_verified pbs); [| done | by apply selected_rows_NoDup
    | by intros r [? _]%selected_rows_elem | | done].
  - rewrite foldl_row_step_rows, foldl_count_row; [done|].
    pose proof (well_formed_buckets t pbs Hwf) as Hb.
    rewrite Forall_forall in Hb |- *.
    intros r Hr. apply Hb. by apply selected_rows_elem in Hr as [? _].
  - pose proof (well_formed_buckets t pbs Hwf) as Hb.
    rewrite Forall_forall in Hb |- *.
    intros r Hr. apply Hb. by apply selected_rows_elem in Hr as [? _].
Qed.

(** X11: on a well-formed relation, the statistics of a run of
    [align_buckets_to_balance] that stays within the sizes (for each row of
    its query the quantized target balance and its difference from the
    bucket total have at most 28 digits, and the value to write fits the
    NUMERIC(20,2) bucket column) are exact counts over the rows the run
    selects: [missing_pb] the rows without a target balance,
    [within_tolerance] the rows whose bucket total already equals the
    quantized target, [adjusted] the rows where it differs, and [errors] is
    zero -- no statement fails and the verification after an update never
    fails. *)
Theorem align_statistics_exact fic process_name t pbs :
  well_formed t pbs →
  Forall within_limits (main_query fic process_name (rows t) pbs) →
  let sel := filter (selected fic process_name) (rows t) in
  ∃ tbl',
    align_buckets_to_balance fic process_name (Some t) pbs
    = (AlignSuccess
         (mkStats (length sel)
            (length (filter (λ r, unbalanced pbs r = true) sel))
            (length (filter (λ r, missing_target pbs r = true) sel))
            (length (filter (λ r, balanced pbs r = true) sel))
            0),
       tbl').
Proof.
  intros Hwf Hsize. cbv zeta. rewrite (align_exact _ _ _ _ Hwf Hsize). eexists.
  f_equal. f_equal. unfold exact_stats.
  cbn [processed adjusted missing_pb within_tolerance errors].
  pose proof (selected_rows_perm fic process_name t) as Hperm.
  f_equal; rewrite ?Nat.add_0_l; by rewrite Hperm.
Qed.

Lemma scenario_well_formed : well_formed scenario_table [scenario_balance].
Proof.
  split; [done|]. split; [|split].
  - cbn. apply NoDup_singleton.
  - by repeat constructor.
  - repeat constructor.
Qed.

Lemma align_statistics_exact_witness :
  let sel := filter (selected (mkdate 2025 4 30) None) (rows scenario_table) in
  ∃ tbl',
    align_buckets_to_balance (mkdate 2025 4 30) None (Some scenario_table)
      [scenario_balance]
    = (AlignSuccess
         (mkStats (length sel)
            (length (filter (λ r, unbalanced [scenario_balance] r = true) sel))
            (length
               (filter (λ r, missing_target [scenario_balance] r = true) sel))
            (length (filter (λ r, balanced [scenario_balance] r = true) sel))
            0),
       tbl').
Proof.
  apply (align_statistics_exact (mkdate 2025 4 30) None scenario_table
           [scenario_balance]).
  - split; [done|]. split; [|split].
    + cbn. apply NoDup_singleton.
    + by repeat constructor.
    + repeat constructor.
  - repeat constructor; vm_compute; done.
Defined.

(** *** What a run leaves of a row *)

(** [r'] is [r] but for the values of its bucket cells. *)
Definition same_but_buckets (r r' : ReportRow) : Prop :=
  id r' = id r
  ∧ rc_fic_mis_date r' = rc_fic_mis_date r
  ∧ rc_process_name r' = rc_process_name r
  ∧ rc_v_prod_code r' = rc_v_prod_code r
  ∧ rc_v_ccy_code r' = rc_v_ccy_code r
  ∧ rc_v_prod_type r' = rc_v_prod_type r
  ∧ length (rc_buckets r') = length (rc_buckets r).

Lemma row_step_same q r : same_but_buckets r (row_step q r).
Proof.
  unfold row_step, same_but_buckets.
  destruct (decide_row q) as [| | |idx v]; try done.
  destruct (decide _); [|done]. cbn. by rewrite length_insert.
Qed.

Lemma foldl_row_step_same qs r :
  same_but_buckets r (foldl (λ r q, row_step q r) r qs).
Proof.
  revert r. induction qs as [|q qs IH]; intros r; [done|].
  cbn [foldl]. specialize (IH (row_step q r)).
  pose proof (row_step_same q r) as Hs.
  unfold same_but_buckets in *. intuition congruence.
Qed.

Lemma main_query_elem fic process_name tbl pbs q :
  q ∈ main_query fic process_name tbl pbs →
  ∃ r, r ∈ tbl ∧ selected fic process_name r ∧ q ∈ joined pbs r.
Proof.
  unfold main_query.
  set (S := merge_sort by_id (filter (selected fic process_name) tbl)).
  assert (∀ r, r ∈ S → r ∈ tbl ∧ selected fic process_name r) as HS.
  { intros r. unfold S. rewrite merge_sort_Permutation, list_elem_of_filter.
    tauto. }
  clearbody S. induction S as [|r S IH]; cbn; [by intros ?%elem_of_nil|].
  intros [Hq|Hq]%elem_of_app.
  - exists r. destruct (HS r ltac:(left)). done.
  - apply IH; [|done]. intros r' Hr'. apply HS. by right.
Qed.

Lemma row_unselected_untouched fic process_name tbl pbs r :
  NoDup (id <$> tbl) → r ∈ tbl → ¬ selected fic process_name r →
  foldl (λ r q, row_step q r) r (main_query fic process_name tbl pbs) = r.
Proof.
  intros Hnd Hin Hsel. apply foldl_row_step_other, Forall_forall.
  intros q Hq Heq.
  apply main_query_elem in Hq as (r0 & Hr0 & Hsel0 & Hj).
  apply joined_id in Hj. rewrite Hj in Heq.
  assert (r0 ∈ filter (λ x, id x = id r) tbl) as Hf
    by by apply list_elem_of_filter.
  rewrite (filter_id_unique tbl r Hnd Hin) in Hf.
  apply list_elem_of_singleton in Hf as ->. done.
Qed.

Lemma row_without_target_untouched fic process_name tbl pbs r :
  NoDup (id <$> tbl) → r ∈ tbl → matching_balances pbs r = [] →
  foldl (λ r q, row_step q r) r (main_query fic process_name tbl pbs) = r.
Proof.
  intros Hnd Hin Hm.
  destruct (decide (selected fic process_name r)) as [Hsel|Hsel];
    [|by apply row_unselected_untouched].
  destruct (main_query_split fic process_name tbl pbs r Hnd Hin Hsel)
    as (l1 & l2 & -> & H1 & H2).
  unfold joined. rewrite Hm. cbn [app].
  rewrite foldl_app, (foldl_row_step_other l1 r) by done. cbn [foldl].
  assert (row_step (query_row r None) r = r) as -> by done.
  by apply foldl_row_step_other.
Qed.

(** What the iterations for [qs] leave of a row, whether their statements
    succeed or fail: its bucket cells apart the row is as it was, and it is
    as it was altogether when none of them is for its id with a target
    balance. *)
Definition left_by (qs : list QueryRow) (r r' : ReportRow) : Prop :=
  same_but_buckets r r'
  ∧ (Forall (λ q, q_id q ≠ id r ∨ q_target_balance q = None) qs → r' = r).

Lemma left_by_same qs (tbl : list ReportRow) : Forall2 (left_by qs) tbl tbl.
Proof. apply Forall_Forall2_diag, Forall_forall. by intros r _. Qed.

Lemma process_row_table tbl st aborted q :
  (process_row (tbl, st, aborted) q).1.1 = tbl
  ∨ ∃ target idx v,
      q_target_balance q = Some target
      ∧ (process_row (tbl, st, aborted) q).1.1
        = (λ r, if decide (id r = q_id q) then set_bucket idx v r else r)
          <$> tbl.
Proof.
  unfold process_row. cbv beta iota zeta.
  destruct (q_target_balance q) as [target|]; [|by left].
  destruct (decimal_quantize _) as [target_balance|]; [|by left].
  destruct (_ =? 0); [by left|].
  destruct (best_bucket _ _) as [idx|]; [|by left].
  destruct (decimal_quantize _) as [new_value|]; [|by left].
  destruct (update_bucket _ _ _ _ _) as [tbl'|] eqn:Hupd; [|by left].
  right. exists target, idx, new_value. split; [done|].
  unfold update_bucket in Hupd.
  destruct aborted; [done|]. destruct (decide _); [|done].
  injection Hupd as <-.
  destruct (verify_sum _ _); [destruct (_ =? _)|]; reflexivity.
Qed.

Lemma process_row_left tbl st aborted q :
  Forall2 (left_by [q]) tbl (process_row (tbl, st, aborted) q).1.1.
Proof.
  destruct (process_row_table tbl st aborted q)
    as [->|(target & idx & v & Ht & ->)]; [apply left_by_same|].
  apply Forall2_fmap_r, Forall_Forall2_diag, Forall_forall. intros r _.
  cbn [compose].
  destruct (decide (id r = q_id q)) as [Hid|Hid]; [|done]. split.
  - unfold same_but_buckets, set_bucket. cbn. by rewrite length_insert.
  - intros [Hq _]%Forall_cons. destruct Hq as [Hq|Hq]; congruence.
Qed.

Lemma foldl_process_row_left qs :
  ∀ tbl st aborted,
    Forall2 (left_by qs) tbl (foldl process_row (tbl, st, aborted) qs).1.1.
Proof.
  induction qs as [|q qs IH]; intros tbl st aborted; [apply left_by_same|].
  cbn [foldl].
  pose proof (process_row_left tbl st aborted q) as Hq.
  destruct (process_row (tbl, st, aborted) q) as [[tbl1 st1] aborted1].
  cbn [fst] in Hq. specialize (IH tbl1 st1 aborted1).
  eapply Forall2_trans; [|exact Hq|exact IH].
  intros r r1 r' [Hs1 He1] [Hs2 He2]. split.
  - unfold same_but_buckets in *. intuition congruence.
  - intros [Hq0 Hqs]%Forall_cons.
    assert (r1 = r) as -> by (apply He1; by constructor).
    by apply He2.
Qed.

(** X12: [align_buckets_to_balance] never adds, removes or reorders rows
    and changes nothing of a row but the values of its bucket cells; a row
    the run does not select (another snapshot date or process) and a row
    without a target balance are left exactly as they were. *)
Theorem align_touches_bucket_cells_only fic process_name t pbs :
  bucket_cols t ≠ [] →
  ∃ st rows',
    align_buckets_to_balance fic process_name (Some t) pbs
    = (AlignSuccess st, Some (mkReportTable (bucket_cols t) rows'))
    ∧ length rows' = length (rows t)
    ∧ ∀ (k : nat) r, rows t !! k = Some r →
        ∃ r', rows' !! k = Some r'
          ∧ same_but_buckets r r'
          ∧ (NoDup (id <$> rows t) →
             ¬ selected fic process_name r ∨ matching_balances pbs r = [] →
             r' = r).
Proof.
  intros Hc. unfold align_buckets_to_balance.
  destruct (bucket_cols t) as [|c cs] eqn:Hcols; [done|].
  set (qs := main_query fic process_name (rows t) pbs).
  pose proof (foldl_process_row_left qs (rows t) (mkStats 0 0 0 0 0) false)
    as Hleft.
  destruct (foldl process_row _ qs) as [[rows1 st] aborted]. cbn [fst] in Hleft.
  assert (Forall2 (left_by qs) (rows t) (if aborted then rows t else rows1))
    as Hrows by (destruct aborted; [apply left_by_same|done]).
  clear Hleft. eexists st, _. split; [reflexivity|].
  split; [symmetry; by eapply Forall2_length|].
  intros k r Hk.
  destruct (Forall2_lookup_l _ _ _ _ _ Hrows Hk) as (r' & Hk' & Hs & He).
  exists r'. split; [done|]. split; [done|].
  intros Hnd Hcase. apply He, Forall_forall. intros q Hq.
  destruct (decide (q_id q = id r)) as [Hid|Hid]; [right|by left].
  apply main_query_elem in Hq as (r0 & Hr0 & Hsel0 & Hj).
  assert (r0 = r) as ->.
  { apply joined_id in Hj. rewrite Hj in Hid.
    assert (r0 ∈ filter (λ x, id x = id r) (rows t)) as Hf
      by by apply list_elem_of_filter.
    rewrite (filter_id_unique (rows t) r Hnd) in Hf
      by by eapply list_elem_of_lookup_2.
    by apply list_elem_of_singleton in Hf. }
  destruct Hcase as [Hsel|Hm]; [done|].
  unfold joined in Hj. rewrite Hm in Hj.
  by apply list_elem_of_singleton in Hj as ->.
Qed.

Lemma align_touches_bucket_cells_only_witness :
  ∃ st rows',
    align_buckets_to_balance (mkdate 2025 4 30) (Some "behavioural"%string)
      (Some scenario_table) [scenario_balance]
    = (AlignSuccess st, Some (mkReportTable (bucket_cols scenario_table) rows'))
    ∧ length rows' = length (rows scenario_table)
    ∧ ∀ (k : nat) r, rows scenario_table !! k = Some r →
        ∃ r', rows' !! k = Some r'
          ∧ same_but_buckets r r'
          ∧ (NoDup (id <$> rows scenario_table) →
             ¬ selected (mkdate 2025 4 30) (Some "behavioural"%string) r
             ∨ matching_balances [scenario_balance] r = [] →
             r' = r).
Proof.
  apply (align_touches_bucket_cells_only (mkdate 2025 4 30)
           (Some "behavioural"%string) scenario_table [scenario_balance]).
  discriminate.
Defined.

(** Whether its statements succeed or fail, a run maps a function over the
    rows that changes bucket cells only. *)
Lemma foldl_process_row_map qs :
  ∀ tbl st aborted,
    ∃ G : ReportRow → ReportRow,
      (foldl process_row (tbl, st, aborted) qs).1.1 = G <$> tbl
      ∧ ∀ r, same_but_buckets r (G r).
Proof.
  induction qs as [|q qs IH]; intros tbl st aborted.
  { exists (λ r, r). split; [symmetry; apply list_fmap_id|done]. }
  cbn [foldl].
  pose proof (process_row_table tbl st aborted q) as Hq.
  destruct (process_row (tbl, st, aborted) q) as [[tbl1 st1] aborted1].
  cbn [fst] in Hq. destruct (IH tbl1 st1 aborted1) as (G & -> & HG).
  destruct Hq as [->|(target & idx & v & _ & ->)]; [by exists G|].
  eexists (λ r, G (if decide (id r = q_id q) then set_bucket idx v r else r)).
  split; [by rewrite <- list_fmap_compose|].
  intros r. specialize (HG (if decide (id r = q_id q)
                            then set_bucket idx v r else r)).
  destruct (decide (id r = q_id q)); [|done].
  assert (same_but_buckets r (set_bucket idx v r)) as Hs.
  { unfold same_but_buckets, set_bucket. cbn. by rewrite length_insert. }
  unfold same_but_buckets in *. intuition congruence.
Qed.

Lemma align_rows_map fic process_name t pbs :
  bucket_cols t ≠ [] →
  ∃ st (G : ReportRow → ReportRow),
    align_buckets_to_balance fic process_name (Some t) pbs
    = (AlignSuccess st, Some (mkReportTable (bucket_cols t) (G <$> rows t)))
    ∧ ∀ r, same_but_buckets r (G r).
Proof.
  intros Hc. unfold align_buckets_to_balance.
  destruct (bucket_cols t) as [|c cs] eqn:Hcols; [done|].
  destruct (foldl_process_row_map (main_query fic process_name (rows t) pbs)
              (rows t) (mkStats 0 0 0 0 0) false) as (G & HG & Hsame).
  destruct (foldl process_row _ _) as [[rows1 st] aborted]. cbn [fst] in HG.
  exists st. destruct aborted.
  - exists (λ r, r). split; [by rewrite list_fmap_id|done].
  - exists G. by rewrite HG.
Qed.

(** *** A second run *)

Lemma matching_balances_same pbs r r' :
  same_but_buckets r r' → matching_balances pbs r' = matching_balances pbs r.
Proof.
  intros (_ & Hd & _ & Hp & Hc & _). unfold matching_balances.
  apply filter_ext_in. intros pb _. unfold balance_matches.
  by rewrite Hd, Hp, Hc.
Qed.

Lemma selected_same fic process_name r r' :
  same_but_buckets r r' →
  selected fic process_name r' ↔ selected fic process_name r.
Proof.
  intros (_ & Hd & Hp & _). unfold selected. by rewrite Hd, Hp.
Qed.

(** The row a run leaves in the place of [r]. *)
Definition aligned_row (fic : date) (process_name : option string)
    (t : ReportTable) (pbs : list ProductBalance) (r : ReportRow)
    : ReportRow :=
  foldl (λ r q, row_step q r) r
    (query_of pbs <$> selected_rows fic process_name t).

Lemma aligned_row_balanced fic process_name t pbs r :
  well_formed t pbs → r ∈ rows t → selected fic process_name r →
  unbalanced pbs (aligned_row fic process_name t pbs r) = false.
Proof.
  intros Hwf Hin Hsel. pose proof Hwf as (Hc & Hnd & Hlen & Hone).
  unfold aligned_row. rewrite <- main_query_single by done.
  pose proof (foldl_row_step_same
                (main_query fic process_name (rows t) pbs) r) as Hsame.
  unfold unbalanced, target_of.
  rewrite (matching_balances_same pbs _ _ Hsame).
  rewrite Forall_forall in Hone. specialize (Hone r Hin).
  destruct (matching_balances pbs r) as [|pb [|pb' ms]] eqn:Hm;
    [done| |cbn in Hone; lia].
  cbn [head fmap option_fmap option_map].
  rewrite (foldl_row_step_main_query fic process_name (rows t) pbs r pb)
    by done.
  pose proof (well_formed_buckets t pbs Hwf) as Hb.
  rewrite Forall_forall in Hb.
  destruct (row_step_reconciles r pb (Hb r Hin)) as [-> _].
  by rewrite Z.eqb_refl.
Qed.

Lemma aligned_well_formed fic process_name t pbs :
  well_formed t pbs →
  well_formed
    (mkReportTable (bucket_cols t)
       (aligned_row fic process_name t pbs <$> rows t)) pbs.
Proof.
  intros (Hc & Hnd & Hlen & Hone). unfold well_formed. cbn [bucket_cols rows].
  split; [done|]. split; [|split].
  - rewrite <- list_fmap_compose.
    erewrite list_fmap_ext; [exact Hnd|]. intros i r _. cbn.
    apply foldl_row_step_same.
  - rewrite Forall_fmap. eapply Forall_impl; [exact Hlen|].
    intros r Hr. cbn.
    destruct (foldl_row_step_same
                (query_of pbs <$> selected_rows fic process_name t) r)
      as (_ & _ & _ & _ & _ & _ & Hl).
    unfold aligned_row. by rewrite Hl.
  - rewrite Forall_fmap. eapply Forall_impl; [exact Hone|].
    intros r Hr. cbn. unfold aligned_row.
    by rewrite (matching_balances_same pbs r _ (foldl_row_step_same _ r)).
Qed.

(** A row the first run has left balanced is within the sizes in a second
    run when it was in the first. *)
Lemma balanced_within_limits pbs r r1 :
  same_but_buckets r r1 → within_limits (query_of pbs r) →
  unbalanced pbs r1 = false → within_limits (query_of pbs r1).
Proof.
  intros Hsame Hsize Hbal.
  unfold within_limits, decide_row, unbalanced, query_of in *.
  cbn [query_row q_target_balance q_buckets] in *.
  change (sum_list (coalesce0 <$> rc_buckets r1)) with (bucket_total r1).
  unfold target_of in *.
  rewrite (matching_balances_same pbs r r1 Hsame) in *.
  destruct (n_balance <$> head (matching_balances pbs r)) as [target|];
    [|done].
  cbv zeta in *. destruct Hsize as (Ht & _).
  apply negb_false_iff, Z.eqb_eq in Hbal. rewrite <- Hbal, Z.sub_diag.
  split; [done|]. split; [done|]. done.
Qed.

(** X13: after a run of [align_buckets_to_balance] on a well-formed
    relation that stays within the sizes (for each row of its query the
    quantized target balance and its difference from the bucket total have
    at most 28 digits, and the value to write fits the NUMERIC(20,2) bucket
    column), a second run finds nothing to do: it leaves every row as the
    first run left it, adjusts no row and reports no error. *)
Theorem align_second_run fic process_name t pbs :
  well_formed t pbs →
  Forall within_limits (main_query fic process_name (rows t) pbs) →
  ∃ st1 t1,
    align_buckets_to_balance fic process_name (Some t) pbs
    = (AlignSuccess st1, Some t1)
    ∧ ∃ st2,
        align_buckets_to_balance fic process_name (Some t1) pbs
        = (AlignSuccess st2, Some t1)
        ∧ adjusted st2 = 0%nat ∧ errors st2 = 0%nat.
Proof.
  intros Hwf Hsize. rewrite (align_exact _ _ _ _ Hwf Hsize).
  fold (aligned_row fic process_name t pbs).
  set (t1 := mkReportTable _ _). eexists _, t1. split; [done|].
  pose proof (aligned_well_formed fic process_name t pbs Hwf) as Hwf1.
  fold t1 in Hwf1.
  assert (∀ r1, r1 ∈ selected_rows fic process_name t1 →
                unbalanced pbs r1 = false) as Hbal.
  { intros r1 [Hin Hsel]%selected_rows_elem.
    apply list_elem_of_fmap in Hin as (r & -> & Hin).
    apply aligned_row_balanced; [done..|].
    apply (proj1 (selected_same fic process_name r _
                    (foldl_row_step_same _ r)) Hsel). }
  assert (Forall within_limits (main_query fic process_name (rows t1) pbs))
    as Hsize1.
  { rewrite main_query_single in Hsize |- * by done.
    rewrite Forall_fmap, Forall_forall in Hsize |- *.
    intros r1 Hr1. pose proof (Hbal r1 Hr1) as Hb1.
    apply selected_rows_elem in Hr1 as [Hin Hsel].
    apply list_elem_of_fmap in Hin as (r & -> & Hin).
    pose proof (foldl_row_step_same
                  (query_of pbs <$> selected_rows fic process_name t) r)
      as Hsame.
    apply (balanced_within_limits pbs r _ Hsame); [|exact Hb1].
    apply Hsize, selected_rows_elem. split; [done|].
    by apply (selected_same fic process_name r _ Hsame). }
  rewrite (align_exact _ _ _ _ Hwf1 Hsize1).
  assert ((λ r, foldl (λ r q, row_step q r) r
                  (query_of pbs <$> selected_rows fic process_name t1))
          <$> rows t1 = rows t1) as Hrows.
  { rewrite <- (list_fmap_id (rows t1)) at 2.
    apply list_fmap_ext. intros i r1 _. cbv beta.
    pose proof (well_formed_buckets t1 pbs Hwf1) as Hb.
    rewrite Forall_forall in Hb.
    assert (∀ S r0,
              (∀ x, x ∈ S → unbalanced pbs x = false ∧ rc_buckets x ≠ []) →
              foldl (λ r q, row_step q r) r0 (query_of pbs <$> S) = r0) as Hid.
    { induction S as [|x S IH]; intros r0 HS; [done|].
      rewrite fmap_cons. cbn [foldl].
      destruct (HS x ltac:(left)) as [Hx Hxb].
      pose proof (decide_row_query_of pbs x Hxb) as Hcase.
      assert (row_step (query_of pbs x) r0 = r0) as ->.
      { unfold row_step. destruct (decide_row (query_of pbs x)); try done.
        destruct Hcase as (_ & _ & Hu). congruence. }
      apply IH. intros y Hy. apply HS. by right. }
    apply Hid. intros x Hx. split; [by apply Hbal|].
    apply Hb. by apply selected_rows_elem in Hx as [? _]. }
  rewrite Hrows. eexists. split; [reflexivity|]. split; [|done].
  unfold exact_stats. cbn [adjusted].
  rewrite filter_none; [done|]. apply Forall_forall.
  intros r1 Hr1. by rewrite (Hbal r1 Hr1).
Qed.

Lemma align_second_run_witness :
  ∃ st1 t1,
    align_buckets_to_balance (mkdate 2025 4 30) None (Some scenario_table)
      [scenario_balance]
    = (AlignSuccess st1, Some t1)
    ∧ ∃ st2,
        align_buckets_to_balance (mkdate 2025 4 30) None (Some t1)
          [scenario_balance]
        = (AlignSuccess st2, Some t1)
        ∧ adjusted st2 = 0%nat ∧ errors st2 = 0%nat.
Proof.
  apply (align_second_run (mkdate 2025 4 30) None scenario_table
           [scenario_balance]).
  - split; [done|]. split; [|split].
    + cbn. apply NoDup_singleton.
    + by repeat constructor.
    + repeat constructor.
  - repeat constructor; vm_compute; done.
Defined.

(** *** A run with a refused UPDATE *)

(** X30: a refused UPDATE undoes the whole run.  When, for some row of the
    query, the value to write does not fit the NUMERIC(20,2) bucket column
    (the arithmetic of the iteration staying within the decimal context),
    [align_buckets_to_balance] still returns its statistics, with at least
    one error, and leaves the relation exactly as it was before the run:
    the adjustments made for the rows before are lost with the
    transaction, although [adjusted] has counted them. *)
Theorem align_refused_update_rolls_back fic process_name t pbs :
  bucket_cols t ≠ [] →
  Exists update_refused (main_query fic process_name (rows t) pbs) →
  ∃ st,
    align_buckets_to_balance fic process_name (Some t) pbs
    = (AlignSuccess st, Some t)
    ∧ (0 < errors st)%nat.
Proof.
  intros Hc Hq. unfold align_buckets_to_balance.
  destruct (bucket_cols t) as [|c cs] eqn:Hcols; [done|].
  destruct (foldl_process_row_refused _ Hq (rows t) (mkStats 0 0 0 0 0) false)
    as [Ha He].
  destruct (foldl process_row _ _) as [[rows1 st] aborted].
  cbn [fst snd] in Ha, He. subst aborted. exists st. split; [|cbn in He; lia].
  rewrite <- Hcols. by destruct t.
Qed.

(** Three products: the first is 200.00 short of its target, the target of
    the second is 10^18, which no NUMERIC(20,2) column holds, and the third
    is 1.00 short of its target. *)
Definition refused_table : ReportTable :=
  mkReportTable
    [ "bucket_001_20250430_20250507"; "bucket_002_20250508_20250608" ]%string
    [ mkReportRow 1 (mkdate 2025 4 30) "contractual" "P1" "USD" "LOANS"
        [Some 100000; Some 0];
      mkReportRow 2 (mkdate 2025 4 30) "contractual" "P2" "USD" "LOANS"
        [Some 100; None];
      mkReportRow 3 (mkdate 2025 4 30) "contractual" "P3" "USD" "LOANS"
        [Some 500; Some 400] ].

Definition refused_balances : list ProductBalance :=
  [ mkProductBalance (mkdate 2025 4 30) "P1" "USD" 12000000000000;
    mkProductBalance (mkdate 2025 4 30) "P2" "USD" (10 ^ 28);
    mkProductBalance (mkdate 2025 4 30) "P3" "USD" 100000000000 ].

Lemma align_refused_update_rolls_back_witness :
  ∃ st,
    align_buckets_to_balance (mkdate 2025 4 30) None (Some refused_table)
      refused_balances
    = (AlignSuccess st, Some refused_table)
    ∧ (0 < errors st)%nat.
Proof.
  apply (align_refused_update_rolls_back (mkdate 2025 4 30) None
           refused_table refused_balances).
  - discriminate.
  - apply (bool_decide_unpack _). vm_compute. exact I.
Defined.

(** The run on that relation: the first row is counted as adjusted, the
    UPDATE of the second is refused, that of the third is refused because
    the transaction is aborted, and the relation is left as it was. *)
Example align_refused_scenario :
  align_buckets_to_balance (mkdate 2025 4 30) None (Some refused_table)
    refused_balances
  = (AlignSuccess (mkStats 3 1 0 0 2), Some refused_table).
Proof. vm_compute. reflexivity. Qed.

(** A target balance of 10^26 has more digits than the decimal context
    allows: the iteration ends with an error before any statement is sent,
    and the adjustments of the other rows are kept. *)
Example align_decimal_error_scenario :
  align_buckets_to_balance (mkdate 2025 4 30) None (Some refused_table)
    [ mkProductBalance (mkdate 2025 4 30) "P1" "USD" 12000000000000;
      mkProductBalance (mkdate 2025 4 30) "P2" "USD" (10 ^ 36);
      mkProductBalance (mkdate 2025 4 30) "P3" "USD" 100000000000 ]
  = (AlignSuccess (mkStats 3 2 0 0 1),
     Some (mkReportTable (bucket_cols refused_table)
             [ mkReportRow 1 (mkdate 2025 4 30) "contractual" "P1" "USD"
                 "LOANS" [Some 120000; Some 0];
               mkReportRow 2 (mkdate 2025 4 30) "contractual" "P2" "USD"
                 "LOANS" [Some 100; None];
               mkReportRow 3 (mkdate 2025 4 30) "contractual" "P3" "USD"
                 "LOANS" [Some 600; Some 400] ])).
Proof. vm_compute. reflexivity. Qed.

End ReconcilerLaws.

(** ** The check of an alignment ([test_alignment_results]) and the column
    filter of the reconciler ([_bucket_columns] of
    [functions/repo_alignment.py]) *)

Module AlignmentCheck.
Import Calendar Money Reconciler SchemaSync.

(** [ILIKE]: [LIKE] without regard to the case of letters. *)
Definition sql_ilike (s pattern : string) : bool :=
  sql_like (lower s) (lower pattern).

(** [column_name ~ '^[Bb][0-9]+$'] *)
Definition b_and_digits (c : string) : bool :=
  match list_ascii_of_string c with
  | b :: d :: ds =>
      (Ascii.eqb b "B" || Ascii.eqb b "b") && forallb is_digit (d :: ds)
  | _ => false
  end.

Definition FK_COLUMN : string := "cashflow_by_bucket_id".

(** The WHERE clause of [_bucket_columns] on the column name; in a [LIKE]
    pattern the brackets of ['b[0-9]%'] are ordinary characters. *)
Definition accepted (c : string) : bool :=
  (sql_ilike c "bucket_%" && negb (String.eqb c FK_COLUMN))
  || sql_ilike c "c_%"
  || b_and_digits c
  || sql_ilike c "b[0-9]%".

(** [_bucket_columns]: the accepted columns of the relation, in ordinal
    position. *)
Definition _bucket_columns (columns : list string) : list string :=
  filter (λ c, accepted c = true) columns.

(** The list [align_buckets_to_balance] keeps of it ("ADDITIONAL
    SAFEGUARD"). *)
Definition align_columns (columns : list string) : list string :=
  filter (λ col, col ≠ FK_COLUMN) (_bucket_columns columns).

(** A row of the report relation with its [cashflow_by_bucket_id]; the
    columns [_bucket_columns] accepts are the bucket columns of the row and,
    when the relation has it, [cashflow_by_bucket_id]. *)
Record CheckedRow : Type := mkCheckedRow {
  base : ReportRow;
  cashflow_by_bucket_id : option Z
}.

Record CheckedTable : Type := mkCheckedTable {
  all_columns : list string;
  checked_rows : list CheckedRow
}.

(** The relation as [align_buckets_to_balance] reads it. *)
Definition align_view (t : CheckedTable) : ReportTable :=
  mkReportTable (align_columns (all_columns t)) (base <$> checked_rows t).

(** The relation after the reconciler has left the rows [rows'] in the
    place of the rows of [t]. *)
Definition with_rows (t : CheckedTable) (rows' : list ReportRow)
    : CheckedTable :=
  mkCheckedTable (all_columns t)
    (zip_with mkCheckedRow rows' (cashflow_by_bucket_id <$> checked_rows t)).

(** [COALESCE(c1, 0)::numeric + ...] over the columns [_bucket_columns]
    returned, in cents: the integer of [cashflow_by_bucket_id] counts as
    that many whole units, a hundred cents each. *)
Definition check_sum (cols : list string) (r : CheckedRow) : Z :=
  bucket_total (base r)
  + (if decide (FK_COLUMN ∈ cols)
     then 100 * coalesce0 (cashflow_by_bucket_id r) else 0).

(** A row of the test query, before its numbers are turned into floats:
    the bucket sum in cents, the target balance and the difference in the
    units of [n_balance]. *)
Record Mismatch : Type := mkMismatch {
  m_id : Z;
  m_prod_code : string;
  m_ccy_code : string;
  m_bucket_sum : Z;
  m_target_balance : Z;
  m_difference : Z
}.

Definition mismatch_of (cols : list string) (r : CheckedRow)
    (pb : ProductBalance) : Mismatch :=
  mkMismatch (id (base r)) (rc_v_prod_code (base r)) (rc_v_ccy_code (base r))
    (check_sum cols r) (n_balance pb)
    (Z.abs (n_balance pb - check_sum cols r * BALANCE_UNIT)).

(** [ORDER BY difference DESC] *)
Definition by_difference_desc (a b : Mismatch) : Prop :=
  m_difference b ≤ m_difference a.

#[global] Instance by_difference_desc_dec : RelDecision by_difference_desc.
Proof. intros a b. unfold by_difference_desc. apply _. Defined.

Definition test_query (fic : date) (process_name : option string)
    (cols : list string) (rows : list CheckedRow)
    (pbs : list ProductBalance) : list Mismatch :=
  merge_sort by_difference_desc
    (filter (λ r, selected fic process_name (base r)) rows ≫= λ r,
     matching_balances pbs (base r) ≫= λ pb,
     if decide (n_balance pb ≠ check_sum cols r * BALANCE_UNIT)
     then [mismatch_of cols r pb] else []).

Inductive test_result : Type :=
  | TestError (message : string)
  | TestSuccess (mismatches_found : nat) (mismatches : list Mismatch).

Definition test_alignment_results (fic : date)
    (process_name : option string) (t : CheckedTable)
    (pbs : list ProductBalance) : test_result :=
  match _bucket_columns (all_columns t) with
  | [] => TestError "No bucket columns found"
  | bucket_cols =>
      let mismatches :=
        test_query fic process_name bucket_cols (checked_rows t) pbs in
      TestSuccess (length mismatches) mismatches
  end.

End AlignmentCheck.

Module AlignmentCheckLaws.
Import Calendar Money MoneyFacts Reconciler ReconcilerFacts ReconcilerLaws.
Import SchemaSync SchemaSyncFacts AlignmentCheck.

Lemma lower_chars s :
  list_ascii_of_string (lower s) = ascii_lower <$> list_ascii_of_string s.
Proof. unfold lower. apply list_ascii_of_string_of_list_ascii. Qed.

(** A name of two characters or more that begins with the letter c, in
    either case, matches [ILIKE 'c_%']. *)
Lemma ilike_c_any c0 c1 rest :
  c0 = "c"%char ∨ c0 = "C"%char →
  sql_ilike (String c0 (String c1 rest)) "c_%" = true.
Proof.
  intros Hc. unfold sql_ilike, sql_like. rewrite !lower_chars.
  cbn [list_ascii_of_string fmap list_fmap].
  assert (ascii_lower c0 = "c"%char) as -> by (by destruct Hc as [->| ->]).
  change (ascii_lower "c") with "c"%char.
  change (ascii_lower "_") with "_"%char.
  change (ascii_lower "%") with "%"%char.
  cbn [like_match]. change (Ascii.eqb "c" "%") with false.
  change (Ascii.eqb "c" "_") with false. change (Ascii.eqb "c" "\") with false.
  change (Ascii.eqb "c" "c") with true. cbn [andb].
  change (Ascii.eqb "_" "%") with false. change (Ascii.eqb "_" "_") with true.
  cbv iota. apply like_match_percent.
Qed.

(** X14: [_bucket_columns] of the reconciler accepts every column whose
    name has two characters or more and begins with the letter c, in either
    case -- the underscore of [ILIKE 'c_%'] stands for any character -- so
    it returns [cashflow_by_bucket_id], which its first alternative excludes
    by name; the list [align_buckets_to_balance] keeps leaves that one
    column out and no other. *)
Theorem bucket_columns_accepts_c_names columns c0 c1 rest :
  c0 = "c"%char ∨ c0 = "C"%char →
  String c0 (String c1 rest) ∈ columns →
  String c0 (String c1 rest) ∈ _bucket_columns columns
  ∧ (FK_COLUMN ∈ columns →
     FK_COLUMN ∈ _bucket_columns columns ∧ FK_COLUMN ∉ align_columns columns)
  ∧ (String c0 (String c1 rest) ≠ FK_COLUMN →
     String c0 (String c1 rest) ∈ align_columns columns).
Proof.
  intros Hc Hin.
  assert (String c0 (String c1 rest) ∈ _bucket_columns columns) as Hacc.
  { apply list_elem_of_filter. split; [|done]. unfold accepted.
    rewrite (ilike_c_any c0 c1 rest Hc). by rewrite orb_true_r. }
  split; [done|]. split.
  - intros Hfk. split.
    + apply list_elem_of_filter. split; [reflexivity|done].
    + unfold align_columns. rewrite list_elem_of_filter. tauto.
  - intros Hne. by apply list_elem_of_filter.
Qed.

Lemma bucket_columns_accepts_c_names_witness :
  "cashflow_by_bucket_id"%string
  ∈ _bucket_columns
      [ "id"; "v_prod_code"; "cashflow_by_bucket_id";
        "bucket_001_20250430_20250507" ]%string
  ∧ (FK_COLUMN ∈ [ "id"; "v_prod_code"; "cashflow_by_bucket_id";
                   "bucket_001_20250430_20250507" ]%string →
     FK_COLUMN ∈ _bucket_columns
                   [ "id"; "v_prod_code"; "cashflow_by_bucket_id";
                     "bucket_001_20250430_20250507" ]%string
     ∧ FK_COLUMN ∉ align_columns
                     [ "id"; "v_prod_code"; "cashflow_by_bucket_id";
                       "bucket_001_20250430_20250507" ]%string)
  ∧ ("cashflow_by_bucket_id"%string ≠ FK_COLUMN →
     "cashflow_by_bucket_id"%string
     ∈ align_columns
         [ "id"; "v_prod_code"; "cashflow_by_bucket_id";
           "bucket_001_20250430_20250507" ]%string).
Proof.
  apply (bucket_columns_accepts_c_names
           [ "id"; "v_prod_code"; "cashflow_by_bucket_id";
             "bucket_001_20250430_20250507" ]%string
           "c"%char "a"%char "shflow_by_bucket_id").
  - by left.
  - apply list_elem_of_In. cbn. tauto.
Defined.

Lemma fk_column_checked columns :
  FK_COLUMN ∈ _bucket_columns columns ↔ FK_COLUMN ∈ columns.
Proof.
  unfold _bucket_columns. rewrite list_elem_of_filter.
  split; [tauto|]. intros ?. split; [reflexivity|done].
Qed.

Lemma NoDup_fmap_elem {A B : Type} (f : A → B) (l : list A) x y :
  NoDup (f <$> l) → x ∈ l → y ∈ l → f x = f y → x = y.
Proof.
  induction l as [|a l IH]; intros Hnd Hx Hy Heq;
    [by apply elem_of_nil in Hx|].
  rewrite fmap_cons in Hnd. apply NoDup_cons in Hnd as [Ha Hnd].
  apply elem_of_cons in Hx as [->|Hx], Hy as [->|Hy]; [done| | |by apply IH].
  - destruct Ha. rewrite Heq. by apply list_elem_of_fmap_2.
  - destruct Ha. rewrite <- Heq. by apply list_elem_of_fmap_2.
Qed.

(** The part [cashflow_by_bucket_id] has in the sum of the check, in
    cents. *)
Definition fk_part (t : CheckedTable) (r : CheckedRow) : Z :=
  if decide (FK_COLUMN ∈ all_columns t)
  then 100 * coalesce0 (cashflow_by_bucket_id r) else 0.

(** A balance equals the quantized balance plus a whole number [f] only
    when [f] is zero and the balance is a whole number of cents. *)
Lemma balance_check n f :
  n = (quantize_half_up BALANCE_UNIT n + f) * BALANCE_UNIT ↔
  f = 0 ∧ n `mod` BALANCE_UNIT = 0.
Proof.
  pose proof (quantize_half_up_error BALANCE_UNIT n ltac:(done)) as Herr.
  unfold BALANCE_UNIT in *. split.
  - intros Heq.
    assert (f = 0) as -> by nia.
    split; [done|]. rewrite Heq at 1. rewrite Z.add_0_r.
    apply Z.mod_mul. done.
  - intros [-> Hmod]. rewrite Z.add_0_r.
    assert (n = (n / 100000000) * 100000000) as Hn
      by (Z.div_mod_to_equations; lia).
    rewrite Hn at 2. rewrite quantize_half_up_cents by lia. exact Hn.
Qed.

Lemma with_rows_map t (F : ReportRow → ReportRow) :
  checked_rows (with_rows t (F <$> rows (align_view t)))
  = (λ r, mkCheckedRow (F (base r)) (cashflow_by_bucket_id r))
    <$> checked_rows t.
Proof.
  unfold with_rows, align_view. cbn [checked_rows rows].
  induction (checked_rows t) as [|r l IH]; [done|].
  cbn. by rewrite IH.
Qed.

Lemma test_query_elem fic process_name cols rows pbs m :
  m ∈ test_query fic process_name cols rows pbs ↔
  ∃ r pb,
    r ∈ rows ∧ selected fic process_name (base r)
    ∧ pb ∈ matching_balances pbs (base r)
    ∧ n_balance pb ≠ check_sum cols r * BALANCE_UNIT
    ∧ m = mismatch_of cols r pb.
Proof.
  unfold test_query. rewrite merge_sort_Permutation, list_elem_of_bind.
  split.
  - intros (r & Hm & Hr). apply list_elem_of_filter in Hr as [Hsel Hr].
    apply list_elem_of_bind in Hm as (pb & Hm & Hpb).
    destruct (decide _) as [Hne|]; [|by apply elem_of_nil in Hm].
    apply list_elem_of_singleton in Hm. by exists r, pb.
  - intros (r & pb & Hr & Hsel & Hpb & Hne & ->). exists r.
    split; [|by apply list_elem_of_filter].
    apply list_elem_of_bind. exists pb. split; [|done].
    rewrite decide_True by done. by apply list_elem_of_singleton.
Qed.

Lemma aligned_row_total fic process_name t pbs r pb :
  well_formed t pbs → r ∈ rows t → selected fic process_name r →
  matching_balances pbs r = [pb] →
  bucket_total (aligned_row fic process_name t pbs r)
  = quantize_half_up BALANCE_UNIT (n_balance pb).
Proof.
  intros Hwf Hin Hsel Hm. pose proof Hwf as (Hc & Hnd & Hlen & Hone).
  unfold aligned_row. rewrite <- main_query_single by done.
  rewrite (foldl_row_step_main_query fic process_name (rows t) pbs r pb)
    by done.
  pose proof (well_formed_buckets t pbs Hwf) as Hb.
  rewrite Forall_forall in Hb.
  by destruct (row_step_reconciles r pb (Hb r Hin)) as [-> _].
Qed.

(** X15: what [test_alignment_results] reports right after a run of
    [align_buckets_to_balance] on a well-formed relation.  A row the run
    has reconciled -- selected, with a target balance, its bucket total now
    the quantized target, which it is after a run that stays within the
    sizes -- is reported as a mismatch exactly when its
    [cashflow_by_bucket_id] counts in the sum of the check and is not zero,
    or its target balance is not a whole number of cents: the check adds
    every column [_bucket_columns] returns and compares with the balance as
    stored, not quantized. *)
Theorem check_after_alignment fic process_name t pbs (k : nat) cr pb :
  well_formed (align_view t) pbs →
  checked_rows t !! k = Some cr →
  selected fic process_name (base cr) →
  matching_balances pbs (base cr) = [pb] →
  ∃ st rows1 r1 found mismatches,
    align_buckets_to_balance fic process_name (Some (align_view t)) pbs
    = (AlignSuccess st,
       Some (mkReportTable (align_columns (all_columns t)) rows1))
    ∧ rows1 !! k = Some r1
    ∧ test_alignment_results fic process_name (with_rows t rows1) pbs
      = TestSuccess found mismatches
    ∧ (Forall within_limits
         (main_query fic process_name (rows (align_view t)) pbs) →
       bucket_total r1 = quantize_half_up BALANCE_UNIT (n_balance pb))
    ∧ (bucket_total r1 = quantize_half_up BALANCE_UNIT (n_balance pb) →
       (id (base cr) ∈ m_id <$> mismatches ↔
        fk_part t cr ≠ 0 ∨ n_balance pb `mod` BALANCE_UNIT ≠ 0)).
Proof.
  intros Hwf Hk Hsel Hm. pose proof Hwf as (Hc & Hnd & Hlen & Hone).
  assert (cr ∈ checked_rows t) as Hin by by eapply list_elem_of_lookup_2.
  destruct (align_rows_map fic process_name (align_view t) pbs Hc)
    as (st & F & Hrun & Hsame).
  exists st, (F <$> rows (align_view t)), (F (base cr)).
  unfold test_alignment_results.
  change (all_columns (with_rows t (F <$> rows (align_view t))))
    with (all_columns t).
  destruct (_bucket_columns (all_columns t)) as [|c0 cols0] eqn:Hcols.
  { exfalso. apply Hc. unfold align_view, align_columns. cbn [bucket_cols].
    by rewrite Hcols. }
  cbv iota. rewrite <- Hcols. eexists _, _. split; [exact Hrun|].
  split.
  { unfold align_view. cbn [rows]. by rewrite !list_lookup_fmap, Hk. }
  split; [done|]. split.
  { intros Hsize. rewrite (align_exact _ _ _ _ Hwf Hsize) in Hrun.
    injection Hrun as _ Hrows.
    assert (base cr ∈ rows (align_view t)) as Hin'
      by by apply list_elem_of_fmap_2.
    assert (F (base cr)
            = aligned_row fic process_name (align_view t) pbs (base cr))
      as ->.
    { apply (f_equal (λ l, l !! k)) in Hrows.
      rewrite !list_lookup_fmap, Hk in Hrows. cbn in Hrows.
      by injection Hrows as <-. }
    by apply aligned_row_total. }
  intros Htotal. rewrite with_rows_map.
  assert (∀ r, check_sum (_bucket_columns (all_columns t))
                 (mkCheckedRow (F (base r)) (cashflow_by_bucket_id r))
               = bucket_total (F (base r)) + fk_part t r) as Hsum.
  { intros r. unfold check_sum, fk_part. cbn [base cashflow_by_bucket_id].
    destruct (decide (FK_COLUMN ∈ _bucket_columns (all_columns t))) as [Hd|Hd],
      (decide (FK_COLUMN ∈ all_columns t)) as [Hd'|Hd']; try done.
    - destruct Hd'. by apply fk_column_checked.
    - destruct Hd. by apply fk_column_checked. }
  assert (n_balance pb
          ≠ (bucket_total (F (base cr)) + fk_part t cr) * BALANCE_UNIT ↔
          fk_part t cr ≠ 0 ∨ n_balance pb `mod` BALANCE_UNIT ≠ 0) as Hcheck.
  { rewrite Htotal, balance_check.
    destruct (decide (fk_part t cr = 0)),
      (decide (n_balance pb `mod` BALANCE_UNIT = 0)); tauto. }
  rewrite <- Hcheck. rewrite list_elem_of_fmap. split.
  - intros (m & Hid & Hmem).
    apply test_query_elem in Hmem as (r1 & pb1 & Hr1 & Hsel1 & Hpb1 & Hne & ->).
    apply list_elem_of_fmap in Hr1 as (cr0 & -> & Hcr0).
    cbn [base mismatch_of m_id] in *.
    assert (id (F (base cr0)) = id (base cr0)) as Hid0 by apply Hsame.
    assert (cr0 = cr) as ->.
    { apply (NoDup_fmap_elem (λ r, id (base r)) (checked_rows t));
        [|done..|congruence].
      unfold align_view in Hnd. cbn [rows] in Hnd.
      by rewrite <- list_fmap_compose in Hnd. }
    rewrite (matching_balances_same pbs (base cr) (F (base cr))) in Hpb1
      by apply Hsame.
    rewrite Hm in Hpb1. apply list_elem_of_singleton in Hpb1 as ->.
    by rewrite Hsum in Hne.
  - intros Hne.
    exists (mismatch_of (_bucket_columns (all_columns t))
              (mkCheckedRow (F (base cr)) (cashflow_by_bucket_id cr)) pb).
    split.
    { cbn [mismatch_of m_id base]. symmetry. apply Hsame. }
    apply test_query_elem.
    exists (mkCheckedRow (F (base cr)) (cashflow_by_bucket_id cr)), pb.
    split; [by apply (list_elem_of_fmap_2
                        (λ r, mkCheckedRow (F (base r))
                                (cashflow_by_bucket_id r)))|].
    cbn [base]. split.
    { by apply (selected_same fic process_name (base cr) (F (base cr))
                  (Hsame _)). }
    split.
    { rewrite (matching_balances_same pbs (base cr) (F (base cr)))
        by apply Hsame.
      rewrite Hm. by apply list_elem_of_singleton. }
    split; [by rewrite Hsum|done].
Qed.

(** The relation of the end-to-end scenario with the columns of
    Report_Contractual_Base and the row's [cashflow_by_bucket_id]. *)
Definition scenario_checked : CheckedTable :=
  mkCheckedTable
    [ "id"; "fic_mis_date"; "process_name"; "v_loan_type";
      "v_party_type_code"; "v_prod_code"; "v_product_name";
      "v_product_splits"; "v_prod_type"; "v_ccy_code"; "financial_element";
      "time_bucket_master_id"; "cashflow_by_bucket_id"; "account_type";
      "v_prod_type_desc"; "flow_type"; "n_adjusted_cash_flow_amount";
      "bucket_001_20250430_20250507"; "bucket_002_20250508_20250608";
      "bucket_003_20250609_20300609" ]%string
    [ mkCheckedRow scenario_row (Some 7) ].

Lemma check_after_alignment_witness :
  ∃ st rows1 r1 found mismatches,
    align_buckets_to_balance (mkdate 2025 4 30) None
      (Some (align_view scenario_checked)) [scenario_balance]
    = (AlignSuccess st,
       Some (mkReportTable (align_columns (all_columns scenario_checked))
               rows1))
    ∧ rows1 !! 0%nat = Some r1
    ∧ test_alignment_results (mkdate 2025 4 30) None
        (with_rows scenario_checked rows1) [scenario_balance]
      = TestSuccess found mismatches
    ∧ (Forall within_limits
         (main_query (mkdate 2025 4 30) None
            (rows (align_view scenario_checked)) [scenario_balance]) →
       bucket_total r1
       = quantize_half_up BALANCE_UNIT (n_balance scenario_balance))
    ∧ (bucket_total r1
       = quantize_half_up BALANCE_UNIT (n_balance scenario_balance) →
       (id (base (mkCheckedRow scenario_row (Some 7))) ∈ m_id <$> mismatches ↔
        fk_part scenario_checked (mkCheckedRow scenario_row (Some 7)) ≠ 0
        ∨ n_balance scenario_balance `mod` BALANCE_UNIT ≠ 0)).
Proof.
  apply (check_after_alignment (mkdate 2025 4 30) None scenario_checked
           [scenario_balance] 0 (mkCheckedRow scenario_row (Some 7))
           scenario_balance).
  - split; [|split; [|split]].
    + intros Hnil. vm_compute in Hnil. discriminate.
    + cbn. apply NoDup_singleton.
    + constructor; [|constructor]. vm_compute. reflexivity.
    + constructor; [|constructor]. vm_compute. lia.
  - reflexivity.
  - vm_compute. tauto.
  - vm_compute. reflexivity.
Defined.

(** The run on that relation: the reconciler brings the bucket total to the
    target of 1200.00, and the check that follows reports the row, its sum
    being 1207.00 with the 7 of [cashflow_by_bucket_id]. *)
Example check_scenario :
  test_alignment_results (mkdate 2025 4 30) None
    (with_rows scenario_checked
       [ mkReportRow 1 (mkdate 2025 4 30) "contractual" "P1" "USD" "LOANS"
           [Some 120000; Some 0; None] ])
    [scenario_balance]
  = TestSuccess 1
      [ mkMismatch 1 "P1" "USD" 120700 12000000000000 70000000000 ].
Proof. vm_compute. reflexivity. Qed.

End AlignmentCheckLaws.

(** ** A new run and its continuation ([execute_functions] without
    [continue_from_step], [ExecutionService], [continue_execution] of
    [functions_view/monitor.py]) *)

Module NewRun.
Import Calendar Runner.

(** [aggregate(max_run=Max("run_number"))] over the rows of the snapshot
    date: NULL when there is none. *)
Definition max_run (fic : date) (history : list ExecutionHistory)
    : option Z :=
  foldr (λ e acc,
           Some (match acc with
                 | None => run_number e
                 | Some m => Z.max (run_number e) m
                 end))
        None (filter (λ e, eh_fic_mis_date e = fic) history).

(** [ExecutionService.get_next_run_number]; [x or 0] is 0 for NULL. *)
Definition get_next_run_number (fic : date) (specified_run_number : option Z)
    (history : list ExecutionHistory) : Z :=
  match specified_run_number with
  | Some n => n
  | None => default 0 (max_run fic history) + 1
  end.

(** [ExecutionService.clear_existing_run] *)
Definition clear_existing_run (fic : date) (run : Z)
    (history : list ExecutionHistory) : list ExecutionHistory :=
  filter (λ e, ¬ in_run fic run e) history.

(** How [execute_functions] ends: with its response, or in the handler of
    an exception (here the IntegrityError of [create_running_status] for a
    step that has a row in the run already). *)
Inductive ending : Type :=
  | Responded
  | ServerError.

Section run.
Variable step_function : string → nat → bool.

(** The handler: the rows of the run that are Pending get the message of
    the exception. *)
Definition on_exception (fic : date) (run : Z)
    (history : list ExecutionHistory) : list ExecutionHistory :=
  update_where (λ e, in_run fic run e ∧ eh_status e = Pending)
    (set_status Pending (Some "IntegrityError"%string)) history.

(** The loop over [pipeline.steps] of a new run: there is no look-up of an
    existing row, every step gets a new row. *)
Fixpoint new_steps (fic : date) (run : Z) (steps : list string)
    (history : list ExecutionHistory) (executed : list string)
    : list ExecutionHistory * list string * ending :=
  match steps with
  | [] => (history, executed, Responded)
  | name :: rest =>
      if decide (Exists (row_of fic run name) history) then
        (on_exception fic run history, executed, ServerError)
      else
        let history := history ++ [mkExecution fic run name Running None] in
        let result := _execute_step step_function name in
        let history :=
          update_first (row_of fic run name)
            (set_status result
               (if decide (result = Failed) then Some "Traceback"%string
                else None)) history in
        if decide (result = Failed) then
          (mark_pending fic run history, executed ++ [name], Responded)
        else new_steps fic run rest history (executed ++ [name])
  end.

(** [execute_functions] without [continue_from_step]: the run number, the
    history afterwards, the steps executed and the ending. *)
Definition new_run (fic : date) (force_new_execution : bool)
    (specified_run_number : option Z) (history : list ExecutionHistory)
    : Z * (list ExecutionHistory * list string * ending) :=
  let run_number := get_next_run_number fic specified_run_number history in
  let history :=
    if force_new_execution then clear_existing_run fic run_number history
    else history in
  (run_number, new_steps fic run_number TOTAL_PIPELINE_STEPS history []).

(** The loop of [continue_execution] over the rows of the run: the step to
    continue from and the last step seen Success. *)
Fixpoint scan_executions (executions : list ExecutionHistory)
    (last_success : option string) : option string * option string :=
  match executions with
  | [] => (None, last_success)
  | exe :: rest =>
      if decide (eh_status exe = Success) then
        scan_executions rest (Some (process_name exe))
      else if decide (eh_status exe = Failed ∨ eh_status exe = Stopped) then
        (Some (process_name exe), last_success)
      else scan_executions rest last_success
  end.

(** A name counts as given when it is not the empty string. *)
Definition given (name : option string) : option string :=
  match name with
  | Some s => if decide (s = ""%string) then None else Some s
  | None => None
  end.

(** The point to continue from: the first step found Failed or Stopped,
    otherwise the step after the last one found Success. *)
Definition find_continue_point (executions : list ExecutionHistory)
    : option string :=
  let '(continue_from, last_success) := scan_executions executions None in
  match given continue_from, given last_success with
  | Some c, _ => Some c
  | None, Some l =>
      match index_of l TOTAL_PIPELINE_STEPS with
      | Some current_idx =>
          if decide (current_idx < length TOTAL_PIPELINE_STEPS - 1)%nat
          then given (TOTAL_PIPELINE_STEPS !! S current_idx)
          else None
      | None => None
      end
  | None, None => None
  end.

(** [continue_execution]: [None] when the view answers with an error and
    changes nothing.  The rows of a run stand in [history] in the order in
    which they were created, which is the order of their [start_time] as
    long as no step of the run has been started a second time. *)
Definition continue_execution (fic : date) (run : Z)
    (history : list ExecutionHistory)
    : option (list ExecutionHistory * list string) :=
  if decide (run = 0) then None (* [not run_number] *)
  else
    match filter (in_run fic run) history with
    | [] => None
    | executions =>
        match find_continue_point executions with
        | None => None
        | Some continue_from =>
            let history :=
              update_where
                (λ e, in_run fic run e
                      ∧ (eh_status e = Failed ∨ eh_status e = Stopped))
                (set_status Pending None) history in
            match continue_run step_function fic run continue_from history with
            | Some r => Some r
            | None => Some (history, [])
            end
        end
    end.

End run.

(** [stop_execution]: the history afterwards and the step reported as
    stopped; [None] when the view answers with an error and changes
    nothing.  The first Running row is the first in [history], as for
    [continue_execution]. *)
Definition stop_execution (fic : date) (run : Z)
    (history : list ExecutionHistory)
    : option (list ExecutionHistory * string) :=
  if decide (run = 0) then None
  else
    match filter (λ e, in_run fic run e ∧ eh_status e = Running) history with
    | [] => None
    | current :: _ =>
        Some (update_where (λ e, in_run fic run e ∧ eh_status e = Running)
                (λ e, set_status Stopped (error_message e) e) history,
              process_name current)
    end.

End NewRun.

Module NewRunLaws.
Import Calendar Runner RunnerFacts NewRun.

Lemma max_run_ge fic history e :
  e ∈ history → eh_fic_mis_date e = fic →
  ∃ m, max_run fic history = Some m ∧ run_number e ≤ m.
Proof.
  intros Hin Hfic. unfold max_run.
  assert (e ∈ filter (λ e, eh_fic_mis_date e = fic) history) as Hf
    by by apply list_elem_of_filter.
  induction (filter _ history) as [|x l IH]; [by apply elem_of_nil in Hf|].
  cbn [foldr]. apply elem_of_cons in Hf as [->|Hf].
  - destruct (foldr _ None l) as [m|]; eexists; (split; [done|lia]).
  - destruct (IH Hf) as (m & -> & Hm). eexists. split; [done|lia].
Qed.

Lemma next_run_number_gt fic history e :
  e ∈ history → eh_fic_mis_date e = fic →
  run_number e < get_next_run_number fic None history.
Proof.
  intros Hin Hfic.
  destruct (max_run_ge fic history e Hin Hfic) as (m & Hm & Hle).
  unfold get_next_run_number. rewrite Hm. cbn. lia.
Qed.

Lemma next_run_number_no_row fic history :
  filter (in_run fic (get_next_run_number fic None history)) history = [].
Proof.
  apply filter_none, Forall_forall. intros e Hin [Hfic Hrun].
  pose proof (next_run_number_gt fic history e Hin Hfic). lia.
Qed.

Lemma TOTAL_PIPELINE_STEPS_NoDup : NoDup TOTAL_PIPELINE_STEPS.
Proof. apply (bool_decide_unpack _). vm_compute. reflexivity. Qed.

Lemma TOTAL_PIPELINE_STEPS_given name :
  name ∈ TOTAL_PIPELINE_STEPS → name ≠ ""%string.
Proof.
  intros Hin ->. revert Hin. apply (bool_decide_unpack _).
  vm_compute. reflexivity.
Qed.

Lemma all_steps_names : all_steps.*1 = TOTAL_PIPELINE_STEPS.
Proof. reflexivity. Qed.

Lemma index_of_app name pre later :
  name ∉ pre → index_of name (pre ++ name :: later) = Some (length pre).
Proof.
  induction pre as [|x pre IH]; intros Hnot; cbn.
  - by rewrite decide_True.
  - apply not_elem_of_cons in Hnot as [Hne Hnot].
    rewrite decide_False by done. by rewrite IH.
Qed.

Lemma clear_existing_run_no_row fic run history :
  filter (in_run fic run) (clear_existing_run fic run history) = [].
Proof.
  apply filter_none, Forall_forall. intros e He.
  by apply list_elem_of_filter in He as [He _].
Qed.

Lemma clear_existing_run_fresh fic run history :
  filter (in_run fic run) history = [] →
  clear_existing_run fic run history = history.
Proof.
  intros Hnil. apply filter_all, Forall_forall. intros e He Hr.
  assert (e ∈ filter (in_run fic run) history) as Hin
    by by apply list_elem_of_filter.
  rewrite Hnil in Hin. by apply elem_of_nil in Hin.
Qed.

(** X16: the run number [get_next_run_number] gives when none is
    specified is greater than the run number of every row of the snapshot
    date, so the new run starts without a row of its own; it is 1 when the
    date has no row. *)
Theorem next_run_number_fresh fic history :
  (∀ e, e ∈ history → eh_fic_mis_date e = fic →
        run_number e < get_next_run_number fic None history)
  ∧ (filter (in_run fic (get_next_run_number fic None history)) history = [])
  ∧ (filter (λ e, eh_fic_mis_date e = fic) history = [] →
     get_next_run_number fic None history = 1).
Proof.
  split; [apply next_run_number_gt|]. split.
  - apply next_run_number_no_row.
  - intros Hnil. unfold get_next_run_number, max_run. by rewrite Hnil.
Qed.

Section run.
Variable step_function : string → nat → bool.

Lemma attempts_result name attempt remaining :
  attempts step_function name attempt remaining = Success
  ∨ attempts step_function name attempt remaining = Failed.
Proof.
  revert attempt. induction remaining as [|n IH]; intros attempt; cbn.
  - by right.
  - destruct (step_function name attempt); [by left|apply IH].
Qed.

Lemma execute_step_result name :
  _execute_step step_function name = Success
  ∨ _execute_step step_function name = Failed.
Proof. apply attempts_result. Qed.

(** The steps a loop over [steps] executes: all of them up to the first
    that fails, that one included. *)
Fixpoint until_failure (steps : list string) : list string :=
  match steps with
  | [] => []
  | name :: rest =>
      if decide (_execute_step step_function name = Failed) then [name]
      else name :: until_failure rest
  end.

(** The row of a step that has been executed. *)
Definition result_row (fic : date) (run : Z) (name : string)
    : ExecutionHistory :=
  mkExecution fic run name (_execute_step step_function name)
    (if decide (_execute_step step_function name = Failed)
     then Some "Traceback"%string else None).

Lemma result_row_not_pending fic run name :
  eh_status (result_row fic run name) ≠ Pending.
Proof.
  change (_execute_step step_function name ≠ Pending).
  destruct (execute_step_result name) as [-> | ->]; done.
Qed.

Lemma update_first_app_new P `{!∀ e, Decision (P e)} f history e :
  Forall (λ x, ¬ P x) history → P e →
  update_first P f (history ++ [e]) = history ++ [f e].
Proof.
  intros Hnone He. induction Hnone as [|x l Hx _ IH]; cbn.
  - by rewrite decide_True.
  - by rewrite decide_False, IH.
Qed.

Lemma update_where_none P `{!∀ e, Decision (P e)} f history :
  Forall (λ x, ¬ P x) history → update_where P f history = history.
Proof.
  intros Hnone. unfold update_where.
  induction Hnone as [|x l Hx _ IH]; [done|].
  cbn. by rewrite decide_False, IH.
Qed.

(** The loop of a new run on a history that holds no row of the run for
    the steps to come and no Pending row of the run. *)
Lemma new_steps_fresh fic run steps :
  ∀ history executed,
    NoDup steps →
    Forall (λ e, in_run fic run e →
                 (process_name e ∉ steps) ∧ eh_status e ≠ Pending) history →
    new_steps step_function fic run steps history executed
    = (history ++ (result_row fic run <$> until_failure steps),
       executed ++ until_failure steps, Responded).
Proof.
  induction steps as [|name rest IH]; intros history executed Hnd Hist.
  - cbn. by rewrite !app_nil_r.
  - apply NoDup_cons in Hnd as [Hname Hnd]. cbn [new_steps until_failure].
    assert (Forall (λ x, ¬ row_of fic run name x) history) as Hnone.
    { eapply Forall_impl; [exact Hist|]. intros e He [Hrun Hn].
      destruct (He Hrun) as [Hnot _]. apply Hnot. rewrite Hn. left. }
    rewrite decide_False by (by rewrite Exists_exists; intros (e & Hin & Hr);
      rewrite Forall_forall in Hnone; destruct (Hnone e Hin Hr)).
    rewrite update_first_app_new by done.
    change (set_status _ _ (mkExecution fic run name Running None))
      with (result_row fic run name).
    assert (Forall (λ e, in_run fic run e →
                         (process_name e ∉ rest) ∧ eh_status e ≠ Pending)
              (history ++ [result_row fic run name])) as Hist'.
    { apply Forall_app. split.
      - eapply Forall_impl; [exact Hist|]. intros e He Hrun.
        destruct (He Hrun) as [Hnot Hp]. split; [|done].
        intros Hin. apply Hnot. by right.
      - constructor; [|done]. intros _. split; [done|].
        apply result_row_not_pending. }
    destruct (decide (_execute_step step_function name = Failed)) as [Hf|Hf].
    + unfold mark_pending. rewrite update_where_none; [done|].
      eapply Forall_impl; [exact Hist'|]. intros e He [Hrun Hp].
      by destruct (He Hrun).
    + rewrite IH by done. cbn. by rewrite <- !app_assoc.
Qed.

Lemma until_failure_first pre B later :
  Forall (λ n, _execute_step step_function n = Success) pre →
  _execute_step step_function B = Failed →
  until_failure (pre ++ B :: later) = pre ++ [B].
Proof.
  intros Hpre HB. induction Hpre as [|n pre Hn _ IH]; cbn [until_failure app].
  - by rewrite decide_True.
  - rewrite decide_False by (by rewrite Hn). by rewrite IH.
Qed.

Lemma update_first_app_mid P `{!∀ e, Decision (P e)} f history e l :
  Forall (λ x, ¬ P x) history → P e →
  update_first P f (history ++ e :: l) = history ++ f e :: l.
Proof.
  intros Hnone He. induction Hnone as [|x h Hx _ IH]; cbn.
  - by rewrite decide_True.
  - by rewrite decide_False, IH.
Qed.

Section resume.
Variables (fic : date) (run : Z).

Definition success_row (name : string) : ExecutionHistory :=
  mkExecution fic run name Success None.

Definition pending_row (msg : option string) (name : string)
    : ExecutionHistory :=
  mkExecution fic run name Pending msg.

Lemma result_row_success name :
  _execute_step step_function name = Success →
  result_row fic run name = success_row name.
Proof. intros H. unfold result_row. by rewrite H. Qed.

Lemma filter_row_of_none name (history : list ExecutionHistory) :
  Forall (λ e, in_run fic run e → process_name e ≠ name) history →
  filter (row_of fic run name) history = [].
Proof.
  intros H. induction H as [|e h He _ IH]; [done|].
  rewrite filter_cons_False; [done|]. intros [Hr Hn]. by apply He.
Qed.

Lemma status_map_None name history :
  Forall (λ e, in_run fic run e → process_name e ≠ name) history →
  execution_status_map fic run history !! name = None.
Proof.
  intros H. by rewrite execution_status_map_lookup, filter_row_of_none.
Qed.

Lemma status_map_is_Some name history e :
  e ∈ history → row_of fic run name e →
  is_Some (execution_status_map fic run history !! name).
Proof.
  intros Hin Hr. rewrite execution_status_map_lookup.
  assert (e ∈ filter (row_of fic run name) history) as Hf
    by by apply list_elem_of_filter.
  destruct (last (filter (row_of fic run name) history)) eqn:El;
    [by eexists|].
  apply last_None in El. rewrite El in Hf. by apply elem_of_nil in Hf.
Qed.

(** "Ensure all steps exist in the history" when the run has no row that
    is Failed or Stopped: the steps without a row get a Pending one. *)
Lemma foldl_ensure_pending status_map remaining names :
  ∀ history,
    (∀ n, n ∈ names → status_map !! n = None → n ∈ remaining) →
    Forall (λ e, in_run fic run e →
                 eh_status e ≠ Failed ∧ eh_status e ≠ Stopped) history →
    foldl (ensure_step fic run status_map remaining) history names
    = history
      ++ (pending_row None <$> filter (λ n, status_map !! n = None) names).
Proof.
  induction names as [|n names IH]; intros history Hrem Hist.
  - cbn. by rewrite app_nil_r.
  - cbn [foldl]. unfold ensure_step at 2.
    destruct (status_map !! n) as [s|] eqn:Hs.
    + rewrite filter_cons_False by (by rewrite Hs).
      assert (update_where
                (λ e, row_of fic run n e
                      ∧ (eh_status e = Failed ∨ eh_status e = Stopped))
                (set_status Pending None) history = history) as Hup.
      { apply update_where_none. eapply Forall_impl; [exact Hist|].
        intros e He [[Hr _] Hst]. destruct (He Hr). by destruct Hst. }
      rewrite Hup. destruct (decide (n ∈ remaining));
        (apply IH; [intros; apply Hrem; [by right|done]|done]).
    + rewrite filter_cons_True by done.
      rewrite decide_True by (apply Hrem; [by left|done]).
      rewrite IH.
      * by rewrite <- app_assoc.
      * intros; apply Hrem; [by right|done].
      * apply Forall_app. split; [done|]. by repeat constructor.
Qed.

Lemma mark_pending_rows (history : list ExecutionHistory) names :
  Forall (λ e, in_run fic run e → eh_status e ≠ Pending) history →
  mark_pending fic run (history ++ (pending_row None <$> names))
  = history
    ++ (pending_row (Some "Previous step failed"%string) <$> names).
Proof.
  intros Hist. unfold mark_pending, update_where. rewrite fmap_app.
  f_equal.
  - apply (update_where_none _ _ history).
    eapply Forall_impl; [exact Hist|]. intros e He [Hr Hp]. by apply He.
  - rewrite <- list_fmap_compose. apply list_fmap_ext. intros i n _.
    cbn. by rewrite decide_True.
Qed.

(** The loop of a continued run over steps whose rows are Pending and
    stand last in the history. *)
Lemma run_steps_pending todo :
  ∀ history executed,
    NoDup todo →
    Forall (λ e, in_run fic run e →
                 (process_name e ∉ todo) ∧ eh_status e ≠ Pending) history →
    run_steps step_function fic run todo
      (history ++ (pending_row None <$> todo)) executed
    = (history
       ++ (result_row fic run <$> until_failure todo)
       ++ (pending_row (Some "Previous step failed"%string)
             <$> drop (length (until_failure todo)) todo),
       executed ++ until_failure todo).
Proof.
  induction todo as [|name rest IH]; intros history executed Hnd Hist.
  - cbn. by rewrite !app_nil_r.
  - apply NoDup_cons in Hnd as [Hname Hnd].
    assert (Forall (λ x, ¬ row_of fic run name x) history) as Hnone.
    { eapply Forall_impl; [exact Hist|]. intros e He [Hr Hn].
      destruct (He Hr) as [Hnot _]. apply Hnot. rewrite Hn. left. }
    cbn [run_steps until_failure]. rewrite fmap_cons.
    rewrite filter_app, filter_row_of_none.
    2:{ eapply Forall_impl; [exact Hnone|]. intros e He Hr Hn.
        by apply He. }
    rewrite filter_cons_True by done. cbn [app head].
    rewrite decide_False by done.
    rewrite update_first_app_mid by done.
    rewrite update_first_app_mid by done.
    change (set_status _ _ (set_status Running None (pending_row None name)))
      with (result_row fic run name).
    assert (Forall (λ e, in_run fic run e →
                         (process_name e ∉ rest) ∧ eh_status e ≠ Pending)
              (history ++ [result_row fic run name])) as Hist'.
    { apply Forall_app. split.
      - eapply Forall_impl; [exact Hist|]. intros e He Hrun.
        destruct (He Hrun) as [Hnot Hp]. split; [|done].
        intros Hin. apply Hnot. by right.
      - constructor; [|done]. intros _. split; [done|].
        apply result_row_not_pending. }
    rewrite (cons_middle (result_row fic run name) history), app_assoc.
    destruct (decide (_execute_step step_function name = Failed)) as [Hf|Hf].
    + rewrite mark_pending_rows.
      * cbn. by rewrite <- app_assoc.
      * eapply Forall_impl; [exact Hist'|]. intros e He Hr. by apply He.
    + rewrite IH by done. cbn. by rewrite <- !app_assoc.
Qed.

End resume.

(** X17: a new run that is forced, or that takes the next run number,
    answers normally: it removes the rows the run had, executes the steps
    of [TOTAL_PIPELINE_STEPS] in order up to the first one that fails, and
    leaves one row for each step executed and none for the steps after the
    failure; the rows of other runs are kept. *)
Theorem new_run_until_first_failure fic force specified history :
  force = true ∨ specified = None →
  new_run step_function fic force specified history
  = (get_next_run_number fic specified history,
     (clear_existing_run fic (get_next_run_number fic specified history)
        history
      ++ (result_row fic (get_next_run_number fic specified history)
            <$> until_failure TOTAL_PIPELINE_STEPS),
      until_failure TOTAL_PIPELINE_STEPS, Responded)).
Proof.
  intros Hfresh. unfold new_run.
  set (run := get_next_run_number fic specified history).
  assert ((if force then clear_existing_run fic run history else history)
          = clear_existing_run fic run history) as ->.
  { destruct force; [done|]. destruct Hfresh as [Hforce|Hnone]; [done|subst specified].
    symmetry. apply clear_existing_run_fresh, next_run_number_no_row. }
  rewrite new_steps_fresh; [done|apply TOTAL_PIPELINE_STEPS_NoDup|].
  apply Forall_forall. intros e He Hr.
  by apply list_elem_of_filter in He as [He _].
Qed.

End run.

Lemma scan_first_interrupted fic run pre B st msg l acc :
  st = Failed ∨ st = Stopped →
  (scan_executions
     ((success_row fic run <$> pre)
      ++ mkExecution fic run B st msg :: l) acc).1 = Some B.
Proof.
  intros Hst. revert acc. induction pre as [|n pre IH]; intros acc.
  - destruct Hst as [-> | ->]; done.
  - cbn. apply IH.
Qed.

Lemma find_continue_point_interrupted fic run pre B st msg l :
  st = Failed ∨ st = Stopped → B ≠ ""%string →
  find_continue_point
    ((success_row fic run <$> pre) ++ mkExecution fic run B st msg :: l)
  = Some B.
Proof.
  intros Hst HB. unfold find_continue_point.
  pose proof (scan_first_interrupted fic run pre B st msg l None Hst)
    as Hscan.
  destruct (scan_executions _ None) as [c last_success].
  cbn in Hscan. subst c. cbn. by rewrite decide_False.
Qed.

(** [continue_execution] on a run whose first steps are Success and whose
    last row, of step [B], is Failed or Stopped. *)
Lemma continue_interrupted f2 fic run h0 pre B later st msg :
  TOTAL_PIPELINE_STEPS = pre ++ B :: later →
  run ≠ 0 →
  Forall (λ e, ¬ in_run fic run e) h0 →
  st = Failed ∨ st = Stopped →
  continue_execution f2 fic run
    (h0 ++ (success_row fic run <$> pre) ++ [mkExecution fic run B st msg])
  = Some (h0
          ++ (success_row fic run <$> pre)
          ++ (result_row f2 fic run <$> until_failure f2 (B :: later))
          ++ (pending_row fic run (Some "Previous step failed"%string)
                <$> drop (length (until_failure f2 (B :: later)))
                      (B :: later)),
          until_failure f2 (B :: later)).
Proof.
  intros Htot Hrun0 Hh0' Hst.
  pose proof TOTAL_PIPELINE_STEPS_NoDup as Hnd. rewrite Htot in Hnd.
  apply NoDup_app in Hnd as (Hnd_pre & Hdisj & Hnd_todo).
  assert (B ∉ pre) as HBpre by (intros Hin; apply (Hdisj B Hin); left).
  assert (B ≠ ""%string) as HBgiven.
  { apply TOTAL_PIPELINE_STEPS_given. rewrite Htot, elem_of_app.
    right. left. }
  assert (filter (in_run fic run) h0 = []) as Hh0 by by apply filter_none.
  unfold continue_execution. rewrite decide_False by done.
  rewrite !filter_app, Hh0. cbn [app].
  rewrite (filter_all (in_run fic run) (success_row fic run <$> pre)).
  2:{ apply Forall_forall. intros e He.
      apply list_elem_of_fmap in He as (n & -> & _). done. }
  rewrite filter_cons_True by done. rewrite filter_nil.
  destruct (_ ++ [mkExecution fic run B st _]) as [|x l] eqn:Hrows.
  { apply app_nil in Hrows as [_ Hrows]. done. }
  rewrite <- Hrows, find_continue_point_interrupted by done.
  clear x l Hrows.
  (* the rows Failed or Stopped become Pending *)
  set (hU := update_where _ _ _).
  assert (hU = (h0 ++ (success_row fic run <$> pre))
               ++ (pending_row fic run None <$> [B])) as HhU.
  { unfold hU, update_where. rewrite !fmap_app, <- app_assoc. f_equal.
    - apply (update_where_none _ _ h0). eapply Forall_impl; [exact Hh0'|].
      intros e He [Hr _]. by apply He.
    - f_equal.
      + rewrite <- list_fmap_compose. apply list_fmap_ext. intros i n _.
        cbn. rewrite decide_False; [done|]. intros [_ [?|?]]; done.
      + cbn. rewrite decide_True; [done|]. split; [done|exact Hst]. }
  clearbody hU. subst hU.
  set (H := h0 ++ (success_row fic run <$> pre)).
  assert (Forall (λ e, in_run fic run e →
                       (process_name e ∉ B :: later)
                       ∧ eh_status e = Success) H) as HH.
  { apply Forall_app. split.
    - eapply Forall_impl; [exact Hh0'|]. intros e He Hr. by destruct He.
    - apply Forall_forall. intros e He _.
      apply list_elem_of_fmap in He as (n & -> & Hn). split; [|done].
      cbn. by apply Hdisj. }
  (* the status map of the run *)
  set (hU := H ++ (pending_row fic run None <$> [B])).
  assert (∀ n, n ∈ pre → is_Some (execution_status_map fic run hU !! n))
    as Hsm_pre.
  { intros n Hn. apply (status_map_is_Some fic run n hU (success_row fic run n));
      [|done].
    unfold hU, H. rewrite !elem_of_app. left. right.
    by apply list_elem_of_fmap_2. }
  assert (is_Some (execution_status_map fic run hU !! B)) as Hsm_B.
  { apply (status_map_is_Some fic run B hU (pending_row fic run None B));
      [|done].
    unfold hU. rewrite elem_of_app. right. left. }
  assert (∀ n, n ∈ later → execution_status_map fic run hU !! n = None)
    as Hsm_later.
  { intros n Hn. apply status_map_None. unfold hU. apply Forall_app. split.
    - eapply Forall_impl; [exact HH|]. intros e He Hr Heq.
      destruct (He Hr) as [Hnot _]. apply Hnot. rewrite Heq. by right.
    - constructor; [|done]. intros _. cbn. intros ->.
      apply NoDup_cons in Hnd_todo as [Hnot _]. done. }
  unfold continue_run. rewrite Htot at 1. rewrite index_of_app by done.
  cbn [mbind option_bind].
  set (sm := execution_status_map fic run hU) in *.
  assert ((filter (is_remaining sm B) (drop (length pre) all_steps)).*1
          = B :: later) as Hrem.
  { assert ((drop (length pre) all_steps).*1 = B :: later) as Hdrop.
    { rewrite fmap_drop, all_steps_names, Htot. apply drop_app_length. }
    rewrite filter_all; [done|]. apply Forall_forall. intros step Hstep.
    assert (step.1 ∈ B :: later) as Hin.
    { rewrite <- Hdrop. by apply list_elem_of_fmap_2. }
    apply elem_of_cons in Hin as [Hin|Hin]; [by right|].
    left. by rewrite (Hsm_later _ Hin). }
  rewrite Hrem.
  rewrite (foldl_ensure_pending fic run sm (B :: later)).
  2:{ rewrite Htot. intros n Hn Hnone.
      apply elem_of_app in Hn as [Hn|Hn]; [|done].
      destruct (Hsm_pre n Hn) as [s Hs]. congruence. }
  2:{ unfold hU. apply Forall_app. split.
      - eapply Forall_impl; [exact HH|]. intros e He Hr.
        destruct (He Hr) as [_ ->]. done.
      - by repeat constructor. }
  assert (filter (λ n, sm !! n = None) TOTAL_PIPELINE_STEPS = later) as ->.
  { rewrite Htot, filter_app, filter_cons_False.
    2:{ destruct Hsm_B as [s Hs]. congruence. }
    rewrite filter_none, filter_all; [done| |].
    - apply Forall_forall. intros n Hn. by apply Hsm_later.
    - apply Forall_forall. intros n Hn.
      destruct (Hsm_pre n Hn) as [s Hs]. congruence. }
  unfold hU. rewrite <- app_assoc, <- fmap_app.
  change ([B] ++ later) with (B :: later).
  rewrite run_steps_pending; [|done|].
  - unfold H. by rewrite <- !app_assoc.
  - eapply Forall_impl; [exact HH|]. intros e He Hr.
    destruct (He Hr) as [Hnot ->]. done.
Qed.

(** X18: a forced new run in which the steps before step [B] succeed and
    [B] fails, followed by [continue_execution] on the same run: the
    continuation executes [B] again and the steps after it, in order, up to
    the first one that fails now.  Afterwards the run has the rows of the
    steps that had succeeded, unchanged, a row for each step executed in
    the continuation, and a Pending row with the message
    "Previous step failed" for each step after a failure. *)
Theorem continue_after_first_failure f1 f2 fic specified history
    pre B later run h1 executed1 ending1 :
  TOTAL_PIPELINE_STEPS = pre ++ B :: later →
  Forall (λ n, _execute_step f1 n = Success) pre →
  _execute_step f1 B = Failed →
  new_run f1 fic true specified history = (run, (h1, executed1, ending1)) →
  run ≠ 0 →
  executed1 = pre ++ [B]
  ∧ continue_execution f2 fic run h1
    = Some (clear_existing_run fic run history
            ++ (success_row fic run <$> pre)
            ++ (result_row f2 fic run <$> until_failure f2 (B :: later))
            ++ (pending_row fic run (Some "Previous step failed"%string)
                  <$> drop (length (until_failure f2 (B :: later)))
                        (B :: later)),
            until_failure f2 (B :: later)).
Proof.
  intros Htot Hpre HB Hnew Hrun0.
  unfold new_run in Hnew. cbv zeta in Hnew.
  rewrite new_steps_fresh in Hnew.
  2:{ apply TOTAL_PIPELINE_STEPS_NoDup. }
  2:{ apply Forall_forall. intros e He Hr.
      by apply list_elem_of_filter in He as [He _]. }
  rewrite Htot, (until_failure_first f1 pre B later Hpre HB) in Hnew.
  injection Hnew as Hrun Hh1 Hex _. subst run executed1 h1.
  split; [done|].
  set (run := get_next_run_number fic specified history) in *.
  rewrite fmap_app.
  assert (result_row f1 fic run <$> pre = success_row fic run <$> pre) as ->.
  { apply Forall_fmap_ext_1. eapply Forall_impl; [exact Hpre|].
    intros n Hn. by apply result_row_success. }
  assert (result_row f1 fic run <$> [B]
          = [mkExecution fic run B Failed (Some "Traceback"%string)]) as ->.
  { cbn [fmap list_fmap]. unfold result_row. rewrite HB. done. }
  apply (continue_interrupted f2 fic run _ pre B later); [done..| |by left].
  apply Forall_forall. intros e He.
  by apply list_elem_of_filter in He as [He _].
Qed.

(** Run 1 of an earlier date, which no run of [fic0] touches. *)
Definition earlier_run : list ExecutionHistory :=
  [ mkExecution (mkdate 2025 3 31) 1 "Process First Day Cashflows" Success
      None ].

Lemma new_run_until_first_failure_witness :
  new_run credit_line_fails fic0 false None
    (earlier_run ++ history_after_failure)
  = (2,
     (earlier_run ++ history_after_failure
      ++ [ mkExecution fic0 2 "Process First Day Cashflows" Success None;
           mkExecution fic0 2 "Process Credit Line Cashflows" Failed
             (Some "Traceback"%string) ],
      [ "Process First Day Cashflows"%string;
        "Process Credit Line Cashflows"%string ],
      Responded)).
Proof.
  exact (new_run_until_first_failure credit_line_fails fic0 false None
           (earlier_run ++ history_after_failure) (or_intror eq_refl)).
Defined.

(** The history of a run in which every step has succeeded. *)
Definition history_all_success : list ExecutionHistory :=
  (λ name, mkExecution fic0 1 name Success None) <$> TOTAL_PIPELINE_STEPS.

Lemma continue_after_first_failure_witness :
  [ "Process First Day Cashflows"%string;
    "Process Credit Line Cashflows"%string ]
  = [ "Process First Day Cashflows"%string ]
    ++ [ "Process Credit Line Cashflows"%string ]
  ∧ continue_execution all_succeed fic0 1
      (earlier_run ++ history_after_failure)
    = Some (earlier_run ++ history_all_success,
            drop 1 TOTAL_PIPELINE_STEPS).
Proof.
  apply (continue_after_first_failure credit_line_fails all_succeed fic0
           (Some 1) (earlier_run ++ history_all_success)
           [ "Process First Day Cashflows"%string ]
           "Process Credit Line Cashflows"%string
           (drop 2 TOTAL_PIPELINE_STEPS) 1
           (earlier_run ++ history_after_failure)
           [ "Process First Day Cashflows"%string;
             "Process Credit Line Cashflows"%string ]
           Responded).
  - reflexivity.
  - repeat constructor.
  - reflexivity.
  - vm_compute. reflexivity.
  - lia.
Defined.

(** The same continuation when "Process Loan Cashflows" fails in it: the
    steps after it get a Pending row with the message. *)
Definition loan_fails : string → nat → bool :=
  λ name _, negb (String.eqb name "Process Loan Cashflows").

Example continue_failing_later :
  continue_execution loan_fails fic0 1 history_after_failure
  = Some ([ mkExecution fic0 1 "Process First Day Cashflows" Success None;
            mkExecution fic0 1 "Process Credit Line Cashflows" Success None;
            mkExecution fic0 1 "Process Loan Cashflows" Failed
              (Some "Traceback"%string) ]
          ++ ((λ name, mkExecution fic0 1 name Pending
                         (Some "Previous step failed"%string))
                <$> drop 3 TOTAL_PIPELINE_STEPS),
          [ "Process Credit Line Cashflows"%string;
            "Process Loan Cashflows"%string ]).
Proof. vm_compute. reflexivity. Qed.

Lemma continue_run_keeps_success_witness :
  only_record fic0 1 "Process First Day Cashflows"
    (mkExecution fic0 1 "Process First Day Cashflows" Success None)
    history_all_success
  ∧ "Process First Day Cashflows"%string ∉ drop 1 TOTAL_PIPELINE_STEPS.
Proof.
  apply (continue_run_keeps_success all_succeed fic0 1
           "Process First Day Cashflows"
           (mkExecution fic0 1 "Process First Day Cashflows" Success None)
           eq_refl "Process First Day Cashflows" history_after_failure
           history_all_success (drop 1 TOTAL_PIPELINE_STEPS)).
  - reflexivity.
  - vm_compute. reflexivity.
Defined.

(** X29: a run interrupted while step [B] was being executed, the steps
    before it recorded Success and [B] Running: [stop_execution] marks the
    row of [B] Stopped, keeps every other row and reports [B]; a following
    [continue_execution] executes [B] and the steps after it, in order, up
    to the first one that fails, and leaves the rows of the earlier steps
    unchanged. *)
Theorem stop_then_continue f fic run h0 pre B later msg :
  TOTAL_PIPELINE_STEPS = pre ++ B :: later →
  run ≠ 0 →
  Forall (λ e, ¬ in_run fic run e) h0 →
  stop_execution fic run
    (h0 ++ (success_row fic run <$> pre)
     ++ [mkExecution fic run B Running msg])
  = Some (h0 ++ (success_row fic run <$> pre)
          ++ [mkExecution fic run B Stopped msg], B)
  ∧ continue_execution f fic run
      (h0 ++ (success_row fic run <$> pre)
       ++ [mkExecution fic run B Stopped msg])
    = Some (h0
            ++ (success_row fic run <$> pre)
            ++ (result_row f fic run <$> until_failure f (B :: later))
            ++ (pending_row fic run (Some "Previous step failed"%string)
                  <$> drop (length (until_failure f (B :: later)))
                        (B :: later)),
            until_failure f (B :: later)).
Proof.
  intros Htot Hrun0 Hh0.
  split; [|apply (continue_interrupted f fic run h0 pre B later);
            [done..|by right]].
  unfold stop_execution. rewrite decide_False by done.
  rewrite !filter_app.
  rewrite (filter_none _ h0).
  2:{ eapply Forall_impl; [exact Hh0|]. intros e He [Hr _]. by apply He. }
  rewrite (filter_none _ (success_row fic run <$> pre)).
  2:{ apply Forall_forall. intros e He [_ Hs].
      by apply list_elem_of_fmap in He as (n & -> & _). }
  rewrite filter_cons_True by done. cbn [app filter_nil].
  f_equal. f_equal. unfold update_where. rewrite !fmap_app. f_equal.
  - apply (update_where_none _ _ h0). eapply Forall_impl; [exact Hh0|].
    intros e He [Hr _]. by apply He.
  - f_equal.
    + rewrite <- (list_fmap_id (success_row fic run <$> pre)) at 2.
      apply list_fmap_ext. intros i e He.
      apply list_elem_of_lookup_2, list_elem_of_fmap in He as (n & -> & _).
      by rewrite decide_False by (by intros [_ ?]).
    + cbn. by rewrite decide_True.
Qed.

Lemma stop_then_continue_witness :
  stop_execution fic0 1
    (earlier_run
     ++ (success_row fic0 1 <$> ["Process First Day Cashflows"%string])
     ++ [mkExecution fic0 1 "Process Credit Line Cashflows" Running None])
  = Some (earlier_run
          ++ (success_row fic0 1 <$> ["Process First Day Cashflows"%string])
          ++ [mkExecution fic0 1 "Process Credit Line Cashflows" Stopped
                None],
          "Process Credit Line Cashflows"%string)
  ∧ continue_execution loan_fails fic0 1
      (earlier_run
       ++ (success_row fic0 1 <$> ["Process First Day Cashflows"%string])
       ++ [mkExecution fic0 1 "Process Credit Line Cashflows" Stopped None])
    = Some (earlier_run
            ++ (success_row fic0 1 <$> ["Process First Day Cashflows"%string])
            ++ (result_row loan_fails fic0 1
                <$> until_failure loan_fails
                      ("Process Credit Line Cashflows"%string
                       :: drop 2 TOTAL_PIPELINE_STEPS))
            ++ (pending_row fic0 1 (Some "Previous step failed"%string)
                  <$> drop (length
                              (until_failure loan_fails
                                 ("Process Credit Line Cashflows"%string
                                  :: drop 2 TOTAL_PIPELINE_STEPS)))
                        ("Process Credit Line Cashflows"%string
                         :: drop 2 TOTAL_PIPELINE_STEPS)),
            until_failure loan_fails
              ("Process Credit Line Cashflows"%string
               :: drop 2 TOTAL_PIPELINE_STEPS)).
Proof.
  apply (stop_then_continue loan_fails fic0 1 earlier_run
           ["Process First Day Cashflows"%string]
           "Process Credit Line Cashflows"%string
           (drop 2 TOTAL_PIPELINE_STEPS) None).
  - reflexivity.
  - lia.
  - repeat constructor. by intros [? _].
Defined.

(** A run without a Running row cannot be stopped. *)
Example stop_nothing_running :
  stop_execution fic0 1 history_after_failure = None.
Proof. reflexivity. Qed.

(** Run number 0 is refused by [continue_execution], whatever the run
    holds. *)
Example continue_run_zero :
  continue_execution all_succeed fic0 0
    [ mkExecution fic0 0 "Process First Day Cashflows" Failed None ]
  = None.
Proof. reflexivity. Qed.

End NewRunLaws.

(** ** Product roll-up ([functions/cashflow_prod_aggr.py]) *)

Module ProductRollup.
Import Calendar BucketGen Aggregation Money SchemaSync.

(** The GROUP BY key of the roll-up: product, currency, loan type, party
    type and financial element. *)
Definition prod_key : Type :=
  (string * string * option string * option string * financial_element)%type.

Definition prod_key_of (r : Aggregated_Acc) : prod_key :=
  let '(_, prod, ccy, loan, party) := agg_key r in
  (prod, ccy, loan, party, agg_element r).

(** The column bucket_(i+1) of an account-level row: NULL beyond the
    buckets the row was written with. *)
Definition acc_bucket (i : nat) (r : Aggregated_Acc) : option Z :=
  agg_buckets r !! i.

(** SQL [SUM]: NULLs are left out, and the sum of no value is NULL. *)
Definition sql_sum (vals : list (option Z)) : option Z :=
  foldl (λ acc v,
           match acc, v with
           | None, _ => v
           | Some a, None => Some a
           | Some a, Some b => Some (a + b)
           end) None vals.

(** A row of [Aggregated_Prod_Cashflow_Base]: [prod_buckets] holds
    bucket_1 ... bucket_50; the two foreign keys are given by the rows they
    point to. *)
Record Aggregated_Prod : Type := mkProd {
  prod_fic_mis_date : date;
  prod_process_name : string;
  prod_group : prod_key;
  cashflow_by_bucket : option Aggregated_Acc;
  prod_time_bucket_master : option TimeBucketMaster;
  prod_buckets : list (option Z)
}.

(** [range(1, 51)] *)
Definition bucket_fields : list nat := seq 0 50.

(** The object built for one record of [grouped]. *)
Definition product_row (fic : date) (process : string)
    (tbm : list TimeBucketMaster) (bucket_qs : list Aggregated_Acc)
    (k : prod_key) : Aggregated_Prod :=
  let group := filter (λ r, prod_key_of r = k) bucket_qs in
  mkProd fic process k (head group)
    (head (filter (λ b, process_name b = process) tbm))
    ((λ i, sql_sum (acc_bucket i <$> group)) <$> bucket_fields).

(** The statements of the [try] block of [aggregate_by_prod_code]: the
    product-level rows as they leave them when [bulk_create] accepts the
    objects it is given, and whether the block was left at its end
    ([false]: by the [return] for a date without bucket data). *)
Definition roll_up (fic : date) (acc : list Aggregated_Acc)
    (tbm : list TimeBucketMaster) (prod : list Aggregated_Prod)
    : list Aggregated_Prod * bool :=
  let process := "contractual"%string in
  let prod :=
    filter (λ p, ¬ (prod_fic_mis_date p = fic
                    ∧ prod_process_name p = process)) prod in
  let bucket_qs :=
    filter (λ r, agg_fic_mis_date r = fic ∧ agg_process_name r = process)
           acc in
  match bucket_qs with
  | [] => (prod, false)
  | _ =>
      (prod
       ++ (product_row fic process tbm bucket_qs
             <$> remove_dups (prod_key_of <$> bucket_qs)),
       true)
  end.

(** The objects [bulk_create] is given: one for each record of
    [grouped]. *)
Definition objs (fic : date) (acc : list Aggregated_Acc)
    (tbm : list TimeBucketMaster) : list Aggregated_Prod :=
  let process := "contractual"%string in
  let bucket_qs :=
    filter (λ r, agg_fic_mis_date r = fic ∧ agg_process_name r = process)
           acc in
  product_row fic process tbm bucket_qs
  <$> remove_dups (prod_key_of <$> bucket_qs).

(** The constraint of the table on a row to insert: bucket_1 ... bucket_50
    are NUMERIC(20,2) columns (the other columns take what an account-level
    row holds). *)
Definition insertable (p : Aggregated_Prod) : Prop :=
  Forall (λ v, fits_numeric_20_2 (default 0 v)) (prod_buckets p).

#[global] Instance insertable_dec p : Decision (insertable p).
Proof. unfold insertable. apply _. Defined.

(** The relations the step reads and writes, and the columns of
    Report_Contractual_Base. *)
Record DB : Type := mkDB {
  aggregated_acc : list Aggregated_Acc;
  time_bucket_master : list TimeBucketMaster;
  aggregated_prod : list Aggregated_Prod;
  report_columns : list string
}.

Section step.
Variable strptime : string → result date.
(** The name of the first [Process] row, if any. *)
Variable default_process : option string.

(** [aggregate_by_prod_code], called with a string or a date.  When one of
    the sums does not fit its column, [bulk_create] raises: the
    [with transaction.atomic()] block is rolled back, the delete of the
    prior rows included, the [except Exception] prints the error and
    returns, and the columns of the report table are not synchronized. *)
Definition aggregate_by_prod_code (fic_mis_date : string + date) (db : DB)
    : result DB :=
  fic ← match fic_mis_date with
        | inl s => strptime s
        | inr d => Ok d
        end;
  if decide (Forall insertable
               (objs fic (aggregated_acc db) (time_bucket_master db)))
  then
    let '(prod, completed) :=
      roll_up fic (aggregated_acc db) (time_bucket_master db)
        (aggregated_prod db) in
    Ok (mkDB (aggregated_acc db) (time_bucket_master db) prod
          (if completed then
             sync_bucket_columns "Report_Contractual_Base" false
               default_process (time_bucket_master db) (report_columns db)
           else report_columns db))
  else Ok db.

End step.
End ProductRollup.

Module ProductRollupLaws.
Import Calendar BucketGen Aggregation Money SchemaSync ProductRollup.

(** The value of bucket_(i+1) of a product-level row. *)
Definition prod_bucket (i : nat) (p : Aggregated_Prod) : option Z :=
  mjoin (prod_buckets p !! i).

Lemma sum_cons x l : sum_list (x :: l) = x + sum_list l.
Proof. done. Qed.

Lemma sum_app l1 l2 : sum_list (l1 ++ l2) = sum_list l1 + sum_list l2.
Proof.
  induction l1 as [|x l1 IH]; [done|].
  cbn [app]. rewrite !sum_cons, IH. lia.
Qed.

Lemma sql_sum_value vals :
  default 0 (sql_sum vals) = sum_list (default 0 <$> vals).
Proof.
  transitivity (default 0 (@None Z) + sum_list (default 0 <$> vals));
    [|done].
  unfold sql_sum. generalize (@None Z).
  induction vals as [|v vals IH]; intros acc; [cbn; lia|].
  cbn [foldl]. rewrite IH, fmap_cons, sum_cons.
  destruct acc, v; cbn; lia.
Qed.

Lemma sql_sum_all_null vals :
  Forall (λ v, v = None) vals → sql_sum vals = None.
Proof.
  unfold sql_sum. induction 1 as [|v vals -> _ IH]; [done|]. exact IH.
Qed.

Lemma sql_sum_values (xs : list Z) :
  xs ≠ [] → sql_sum (Some <$> xs) = Some (sum_list xs).
Proof.
  intros Hne.
  assert (∀ (ys : list Z) a,
            foldl (λ acc v, match acc, v with
                            | None, _ => v
                            | Some a, None => Some a
                            | Some a, Some b => Some (a + b)
                            end) (Some a) (Some <$> ys)
            = Some (a + sum_list ys)) as Hfold.
  { induction ys as [|y ys IH]; intros a.
    - cbn. f_equal. lia.
    - cbn [fmap list_fmap foldl]. rewrite IH, sum_cons. f_equal. lia. }
  destruct xs as [|x xs]; [done|].
  unfold sql_sum. cbn [fmap list_fmap foldl]. apply Hfold.
Qed.

Lemma filter_fmap {A B : Type} (f : A → B) (P : B → Prop)
    `{!∀ b, Decision (P b)} (l : list A) :
  filter P (f <$> l) = f <$> filter (λ x, P (f x)) l.
Proof.
  induction l as [|x l IH]; [done|].
  rewrite fmap_cons, !filter_cons, IH. by destruct (decide (P (f x))).
Qed.

Lemma sum_filter_split {A : Type} (g : A → Z) (P Q R : A → Prop)
    `{!∀ x, Decision (P x)} `{!∀ x, Decision (Q x)}
    `{!∀ x, Decision (R x)} (l : list A) :
  (∀ x, R x ↔ P x ∨ Q x) → (∀ x, P x → Q x → False) →
  sum_list (g <$> filter R l)
  = sum_list (g <$> filter P l) + sum_list (g <$> filter Q l).
Proof.
  intros HR Hdisj. induction l as [|x l IH]; [done|].
  rewrite !filter_cons.
  destruct (decide (P x)) as [Hp|Hp], (decide (Q x)) as [Hq|Hq].
  - destruct (Hdisj x Hp Hq).
  - rewrite decide_True by (apply HR; by left).
    rewrite !fmap_cons, !sum_cons, IH. lia.
  - rewrite decide_True by (apply HR; by right).
    rewrite !fmap_cons, !sum_cons, IH. lia.
  - rewrite decide_False by (rewrite HR; tauto). exact IH.
Qed.

Section groups.
Context {A K : Type} `{EqDecision K} (key : A → K) (g : A → Z).

(** The sums of the groups, one for each of the keys [ks], add up to the
    sum over the elements whose key is among them. *)
Lemma sum_groups (l : list A) (ks : list K) :
  NoDup ks →
  sum_list ((λ k, sum_list (g <$> filter (λ x, key x = k) l)) <$> ks)
  = sum_list (g <$> filter (λ x, key x ∈ ks) l).
Proof.
  induction 1 as [|k ks Hk Hnd IH].
  - rewrite filter_none; [done|]. apply Forall_forall. intros x _.
    apply not_elem_of_nil.
  - rewrite fmap_cons, sum_cons, IH. symmetry. apply sum_filter_split.
    + intros x. rewrite elem_of_cons. done.
    + intros x <- Hin. done.
Qed.

End groups.

Lemma roll_up_rows fic acc tbm prod p :
  p ∈ (roll_up fic acc tbm prod).1 →
  prod_fic_mis_date p = fic → prod_process_name p = "contractual"%string →
  ∃ k,
    k ∈ prod_key_of
        <$> filter (λ r, agg_fic_mis_date r = fic
                         ∧ agg_process_name r = "contractual"%string) acc
    ∧ p = product_row fic "contractual" tbm
            (filter (λ r, agg_fic_mis_date r = fic
                          ∧ agg_process_name r = "contractual"%string) acc)
            k.
Proof.
  intros Hin Hf Hp. unfold roll_up in Hin.
  set (bucket_qs := filter _ acc) in *.
  assert (∀ l : list Aggregated_Prod,
            p ∉ filter (λ p, ¬ (prod_fic_mis_date p = fic
                                   ∧ prod_process_name p
                                     = "contractual"%string)) l) as Hold.
  { intros l Ho. apply list_elem_of_filter in Ho as [Ho _]. by apply Ho. }
  destruct bucket_qs as [|r rs] eqn:Hqs; cbn [fst] in Hin;
    [by apply Hold in Hin|].
  apply elem_of_app in Hin as [Hin|Hin]; [by apply Hold in Hin|].
  apply list_elem_of_fmap in Hin as (k & Heq & Hk).
  rewrite elem_of_remove_dups in Hk. by exists k.
Qed.

(** The product-level rows of the snapshot date after the roll-up. *)
Lemma roll_up_new_rows fic acc tbm prod :
  filter (λ p, prod_fic_mis_date p = fic
               ∧ prod_process_name p = "contractual"%string)
         (roll_up fic acc tbm prod).1
  = product_row fic "contractual" tbm
      (filter (λ r, agg_fic_mis_date r = fic
                    ∧ agg_process_name r = "contractual"%string) acc)
    <$> remove_dups
          (prod_key_of
           <$> filter (λ r, agg_fic_mis_date r = fic
                            ∧ agg_process_name r = "contractual"%string)
                 acc).
Proof.
  unfold roll_up. set (bucket_qs := filter _ acc).
  assert (filter (λ p, prod_fic_mis_date p = fic
                       ∧ prod_process_name p = "contractual"%string)
            (filter (λ p, ¬ (prod_fic_mis_date p = fic
                             ∧ prod_process_name p = "contractual"%string))
                    prod) = []) as Hold.
  { apply filter_none, Forall_forall. intros p Hp.
    by apply list_elem_of_filter in Hp as [Hp _]. }
  destruct bucket_qs as [|r rs] eqn:Hqs; cbn [fst]; [by rewrite Hold|].
  rewrite filter_app, Hold. cbn [app].
  apply filter_all, Forall_forall. intros p Hp.
  by apply list_elem_of_fmap in Hp as (k & -> & _).
Qed.

Lemma product_row_bucket fic process tbm bucket_qs k (i : nat) :
  (i < 50)%nat →
  prod_bucket i (product_row fic process tbm bucket_qs k)
  = sql_sum (acc_bucket i <$> filter (λ r, prod_key_of r = k) bucket_qs).
Proof.
  intros Hi. unfold prod_bucket, product_row, bucket_fields.
  cbn [prod_buckets]. rewrite list_lookup_fmap, lookup_seq_lt by done.
  done.
Qed.

(** The rows of the snapshot date that the statements of the block leave
    are the objects given to [bulk_create]. *)
Lemma roll_up_objs fic acc tbm prod :
  filter (λ p, prod_fic_mis_date p = fic
               ∧ prod_process_name p = "contractual"%string)
         (roll_up fic acc tbm prod).1
  = objs fic acc tbm.
Proof. apply roll_up_new_rows. Qed.

Lemma objs_conserve fic acc tbm (i : nat) :
  (i < 50)%nat →
  sum_list ((λ p, default 0 (prod_bucket i p)) <$> objs fic acc tbm)
  = sum_list
      ((λ r, default 0 (acc_bucket i r))
       <$> filter (λ r, agg_fic_mis_date r = fic
                        ∧ agg_process_name r = "contractual"%string) acc)
  ∧ NoDup (prod_group <$> objs fic acc tbm).
Proof.
  intros Hi. unfold objs. cbv zeta.
  set (bucket_qs := filter _ acc).
  set (keys := remove_dups (prod_key_of <$> bucket_qs)).
  assert (NoDup keys) as Hnd by apply NoDup_remove_dups.
  split.
  - rewrite <- list_fmap_compose.
    assert ((λ p, default 0 (prod_bucket i p))
              ∘ product_row fic "contractual" tbm bucket_qs <$> keys
            = (λ k, sum_list ((λ r, default 0 (acc_bucket i r))
                              <$> filter (λ r, prod_key_of r = k) bucket_qs))
              <$> keys) as ->.
    { apply list_fmap_ext. intros j k _. cbn.
      rewrite (product_row_bucket fic _ tbm bucket_qs k i Hi).
      by rewrite sql_sum_value, <- list_fmap_compose. }
    rewrite (sum_groups prod_key_of _ bucket_qs keys Hnd).
    f_equal. f_equal. apply filter_all, Forall_forall. intros r Hr.
    apply elem_of_remove_dups. by apply list_elem_of_fmap_2.
  - rewrite <- list_fmap_compose.
    assert (prod_group ∘ product_row fic "contractual" tbm bucket_qs <$> keys
            = keys) as ->; [|done].
    rewrite <- (list_fmap_id keys) at 2. apply list_fmap_ext.
    by intros j k _.
Qed.

Lemma roll_up_twice fic acc tbm prod :
  roll_up fic acc tbm (roll_up fic acc tbm prod).1 = roll_up fic acc tbm prod.
Proof.
  unfold roll_up. set (bucket_qs := filter _ acc).
  assert (∀ l : list Aggregated_Prod,
            filter (λ p, ¬ (prod_fic_mis_date p = fic
                            ∧ prod_process_name p = "contractual"%string))
              (filter (λ p, ¬ (prod_fic_mis_date p = fic
                               ∧ prod_process_name p = "contractual"%string))
                      l)
            = filter (λ p, ¬ (prod_fic_mis_date p = fic
                              ∧ prod_process_name p = "contractual"%string))
                     l) as Hold.
  { intros l. rewrite list_filter_filter. apply filter_ext_in. tauto. }
  destruct bucket_qs as [|r rs] eqn:Hqs; cbn [fst]; [by rewrite Hold|].
  rewrite filter_app, Hold, (filter_none _ (product_row _ _ _ _ <$> _));
    [by rewrite app_nil_r|].
  apply Forall_forall. intros p Hp.
  apply list_elem_of_fmap in Hp as (k & Heq & _). rewrite Heq. cbn. tauto.
Qed.

Section step.
Variable strptime : string → result date.
Variable default_process : option string.

(** X20: [aggregate_by_prod_code] conserves every bucket, or changes
    nothing.  When every sum fits its NUMERIC(20,2) column, then for each
    of the 50 bucket fields the values of the product-level rows of the
    snapshot date add up, after the step, to the values of the
    account-level rows of that date (NULL counting as 0), whatever the
    product-level table held before, and there is one product-level row
    for each group (product, currency, loan type, party type, financial
    element).  When a sum does not fit, the step returns all the same and
    leaves the product-level rows and the columns of the report table as
    they were. *)
Theorem aggregate_by_prod_code_conserves fic db (i : nat) :
  (i < 50)%nat →
  ∃ db',
    aggregate_by_prod_code strptime default_process (inr fic) db = Ok db'
    ∧ (Forall insertable
         (objs fic (aggregated_acc db) (time_bucket_master db)) →
       sum_list
         ((λ p, default 0 (prod_bucket i p))
          <$> filter (λ p, prod_fic_mis_date p = fic
                           ∧ prod_process_name p = "contractual"%string)
                (aggregated_prod db'))
       = sum_list
           ((λ r, default 0 (acc_bucket i r))
            <$> filter (λ r, agg_fic_mis_date r = fic
                             ∧ agg_process_name r = "contractual"%string)
                  (aggregated_acc db))
       ∧ NoDup
           (prod_group
            <$> filter (λ p, prod_fic_mis_date p = fic
                             ∧ prod_process_name p = "contractual"%string)
                  (aggregated_prod db')))
    ∧ (¬ Forall insertable
           (objs fic (aggregated_acc db) (time_bucket_master db)) →
       db' = db).
Proof.
  intros Hi. unfold aggregate_by_prod_code. cbn [mbind result_bind].
  destruct (decide (Forall insertable _)) as [Hfit|Hfit].
  - pose proof (roll_up_objs fic (aggregated_acc db) (time_bucket_master db)
                  (aggregated_prod db)) as Hobjs.
    destruct (roll_up fic (aggregated_acc db) (time_bucket_master db)
                (aggregated_prod db)) as [prod completed].
    cbn [fst] in Hobjs. eexists. split; [reflexivity|]. split; [|done].
    intros _. cbn [aggregated_prod]. rewrite Hobjs.
    by apply objs_conserve.
  - exists db. split; [done|]. split; [done|]. done.
Qed.

(** X21: [aggregate_by_prod_code] is idempotent: run a second time with
    the same argument on what the first run left, it returns the same and
    leaves the product-level rows and the columns of the report table as
    the first run left them; the rows of the snapshot date are replaced,
    never added twice. *)
Theorem aggregate_by_prod_code_idempotent fic_mis_date db :
  aggregate_by_prod_code strptime default_process fic_mis_date db
  ≫= aggregate_by_prod_code strptime default_process fic_mis_date
  = aggregate_by_prod_code strptime default_process fic_mis_date db.
Proof.
  destruct (match fic_mis_date with inl s => strptime s | inr d => Ok d end)
    as [fic|e] eqn:Hfic.
  2:{ unfold aggregate_by_prod_code. by rewrite Hfic. }
  set (f := aggregate_by_prod_code strptime default_process fic_mis_date).
  assert (∀ d, f d
               = if decide (Forall insertable
                              (objs fic (aggregated_acc d)
                                 (time_bucket_master d)))
                 then
                   let '(prod, completed) :=
                     roll_up fic (aggregated_acc d) (time_bucket_master d)
                       (aggregated_prod d) in
                   Ok (mkDB (aggregated_acc d) (time_bucket_master d) prod
                         (if completed then
                            sync_bucket_columns "Report_Contractual_Base"
                              false default_process (time_bucket_master d)
                              (report_columns d)
                          else report_columns d))
                 else Ok d) as Hf.
  { intros d. unfold f, aggregate_by_prod_code. by rewrite Hfic. }
  rewrite (Hf db).
  destruct (decide (Forall insertable _)) as [Hfit|Hfit].
  2:{ cbn [mbind result_bind]. rewrite Hf. by rewrite decide_False. }
  pose proof (roll_up_twice fic (aggregated_acc db) (time_bucket_master db)
                (aggregated_prod db)) as Htwice.
  destruct (roll_up fic (aggregated_acc db) (time_bucket_master db)
              (aggregated_prod db)) as [prod1 completed] eqn:Hrun.
  cbn [fst] in Htwice. cbn [mbind result_bind]. rewrite Hf.
  cbn [aggregated_acc time_bucket_master aggregated_prod report_columns].
  rewrite decide_True by done.
  rewrite Htwice. destruct completed; [|done].
  by rewrite SchemaSyncFacts.sync_bucket_columns_idempotent.
Qed.

End step.

(** Two accounts of product P1 and a row of another snapshot date. *)
Definition scenario_acc : list Aggregated_Acc :=
  [ mkAggregated (mkdate 2025 4 30) "contractual"
      ("ACC1", "P1", "USD", None, None)%string el_total_cash_flow_amount
      [100000; 0];
    mkAggregated (mkdate 2025 4 30) "contractual"
      ("ACC2", "P1", "USD", None, None)%string el_total_cash_flow_amount
      [20000; 50000];
    mkAggregated (mkdate 2025 3 31) "contractual"
      ("ACC1", "P1", "USD", None, None)%string el_total_cash_flow_amount
      [999; 999] ].

(** A product-level row left by an earlier run for the snapshot date. *)
Definition stale_prod : list Aggregated_Prod :=
  [ mkProd (mkdate 2025 4 30) "contractual"
      ("P9", "USD", None, None, el_total_cash_flow_amount)%string None None
      (replicate 50 (Some 1)) ].

Definition scenario_rollup_db : DB :=
  mkDB scenario_acc [] stale_prod ["id"; "bucket_stale"]%string.

Lemma aggregate_by_prod_code_conserves_witness :
  ∃ db',
    aggregate_by_prod_code Strptime.strptime_ymd (Some "contractual"%string)
      (inr (mkdate 2025 4 30)) scenario_rollup_db = Ok db'
    ∧ (Forall insertable
         (objs (mkdate 2025 4 30) (aggregated_acc scenario_rollup_db)
            (time_bucket_master scenario_rollup_db)) →
       sum_list
         ((λ p, default 0 (prod_bucket 0 p))
          <$> filter (λ p, prod_fic_mis_date p = mkdate 2025 4 30
                           ∧ prod_process_name p = "contractual"%string)
                (aggregated_prod db'))
       = sum_list
           ((λ r, default 0 (acc_bucket 0 r))
            <$> filter (λ r, agg_fic_mis_date r = mkdate 2025 4 30
                             ∧ agg_process_name r = "contractual"%string)
                  (aggregated_acc scenario_rollup_db))
       ∧ NoDup
           (prod_group
            <$> filter (λ p, prod_fic_mis_date p = mkdate 2025 4 30
                             ∧ prod_process_name p = "contractual"%string)
                  (aggregated_prod db')))
    ∧ (¬ Forall insertable
           (objs (mkdate 2025 4 30) (aggregated_acc scenario_rollup_db)
              (time_bucket_master scenario_rollup_db)) →
       db' = scenario_rollup_db).
Proof.
  apply (aggregate_by_prod_code_conserves Strptime.strptime_ymd (Some "contractual"%string)
           (mkdate 2025 4 30) scenario_rollup_db 0).
  lia.
Defined.

(** Two accounts of one product with 9 * 10^17 each in the first bucket:
    each value fits NUMERIC(20,2), their sum does not; the step returns
    and leaves the stale row of the product-level table where it was. *)
Example aggregate_by_prod_code_refused :
  let db :=
    mkDB
      [ mkAggregated (mkdate 2025 4 30) "contractual"
          ("ACC1", "P1", "USD", None, None)%string el_total_cash_flow_amount
          [9 * 10 ^ 19];
        mkAggregated (mkdate 2025 4 30) "contractual"
          ("ACC2", "P1", "USD", None, None)%string el_total_cash_flow_amount
          [9 * 10 ^ 19] ]
      [] stale_prod ["id"; "bucket_stale"]%string in
  aggregate_by_prod_code Strptime.strptime_ymd (Some "contractual"%string)
    (inr (mkdate 2025 4 30)) db
  = Ok db.
Proof. vm_compute. reflexivity. Qed.

(** The roll-up of that scenario: one row for P1 with the buckets of the
    two accounts added, NULL in the fields the accounts have no value for;
    the stale row is gone. *)
Example roll_up_scenario :
  (λ p, (prod_group p, take 3 (prod_buckets p)))
  <$> (roll_up (mkdate 2025 4 30) scenario_acc [] stale_prod).1
  = [ (("P1", "USD", None, None, el_total_cash_flow_amount)%string,
       [Some 120000; Some 50000; None]) ].
Proof. vm_compute. reflexivity. Qed.

(** A date without account-level rows: the product-level rows of the date
    are deleted and the columns of the report table are not synchronized. *)
Example roll_up_no_bucket_data :
  aggregate_by_prod_code Strptime.strptime_ymd (Some "contractual"%string)
    (inl "2025-04-30"%string)
    (mkDB [] [mkTimeBucketMaster "contractual" 1 (mkdate 2025 4 30)
                (mkdate 2025 5 7) (mkdate 2025 4 30)]
          stale_prod ["id"; "bucket_stale"]%string)
  = Ok (mkDB [] [mkTimeBucketMaster "contractual" 1 (mkdate 2025 4 30)
                   (mkdate 2025 5 7) (mkdate 2025 4 30)]
          [] ["id"; "bucket_stale"]%string).
Proof. vm_compute. reflexivity. Qed.

End ProductRollupLaws.

(** ** The aggregation step followed by the product roll-up *)

Module SpreadRollupLaws.
Import Calendar BucketGen Money ProductRollup ProductRollupLaws.
Import Aggregation AggregationLaws.

(** The product-level part of the group of a cash flow. *)
Definition product_of (cf : Arranged_cashflows)
    : string * string * option string * option string :=
  (v_prod_code cf, v_ccy_code cf, v_loan_type cf, v_party_type_code cf).

Definition key_product (k : group_key)
    : string * string * option string * option string :=
  let '(_, prod, ccy, loan, party) := k in (prod, ccy, loan, party).

(** The amount a cash flow adds to a bucket. *)
Definition in_range_amount (el : financial_element) (range : date * date)
    (cf : Arranged_cashflows) : Z :=
  if date_leb range.1 (d_cashflow_date cf)
     && date_leb (d_cashflow_date cf) range.2
  then element_amount el cf else 0.

Lemma bucket_sum_sum_list el rows range :
  bucket_sum el rows range = sum_list (in_range_amount el range <$> rows).
Proof.
  unfold bucket_sum, sum_list, in_range_amount.
  induction rows as [|cf rows IH]; [done|]. cbn. by rewrite IH.
Qed.

(** The eligible rows of the flagged cash flows whose key satisfies [Q] are,
    as far as a bucket sum can tell, the rows of the snapshot date whose key
    satisfies it. *)
Lemma bucket_sum_flagged fic (Q : group_key → Prop) `{!∀ k, Decision (Q k)}
    el cashflows range :
  bucket_sum el
    (filter (λ cf, Q (key_of cf))
       (filter (λ cf, cf_fic_mis_date cf = fic ∧ record_count cf = 1)
          (flagged fic cashflows))) range
  = bucket_sum el
      (filter (λ cf, cf_fic_mis_date cf = fic ∧ Q (key_of cf)) cashflows)
      range.
Proof.
  unfold flagged. induction cashflows as [|cf l IH]; [done|].
  rewrite !fmap_cons. set (cf' := set_record_count fic 1 _).
  assert (cf' = set_record_count fic 1 cf) as Hcf'
    by apply set_record_count_twice.
  destruct (set_record_count_fields fic 1 cf)
    as (Hfic & Hkey & Hdate & Hamt & Hcount).
  rewrite <- Hcf' in Hfic, Hkey, Hdate, Hamt, Hcount. clearbody cf'.
  rewrite (filter_cons (λ cf, cf_fic_mis_date cf = fic ∧ record_count cf = 1)).
  rewrite (filter_cons (λ cf, cf_fic_mis_date cf = fic ∧ Q (key_of cf))).
  destruct (decide (cf_fic_mis_date cf = fic)) as [Hd|Hd].
  - rewrite decide_True by (split; [congruence|by apply Hcount]).
    rewrite filter_cons, Hkey.
    destruct (decide (Q (key_of cf))) as [Hk|Hk].
    + rewrite decide_True by done. unfold bucket_sum in *. cbn [foldr].
      by rewrite IH, Hdate, Hamt.
    + by rewrite decide_False by tauto.
  - rewrite decide_False by (rewrite Hfic; tauto).
    by rewrite decide_False by tauto.
Qed.

(** The account-level rows of the snapshot date after the aggregation
    step. *)
Lemma spread_bucket_qs fic ranges db :
  filter (λ r, agg_fic_mis_date r = fic
               ∧ agg_process_name r = "contractual"%string)
         (aggregated (spread_result fic ranges db))
  = aggregate_element fic "contractual" ranges el_total_cash_flow_amount
      (flagged fic (arranged_cashflows db))
    ++ aggregate_element fic "contractual" ranges el_total_principal_payment
         (flagged fic (arranged_cashflows db))
    ++ aggregate_element fic "contractual" ranges el_total_interest_payment
         (flagged fic (arranged_cashflows db)).
Proof.
  unfold spread_result. cbn [aggregated]. rewrite !filter_app.
  rewrite filter_none.
  2:{ apply Forall_forall. intros a Ha.
      apply list_elem_of_filter in Ha as [Hn _]. tauto. }
  cbn [app].
  rewrite !(filter_all _ (aggregate_element _ _ _ _ _)); [done|..];
    apply Forall_forall; intros a Ha;
    apply elem_of_aggregate_element in Ha; tauto.
Qed.

Lemma group_of_element fic ranges cashflows pk el :
  filter (λ r, prod_key_of r = (pk, el))
    (aggregate_element fic "contractual" ranges el_total_cash_flow_amount
       cashflows
     ++ aggregate_element fic "contractual" ranges el_total_principal_payment
          cashflows
     ++ aggregate_element fic "contractual" ranges el_total_interest_payment
          cashflows)
  = filter (λ r, prod_key_of r = (pk, el))
      (aggregate_element fic "contractual" ranges el cashflows).
Proof.
  assert (∀ el', el' ≠ el →
            filter (λ r, prod_key_of r = (pk, el))
              (aggregate_element fic "contractual" ranges el' cashflows) = [])
    as Hother.
  { intros el' Hne. apply filter_none, Forall_forall. intros a Ha.
    apply elem_of_aggregate_element in Ha as (_ & _ & Hel & _).
    unfold prod_key_of. destruct (agg_key a) as [[[[? ?] ?] ?] ?].
    intros [= _ Heq]. congruence. }
  rewrite !filter_app.
  destruct el.
  - rewrite (Hother el_total_principal_payment) by done.
    rewrite (Hother el_total_interest_payment) by done.
    by rewrite !app_nil_r.
  - rewrite (Hother el_total_cash_flow_amount) by done.
    rewrite (Hother el_total_interest_payment) by done.
    by rewrite !app_nil_r.
  - rewrite (Hother el_total_cash_flow_amount) by done.
    by rewrite (Hother el_total_principal_payment) by done.
Qed.

Section step.
Variable strptime : string → result date.

(** X22: the aggregation step followed by the product roll-up.  After a
    run of [calculate_time_buckets_and_spread] that returns, the roll-up of
    the same snapshot date gives every product-level row of that date, in
    each of its 50 bucket fields, the financial element of the cash flows
    of the date with the row's product, currency, loan type and party type
    that are dated within the range of the bucket, summed over all
    accounts; a field beyond the ranges generated is NULL. *)
Theorem roll_up_of_spread v db db' fic tbm prod p pk el (i : nat) :
  coerce_date strptime v = Ok fic →
  calculate_time_buckets_and_spread strptime v db = (Ok (), db') →
  p ∈ (roll_up fic (aggregated db') tbm prod).1 →
  prod_fic_mis_date p = fic →
  prod_process_name p = "contractual"%string →
  prod_group p = (pk, el) →
  (i < 50)%nat →
  ∃ ranges,
    _build_bucket_ranges fic (merge_sort by_serial_number (time_buckets db))
    = Ok ranges
    ∧ prod_bucket i p
      = bucket_sum el
          (filter (λ cf, cf_fic_mis_date cf = fic ∧ product_of cf = pk)
                  (arranged_cashflows db))
        <$> ranges !! i.
Proof.
  intros Hfic Hrun Hp Hpf Hpp Hgroup Hi.
  apply spread_ok_iff in Hrun as (fic' & ranges & Hfic' & Hne & Hb & ->).
  rewrite Hfic in Hfic'. injection Hfic' as <-.
  exists ranges. split; [done|].
  destruct (roll_up_rows _ _ _ _ _ Hp Hpf Hpp) as (k & Hk & Heq).
  rewrite Heq in Hgroup. cbn in Hgroup. subst k. rewrite Heq.
  rewrite product_row_bucket by done.
  rewrite spread_bucket_qs in Hk |- *.
  set (cashflows := flagged fic (arranged_cashflows db)) in *.
  rewrite group_of_element.
  apply list_elem_of_fmap in Hk as (r & Hr & Hin).
  assert (r ∈ filter (λ r, prod_key_of r = (pk, el))
                (aggregate_element fic "contractual" ranges el cashflows))
    as Hgroup.
  { rewrite <- group_of_element. by apply list_elem_of_filter. }
  clear Hin Hr.
  unfold aggregate_element in *.
  set (eligible := filter (λ cf, cf_fic_mis_date cf = fic ∧ record_count cf = 1)
                     cashflows) in *.
  set (keys := remove_dups (key_of <$> eligible)) in *.
  set (n := Nat.min (length ranges) max_target_buckets) in *.
  cbv zeta in *. rewrite filter_fmap in Hgroup |- *.
  set (ks := filter _ keys) in *.
  assert (ks = filter (λ k, key_product k = pk) keys) as Hks.
  { unfold ks. apply filter_ext_in. intros k _. unfold prod_key_of.
    cbn. destruct k as [[[[? ?] ?] ?] ?]. cbn. split.
    - by intros [= <-].
    - by intros <-. }
  clearbody ks. subst ks.
  set (ks := filter (λ k, key_product k = pk) keys) in *.
  assert (ks ≠ []) as Hks.
  { intros Hnil. rewrite Hnil in Hgroup. by apply elem_of_nil in Hgroup. }
  clear Hgroup r.
  rewrite <- list_fmap_compose.
  assert (take n ranges !! i = ranges !! i) as Htake.
  { destruct (decide (i < n)%nat) as [Hlt|Hge].
    - by apply lookup_take_lt.
    - rewrite lookup_take_ge by lia. symmetry. apply lookup_ge_None.
      unfold n, max_target_buckets in Hge. lia. }
  assert (acc_bucket i
            ∘ (λ k, mkAggregated fic "contractual" k el
                      (bucket_sum el (filter (λ cf, key_of cf = k) eligible)
                       <$> take n ranges)) <$> ks
          = (λ k, bucket_sum el (filter (λ cf, key_of cf = k) eligible)
                  <$> ranges !! i) <$> ks) as ->.
  { apply list_fmap_ext. intros j k _. unfold acc_bucket. cbn.
    by rewrite list_lookup_fmap, Htake. }
  destruct (ranges !! i) as [range|]; cbn [fmap option_fmap option_map].
  - assert ((λ k, Some (bucket_sum el
                           (filter (λ cf, key_of cf = k) eligible) range))
              <$> ks
            = Some <$> ((λ k, bucket_sum el
                                (filter (λ cf, key_of cf = k) eligible) range)
                        <$> ks)) as ->
      by by rewrite <- list_fmap_compose.
    rewrite sql_sum_values.
    2:{ intros Hnil. apply fmap_nil_inv in Hnil. done. }
    f_equal.
    assert ((λ k, bucket_sum el (filter (λ cf, key_of cf = k) eligible) range)
            <$> ks
            = (λ k, sum_list (in_range_amount el range
                              <$> filter (λ cf, key_of cf = k) eligible))
              <$> ks) as ->.
    { apply list_fmap_ext. intros j k _. apply bucket_sum_sum_list. }
    rewrite (sum_groups key_of (in_range_amount el range) eligible ks).
    2:{ unfold ks. apply NoDup_filter, NoDup_remove_dups. }
    rewrite <- bucket_sum_sum_list.
    assert (filter (λ cf, key_of cf ∈ ks) eligible
            = filter (λ cf, key_product (key_of cf) = pk) eligible) as ->.
    { apply filter_ext_in. intros cf Hcf. unfold ks.
      rewrite list_elem_of_filter. unfold keys.
      rewrite elem_of_remove_dups. split; [tauto|]. intros Hpk.
      split; [done|]. by apply list_elem_of_fmap_2. }
    unfold eligible, cashflows.
    exact (bucket_sum_flagged fic (λ k, key_product k = pk) el
             (arranged_cashflows db) range).
  - apply sql_sum_all_null, Forall_forall. intros x Hx.
    by apply list_elem_of_fmap in Hx as (k & -> & _).
Qed.

End step.

(** Two accounts of product P1, one of product P2, and the three bucket
    definitions of the end-to-end scenario. *)
Definition two_accounts_db : Aggregation.DB :=
  Aggregation.mkDB
    [ mkCashflow (mkdate 2025 4 30) "ACC1" "P1" "USD" None None
        (mkdate 2025 5 1) 100000 90000 10000 0;
      mkCashflow (mkdate 2025 4 30) "ACC2" "P1" "USD" None None
        (mkdate 2025 5 2) 20000 20000 0 0;
      mkCashflow (mkdate 2025 4 30) "ACC2" "P1" "USD" None None
        (mkdate 2025 6 8) 50000 50000 0 0;
      mkCashflow (mkdate 2025 4 30) "ACC3" "P2" "EUR" (Some "CREDIT") None
        (mkdate 2025 5 3) 7000 7000 0 0 ]
    BucketGenFacts.scenario_buckets [] [].

(** The two steps on that database: the rows of the total cash flow. *)
Example spread_then_roll_up :
  (λ p, (prod_group p, take 4 (prod_buckets p)))
  <$> filter (λ p, (prod_group p).2 = el_total_cash_flow_amount)
        (roll_up (mkdate 2025 4 30)
           (aggregated
              (calculate_time_buckets_and_spread Strptime.strptime_ymd
                 (PyDate (mkdate 2025 4 30)) two_accounts_db).2) [] []).1
  = [ (("P1", "USD", None, None, el_total_cash_flow_amount)%string,
       [Some 120000; Some 50000; Some 0; None]);
      (("P2", "EUR", Some "CREDIT", None, el_total_cash_flow_amount)%string,
       [Some 7000; Some 0; Some 0; None]) ].
Proof. vm_compute. reflexivity. Qed.

Lemma roll_up_of_spread_witness :
  let db' :=
    (calculate_time_buckets_and_spread Strptime.strptime_ymd
       (PyDate (mkdate 2025 4 30)) two_accounts_db).2 in
  let p :=
    product_row (mkdate 2025 4 30) "contractual" []
      (filter (λ r, agg_fic_mis_date r = mkdate 2025 4 30
                    ∧ agg_process_name r = "contractual"%string)
              (aggregated db'))
      ("P1", "USD", None, None, el_total_cash_flow_amount)%string in
  ∃ ranges,
    _build_bucket_ranges (mkdate 2025 4 30)
      (merge_sort by_serial_number (time_buckets two_accounts_db))
    = Ok ranges
    ∧ prod_bucket 0 p
      = bucket_sum el_total_cash_flow_amount
          (filter (λ cf, cf_fic_mis_date cf = mkdate 2025 4 30
                         ∧ product_of cf = ("P1", "USD", None, None)%string)
                  (arranged_cashflows two_accounts_db))
        <$> ranges !! 0%nat.
Proof.
  cbv zeta.
  apply (roll_up_of_spread Strptime.strptime_ymd (PyDate (mkdate 2025 4 30))
           two_accounts_db
           (calculate_time_buckets_and_spread Strptime.strptime_ymd
              (PyDate (mkdate 2025 4 30)) two_accounts_db).2
           (mkdate 2025 4 30) [] []).
  - reflexivity.
  - vm_compute. reflexivity.
  - apply (list_elem_of_lookup_2 _ 0%nat). vm_compute. reflexivity.
  - reflexivity.
  - reflexivity.
  - reflexivity.
  - lia.
Defined.

End SpreadRollupLaws.

(** ** First-day and credit-line cash flows
    ([functions/cashflow_first_day.py], [functions/cashflow_credit.py]) *)

Module Cashflows.
Import Calendar Money.

(** An [Arranged_cashflows] object; amounts are in cents.  The snapshot
    date, the product code and the currency are NOT NULL columns, in which
    an object that has not been saved may still hold [None]. *)
Record Arranged_cashflows : Type := mkArranged {
  fic_mis_date : option date;
  v_account_number : string;
  v_prod_code : option string;
  v_loan_type : option string;
  v_party_type_code : option string;
  v_cash_flow_type : option string;
  n_cash_flow_bucket : Z;
  d_cashflow_date : date;
  n_total_cash_flow_amount : Z;
  n_total_principal_payment : Z;
  n_total_interest_payment : Z;
  n_total_balance : Z;
  v_ccy_code : option string;
  record_count : Z
}.

(** A row of [FirstDayProduct] ([v_prod_name] is not read). *)
Record FirstDayProduct : Type := mkFirstDay {
  fd_fic_mis_date : option date;
  fd_prod_code : option string;
  fd_ccy_code : option string;
  fd_account_number : string;
  fd_eop_bal : option Z
}.

(** A row of [CreditLine]: the columns the step reads. *)
Record CreditLine : Type := mkCredit {
  cl_fic_mis_date : option date;
  cl_prod_code : option string;
  cl_account_number : string;
  cl_ccy_code : option string
}.

(** A row of [LoanPaymentSchedule]: the columns the step reads. *)
Record LoanPaymentSchedule : Type := mkSchedule {
  ps_account_number : string;
  ps_fic_mis_date : date;
  d_next_payment_date : date;
  v_instrument_type_cd : string;
  n_principal_payment_amnt : option Z;
  n_interest_payment_amt : option Z;
  n_level : string
}.

Record DB : Type := mkDB {
  arranged : list Arranged_cashflows;
  first_day_products : list FirstDayProduct;
  credit_lines : list CreditLine;
  schedules : list LoanPaymentSchedule
}.

Definition with_arranged (rows : list Arranged_cashflows) (db : DB) : DB :=
  mkDB rows (first_day_products db) (credit_lines db) (schedules db).

(** How a step ends: it returns, it raises a Python exception, or the
    database refuses a statement (IntegrityError, DataError). *)
Inductive outcome (A : Type) : Type :=
  | Returned (a : A)
  | Raised (e : exn)
  | DatabaseError.
Arguments Returned {A} a.
Arguments Raised {A} e.
Arguments DatabaseError {A}.

(** [@transaction.atomic]: what the step has written is kept only when it
    returns. *)
Definition atomic {A : Type} (f : DB → outcome A * DB) (db : DB)
    : outcome A * DB :=
  match f db with
  | (Returned a, db') => (Returned a, db')
  | (o, _) => (o, db)
  end.

(** A value fits NUMERIC(20,2) when it has at most 18 digits before the
    point, and an IntegerField when it fits 32 bits. *)
Definition fits_numeric (cents : Z) : Prop := Z.abs cents < 10 ^ 20.

Definition fits_integer (n : Z) : Prop := - 2 ^ 31 ≤ n < 2 ^ 31.

(** The constraints of the table on a row to insert. *)
Definition insertable (r : Arranged_cashflows) : Prop :=
  is_Some (fic_mis_date r) ∧ is_Some (v_prod_code r)
  ∧ is_Some (v_ccy_code r)
  ∧ fits_integer (n_cash_flow_bucket r)
  ∧ fits_numeric (n_total_cash_flow_amount r)
  ∧ fits_numeric (n_total_principal_payment r)
  ∧ fits_numeric (n_total_interest_payment r)
  ∧ fits_numeric (n_total_balance r)
  ∧ fits_integer (record_count r).

#[global] Instance insertable_dec r : Decision (insertable r).
Proof. unfold insertable, fits_numeric, fits_integer. apply _. Defined.

(** [bulk_create]: the table afterwards, or [None] when a row is
    refused. *)
Definition bulk_create (objs table : list Arranged_cashflows)
    : option (list Arranged_cashflows) :=
  if decide (Forall insertable objs) then Some (table ++ objs) else None.

(** [s[:n]] *)
Definition str_take (n : nat) (s : string) : string :=
  string_of_list_ascii (take n (list_ascii_of_string s)).

(** *** [cashflow_first_day] *)

(** The values the step may be called with; a datetime is given by its
    date. *)
Inductive argument : Type :=
  | ArgStr (s : string)
  | ArgDate (d : date)
  | ArgDatetime (d : date)
  | ArgOther.

(** The rows the step deletes. *)
Definition is_day1 (fic cf_date : date) (r : Arranged_cashflows) : Prop :=
  fic_mis_date r = Some fic ∧ v_loan_type r = Some "first_day"%string
  ∧ n_cash_flow_bucket r = 1 ∧ d_cashflow_date r = cf_date.

#[global] Instance is_day1_dec fic cf_date r : Decision (is_day1 fic cf_date r).
Proof. unfold is_day1. apply _. Defined.

(** The object built for a row of the source. *)
Definition first_day_flow (fic cf_date : date) (s : FirstDayProduct)
    : Arranged_cashflows :=
  let principal := default 0 (fd_eop_bal s) in
  mkArranged (Some fic) (fd_account_number s) (fd_prod_code s)
    (Some "first_day"%string) None (Some "DAY1"%string) 1 cf_date
    principal principal 0 0
    (Some (str_take 10
             (Consolidator.upper (default ""%string (fd_ccy_code s)))))
    1.

Section first_day.
(** [datetime.strptime(s, "%Y-%m-%d").date()] *)
Variable strptime : string → result date.

(** [_normalize_date]; the ValueError of [strptime] is raised again as a
    ValueError. *)
Definition _normalize_date (value : argument) : result date :=
  match value with
  | ArgDate d => Ok d
  | ArgDatetime d => Ok d
  | ArgStr s =>
      match strptime s with
      | Ok d => Ok d
      | Raise ValueError => Raise ValueError
      | Raise e => Raise e
      end
  | ArgOther => Raise TypeError
  end.

(** The body of [cashflow_first_day]: (deleted_count, created_count). *)
Definition first_day_body (value : argument) (db : DB)
    : outcome (nat * nat) * DB :=
  match _normalize_date value with
  | Raise e => (Raised e, db)
  | Ok fic =>
      match add_days fic 1 with
      | Raise e => (Raised e, db)
      | Ok cf_date =>
          let src_qs :=
            filter (λ s, fd_fic_mis_date s = Some fic)
                   (first_day_products db) in
          let deleted_count :=
            length (filter (is_day1 fic cf_date) (arranged db)) in
          let db :=
            with_arranged
              (filter (λ r, ¬ is_day1 fic cf_date r) (arranged db)) db in
          match src_qs with
          | [] => (Returned (deleted_count, 0%nat), db)
          | _ =>
              let to_create := first_day_flow fic cf_date <$> src_qs in
              match bulk_create to_create (arranged db) with
              | Some table =>
                  (Returned (deleted_count, length to_create),
                   with_arranged table db)
              | None => (DatabaseError, db)
              end
          end
      end
  end.

Definition cashflow_first_day (value : argument) (db : DB)
    : outcome (nat * nat) * DB :=
  atomic (first_day_body value) db.

End first_day.

(** *** [cashflow_credit_line] *)

(** The characters [str.strip] removes, among the ASCII ones. *)
Definition is_space (c : ascii) : bool :=
  let n := N_of_ascii c in
  (((9 <=? n) && (n <=? 13)) || ((28 <=? n) && (n <=? 32)))%N.

Fixpoint lstrip_space (cs : list ascii) : list ascii :=
  match cs with
  | c :: cs' => if is_space c then lstrip_space cs' else cs
  | [] => []
  end.

(** [str.strip()] *)
Definition strip (s : string) : string :=
  string_of_list_ascii
    (reverse (lstrip_space (reverse (lstrip_space (list_ascii_of_string s))))).

(** [_norm_lvl] *)
Definition _norm_lvl (qstr : string) : string :=
  if decide (qstr = ""%string) then ""%string
  else strip (Consolidator.upper qstr).

(** [_suffix_principal] *)
Definition _suffix_principal (rows : list LoanPaymentSchedule) : list Z :=
  reverse
    (foldl (λ '(out, running) r,
              let running :=
                running + default 0 (n_principal_payment_amnt r) in
              (out ++ [running], running))
           ([], 0) (reverse rows)).1.

(** The first loop of [_build_flows]: it stops at the first row dated
    after the snapshot date. *)
Fixpoint interest_loop (all_rows : list LoanPaymentSchedule) (snapshot : date)
    (interest_sum : gmap string Z) : gmap string Z :=
  match all_rows with
  | [] => interest_sum
  | r :: rest =>
      if date_ltb snapshot (d_next_payment_date r) then interest_sum
      else
        let lvl := _norm_lvl (n_level r) in
        interest_loop rest snapshot
          (<[lvl := default 0 (interest_sum !! lvl)
                    + default 0 (n_interest_payment_amt r)]> interest_sum)
  end.

(** The third loop: [idx] is the number of the next flow. *)
Fixpoint flows_loop (credit : CreditLine) (interest_sum : gmap string Z)
    (idx : Z) (pairs : list (LoanPaymentSchedule * Z))
    (level_written : gset string) : list Arranged_cashflows :=
  match pairs with
  | [] => []
  | (row, bal) :: rest =>
      let lvl := _norm_lvl (n_level row) in
      let prin := default 0 (n_principal_payment_amnt row) in
      let '(intr, level_written) :=
        if decide (lvl ∈ level_written) then (0, level_written)
        else (default 0 (interest_sum !! lvl), level_written ∪ {[lvl]}) in
      mkArranged (cl_fic_mis_date credit) (cl_account_number credit)
        (cl_prod_code credit) (Some "CREDIT"%string) None
        (Some "PAYMENT_SCHEDULE"%string) idx (d_next_payment_date row)
        (quantize_half_up 1 (prin + intr)) prin intr bal
        (cl_ccy_code credit) 1
      :: flows_loop credit interest_sum (idx + 1) rest level_written
  end.

Definition _build_flows (credit : CreditLine)
    (all_rows : list LoanPaymentSchedule) (snapshot : date)
    : list Arranged_cashflows :=
  let interest_sum := interest_loop all_rows snapshot ∅ in
  let rows_kept :=
    filter (λ r, date_leb snapshot (d_next_payment_date r) = true) all_rows in
  match rows_kept with
  | [] => []
  | _ =>
      let balance_suffix := _suffix_principal rows_kept in
      flows_loop credit interest_sum 1 (zip rows_kept balance_suffix) ∅
  end.

(** [Max("fic_mis_date")]: NULL when there is no row. *)
Definition latest (dates : list date) : option date :=
  foldl (λ acc d,
           match acc with
           | None => Some d
           | Some m => Some (if date_ltb m d then d else m)
           end) None dates.

(** [order_by("d_next_payment_date")] *)
Definition by_payment_date (a b : LoanPaymentSchedule) : Prop :=
  date_leb (d_next_payment_date a) (d_next_payment_date b) = true.

#[global] Instance by_payment_date_dec : RelDecision by_payment_date.
Proof. intros a b. unfold by_payment_date. apply _. Defined.

(** The body of the loop over the credit lines: the flows of one. *)
Definition credit_flows (schedules : list LoanPaymentSchedule)
    (snapshot : date) (c : CreditLine) : list Arranged_cashflows :=
  let mine :=
    filter (λ r, ps_account_number r = cl_account_number c
                 ∧ v_instrument_type_cd r = "CREDITLINES"%string)
           schedules in
  match latest (ps_fic_mis_date <$> mine) with
  | None => []
  | Some latest_sched =>
      let sched_all :=
        merge_sort by_payment_date
          (filter (λ r, ps_fic_mis_date r = latest_sched) mine) in
      match sched_all with
      | [] => []
      | _ => _build_flows c sched_all snapshot
      end
  end.

Section credit_line.
(** [datetime.fromisoformat(s).date()] *)
Variable fromisoformat : string → result date.

(** The body of [cashflow_credit_line], called with a string or a date. *)
Definition credit_line_body (value : string + date) (db : DB)
    : outcome unit * DB :=
  match (match value with
         | inl s => fromisoformat s
         | inr d => Ok d
         end) with
  | Raise e => (Raised e, db)
  | Ok fic =>
      let db :=
        with_arranged
          (filter (λ r, fic_mis_date r ≠ Some fic) (arranged db)) db in
      let credits :=
        filter (λ c, cl_fic_mis_date c = Some fic) (credit_lines db) in
      match credits with
      | [] => (Returned (), db)
      | _ =>
          let out_rows := credits ≫= credit_flows (schedules db) fic in
          match out_rows with
          | [] => (Returned (), db)
          | _ =>
              match bulk_create out_rows (arranged db) with
              | Some table => (Returned (), with_arranged table db)
              | None => (DatabaseError, db)
              end
          end
      end
  end.

Definition cashflow_credit_line (value : string + date) (db : DB)
    : outcome unit * DB :=
  atomic (credit_line_body value) db.

End credit_line.
End Cashflows.

Module CashflowsLaws.
Import Calendar Money Cashflows.

Definition principal (r : LoanPaymentSchedule) : Z :=
  default 0 (n_principal_payment_amnt r).

Definition interest (r : LoanPaymentSchedule) : Z :=
  default 0 (n_interest_payment_amt r).

Definition level (r : LoanPaymentSchedule) : string := _norm_lvl (n_level r).

(** The rows dated on or after the snapshot date: each gets a flow. *)
Definition rows_kept (snapshot : date) (all_rows : list LoanPaymentSchedule)
    : list LoanPaymentSchedule :=
  filter (λ r, date_leb snapshot (d_next_payment_date r) = true) all_rows.

(** The rows the first loop reads: those before the first row dated after
    the snapshot date. *)
Fixpoint rows_read (snapshot : date) (all_rows : list LoanPaymentSchedule)
    : list LoanPaymentSchedule :=
  match all_rows with
  | [] => []
  | r :: rest =>
      if date_ltb snapshot (d_next_payment_date r) then []
      else r :: rows_read snapshot rest
  end.

Fixpoint suffix_sums (xs : list Z) : list Z :=
  match xs with
  | [] => []
  | x :: xs' => (x + sum_list xs') :: suffix_sums xs'
  end.

Lemma suffix_sums_length xs : length (suffix_sums xs) = length xs.
Proof. induction xs as [|x xs IH]; [done|]. cbn. by rewrite IH. Qed.

Lemma suffix_sums_lookup xs (i : nat) b :
  suffix_sums xs !! i = Some b → b = sum_list (drop i xs).
Proof.
  revert i. induction xs as [|x xs IH]; intros i; [done|].
  destruct i as [|i]; cbn [suffix_sums lookup list_lookup drop].
  - by intros [= <-].
  - apply IH.
Qed.

Lemma suffix_principal_sums rows :
  _suffix_principal rows = suffix_sums (principal <$> rows).
Proof.
  unfold _suffix_principal.
  match goal with |- context [foldl ?F _ _] => set (f := F) end.
  assert (foldl f ([], 0) (reverse rows)
          = (reverse (suffix_sums (principal <$> rows)),
             sum_list (principal <$> rows))) as ->.
  { induction rows as [|r rows IH]; [done|].
    rewrite reverse_cons, foldl_app, IH. cbn [foldl]. unfold f.
    rewrite fmap_cons. cbn [suffix_sums]. rewrite reverse_cons.
    rewrite ProductRollupLaws.sum_cons. unfold principal.
    f_equal; [f_equal; f_equal|]; lia. }
  cbn [fst]. apply reverse_involutive.
Qed.

Lemma quantize_unit x : quantize_half_up 1 x = x.
Proof.
  unfold quantize_half_up. change (1 / 2) with 0.
  rewrite Z.add_0_r, Z.div_1_r. lia.
Qed.

Section flows.
Variables (credit : CreditLine) (interest_sum : gmap string Z).

Lemma flows_loop_length idx pairs written :
  length (flows_loop credit interest_sum idx pairs written) = length pairs.
Proof.
  revert idx written.
  induction pairs as [|[row bal] pairs IH]; intros idx written; [done|].
  cbn [flows_loop]. destruct (decide (_ ∈ written)); cbn [length];
    by rewrite IH.
Qed.

(** What a flow takes from its schedule row and from the credit line. *)
Definition flow_of (flow : Arranged_cashflows)
    (pair : LoanPaymentSchedule * Z) : Prop :=
  n_total_principal_payment flow = principal pair.1
  ∧ n_total_balance flow = pair.2
  ∧ d_cashflow_date flow = d_next_payment_date pair.1
  ∧ n_total_cash_flow_amount flow
    = n_total_principal_payment flow + n_total_interest_payment flow
  ∧ fic_mis_date flow = cl_fic_mis_date credit
  ∧ v_loan_type flow = Some "CREDIT"%string.

Lemma flows_loop_fields idx pairs written :
  Forall2 flow_of (flows_loop credit interest_sum idx pairs written) pairs.
Proof.
  revert idx written.
  induction pairs as [|[row bal] pairs IH]; intros idx written;
    [constructor|].
  cbn [flows_loop].
  destruct (decide (_ ∈ written)); (constructor; [|apply IH]);
    unfold flow_of; cbn; by rewrite quantize_unit.
Qed.

Lemma flows_loop_bucket pairs :
  ∀ idx written (i : nat) flow,
    flows_loop credit interest_sum idx pairs written !! i = Some flow →
    n_cash_flow_bucket flow = idx + Z.of_nat i.
Proof.
  induction pairs as [|[row bal] pairs IH]; intros idx written i flow;
    [done|].
  cbn [flows_loop]. destruct (decide (_ ∈ written)); destruct i as [|i];
    cbn [lookup list_lookup].
  - intros [= <-]. cbn. lia.
  - intros Hi. rewrite (IH _ _ _ _ Hi). lia.
  - intros [= <-]. cbn. lia.
  - intros Hi. rewrite (IH _ _ _ _ Hi). lia.
Qed.

(** The interest the third loop writes, when the dictionary holds for
    every level the interest of the rows [rd] of that level: the interest of
    the rows of [rd] whose level has a row among [pairs] and has not been
    written before. *)
Lemma flows_loop_interest (rd : list LoanPaymentSchedule) :
  (∀ L, default 0 (interest_sum !! L)
        = sum_list (interest <$> filter (λ r, level r = L) rd)) →
  ∀ pairs idx written,
    sum_list (n_total_interest_payment
              <$> flows_loop credit interest_sum idx pairs written)
    = sum_list
        (interest
         <$> filter (λ r, level r ∈ (level ∘ fst <$> pairs)
                          ∧ level r ∉ written) rd).
Proof.
  intros Hm. induction pairs as [|[row bal] pairs IH]; intros idx written.
  - cbn [flows_loop fmap list_fmap]. rewrite filter_none; [done|].
    apply Forall_forall. intros r _ [Hin _]. by apply elem_of_nil in Hin.
  - cbn [flows_loop]. fold (level row).
    destruct (decide (level row ∈ written)) as [Hw|Hw].
    + rewrite fmap_cons, ProductRollupLaws.sum_cons, IH.
      cbn [n_total_interest_payment]. rewrite Z.add_0_l.
      f_equal. f_equal. apply filter_ext_in. intros r _.
      rewrite fmap_cons, elem_of_cons. cbn [compose fst]. split.
      * intros [Hin Hnw]. split; [by right|done].
      * intros [[Heq|Hin] Hnw]; [|done].
        exfalso. apply Hnw. by rewrite Heq.
    + rewrite fmap_cons, ProductRollupLaws.sum_cons, IH.
      cbn [n_total_interest_payment]. rewrite Hm. symmetry.
      apply ProductRollupLaws.sum_filter_split.
      * intros r. rewrite fmap_cons, elem_of_cons. cbn [compose fst].
        rewrite elem_of_union, elem_of_singleton.
        destruct (decide (level r = level row)) as [Heq|Hne].
        -- split; [by left|]. intros _. split; [by left|by rewrite Heq].
        -- split.
           ++ intros [[?|Hin] Hnw]; [done|]. right. split; [done|].
              intros [?|?]; done.
           ++ intros [?|[Hin Hnw]]; [done|]. split; [by right|].
              intros ?. apply Hnw. by left.
      * intros r Heq [_ Hnw]. apply Hnw.
        rewrite elem_of_union, elem_of_singleton. by right.
Qed.

End flows.

Lemma interest_loop_lookup snapshot rows :
  ∀ (m : gmap string Z) L,
    default 0 (interest_loop rows snapshot m !! L)
    = default 0 (m !! L)
      + sum_list (interest <$> filter (λ r, level r = L)
                                 (rows_read snapshot rows)).
Proof.
  induction rows as [|r rows IH]; intros m L; cbn [interest_loop rows_read].
  - rewrite filter_nil. cbn. lia.
  - destruct (date_ltb snapshot (d_next_payment_date r)).
    + rewrite filter_nil. cbn. lia.
    + rewrite IH, filter_cons. fold (level r).
      destruct (decide (level r = L)) as [Heq|Hne].
      * rewrite Heq, lookup_insert_eq. cbn [default].
        rewrite fmap_cons, ProductRollupLaws.sum_cons. unfold interest, id.
        lia.
      * rewrite lookup_insert_ne by done. lia.
Qed.

Lemma zip_suffix_fst (rows : list LoanPaymentSchedule) :
  (zip rows (_suffix_principal rows)).*1 = rows.
Proof.
  apply fst_zip. rewrite suffix_principal_sums, suffix_sums_length.
  by rewrite length_fmap.
Qed.

Lemma zip_suffix_snd (rows : list LoanPaymentSchedule) :
  (zip rows (_suffix_principal rows)).*2 = suffix_sums (principal <$> rows).
Proof.
  rewrite <- suffix_principal_sums. apply snd_zip.
  rewrite suffix_principal_sums, suffix_sums_length.
  by rewrite length_fmap.
Qed.

(** The flows of a credit line, field by field, against the rows kept. *)
Lemma build_flows_fields credit all_rows snapshot :
  Forall2 (flow_of credit) (_build_flows credit all_rows snapshot)
    (zip (rows_kept snapshot all_rows)
         (_suffix_principal (rows_kept snapshot all_rows))).
Proof.
  unfold _build_flows. fold (rows_kept snapshot all_rows).
  destruct (rows_kept snapshot all_rows) as [|r rows] eqn:Hkept;
    [constructor|].
  apply flows_loop_fields.
Qed.

(** X23: the flows [_build_flows] gives a credit line are numbered 1, 2,
    ... in the order of the schedule rows dated on or after the snapshot
    date, one flow per such row; the balance of a flow is the principal of
    that flow and of all the flows after it, so that the first balance is
    the whole principal still to be paid and each flow lowers it by its own
    principal; the cash flow amount of a flow is its principal plus its
    interest; and no flow is dated before the snapshot date. *)
Theorem build_flows_running_balance credit all_rows snapshot (i : nat) flow :
  _build_flows credit all_rows snapshot !! i = Some flow →
  length (_build_flows credit all_rows snapshot)
  = length (rows_kept snapshot all_rows)
  ∧ n_cash_flow_bucket flow = Z.of_nat i + 1
  ∧ n_total_balance flow
    = sum_list (n_total_principal_payment
                <$> drop i (_build_flows credit all_rows snapshot))
  ∧ n_total_cash_flow_amount flow
    = n_total_principal_payment flow + n_total_interest_payment flow
  ∧ date_leb snapshot (d_cashflow_date flow) = true.
Proof.
  intros Hi.
  pose proof (build_flows_fields credit all_rows snapshot) as Hfields.
  assert (length (_build_flows credit all_rows snapshot)
          = length (rows_kept snapshot all_rows)) as Hlen.
  { rewrite (Forall2_length _ _ _ Hfields).
    rewrite <- (length_fmap fst). by rewrite zip_suffix_fst. }
  split; [done|].
  destruct (Forall2_lookup_l _ _ _ _ _ Hfields Hi)
    as ([row bal] & Hpair & Hp & Hb & Hd & Hamt & _).
  cbn [fst snd] in Hp, Hb, Hd.
  split; [|split; [|split; [done|]]].
  - unfold _build_flows in Hi. fold (rows_kept snapshot all_rows) in Hi.
    destruct (rows_kept snapshot all_rows) as [|r rows] eqn:Hkept; [done|].
    rewrite (flows_loop_bucket _ _ _ _ _ _ _ Hi). lia.
  - assert (n_total_principal_payment
              <$> _build_flows credit all_rows snapshot
            = principal <$> rows_kept snapshot all_rows) as Hps.
    { rewrite <- (zip_suffix_fst (rows_kept snapshot all_rows)) at 1.
      rewrite <- list_fmap_compose. apply list_eq_Forall2.
      rewrite Forall2_fmap. eapply Forall2_impl; [exact Hfields|].
      intros f p Hf. apply Hf. }
    rewrite fmap_drop, Hps, Hb. apply suffix_sums_lookup.
    rewrite <- zip_suffix_snd. by rewrite list_lookup_fmap, Hpair.
  - rewrite Hd.
    assert (row ∈ rows_kept snapshot all_rows) as Hin.
    { rewrite <- (zip_suffix_fst (rows_kept snapshot all_rows)).
      apply list_elem_of_fmap. exists (row, bal). split; [done|].
      by eapply list_elem_of_lookup_2. }
    unfold rows_kept in Hin.
    by apply list_elem_of_filter in Hin as [Hin _].
Qed.

(** X24: the interest the flows of a credit line carry, all together, is
    the interest of the schedule rows the first loop reads (the rows before
    the first one dated after the snapshot date) whose level has a row dated
    on or after the snapshot date.  The cumulative interest of such a level
    is written once; the interest of a level without such a row, and the
    interest of the rows that are not read, is written in no flow. *)
Theorem build_flows_interest_once credit all_rows snapshot :
  sum_list (n_total_interest_payment
            <$> _build_flows credit all_rows snapshot)
  = sum_list
      (interest
       <$> filter (λ r, level r ∈ (level <$> rows_kept snapshot all_rows))
             (rows_read snapshot all_rows)).
Proof.
  unfold _build_flows. fold (rows_kept snapshot all_rows).
  destruct (rows_kept snapshot all_rows) as [|r rows] eqn:Hkept.
  - rewrite filter_none; [done|]. apply Forall_forall. intros x _ Hin.
    by apply elem_of_nil in Hin.
  - rewrite (flows_loop_interest credit _ (rows_read snapshot all_rows)).
    + f_equal. f_equal. apply filter_ext_in. intros x _.
      rewrite list_fmap_compose, zip_suffix_fst. split.
      * by intros [Hin _].
      * intros Hin. split; [done|]. apply not_elem_of_empty.
    + intros L. rewrite interest_loop_lookup, lookup_empty. cbn. lia.
Qed.

(** *** The first-day step *)

(** The rows the step creates. *)
Definition first_day_rows (fic cf_date : date) (db : DB)
    : list Arranged_cashflows :=
  first_day_flow fic cf_date
  <$> filter (λ s, fd_fic_mis_date s = Some fic) (first_day_products db).

Lemma first_day_rows_day1 fic cf_date db :
  Forall (is_day1 fic cf_date) (first_day_rows fic cf_date db).
Proof.
  apply Forall_forall. intros r Hr.
  by apply list_elem_of_fmap in Hr as (s & -> & _).
Qed.

(** The rows of a table that holds no first-day row of the date, followed
    by the rows the step creates: what the step deletes and what it
    keeps. *)
Lemma day1_split fic cf_date (kept : list Arranged_cashflows) db :
  Forall (λ r, ¬ is_day1 fic cf_date r) kept →
  filter (is_day1 fic cf_date) (kept ++ first_day_rows fic cf_date db)
  = first_day_rows fic cf_date db
  ∧ filter (λ r, ¬ is_day1 fic cf_date r)
      (kept ++ first_day_rows fic cf_date db) = kept.
Proof.
  intros Hkept. rewrite !filter_app. split.
  - rewrite (filter_none _ kept) by done.
    apply filter_all, first_day_rows_day1.
  - rewrite (filter_all _ kept) by done.
    rewrite filter_none; [by rewrite app_nil_r|].
    eapply Forall_impl; [apply first_day_rows_day1|]. tauto.
Qed.

Section first_day.
Variable strptime : string → result date.

(** The step returns exactly when its argument is a date, the next day
    exists and the table accepts the rows; it then leaves the rows it does
    not delete, followed by the rows it creates. *)
Lemma first_day_returned_iff value db d c db1 :
  cashflow_first_day strptime value db = (Returned (d, c), db1) ↔
  ∃ fic cf_date,
    _normalize_date strptime value = Ok fic
    ∧ add_days fic 1 = Ok cf_date
    ∧ Forall insertable (first_day_rows fic cf_date db)
    ∧ d = length (filter (is_day1 fic cf_date) (arranged db))
    ∧ c = length (first_day_rows fic cf_date db)
    ∧ db1 = with_arranged
              (filter (λ r, ¬ is_day1 fic cf_date r) (arranged db)
               ++ first_day_rows fic cf_date db) db.
Proof.
  unfold cashflow_first_day, atomic, first_day_body.
  destruct (_normalize_date strptime value) as [fic|e];
    [|split; [done|by intros (? & ? & ? & _)]].
  destruct (add_days fic 1) as [cf_date|e] eqn:Hadd;
    [|split; [done|by intros (? & ? & [= <-] & ? & _); congruence]].
  assert (∀ fic' cf',
            Ok fic = Ok fic' → add_days fic' 1 = Ok cf' →
            fic' = fic ∧ cf' = cf_date) as Hsame.
  { intros fic' cf' [= <-] Hcf. split; [done|]. congruence. }
  pose proof (eq_refl (first_day_rows fic cf_date db)) as Hrows.
  unfold first_day_rows at 2 in Hrows.
  set (kept := filter (λ r, ¬ is_day1 fic cf_date r) (arranged db)).
  destruct (filter (λ s, fd_fic_mis_date s = Some fic)
              (first_day_products db)) as [|s src'] eqn:Hsrc.
  - cbn [fmap list_fmap] in Hrows. split.
    + intros [= <- <- <-]. exists fic, cf_date. rewrite Hrows.
      repeat split; try done. by rewrite app_nil_r.
    + intros (fic' & cf' & Hf & Hcf & _ & -> & -> & ->).
      destruct (Hsame _ _ Hf Hcf) as [-> ->]. rewrite Hrows. fold kept.
      by rewrite app_nil_r.
  - rewrite <- Hrows. unfold bulk_create. cbn [arranged with_arranged].
    fold kept.
    destruct (decide (Forall insertable (first_day_rows fic cf_date db)))
      as [Hok|Hbad].
    + split.
      * intros [= <- <- <-]. exists fic, cf_date. repeat split; done.
      * intros (fic' & cf' & Hf & Hcf & _ & -> & -> & ->).
        by destruct (Hsame _ _ Hf Hcf) as [-> ->].
    + split; [done|].
      intros (fic' & cf' & Hf & Hcf & Hok & _).
      by destruct (Hsame _ _ Hf Hcf) as [-> ->].
Qed.

(** X25: a second run of [cashflow_first_day] with the same argument,
    on what a first run that returned has left, deletes exactly the rows
    the first run created, creates them again, and leaves the database as
    the first run left it: it returns (created, created). *)
Theorem first_day_second_run value db d c db1 :
  cashflow_first_day strptime value db = (Returned (d, c), db1) →
  cashflow_first_day strptime value db1 = (Returned (c, c), db1).
Proof.
  intros Hrun.
  apply first_day_returned_iff in Hrun
    as (fic & cf_date & Hfic & Hcf & Hok & -> & -> & ->).
  apply first_day_returned_iff. exists fic, cf_date.
  set (kept := filter (λ r, ¬ is_day1 fic cf_date r) (arranged db)).
  assert (Forall (λ r, ¬ is_day1 fic cf_date r) kept) as Hkept.
  { apply Forall_forall. intros r Hr.
    by apply list_elem_of_filter in Hr as [Hr _]. }
  destruct (day1_split fic cf_date kept db Hkept) as [Hdel Hkeep].
  split; [done|]. split; [done|].
  unfold first_day_rows in *. cbn [arranged first_day_products with_arranged].
  split; [done|]. rewrite Hdel, Hkeep. done.
Qed.

End first_day.

(** *** The credit-line step *)

Lemma flows_loop_elem credit interest_sum pairs idx written flow :
  flow ∈ flows_loop credit interest_sum idx pairs written →
  fic_mis_date flow = cl_fic_mis_date credit
  ∧ v_loan_type flow = Some "CREDIT"%string.
Proof.
  intros Hin. apply list_elem_of_lookup in Hin as [i Hi].
  destruct (Forall2_lookup_l _ _ _ _ _
              (flows_loop_fields credit interest_sum idx pairs written) Hi)
    as (pair & _ & _ & _ & _ & _ & Hf & Hl).
  done.
Qed.

Lemma credit_flows_elem schedules snapshot c flow :
  flow ∈ credit_flows schedules snapshot c →
  fic_mis_date flow = cl_fic_mis_date c
  ∧ v_loan_type flow = Some "CREDIT"%string.
Proof.
  unfold credit_flows. destruct (latest _) as [latest_sched|];
    [|by intros ?%elem_of_nil].
  destruct (merge_sort _ _) as [|r rows] eqn:Hs; [by intros ?%elem_of_nil|].
  unfold _build_flows. destruct (filter _ (r :: rows)) as [|k kept];
    [by intros ?%elem_of_nil|].
  apply flows_loop_elem.
Qed.

(** The rows the step creates for the snapshot date. *)
Definition credit_rows (fic : date) (db : DB) : list Arranged_cashflows :=
  filter (λ c, cl_fic_mis_date c = Some fic) (credit_lines db)
  ≫= credit_flows (schedules db) fic.

Lemma credit_rows_elem fic db flow :
  flow ∈ credit_rows fic db →
  fic_mis_date flow = Some fic ∧ v_loan_type flow = Some "CREDIT"%string.
Proof.
  unfold credit_rows. intros Hin.
  apply list_elem_of_bind in Hin as (c & Hflow & Hc).
  apply list_elem_of_filter in Hc as [Hc _].
  apply credit_flows_elem in Hflow as [Hf Hl]. by rewrite Hf, Hc.
Qed.

Section credit_line.
Variable fromisoformat : string → result date.

Definition parse (value : string + date) : result date :=
  match value with
  | inl s => fromisoformat s
  | inr d => Ok d
  end.

Lemma credit_line_returned_iff value db db1 :
  cashflow_credit_line fromisoformat value db = (Returned (), db1) ↔
  ∃ fic,
    parse value = Ok fic
    ∧ Forall insertable (credit_rows fic db)
    ∧ db1 = with_arranged
              (filter (λ r, fic_mis_date r ≠ Some fic) (arranged db)
               ++ credit_rows fic db) db.
Proof.
  unfold cashflow_credit_line, atomic, credit_line_body.
  fold (parse value).
  destruct (parse value) as [fic|e]; [|split; [done|by intros (? & ? & _)]].
  cbn [credit_lines schedules arranged with_arranged].
  set (kept := filter (λ r, fic_mis_date r ≠ Some fic) (arranged db)).
  pose proof (eq_refl (credit_rows fic db)) as Hrows.
  unfold credit_rows at 2 in Hrows.
  destruct (filter (λ c, cl_fic_mis_date c = Some fic) (credit_lines db))
    as [|c credits] eqn:Hcredits.
  - cbn [mbind list_bind] in Hrows. split.
    + intros [= <-]. exists fic. rewrite Hrows. repeat split; try done.
      by rewrite app_nil_r.
    + intros (fic' & [= <-] & _ & ->). rewrite Hrows. by rewrite app_nil_r.
  - rewrite <- Hrows.
    destruct (credit_rows fic db) as [|o out'] eqn:Hout.
    + split.
      * intros [= <-]. exists fic. rewrite Hout. repeat split; try done.
        by rewrite app_nil_r.
      * intros (fic' & [= <-] & _ & ->). rewrite Hout.
        by rewrite app_nil_r.
    + unfold bulk_create.
      destruct (decide (Forall insertable (o :: out'))) as [Hok|Hbad].
      * split.
        -- intros [= <-]. exists fic. by rewrite Hout.
        -- intros (fic' & [= <-] & _ & ->). by rewrite Hout.
      * split; [done|]. intros (fic' & [= <-] & Hok & _).
        by rewrite Hout in Hok.
Qed.

(** X27: [cashflow_credit_line] replaces the arranged cash flows of the
    snapshot date by the flows of its credit lines and touches nothing
    else: the rows of other snapshot dates are kept as they were, in their
    order, every row of the snapshot date afterwards is a CREDIT flow,
    whatever step had written rows for that date before, and a second run
    with the same argument returns and leaves the database as the first run
    left it. *)
Theorem credit_line_second_run value db db1 fic :
  parse value = Ok fic →
  cashflow_credit_line fromisoformat value db = (Returned (), db1) →
  cashflow_credit_line fromisoformat value db1 = (Returned (), db1)
  ∧ filter (λ r, fic_mis_date r ≠ Some fic) (arranged db1)
    = filter (λ r, fic_mis_date r ≠ Some fic) (arranged db)
  ∧ ∀ r, r ∈ arranged db1 → fic_mis_date r = Some fic →
         v_loan_type r = Some "CREDIT"%string.
Proof.
  intros Hfic Hrun.
  apply credit_line_returned_iff in Hrun as (fic' & Hfic' & Hok & ->).
  assert (fic' = fic) as -> by congruence.
  set (kept := filter (λ r, fic_mis_date r ≠ Some fic) (arranged db)).
  assert (filter (λ r, fic_mis_date r ≠ Some fic)
            (kept ++ credit_rows fic db) = kept) as Hkept.
  { rewrite filter_app, (filter_none _ (credit_rows fic db)).
    - rewrite app_nil_r. unfold kept. rewrite list_filter_filter.
      apply filter_ext_in. tauto.
    - apply Forall_forall. intros r Hr Hne.
      by apply credit_rows_elem in Hr as [Hr _]. }
  split; [|split].
  - apply credit_line_returned_iff. exists fic. split; [done|].
    unfold credit_rows in *.
    cbn [arranged credit_lines schedules with_arranged].
    split; [done|]. by rewrite Hkept.
  - cbn [arranged with_arranged]. exact Hkept.
  - cbn [arranged with_arranged]. intros r Hr Hdate.
    apply elem_of_app in Hr as [Hr|Hr].
    + apply list_elem_of_filter in Hr as [Hne _]. done.
    + by apply credit_rows_elem in Hr as [_ Hr].
Qed.

Section pipeline.
Variable strptime : string → result date.

(** X26: the first uses of the two steps in the pipeline.  When
    "Process First Day Cashflows", "Process Credit Line Cashflows" and
    then [cashflow_first_day] again, as in
    "Process First Day Cashflows (Re-run)", return for a snapshot date, the
    credit-line step has deleted the rows the first-day step had created
    (after it every row of the date is a CREDIT flow), and the re-run finds
    no first-day row to delete and creates the same rows again, after the
    rows the credit-line step left. *)
Theorem credit_line_wipes_first_day fic db d c db1 db2 d3 c3 db3 :
  cashflow_first_day strptime (ArgDate fic) db = (Returned (d, c), db1) →
  cashflow_credit_line fromisoformat (inr fic) db1 = (Returned (), db2) →
  cashflow_first_day strptime (ArgDate fic) db2 = (Returned (d3, c3), db3) →
  ∃ cf_date,
    add_days fic 1 = Ok cf_date
    ∧ filter (is_day1 fic cf_date) (arranged db1)
      = first_day_rows fic cf_date db
    ∧ c = length (first_day_rows fic cf_date db)
    ∧ filter (is_day1 fic cf_date) (arranged db2) = []
    ∧ (∀ r, r ∈ arranged db2 → fic_mis_date r = Some fic →
            v_loan_type r = Some "CREDIT"%string)
    ∧ d3 = 0%nat ∧ c3 = c
    ∧ arranged db3 = arranged db2 ++ first_day_rows fic cf_date db.
Proof.
  intros H1 H2 H3.
  apply first_day_returned_iff in H1
    as (fic1 & cf_date & [= <-] & Hcf & Hok1 & -> & -> & ->).
  apply credit_line_returned_iff in H2 as (fic2 & [= <-] & Hok2 & ->).
  apply first_day_returned_iff in H3
    as (fic3 & cf3 & [= <-] & Hcf3 & Hok3 & -> & -> & ->).
  assert (cf3 = cf_date) as -> by congruence.
  exists cf_date. split; [done|].
  set (kept := filter (λ r, ¬ is_day1 fic cf_date r) (arranged db)).
  assert (Forall (λ r, ¬ is_day1 fic cf_date r) kept) as Hkept.
  { apply Forall_forall. intros r Hr.
    by apply list_elem_of_filter in Hr as [Hr _]. }
  destruct (day1_split fic cf_date kept db Hkept) as [Hdel _].
  unfold first_day_rows in *.
  cbn [arranged first_day_products credit_lines schedules with_arranged]
    in *.
  fold (first_day_rows fic cf_date db) in *.
  set (table2 := filter (λ r, fic_mis_date r ≠ Some fic)
                   (kept ++ first_day_rows fic cf_date db) ++ _) in *.
  assert (∀ r, r ∈ table2 → fic_mis_date r = Some fic →
               v_loan_type r = Some "CREDIT"%string) as Hcredit.
  { intros r Hr Hdate. apply elem_of_app in Hr as [Hr|Hr].
    - apply list_elem_of_filter in Hr as [Hne _]. done.
    - by apply credit_rows_elem in Hr as [_ Hr]. }
  assert (Forall (λ r, ¬ is_day1 fic cf_date r) table2) as Hnone.
  { apply Forall_forall. intros r Hr (Hdate & Hl & _).
    rewrite (Hcredit r Hr Hdate) in Hl. done. }
  split; [exact Hdel|]. split; [done|].
  split; [by apply filter_none|]. split; [exact Hcredit|].
  split; [by rewrite filter_none|].
  split; [done|]. by rewrite filter_all.
Qed.

End pipeline.
End credit_line.

Definition fic0 : date := mkdate 2025 4 30.

(** The schedule of credit line CL1 as of the snapshot date, an older
    schedule of it, and a row of another instrument type. *)
Definition scenario_schedules : list LoanPaymentSchedule :=
  [ mkSchedule "CL1" fic0 (mkdate 2025 6 30) "CREDITLINES" (Some 40000)
      (Some 1100) "Q2";
    mkSchedule "CL1" fic0 (mkdate 2025 3 31) "CREDITLINES" (Some 10000)
      (Some 500) "q1";
    mkSchedule "CL1" fic0 (mkdate 2025 5 31) "CREDITLINES" (Some 30000)
      (Some 900) "Q1";
    mkSchedule "CL1" fic0 (mkdate 2025 4 30) "CREDITLINES" (Some 20000)
      (Some 700) "Q1 ";
    mkSchedule "CL1" (mkdate 2025 3 31) (mkdate 2025 12 31) "CREDITLINES"
      (Some 99900) None "Q9";
    mkSchedule "CL1" fic0 (mkdate 2025 5 15) "LOANS" (Some 12300) None "Q1" ].

Definition scenario_credit : CreditLine :=
  mkCredit (Some fic0) (Some "CRL") "CL1" (Some "USD").

Definition scenario_db : DB :=
  mkDB [ mkArranged (Some (mkdate 2025 3 31)) "OLD" (Some "P") None None None
           1 (mkdate 2025 4 1) 100 100 0 0 (Some "USD") 1 ]
       [ mkFirstDay (Some fic0) (Some "CASH") (Some "usd") "FD1" (Some 50000);
         mkFirstDay (Some (mkdate 2025 3 31)) (Some "CASH") None "FD0" None ]
       [ scenario_credit;
         mkCredit (Some fic0) (Some "CRL") "CL2" (Some "USD") ]
       scenario_schedules.

(** The flows of CL1: the interest of level Q1 up to the snapshot date
    (5.00 + 7.00) stands in the first flow; the interest of the rows after
    the snapshot date (9.00 and 11.00) is in no flow. *)
Example credit_flows_scenario :
  (λ r, (n_cash_flow_bucket r, d_cashflow_date r,
         n_total_principal_payment r, n_total_interest_payment r,
         n_total_cash_flow_amount r, n_total_balance r))
  <$> credit_flows scenario_schedules fic0 scenario_credit
  = [ (1, mkdate 2025 4 30, 20000, 1200, 21200, 90000);
      (2, mkdate 2025 5 31, 30000, 0, 30000, 70000);
      (3, mkdate 2025 6 30, 40000, 0, 40000, 40000) ].
Proof. vm_compute. reflexivity. Qed.

(** The schedule of CL1 in the order of the payment dates. *)
Definition scenario_sched_all : list LoanPaymentSchedule :=
  [ mkSchedule "CL1" fic0 (mkdate 2025 3 31) "CREDITLINES" (Some 10000)
      (Some 500) "q1";
    mkSchedule "CL1" fic0 (mkdate 2025 4 30) "CREDITLINES" (Some 20000)
      (Some 700) "Q1 ";
    mkSchedule "CL1" fic0 (mkdate 2025 5 31) "CREDITLINES" (Some 30000)
      (Some 900) "Q1";
    mkSchedule "CL1" fic0 (mkdate 2025 6 30) "CREDITLINES" (Some 40000)
      (Some 1100) "Q2" ].

Definition scenario_second_flow : Arranged_cashflows :=
  mkArranged (Some fic0) "CL1" (Some "CRL") (Some "CREDIT") None
    (Some "PAYMENT_SCHEDULE") 2 (mkdate 2025 5 31) 30000 30000 0 70000
    (Some "USD") 1.

Lemma build_flows_running_balance_witness :
  length (_build_flows scenario_credit scenario_sched_all fic0)
  = length (rows_kept fic0 scenario_sched_all)
  ∧ n_cash_flow_bucket scenario_second_flow = Z.of_nat 1 + 1
  ∧ n_total_balance scenario_second_flow
    = sum_list (n_total_principal_payment
                <$> drop 1 (_build_flows scenario_credit scenario_sched_all
                              fic0))
  ∧ n_total_cash_flow_amount scenario_second_flow
    = n_total_principal_payment scenario_second_flow
      + n_total_interest_payment scenario_second_flow
  ∧ date_leb fic0 (d_cashflow_date scenario_second_flow) = true.
Proof.
  apply (build_flows_running_balance scenario_credit scenario_sched_all fic0
           1 scenario_second_flow).
  vm_compute. reflexivity.
Defined.

(** The database after the first-day step, after the credit-line step run
    on that, and after the first-day step run again. *)
Definition after_first_day : DB :=
  (cashflow_first_day Strptime.strptime_ymd (ArgDate fic0) scenario_db).2.

Definition after_credit_line : DB :=
  (cashflow_credit_line Strptime.strptime_ymd (inr fic0) after_first_day).2.

Definition after_rerun : DB :=
  (cashflow_first_day Strptime.strptime_ymd (ArgDate fic0)
     after_credit_line).2.

Example pipeline_scenario :
  (λ r, (v_account_number r, v_loan_type r, n_total_cash_flow_amount r))
  <$> arranged after_first_day
  = [ ("OLD", None, 100); ("FD1", Some "first_day", 50000) ]%string
  ∧ (λ r, (v_account_number r, v_loan_type r, n_total_cash_flow_amount r))
    <$> arranged after_credit_line
    = [ ("OLD", None, 100); ("CL1", Some "CREDIT", 21200);
        ("CL1", Some "CREDIT", 30000); ("CL1", Some "CREDIT", 40000) ]%string
  ∧ (λ r, (v_account_number r, v_loan_type r, n_total_cash_flow_amount r))
    <$> arranged after_rerun
    = [ ("OLD", None, 100); ("CL1", Some "CREDIT", 21200);
        ("CL1", Some "CREDIT", 30000); ("CL1", Some "CREDIT", 40000);
        ("FD1", Some "first_day", 50000) ]%string.
Proof. repeat split; vm_compute; reflexivity. Qed.

Lemma first_day_second_run_witness :
  cashflow_first_day Strptime.strptime_ymd (ArgDate fic0) after_first_day
  = (Returned (1%nat, 1%nat), after_first_day).
Proof.
  apply (first_day_second_run Strptime.strptime_ymd (ArgDate fic0)
           scenario_db 0%nat).
  vm_compute. reflexivity.
Defined.

Lemma credit_line_wipes_first_day_witness :
  ∃ cf_date,
    add_days fic0 1 = Ok cf_date
    ∧ filter (is_day1 fic0 cf_date) (arranged after_first_day)
      = first_day_rows fic0 cf_date scenario_db
    ∧ 1%nat = length (first_day_rows fic0 cf_date scenario_db)
    ∧ filter (is_day1 fic0 cf_date) (arranged after_credit_line) = []
    ∧ (∀ r, r ∈ arranged after_credit_line → fic_mis_date r = Some fic0 →
            v_loan_type r = Some "CREDIT"%string)
    ∧ 0%nat = 0%nat ∧ 1%nat = 1%nat
    ∧ arranged after_rerun
      = arranged after_credit_line ++ first_day_rows fic0 cf_date scenario_db.
Proof.
  apply (credit_line_wipes_first_day Strptime.strptime_ymd
           Strptime.strptime_ymd fic0 scenario_db 0%nat 1%nat after_first_day
           after_credit_line 0%nat 1%nat after_rerun).
  - vm_compute. reflexivity.
  - vm_compute. reflexivity.
  - vm_compute. reflexivity.
Defined.

Lemma credit_line_second_run_witness :
  cashflow_credit_line Strptime.strptime_ymd (inl "2025-04-30"%string)
    after_credit_line
  = (Returned (), after_credit_line)
  ∧ filter (λ r, fic_mis_date r ≠ Some fic0) (arranged after_credit_line)
    = filter (λ r, fic_mis_date r ≠ Some fic0) (arranged after_first_day)
  ∧ ∀ r, r ∈ arranged after_credit_line → fic_mis_date r = Some fic0 →
         v_loan_type r = Some "CREDIT"%string.
Proof.
  apply (credit_line_second_run Strptime.strptime_ymd
           (inl "2025-04-30"%string) after_first_day after_credit_line fic0).
  - vm_compute. reflexivity.
  - vm_compute. reflexivity.
Defined.

(** A first-day product without product code: the table refuses the row
    and the step leaves the database as it was, the rows it had deleted
    included. *)
Example first_day_refused :
  let db :=
    mkDB [ mkArranged (Some fic0) "FD1" (Some "CASH") (Some "first_day") None
             (Some "DAY1") 1 (mkdate 2025 5 1) 1 1 0 0 (Some "USD") 1 ]
         [ mkFirstDay (Some fic0) None (Some "USD") "FD2" (Some 50000) ]
         [] [] in
  cashflow_first_day Strptime.strptime_ymd (ArgDate fic0) db
  = (DatabaseError, db).
Proof. vm_compute. reflexivity. Qed.

End CashflowsLaws.

(** ** The Behavioral Respreader, column by column *)

Module RespreaderLaws.
Import Money PyDict SchemaSync Respreader RespreaderFacts.

(** The percentage a pattern gives bucket number [n], in thousandths of a
    percent. *)
Definition split_percent (n : Z) (splits : list (Z * Z)) : Z :=
  sum_list (snd <$> filter (λ s, s.1 = n) splits).

Lemma dict_get_in {K V} `{EqDecision K} (k : K) (v : V) (d : dict K V) :
  dict_get k d = Some v → (k, v) ∈ d.
Proof.
  induction d as [|[k' v'] d IH]; [done|]. cbn.
  destruct (decide (k' = k)) as [->|Hne].
  - intros [= ->]. left.
  - intros Hget. right. by apply IH.
Qed.

Section column.
Variables (bucket_map : dict Z string) (col : string) (n : Z).
Hypothesis col_given : col ≠ ""%string.
Hypothesis col_number : ∀ n', dict_get n' bucket_map = Some col ↔ n' = n.

Lemma spread_amount_column splits amt :
  ∀ (vals : gmap string Z) v,
    vals !! col = Some v →
    spread_amount bucket_map splits amt vals !! col
    = Some (v + amt * split_percent n splits).
Proof.
  unfold spread_amount, split_percent.
  induction splits as [|[n' pct] splits IH]; intros vals v Hv.
  - cbn. rewrite Hv. f_equal. lia.
  - cbn [foldl]. rewrite filter_cons. cbn [fst].
    destruct (dict_get n' bucket_map) as [dst|] eqn:Hget.
    + destruct (decide (dst = ""%string)) as [->|Hd].
      * rewrite decide_False; [by apply IH|].
        intros ->. assert (dict_get n bucket_map = Some col) as Hn
          by by apply col_number.
        congruence.
      * destruct (decide (dst = col)) as [->|Hdc].
        -- assert (n' = n) as -> by by apply col_number.
           rewrite decide_True by done.
           rewrite (IH _ (v + amt * pct))
             by by rewrite lookup_alter_eq, Hv.
           rewrite fmap_cons, sum_list_cons. cbn [snd]. f_equal. lia.
        -- rewrite decide_False.
           ++ apply IH. by rewrite lookup_alter_ne.
           ++ intros ->. assert (dict_get n bucket_map = Some col) as Hn
                by by apply col_number.
              congruence.
    + rewrite decide_False; [by apply IH|].
      intros ->. assert (dict_get n bucket_map = Some col) as Hn
        by by apply col_number.
      congruence.
Qed.

Lemma spread_row_column cols splits row_dict :
  col ∈ cols →
  spread_row cols bucket_map splits row_dict !! col
  = Some (sum_list (row_amount row_dict <$> (snd <$> bucket_map))
          * split_percent n splits).
Proof.
  intros Hcol. unfold spread_row.
  assert ((list_to_map ((λ col, (col, 0)) <$> cols) : gmap string Z) !! col
          = Some 0) as Hinit.
  { pose proof (init_vals_lookup cols col) as Hz.
    destruct (init_vals_covers cols col Hcol) as [z Hs].
    rewrite Hs in Hz |- *. cbn in Hz. by rewrite Hz. }
  revert Hinit.
  generalize (list_to_map ((λ col, (col, 0)) <$> cols) : gmap string Z).
  intros vals Hinit.
  assert (∀ (items : dict Z string) (vals : gmap string Z) v,
            vals !! col = Some v →
            foldl (λ vals '(_, col_name),
                     let amt := row_amount row_dict col_name in
                     if amt =? 0 then vals
                     else spread_amount bucket_map splits amt vals)
                  vals items !! col
            = Some (v + sum_list (row_amount row_dict <$> (snd <$> items))
                        * split_percent n splits)) as Hgen.
  { clear vals Hinit.
    induction items as [|[m c] items IH]; intros vals v Hv.
    - cbn. rewrite Hv. f_equal. lia.
    - cbn [foldl]. cbv zeta. rewrite !fmap_cons, sum_list_cons. cbn [snd].
      destruct (Z.eqb_spec (row_amount row_dict c) 0) as [E|_].
      + rewrite (IH _ v) by done. rewrite E. f_equal; lia.
      + rewrite (IH _ (v + row_amount row_dict c * split_percent n splits))
          by by apply spread_amount_column.
        f_equal; lia. }
  rewrite (Hgen _ _ 0) by done. f_equal; lia.
Qed.

End column.

(** X28: in a snapshot table whose bucket columns each carry a bucket
    number of their own, the amount the Behavioral Respreader writes to the
    bucket column of number [n] is the sum of the row's amounts over all the
    bucket columns, times the percentage the pattern gives bucket [n] (0
    when it has no split for [n]), rounded half up to cents: the bucket in
    which an amount stood in the source row has no influence on where it
    goes. *)
Theorem respread_by_row_total cols nums splits row_dict (i : nat) col n :
  NoDup cols →
  Forall2 (λ col n, column_bucket_no col = Ok (Some n)) cols nums →
  NoDup nums →
  cols !! i = Some col → nums !! i = Some n →
  build_bucket_map cols [] = Ok (zip nums cols)
  ∧ respread cols (zip nums cols) splits row_dict !! col
    = Some (quantize_half_up SPREAD_UNIT
              (source_total cols row_dict * split_percent n splits)).
Proof.
  intros Hnd Hcols Hnums Hcol Hn.
  split; [by apply (build_bucket_map_zip cols nums [])|].
  pose proof (Forall2_length _ _ _ Hcols) as Hlen.
  assert (col ≠ ""%string) as Hne.
  { destruct (Forall2_lookup_l _ _ _ _ _ Hcols Hcol) as (n' & _ & Hno).
    by eapply column_bucket_no_nonempty. }
  assert (∀ n', dict_get n' (zip nums cols) = Some col ↔ n' = n) as Hnum.
  { intros n'. split.
    - intros Hget. apply dict_get_in, list_elem_of_lookup in Hget as [j Hj].
      apply lookup_zip_Some in Hj as [Hnj Hcj].
      assert (j = i) as -> by (by eapply (NoDup_lookup cols)).
      congruence.
    - intros ->. apply dict_get_elem_of; [by rewrite fst_zip by lia|].
      apply list_elem_of_lookup. exists i.
      rewrite lookup_zip_with, Hn. cbn. by rewrite Hcol. }
  unfold respread. rewrite lookup_fmap.
  rewrite (spread_row_column (zip nums cols) col n Hne Hnum)
    by by eapply list_elem_of_lookup_2.
  rewrite snd_zip by lia. done.
Qed.

Lemma respread_by_row_total_witness :
  build_bucket_map scenario_cols [] = Ok (zip [1; 2] scenario_cols)
  ∧ respread scenario_cols (zip [1; 2] scenario_cols)
      [(1, 40000); (9, 10000); (2, 50000)] scenario_row_dict
    !! "bucket_002_20250508_20250608"%string
    = Some (quantize_half_up SPREAD_UNIT
              (source_total scenario_cols scenario_row_dict
               * split_percent 2 [(1, 40000); (9, 10000); (2, 50000)])).
Proof.
  apply (respread_by_row_total scenario_cols [1; 2] _ scenario_row_dict 1).
  - apply (bool_decide_unpack _). vm_compute. exact I.
  - repeat constructor.
  - apply (bool_decide_unpack _). vm_compute. exact I.
  - reflexivity.
  - reflexivity.
Defined.

(** The row of the scenario holds 1000.00 in the first bucket only; half
    of it is written to the second bucket. *)
Example respread_scenario_second_bucket :
  respread scenario_cols (zip [1; 2] scenario_cols)
    [(1, 40000); (9, 10000); (2, 50000)] scenario_row_dict
  !! "bucket_002_20250508_20250608"%string
  = Some 50000.
Proof. vm_compute. reflexivity. Qed.

End RespreaderLaws.
